(** * eGFR microsimulation: a shallow embedding of the trajectory engine

    The development follows the Python package [egfr_microsim.model]:

    - [egfr_formulas.py]: CKD-EPI conversions and stage / range classification;
    - [egfr_model.py]: the decline integrator, cutoff detection, the
      event merger and the death phase;
    - [interventions.py]: the conditional intervention probability and
      the intervention sampler;
    - [helpers/survival_helpers.py]: survival functions and death-age sampling;
    - [helpers/comorb_helpers.py]: comorbidity CDFs and lifetime risk.

    Numbers.  Python floats are read as exact numbers: rationals ([Q]) for
    the table code, whose only non-rational operation is [np.exp] (taken as a
    function parameter), and reals ([R]) for the CKD-EPI power laws.  A
    pandas frame is the list of its rows, in frame order. *)

From Stdlib Require Import ZArith QArith Qround Qabs Lia Bool List Sorted.
From Stdlib Require Import Reals Psatz.
Import ListNotations.

(* ================================================================== *)
(** * Part I: definitions *)
(* ================================================================== *)

(** ** Numeric conventions *)

Local Open Scope Q_scope.

Definition Qlt_bool (x y : Q) : bool := negb (Qle_bool y x).

(** [np.rint]: round to the nearest integer, ties to the even one. *)
Definition rint (x : Q) : Z :=
  let f := Qfloor x in
  match Qcompare (x - inject_Z f) (1 # 2) with
  | Lt => f
  | Gt => (f + 1)%Z
  | Eq => if Z.even f then f else (f + 1)%Z
  end.

(** [x.round(2)] on a float column. *)
Definition round2 (x : Q) : Q := inject_Z (rint (x * 100)) / 100.

(** [np.select(conditions, choices, default=None)]: the choice of the first
    condition that holds. *)
Fixpoint np_select {A : Type} (conditions : list bool) (choices : list A)
  : option A :=
  match conditions, choices with
  | c :: cs, x :: xs => if c then Some x else np_select cs xs
  | _, _ => None
  end.

(** ** egfr_formulas.py: stages and ranges *)

Inductive ckd_stage := G1 | G2 | G3a | G3b | G4 | G5.

Definition egfr_to_stages (egfr : Q) : option ckd_stage :=
  np_select
    [ Qlt_bool 90 egfr;
      Qlt_bool 60 egfr && Qle_bool egfr 90;
      Qlt_bool 45 egfr && Qle_bool egfr 60;
      Qlt_bool 30 egfr && Qle_bool egfr 45;
      Qlt_bool 15 egfr && Qle_bool egfr 30;
      Qlt_bool 0 egfr && Qle_bool egfr 15 ]
    [ G1; G2; G3a; G3b; G4; G5 ].

Definition egfr_to_ranges (egfr : Q) : option Z :=
  np_select
    [ Qlt_bool 105 egfr;
      Qlt_bool 90 egfr && Qle_bool egfr 105;
      Qlt_bool 75 egfr && Qle_bool egfr 90;
      Qlt_bool 60 egfr && Qle_bool egfr 75;
      Qlt_bool 45 egfr && Qle_bool egfr 60;
      Qlt_bool 30 egfr && Qle_bool egfr 45;
      Qlt_bool 15 egfr && Qle_bool egfr 30;
      Qlt_bool 0 egfr && Qle_bool egfr 15;
      Qle_bool egfr 0 ]
    [ 1; 2; 3; 4; 5; 6; 7; 8; 8 ]%Z.

(** The intervals of the docstring of [egfr_to_stages]. *)
Definition stage_interval (s : ckd_stage) (egfr : Q) : Prop :=
  match s with
  | G1 => 90 < egfr
  | G2 => 60 < egfr /\ egfr <= 90
  | G3a => 45 < egfr /\ egfr <= 60
  | G3b => 30 < egfr /\ egfr <= 45
  | G4 => 15 < egfr /\ egfr <= 30
  | G5 => 0 < egfr /\ egfr <= 15
  end.

(** The intervals of the docstring of [egfr_to_ranges]; bucket 8 is
    documented as [eGFR <= 15]. *)
Definition range_interval (k : Z) (egfr : Q) : Prop :=
  (k = 1%Z /\ 105 < egfr) \/
  (k = 2%Z /\ 90 < egfr /\ egfr <= 105) \/
  (k = 3%Z /\ 75 < egfr /\ egfr <= 90) \/
  (k = 4%Z /\ 60 < egfr /\ egfr <= 75) \/
  (k = 5%Z /\ 45 < egfr /\ egfr <= 60) \/
  (k = 6%Z /\ 30 < egfr /\ egfr <= 45) \/
  (k = 7%Z /\ 15 < egfr /\ egfr <= 30) \/
  (k = 8%Z /\ egfr <= 15).

(** ** egfr_formulas.py: CKD-EPI equations *)

Inductive sex_t := F | M.
Inductive race_t := B | NB.
Inductive formula := F09 | F21.

Section CKD_EPI.
Local Open Scope R_scope.

Record ckd_epi_params := {
  kappa : sex_t -> R;
  alpha : sex_t -> R;
  sex_adj : sex_t -> R;
  race_adj : race_t -> R;
  max_exp : R;
  age_base : R;
  beta : R
}.

Definition CKD_EPI_params (f : formula) : ckd_epi_params :=
  match f with
  | F21 =>
      {| kappa := fun s => match s with F => 0.7 | M => 0.9 end;
         alpha := fun s => match s with F => -0.241 | M => -0.302 end;
         sex_adj := fun s => match s with F => 1.012 | M => 1 end;
         race_adj := fun r => match r with B => 1 | NB => 1 end;
         max_exp := -1.2;
         age_base := 0.9938;
         beta := 142 |}
  | F09 =>
      {| kappa := fun s => match s with F => 0.7 | M => 0.9 end;
         alpha := fun s => match s with F => -0.329 | M => -0.411 end;
         sex_adj := fun s => match s with F => 1.018 | M => 1 end;
         race_adj := fun r => match r with B => 1.159 | NB => 1 end;
         max_exp := -1.209;
         age_base := 0.993;
         beta := 141 |}
  end.

(** Python's [pow] on floats, for a positive base (every call below that
    the translation functions reach has one). *)
Definition pow (x y : R) : R := Rpower x y.

Definition CKD_EPI (scr : R) (s : sex_t) (age : R) (r : race_t) (f : formula) : R :=
  let params := CKD_EPI_params f in
  beta params
  * pow (Rmin (scr / kappa params s) 1) (alpha params s)
  * pow (Rmax (scr / kappa params s) 1) (max_exp params)
  * pow (age_base params) age
  * sex_adj params s
  * race_adj params r.

Definition creat_from_eGFR (egfr : R) (s : sex_t) (age : R) (r : race_t)
    (f : formula) : R :=
  let params := CKD_EPI_params f in
  let a :=
    egfr / (beta params * pow (age_base params) age
            * sex_adj params s * race_adj params r) in
  if Req_dec_T a 0 then 0
  else if Rle_lt_dec 1 a
       then pow a (1 / alpha params s) * kappa params s
       else pow a (1 / max_exp params) * kappa params s.

(** The factor of [CKD_EPI] that does not depend on creatinine (the
    denominator of [a] in [creat_from_eGFR]); used to state the proofs. *)
Definition CKD_EPI_scale (s : sex_t) (age : R) (r : race_t) (f : formula) : R :=
  let params := CKD_EPI_params f in
  beta params * pow (age_base params) age * sex_adj params s
  * race_adj params r.

(** The result is [None] where the Python function returns [None]. *)
Definition eGFR_2021_to_2009 (egfr_2021 : R) (s : sex_t) (age : R) (r : race_t)
  : option R :=
  if Req_dec_T egfr_2021 0 then Some 0
  else if Rlt_dec egfr_2021 0 then None
  else
    let SeCr := creat_from_eGFR egfr_2021 s age r F21 in
    if Req_dec_T SeCr 0 then Some 0
    else Some (CKD_EPI SeCr s age r F09).

Definition eGFR_2009_to_2021 (egfr_2009 : R) (s : sex_t) (age : R) (r : race_t)
  : option R :=
  if Req_dec_T egfr_2009 0 then Some 0
  else if Rlt_dec egfr_2009 0 then None
  else
    let SeCr := creat_from_eGFR egfr_2009 s age r F09 in
    if Req_dec_T SeCr 0 then Some 0
    else Some (CKD_EPI SeCr s age r F21).

End CKD_EPI.

(** ** egfr_model.py: trajectory frames *)

(** One row of a trajectory frame, after [reset_index]: the index levels
    [pid] and [age] and the columns of [dtype_dict].  [stage_diag] holds a
    stage label, or [None] for the placeholder 0. *)
Record row := mkRow {
  pid : Z;
  age : Q;
  egfr : Q;
  slope : Q;
  ht : Z;
  dm : Z;
  death : Z;
  g3 : Z;
  diag : Z;
  nephr : Z;
  sex : sex_t;
  race : race_t;
  stage_diag : option ckd_stage
}.

Definition frame := list row.

Definition with_egfr (r : row) (e : Q) : row :=
  mkRow (pid r) (age r) e (slope r) (ht r) (dm r) (death r) (g3 r) (diag r)
        (nephr r) (sex r) (race r) (stage_diag r).

Definition with_age (r : row) (a : Q) : row :=
  mkRow (pid r) a (egfr r) (slope r) (ht r) (dm r) (death r) (g3 r) (diag r)
        (nephr r) (sex r) (race r) (stage_diag r).

Definition with_slope (r : row) (s : Q) : row :=
  mkRow (pid r) (age r) (egfr r) s (ht r) (dm r) (death r) (g3 r) (diag r)
        (nephr r) (sex r) (race r) (stage_diag r).

Definition has_pid (p : Z) (r : row) : bool := (pid r =? p)%Z.

(** [fillna(0)] on a float column. *)
Definition fillna0 (x : option Q) : Q :=
  match x with Some v => v | None => 0 end.

(** *** get_init_egfr

    [x.groupby(level="pid")["egfr"].first()], aligned back on the rows: the
    eGFR of the first row of the individual. *)
Definition init_egfr (df : frame) (p : Z) : option Q :=
  option_map egfr (find (has_pid p) df).

(** *** get_decline

    Each assigned column is given at a row position [i] of the frame. *)

(** [dt = x.groupby(level="pid")["age"].diff().shift(-1)].  The group-wise
    [diff] of row [i+1] is its age minus the age of the previous row of the
    same individual (searched backwards from row [i]), missing when there is
    none; [shift(-1)] moves it to row [i], whatever the individual of
    row [i]. *)
Definition dt (df : frame) (i : nat) : option Q :=
  match nth_error df (S i) with
  | Some r' =>
      option_map (fun r0 => age r' - age r0)
                 (find (has_pid (pid r')) (rev (firstn (S i) df)))
  | None => None
  end.

(** [degfr = (x.dt * x.slope).round(2)]. *)
Definition degfr (df : frame) (i : nat) : option Q :=
  match dt df i, nth_error df i with
  | Some d, Some r => Some (round2 (d * slope r))
  | _, _ => None
  end.

(** The running sum of [col] over the rows of individual [p] at the
    positions below [n]; missing values are skipped. *)
Fixpoint group_sum (df : frame) (col : nat -> option Q) (p : Z) (n : nat) : Q :=
  match n with
  | O => 0
  | S k =>
      group_sum df col p k
      + match nth_error df k with
        | Some r => if has_pid p r then fillna0 (col k) else 0
        | None => 0
        end
  end.

(** [x.groupby(level="pid")["degfr"].cumsum()] at row [j]: missing where
    [degfr] is missing, else the sum over the individual's rows up to [j]. *)
Definition degfr_groupby_cumsum (df : frame) (j : nat) : option Q :=
  match degfr df j, nth_error df j with
  | Some _, Some r => Some (group_sum df (degfr df) (pid r) (S j))
  | _, _ => None
  end.

(** [degfr_cum = ... .cumsum().shift(1).fillna(0)]. *)
Definition degfr_cum (df : frame) (i : nat) : Q :=
  match i with
  | O => 0
  | S j => fillna0 (degfr_groupby_cumsum df j)
  end.

(** [egfr = x.init_egfr - x.degfr_cum], the other columns unchanged. *)
Definition get_decline_row (df : frame) (i : nat) (r : row) : row :=
  with_egfr r (fillna0 (init_egfr df (pid r)) - degfr_cum df i).

Fixpoint map_index {A B : Type} (f : nat -> A -> B) (i : nat) (l : list A)
  : list B :=
  match l with
  | [] => []
  | x :: t => f i x :: map_index f (S i) t
  end.

Definition get_decline (df : frame) : frame :=
  map_index (get_decline_row df) 0 df.

(** The decline accumulated along one trajectory [traj] before its row [n]:
    the sum of the rounded (age gap x slope) products of the intervals
    before that row. *)
Fixpoint cum_decline (traj : list row) (n : nat) : Q :=
  match n with
  | O => 0
  | S m =>
      cum_decline traj m
      + match nth_error traj m, nth_error traj (S m) with
        | Some r, Some r' => round2 ((age r' - age r) * slope r)
        | _, _ => 0
        end
  end.

(** *** Example data

    The cohort of the spec's scenario: three individuals entering at ages
    50, 60 and 70 with eGFR 80, 70 and 55, no comorbidity, declining by 1.0
    per year, each with the placeholder death row at age 101. *)
Definition example_row (p : Z) (a e s : Q) (d : Z) : row :=
  mkRow p a e s 0 0 d 0 0 0 F NB None.

Definition example_cohort : frame :=
  [ example_row 1 50 80 1 0; example_row 1 101 80 1 1;
    example_row 2 60 70 1 0; example_row 2 101 70 1 1;
    example_row 3 70 55 1 0; example_row 3 101 55 1 1 ].

(** *** Grouping by individual *)

(** The group keys of [groupby("pid")]: the pids of the frame, ascending,
    each once. *)
Fixpoint insert_pid (p : Z) (l : list Z) : list Z :=
  match l with
  | [] => [p]
  | q :: t =>
      if (p <? q)%Z then p :: l
      else if (p =? q)%Z then l
      else q :: insert_pid p t
  end.

Definition groupby_keys (df : frame) : list Z :=
  fold_right insert_pid [] (map pid df).

Definition last_error {A : Type} (l : list A) : option A := hd_error (rev l).

(** [df.groupby("pid").last()]: for each pid, ascending, the last of its
    rows in frame order (rows carry no missing value). *)
Definition groupby_last (df : frame) : frame :=
  flat_map (fun p => match last_error (filter (has_pid p) df) with
                     | Some r => [r]
                     | None => []
                     end)
           (groupby_keys df).

(** Equality of the index entries [(pid, age)]. *)
Definition same_key (r1 r2 : row) : bool :=
  (pid r1 =? pid r2)%Z && Qeq_bool (age r1) (age r2).

(** *** entries_at_cutoffs *)

Definition entries_at_cutoffs (df : frame) (cutoffs : list Q) : frame :=
  filter (fun r => existsb (Qeq_bool (round2 (egfr r))) cutoffs) df.

(** *** identify_age_at_cutoff *)

(** [(x.age + (x.egfr - cutoff) / (x.slope)).round(2)].  It is applied to
    rows with [egfr > cutoff]: with a slope of 0 the float quotient is
    [inf], here [None], which fails the later test [age <= 101]. *)
Definition age_at_cutoff (r : row) (cutoff : Q) : option Q :=
  if Qeq_bool (slope r) 0 then None
  else Some (round2 (age r + (egfr r - cutoff) / slope r)).

Definition identify_age_at_cutoff (df : frame) (cutoff : Q) : frame :=
  let ignore_indices := map pid (entries_at_cutoffs df [cutoff]) in
  let ret_df :=
    flat_map
      (fun r =>
         match age_at_cutoff r cutoff with
         | Some a =>
             if Qle_bool a 101 then [with_age (with_egfr r cutoff) a] else []
         | None => []
         end)
      (filter (fun r => negb (death r =? 1)%Z)
         (groupby_last
            (filter (fun r => Qlt_bool cutoff (egfr r)
                              && negb (existsb (Z.eqb (pid r)) ignore_indices))
               df))) in
  (* ret_df.loc[overlap] = df.loc[overlap].assign(egfr=cutoff) *)
  map (fun o => match find (fun r => same_key r o) df with
                | Some r => with_egfr r cutoff
                | None => o
                end)
      ret_df.

(** [identify_age_at_cutoff_many], with [pd.concat]. *)
Definition identify_age_at_cutoff_many (df : frame) (cutoff_list : list Q)
  : frame :=
  flat_map (identify_age_at_cutoff df) cutoff_list.

(** The last row of individual [p], in frame order, whose eGFR is above the
    cutoff. *)
Definition last_above (df : frame) (cutoff : Q) (p : Z) : option row :=
  last_error (filter (fun r => has_pid p r && Qlt_bool cutoff (egfr r)) df).

(** Individual [p] has a row whose eGFR, rounded to 2 decimals, is the
    cutoff. *)
Definition at_cutoff_already (df : frame) (cutoff : Q) (p : Z) : bool :=
  existsb (fun r => has_pid p r && Qeq_bool (round2 (egfr r)) cutoff) df.

(** *** Indicator columns *)

Inductive indicator_name := Ht | Dm | Death | G3 | Diag | Nephr.

Definition indicator (c : indicator_name) (r : row) : Z :=
  match c with
  | Ht => ht r | Dm => dm r | Death => death r
  | G3 => g3 r | Diag => diag r | Nephr => nephr r
  end.

Definition with_indicator (c : indicator_name) (r : row) (v : Z) : row :=
  match c with
  | Ht => mkRow (pid r) (age r) (egfr r) (slope r) v (dm r) (death r) (g3 r)
            (diag r) (nephr r) (sex r) (race r) (stage_diag r)
  | Dm => mkRow (pid r) (age r) (egfr r) (slope r) (ht r) v (death r) (g3 r)
            (diag r) (nephr r) (sex r) (race r) (stage_diag r)
  | Death => mkRow (pid r) (age r) (egfr r) (slope r) (ht r) (dm r) v (g3 r)
            (diag r) (nephr r) (sex r) (race r) (stage_diag r)
  | G3 => mkRow (pid r) (age r) (egfr r) (slope r) (ht r) (dm r) (death r) v
            (diag r) (nephr r) (sex r) (race r) (stage_diag r)
  | Diag => mkRow (pid r) (age r) (egfr r) (slope r) (ht r) (dm r) (death r)
            (g3 r) v (nephr r) (sex r) (race r) (stage_diag r)
  | Nephr => mkRow (pid r) (age r) (egfr r) (slope r) (ht r) (dm r) (death r)
            (g3 r) (diag r) v (sex r) (race r) (stage_diag r)
  end.

(** ** Errors and randomness *)

(** The exceptions the modelled code can raise. *)
Inductive error :=
  AssertionError | ValueError | ZeroDivisionError | KeyError | IndexError.

Inductive result (A : Type) : Type :=
| Ok (a : A)
| Err (e : error).
Arguments Ok {A} a.
Arguments Err {A} e.

Definition bind {A B : Type} (c : result A) (k : A -> result B) : result B :=
  match c with
  | Ok a => k a
  | Err e => Err e
  end.

Notation "x <- c ;; k" := (bind c (fun x => k))
  (at level 61, c at next level, right associativity).

(** ** interventions.py *)

Inductive intervention := ev_diag | ev_nephr.

Definition event_column (ev : intervention) : indicator_name :=
  match ev with ev_diag => Diag | ev_nephr => Nephr end.

(** [params["model"]["interv_params"]]: per intervention, the target
    frequency by stage ([freq]) and the slope reduction ([eff]). *)
Record interv_params := {
  freq : intervention -> ckd_stage -> Q;
  eff : intervention -> Q
}.

(** A quotient of two Python floats; a zero divisor raises. *)
Definition float_div (x y : Q) : result Q :=
  if Qeq_bool y 0 then Err ZeroDivisionError else Ok (x / y).

Definition frac_already_intervened (df : frame) (ev : intervention)
  : result Q :=
  float_div
    (inject_Z (Z.of_nat
       (length (filter (fun r => (indicator (event_column ev) r =? 1)%Z) df))))
    (inject_Z (Z.of_nat (length df))).

(** [interv_params[event_name]["freq"][stage_diag]]; the placeholder 0 is
    no key of the table. *)
Definition intervention_prob (stage : option ckd_stage) (params : interv_params)
    (ev : intervention) : result Q :=
  match stage with
  | Some s => Ok (freq params ev s)
  | None => Err KeyError
  end.

Definition conditional_prob (interv_prob frac_intervened : Q) : result Q :=
  float_div (interv_prob - frac_intervened) (1 - frac_intervened).

Definition get_slope_reduction (slope : Q) (interv_nephr interv_diag : Z)
    (params : interv_params) : Q :=
  if (interv_nephr =? 1)%Z then
    slope * (1 - (if Qlt_bool (eff params ev_nephr) (eff params ev_diag)
                  then eff params ev_diag else eff params ev_nephr))
  else if (interv_diag =? 1)%Z then slope * (1 - eff params ev_diag)
  else slope.

Definition stage_diag_eqb (a b : option ckd_stage) : bool :=
  match a, b with
  | None, None => true
  | Some G1, Some G1 | Some G2, Some G2 | Some G3a, Some G3a
  | Some G3b, Some G3b | Some G4, Some G4 | Some G5, Some G5 => true
  | _, _ => false
  end.

(** [df.stage_diag.unique()]: the distinct values, by first appearance. *)
Fixpoint unique (l : list (option ckd_stage)) : list (option ckd_stage) :=
  match l with
  | [] => []
  | x :: t => x :: filter (fun y => negb (stage_diag_eqb x y)) (unique t)
  end.

Section Sampling.

(** The state of numpy's global generator, with one uniform draw on
    [[0, 1)] and one Bernoulli draw for a probability in [[0, 1]]. *)
Variable rng : Type.
Variable random_uniform : rng -> Q * rng.
Variable random_bernoulli : Q -> rng -> Z * rng.

(** [np.random.binomial(1, p)]: numpy rejects a probability outside
    [[0, 1]] with a [ValueError]. *)
Definition np_random_binomial (p : Q) (g : rng) : result (Z * rng) :=
  if Qlt_bool p 0 || Qlt_bool 1 p then Err ValueError
  else Ok (random_bernoulli p g).

(** [[np.random.binomial(1, prob) for i in range(n)]]. *)
Fixpoint binomial_draws (n : nat) (p : Q) (g : rng) : result (list Z * rng) :=
  match n with
  | O => Ok ([], g)
  | S k =>
      d <- np_random_binomial p g ;;
      ds <- binomial_draws k p (snd d) ;;
      Ok (fst d :: fst ds, snd ds)
  end.

(** [np.random.uniform(low=0, high=1, size=n)]. *)
Fixpoint uniform_draws (n : nat) (g : rng) : list Q * rng :=
  match n with
  | O => ([], g)
  | S k =>
      let d := random_uniform g in
      let ds := uniform_draws k (snd d) in
      (fst d :: fst ds, snd ds)
  end.

(** [df.assign] of the column named by [event_name] to [samples]; the
    lengths must agree. *)
Fixpoint assign_indicator (c : indicator_name) (df : frame) (samples : list Z)
  : result frame :=
  match df, samples with
  | [], [] => Ok []
  | r :: t, v :: vs =>
      rest <- assign_indicator c t vs ;;
      Ok (with_indicator c r v :: rest)
  | _, _ => Err ValueError
  end.

Definition sample_interventions (df : frame) (ev : intervention)
    (params : interv_params) (common_rn : option (list Q)) (g : rng)
  : result (frame * rng) :=
  match unique (map stage_diag df) with
  | [stage] =>
      frac_intervened <- frac_already_intervened df ev ;;
      interv_prob <- intervention_prob stage params ev ;;
      prob <- conditional_prob interv_prob frac_intervened ;;
      prob <- match ev with
              | ev_nephr =>
                  frac_diag <- frac_already_intervened df ev_diag ;;
                  float_div prob frac_diag
              | ev_diag => Ok prob
              end ;;
      samples <- match common_rn with
                 | Some rn =>
                     Ok (map (fun u => if Qle_bool u prob then 1%Z else 0%Z) rn,
                         g)
                 | None => binomial_draws (length df) prob g
                 end ;;
      final_df <- assign_indicator (event_column ev) df (fst samples) ;;
      Ok (match ev with
          | ev_nephr =>
              map (fun r => with_indicator Nephr r (nephr r * diag r)%Z)
                  final_df
          | ev_diag => final_df
          end,
          snd samples)
  | _ => Err AssertionError
  end.

End Sampling.

(** Five individuals reaching eGFR 60 (stage label G3a), three of them
    already diagnosed, with a target diagnosis frequency of 0.5. *)
Definition example_at_cutoff_row (p : Z) (a : Q) (dg : Z) : row :=
  mkRow p a 60 1 0 0 0 1 dg 0 F NB (Some G3a).

Definition example_at_cutoff : frame :=
  [ example_at_cutoff_row 1 70 1; example_at_cutoff_row 2 71 1;
    example_at_cutoff_row 3 72 1; example_at_cutoff_row 4 73 0;
    example_at_cutoff_row 5 74 0 ].

Definition example_interv_params : interv_params :=
  {| freq := fun _ _ => 0.5; eff := fun _ => 0.1 |}.

(** ** helpers/survival_helpers.py *)

(** One individual's row of a table whose columns are ages: the pairs
    (column label, value) in column order.  [ocurve] holds the values after
    a float division: [None] is a non-finite float ([inf] or [nan]). *)
Definition curve := list (Z * Q).
Definition ocurve := list (Z * option Q).

(** [df.loc[:, k] = v]: overwrite the column labelled [k], or append it
    when the table has no such column. *)
Definition set_col {V : Type} (k : Z) (v : V) (c : list (Z * V))
  : list (Z * V) :=
  if existsb (fun x => (fst x =? k)%Z) c
  then map (fun x => if (fst x =? k)%Z then (fst x, v) else x) c
  else c ++ [(k, v)].

(** [df.loc[:, k]], a [KeyError] (here [None]) without such a column. *)
Definition get_col {V : Type} (k : Z) (c : list (Z * V)) : option V :=
  option_map snd (find (fun x => (fst x =? k)%Z) c).

(** [df.loc[:, k:]] on ascending column labels: the columns from the first
    label that is at least [k]. *)
Fixpoint loc_from {V : Type} (k : Z) (c : list (Z * V)) : list (Z * V) :=
  match c with
  | [] => []
  | x :: t => if (fst x <? k)%Z then loc_from k t else c
  end.

Fixpoint cumsum_from (acc : Q) (c : curve) : curve :=
  match c with
  | [] => []
  | x :: t => (fst x, acc + snd x) :: cumsum_from (acc + snd x) t
  end.

(** [np.cumsum(hazards, axis=1)] on one row. *)
Definition np_cumsum (c : curve) : curve := cumsum_from 0 c.

(** A float quotient inside pandas: no exception, a zero divisor gives a
    non-finite value. *)
Definition np_div (x y : Q) : option Q :=
  if Qeq_bool y 0 then None else Some (x / y).

(** [1 - x] on a column that may hold non-finite values. *)
Definition one_minus (x : option Q) : option Q :=
  option_map (fun v => 1 - v) x.

(** [cdf >= u] for one cell.  The divided values are survival values, which
    are not negative: a non-finite one is [inf] or [nan], its complement
    [-inf] or [nan], and the comparison is false. *)
Definition ge_sample (v : option Q) (u : Q) : bool :=
  match v with
  | Some x => Qle_bool u x
  | None => false
  end.

(** [argmax] of a boolean row: the position of the first [true], and 0
    when there is none. *)
Fixpoint first_true (l : list bool) : option nat :=
  match l with
  | [] => None
  | b :: t => if b then Some O else option_map S (first_true t)
  end.

Definition argmax (l : list bool) : nat :=
  match first_true l with Some i => i | None => O end.

Inductive distr_type := distr_cdf | distr_surv | distr_pdf.

Fixpoint mapM {A B : Type} (f : A -> result B) (l : list A) : result (list B) :=
  match l with
  | [] => Ok []
  | x :: t => y <- f x ;; ys <- mapM f t ;; Ok (y :: ys)
  end.

(** Element-wise combination of two arrays; numpy refuses different
    lengths (the broadcast of a one-element array is not modelled). *)
Fixpoint zipM {A B C : Type} (f : A -> B -> result C) (l1 : list A)
    (l2 : list B) : result (list C) :=
  match l1, l2 with
  | [], [] => Ok []
  | x :: t1, y :: t2 => z <- f x y ;; zs <- zipM f t1 t2 ;; Ok (z :: zs)
  | _, _ => Err ValueError
  end.

(** The running sum of a row with missing cells ([skipna]). *)
Fixpoint ocumsum_from (acc : Q) (c : ocurve) : ocurve :=
  match c with
  | [] => []
  | x :: t =>
      match snd x with
      | Some v => (fst x, Some (acc + v)) :: ocumsum_from (acc + v) t
      | None => (fst x, None) :: ocumsum_from acc t
      end
  end.

Section Survival.

(** [np.exp] on floats. *)
Variable np_exp : Q -> Q.

Variable rng : Type.
Variable random_uniform : rng -> Q * rng.

Definition survival_from_hazards (hazards : curve) : curve :=
  let cum_hazard := np_cumsum hazards in
  let surv := map (fun x => (fst x, np_exp (- snd x))) cum_hazard in
  set_col 0 1 surv.

(** [conditional_on_survival(age_surv, distr, distr_type, axis=1)] on one
    row.  The second assertion, [age_surv > 0 & age_surv < 100], parses as
    [age_surv > (0 & age_surv) < 100], that is [age_surv > 0]. *)
Definition conditional_on_survival (age_surv : Z) (distr : curve)
    (ty : distr_type) : result ocurve :=
  if negb (0 <? age_surv)%Z then Err AssertionError
  else
    match ty with
    | distr_pdf => Err AssertionError
    | _ =>
        let surv :=
          match ty with
          | distr_cdf => map (fun x => (fst x, 1 - snd x)) distr
          | _ => distr
          end in
        match get_col (age_surv - 1) surv with
        | None => Err KeyError
        | Some surv_till_age =>
            let surv_t :=
              set_col 100 (Some 0)
                (map (fun x => (fst x, np_div (snd x) surv_till_age))
                     (loc_from age_surv surv)) in
            Ok (match ty with
                | distr_cdf => map (fun x => (fst x, one_minus (snd x))) surv_t
                | _ => surv_t
                end)
        end
    end.

(** One row of [sample_cat_vectorized]: the label of the first column
    whose CDF reaches the draw. *)
Definition sample_cat (distr : distr_type) (row_ : ocurve) (u : Q)
  : result Z :=
  match distr with
  | distr_surv => Err AssertionError
  | _ =>
      let cdf := match distr with
                 | distr_pdf => ocumsum_from 0 row_
                 | _ => row_
                 end in
      let surv_age := argmax (map (fun x => ge_sample (snd x) u) cdf) in
      match nth_error (map fst cdf) surv_age with
      | Some a => Ok a
      | None => Err ValueError
      end
  end.

Definition sample_cat_vectorized (df : list ocurve)
    (surv_sample : option (list Q)) (distr : distr_type) (g : rng)
  : result (list Z * rng) :=
  let s := match surv_sample with
           | Some l => (l, g)
           | None => uniform_draws rng random_uniform (length df) g
           end in
  death_ages <- zipM (sample_cat distr) df (fst s) ;;
  Ok (death_ages, snd s).

(** [get_death_ages]; [init_age] is [params["cohort"]["init_age"]]. *)
Definition get_death_ages (final_hazards : list curve) (init_age : Z)
    (sample_year sample_cont : option (list Q)) (g : rng)
  : result (list Q * rng) :=
  let c := match sample_cont with
           | Some l => (l, g)
           | None => uniform_draws rng random_uniform (length final_hazards) g
           end in
  let surv_final := map survival_from_hazards final_hazards in
  surv_updated <-
    mapM (fun s => conditional_on_survival init_age s distr_surv) surv_final ;;
  let cdf_updated :=
    map (map (fun x => (fst x, one_minus (snd x)))) surv_updated in
  sampled <- sample_cat_vectorized cdf_updated sample_year distr_cdf (snd c) ;;
  death_ages <-
    zipM (fun a o => Ok (inject_Z a + o)) (fst sampled) (fst c) ;;
  Ok (death_ages, snd sampled).

End Survival.

(** ** egfr_model.py: the death phase *)

(** A row of [df_with_death]: the index [(pid, age)], the column [death],
    the column [egfr], and the remaining columns, which are those of a row
    of the events frame or are all missing (the rows that come from
    [df_death]). *)
Record drow := mkDrow {
  d_pid : Z;
  d_age : Q;
  d_death : Z;
  d_egfr : option Q;
  d_cols : option row
}.

Definition drow_of_row (r : row) : drow :=
  mkDrow (pid r) (age r) (death r) (Some (egfr r)) (Some r).

(** The order of the index entries [(pid, age)]. *)
Definition key_leb (r1 r2 : drow) : bool :=
  (d_pid r1 <? d_pid r2)%Z
  || ((d_pid r1 =? d_pid r2)%Z && Qle_bool (d_age r1) (d_age r2)).

Fixpoint insert_sorted {A : Type} (leb : A -> A -> bool) (x : A) (l : list A)
  : list A :=
  match l with
  | [] => [x]
  | y :: t => if leb x y then x :: l else y :: insert_sorted leb x t
  end.

(** [sort_index()]: rows in ascending index order, rows of equal index in
    their previous order. *)
Definition sort_index (df : list drow) : list drow :=
  fold_right (insert_sorted key_leb) [] df.

(** [df_events.merge(df_death.filter(["pid", "death_age"]), on="pid")]:
    each events row, in order, with the death age of each entry of its
    pid. *)
Definition merge_on_pid (df_events : frame) (df_death : list (Z * Q))
  : list (row * Q) :=
  flat_map
    (fun r => map (fun d => (r, snd d))
                  (filter (fun d => (fst d =? pid r)%Z) df_death))
    df_events.

(** [df_death] lists [(pid, death_age)], each with [death = 1]. *)
Definition combine_with_death (df_events : frame) (df_death : list (Z * Q))
  : list drow :=
  let df_pre_death :=
    sort_index
      (map (fun x => drow_of_row (fst x))
           (filter (fun x => Qlt_bool (age (fst x)) (snd x))
                   (merge_on_pid df_events df_death))) in
  sort_index
    (df_pre_death
     ++ map (fun d => mkDrow (fst d) (snd d) 1 None None) df_death).

(** [df_events.pid.drop_duplicates()]: first occurrences, in order. *)
Fixpoint drop_duplicates (l : list Z) : list Z :=
  match l with
  | [] => []
  | x :: t => x :: filter (fun y => negb (y =? x)%Z) (drop_duplicates t)
  end.

(** [groupby(level=["pid"]).nth([-1, -2])]: the rows followed by fewer
    than two rows of their individual, in frame order. *)
Fixpoint nth_last_two (df : list drow) : list drow :=
  match df with
  | [] => []
  | r :: t =>
      if (length (filter (fun x => (d_pid x =? d_pid r)%Z) t) <? 2)%nat
      then r :: nth_last_two t
      else nth_last_two t
  end.

(** *** get_decline on a frame with missing cells *)

Definition d_slope (r : drow) : option Q := option_map slope (d_cols r).

Definition is_some {A : Type} (x : option A) : bool :=
  match x with Some _ => true | None => false end.

(** [groupby(level="pid")["egfr"].first()]: the first egfr of the
    individual that is not missing. *)
Definition first_egfr (df : list drow) (p : Z) : option Q :=
  match find (fun r => (d_pid r =? p)%Z && is_some (d_egfr r)) df with
  | Some r => d_egfr r
  | None => None
  end.

(** [.ffill()] of that series, over the pids in ascending order. *)
Fixpoint ffill_first (df : list drow) (prev : option Q) (keys : list Z)
  : list (Z * option Q) :=
  match keys with
  | [] => []
  | k :: t =>
      let v := match first_egfr df k with
               | Some e => Some e
               | None => prev
               end in
      (k, v) :: ffill_first df v t
  end.

Definition init_egfr_na (df : list drow) (p : Z) : option Q :=
  match
    find (fun kv => (fst kv =? p)%Z)
         (ffill_first df None (fold_right insert_pid [] (map d_pid df)))
  with
  | Some kv => snd kv
  | None => None
  end.

Definition dt_na (df : list drow) (i : nat) : option Q :=
  match nth_error df (S i) with
  | Some r' =>
      option_map (fun r0 => d_age r' - d_age r0)
                 (find (fun x => (d_pid x =? d_pid r')%Z)
                       (rev (firstn (S i) df)))
  | None => None
  end.

Definition degfr_na (df : list drow) (i : nat) : option Q :=
  match dt_na df i, nth_error df i with
  | Some d, Some r => option_map (fun s => round2 (d * s)) (d_slope r)
  | _, _ => None
  end.

Fixpoint group_sum_na (df : list drow) (col : nat -> option Q) (p : Z)
    (n : nat) : Q :=
  match n with
  | O => 0
  | S k =>
      group_sum_na df col p k
      + match nth_error df k with
        | Some r => if (d_pid r =? p)%Z then fillna0 (col k) else 0
        | None => 0
        end
  end.

Definition degfr_cum_na (df : list drow) (i : nat) : Q :=
  match i with
  | O => 0
  | S j =>
      match degfr_na df j, nth_error df j with
      | Some _, Some r => group_sum_na df (degfr_na df) (d_pid r) (S j)
      | _, _ => 0
      end
  end.

Definition get_decline_na (df : list drow) : list drow :=
  map_index
    (fun i r =>
       mkDrow (d_pid r) (d_age r) (d_death r)
              (option_map (fun e => e - degfr_cum_na df i)
                          (init_egfr_na df (d_pid r)))
              (d_cols r))
    0 df.

(** *** model_part4 *)

(** [df.update(other)]: the cells of [other] that are not missing
    overwrite the cells of [df] with the same index; [other] differs from
    [df] in [egfr] only. *)
Definition update_egfr (df other : list drow) : list drow :=
  map (fun r =>
         match find (fun u => (d_pid u =? d_pid r)%Z
                              && Qeq_bool (d_age u) (d_age r)) other with
         | Some u =>
             match d_egfr u with
             | Some e => mkDrow (d_pid r) (d_age r) (d_death r) (Some e)
                                (d_cols r)
             | None => r
             end
         | None => r
         end)
      df.

(** [ffill(axis=0)]: a missing cell takes the value above it. *)
Fixpoint ffill (prev_egfr : option Q) (prev_cols : option row)
    (df : list drow) : list drow :=
  match df with
  | [] => []
  | r :: t =>
      let e := match d_egfr r with Some e => Some e | None => prev_egfr end in
      let c := match d_cols r with Some c => Some c | None => prev_cols end in
      mkDrow (d_pid r) (d_age r) (d_death r) e c :: ffill e c t
  end.

(** [astype(dtype_dict)]: an integer column cannot hold a missing value.
    (After [ffill] a row whose columns are present has its egfr too.) *)
Definition astype (r : drow) : result row :=
  match d_egfr r, d_cols r with
  | Some e, Some c =>
      Ok (mkRow (d_pid r) (d_age r) e (slope c) (ht c) (dm c) (d_death r)
                (g3 c) (diag c) (nephr c) (sex c) (race c) (stage_diag c))
  | _, _ => Err ValueError
  end.

Section Death_phase.

Variable np_exp : Q -> Q.
Variable rng : Type.
Variable random_uniform : rng -> Q * rng.

(** The frame [df_death] of [model_part4]: the pids of the events frame
    with the sampled death ages rounded to 2 decimals. *)
Definition sample_df_death (final_individual_hazards : list curve)
    (df_events : frame) (init_age : Z)
    (sample_year sample_cont : option (list Q)) (g : rng)
  : result (list (Z * Q) * rng) :=
  death_ages <-
    get_death_ages np_exp rng random_uniform final_individual_hazards
      init_age sample_year sample_cont g ;;
  let pids := drop_duplicates (map pid df_events) in
  df_death <- zipM (fun p d => Ok (p, round2 d)) pids (fst death_ages) ;;
  Ok (df_death, snd death_ages).

Definition model_part4 (final_individual_hazards : list curve)
    (df_events : frame) (init_age : Z)
    (sample_year sample_cont : option (list Q)) (g : rng)
  : result (frame * rng) :=
  df_death <-
    sample_df_death final_individual_hazards df_events init_age
      sample_year sample_cont g ;;
  let df_with_death := combine_with_death df_events (fst df_death) in
  let df_final_to_update := nth_last_two df_with_death in
  let updated_final_subset := get_decline_na df_final_to_update in
  let df_with_death := update_egfr df_with_death updated_final_subset in
  final <- mapM astype (ffill None None df_with_death) ;;
  Ok (final, snd df_death).

(** The part of [get_trajectories_two_scenarios] after phase 3: the
    common random numbers for death sampling and the two runs of phase 4.
    [n] is [params["cohort"]["n"]]; both parameter sets carry the same
    [init_age]. *)
Definition two_scenarios_part4
    (final_hazards_bl final_hazards_cf : list curve)
    (df_events_bl df_events_cf : frame) (init_age : Z) (n : nat)
    (crn_death : bool) (g : rng)
  : result ((frame * frame) * rng) :=
  let draws :=
    if crn_death then
      let sy := uniform_draws rng random_uniform n g in
      let sc := uniform_draws rng random_uniform n (snd sy) in
      (Some (fst sy), Some (fst sc), snd sc)
    else (None, None, g) in
  let sample_year := fst (fst draws) in
  let sample_cont := snd (fst draws) in
  df_with_death_bl <-
    model_part4 final_hazards_bl df_events_bl init_age sample_year
      sample_cont (snd draws) ;;
  df_with_death_cf <-
    model_part4 final_hazards_cf df_events_cf init_age sample_year
      sample_cont (snd df_with_death_bl) ;;
  Ok ((fst df_with_death_bl, fst df_with_death_cf), snd df_with_death_cf).

End Death_phase.

(** A rational stand-in for [np.exp], to run the examples; no theorem
    depends on it. *)
Definition exp_stand_in (x : Q) : Q := 1 / (1 + x * x).

(** Two hazard rows with the age columns 0, 29, 30, 60 and 100. *)
Definition example_hazards : list curve :=
  [ [(0%Z, 0.01); (29%Z, 0.02); (30%Z, 0.03); (60%Z, 0.2); (100%Z, 0.5)];
    [(0%Z, 0.01); (29%Z, 0.02); (30%Z, 0.10); (60%Z, 0.4); (100%Z, 0.9)] ].

(** One row of [get_death_ages] with supplied draws: the death age of an
    individual from its hazard row, its draw [u] and its offset [c]. *)
Definition death_age_of_row (np_exp : Q -> Q) (init_age : Z) (h : curve)
    (u c : Q) : result Q :=
  surv_updated <-
    conditional_on_survival init_age (survival_from_hazards np_exp h)
      distr_surv ;;
  a <- sample_cat distr_cdf
         (map (fun x => (fst x, one_minus (snd x))) surv_updated) u ;;
  Ok (inject_Z a + c).

(** A generator that reads its uniform draws from a list. *)
Definition stream_uniform (g : list Q) : Q * list Q :=
  match g with
  | [] => (0, [])
  | u :: t => (u, t)
  end.

(** A generator whose every draw is 0.5. *)
Definition constant_uniform (g : unit) : Q * unit := (1 # 2, g).

(** The first two individuals of the example cohort after phase 1, and a
    stream of draws. *)
Definition example_events : frame :=
  get_decline
    [ example_row 1 50 80 1 0; example_row 1 101 80 1 1;
      example_row 2 60 70 1 0; example_row 2 101 70 1 1 ].

Definition example_stream : list Q :=
  [0.3; 0.95; 0.25; 0.9; 0.01; 0.6; 0.5; 0.75].

(** The index and the death flag of a row, on both row types. *)
Definition drow_key (r : drow) : Z * Q * Z := (d_pid r, d_age r, d_death r).
Definition row_key (r : row) : Z * Q * Z := (pid r, age r, death r).

(** The final frame of phase 4 on the example events and hazards, with
    supplied draws. *)
Definition example_final : frame :=
  Eval vm_compute in
    match model_part4 exp_stand_in unit constant_uniform example_hazards
            example_events 30 (Some [0.3; 0.95]) (Some [0.25; 0.9]) tt with
    | Ok x => fst x
    | Err _ => []
    end.

(** ** helpers/comorb_helpers.py *)

(** A row of an incidence table: an age band, the annual incidence per
    1,000 and, for a table stratified by sex, the [male] flag. *)
Record incid_row := mkIncid {
  age_min : Z;
  age_max : Z;
  inc_per_1k : Q;
  male : Z
}.

(** A row of a table indexed by age (and [male]) with one value column. *)
Record age_row (V : Type) := mkAgeRow {
  a_age : Z;
  a_male : Z;
  a_value : V
}.
Arguments mkAgeRow {V} _ _ _.
Arguments a_age {V} _.
Arguments a_male {V} _.
Arguments a_value {V} _.

(** [range(el1, el1 + n)]. *)
Fixpoint zrange (start : Z) (n : nat) : list Z :=
  match n with
  | O => []
  | S k => start :: zrange (start + 1) k
  end.

(** [get_comorb_hazard]: one hazard value per integer age of each band;
    [index.repeat] refuses a negative band length. *)
Definition get_comorb_hazard (comorb_incid : list incid_row)
  : result (list (age_row Q)) :=
  rows <-
    mapM (fun x =>
            let hazard := inc_per_1k x / 1000 in
            let age_diff := (age_max x - age_min x + 1)%Z in
            if (age_diff <? 0)%Z then Err ValueError
            else Ok (map (fun a => mkAgeRow a (male x) hazard)
                         (zrange (age_min x) (Z.to_nat age_diff))))
         comorb_incid ;;
  Ok (concat rows).

(** [hazard.cumsum()], and [hazard.groupby(index_cols).cumsum()] with a
    running sum per value of [male]. *)
Fixpoint cumsum_rows (acc : Q) (l : list (age_row Q)) : list (age_row Q) :=
  match l with
  | [] => []
  | x :: t =>
      mkAgeRow (a_age x) (a_male x) (acc + a_value x)
      :: cumsum_rows (acc + a_value x) t
  end.

Fixpoint groupby_cumsum_rows (acc : Z -> Q) (l : list (age_row Q))
  : list (age_row Q) :=
  match l with
  | [] => []
  | x :: t =>
      let v := acc (a_male x) + a_value x in
      mkAgeRow (a_age x) (a_male x) v
      :: groupby_cumsum_rows
           (fun m => if (m =? a_male x)%Z then v else acc m) t
  end.

Definition Qmax_list (x : Q) (l : list Q) : Q :=
  fold_left (fun a b => if Qlt_bool a b then b else a) l x.

(** [cdf.groupby(index_cols).max()]: per value of [male], ascending. *)
Definition groupby_max (cdf : list (age_row Q)) : list (Z * Q) :=
  flat_map
    (fun m =>
       match map a_value (filter (fun x => (a_male x =? m)%Z) cdf) with
       | [] => []
       | v :: vs => [(m, Qmax_list v vs)]
       end)
    (fold_right insert_pid [] (map a_male cdf)).

(** The lifetime risk: one value, or one value per [male]. *)
Inductive lifetime_risk_t :=
| risk_overall (prob : Q)
| risk_by_male (probs : list (Z * Q)).

Section Comorbidity.

Variable np_exp : Q -> Q.
Variable rng : Type.
Variable random_uniform : rng -> Q * rng.
Variable random_bernoulli : Q -> rng -> Z * rng.

(** [get_cdfs(hazard, index_cols)], with [by_male] for
    [index_cols = ["male"]].  The last line divides without a test:
    [cdf_develops = cdf / lifetime_risk]. *)
Definition get_cdfs (hazard : list (age_row Q)) (by_male : bool)
  : result (list (age_row Q) * lifetime_risk_t * list (age_row (option Q))) :=
  let cumulative_hazard :=
    if by_male then groupby_cumsum_rows (fun _ => 0) hazard
    else cumsum_rows 0 hazard in
  let cdf :=
    map (fun x => mkAgeRow (a_age x) (a_male x) (1 - np_exp (- a_value x)))
        cumulative_hazard in
  if by_male then
    let lifetime_risk := groupby_max cdf in
    let cdf_develops :=
      map (fun x =>
             mkAgeRow (a_age x) (a_male x)
               (match find (fun kv => (fst kv =? a_male x)%Z) lifetime_risk with
                | Some kv => np_div (a_value x) (snd kv)
                | None => None
                end))
          cdf in
    Ok (cdf, risk_by_male lifetime_risk, cdf_develops)
  else
    match last_error cdf with
    | None => Err IndexError
    | Some l =>
        let lifetime_risk := a_value l in
        let cdf_develops :=
          map (fun x => mkAgeRow (a_age x) (a_male x)
                                 (np_div (a_value x) lifetime_risk))
              cdf in
        Ok (cdf, risk_overall lifetime_risk, cdf_develops)
    end.

Definition get_cdfs_from_incid (comorb_incid : list incid_row)
    (by_male : bool)
  : result (list (age_row Q) * lifetime_risk_t * list (age_row (option Q))) :=
  hazard <- get_comorb_hazard comorb_incid ;;
  get_cdfs hazard by_male.

(** [x.male.map({0: "F", 1: "M"})]. *)
Definition sex_of_male (m : Z) : option sex_t :=
  if (m =? 0)%Z then Some F else if (m =? 1)%Z then Some M else None.

Definition sex_eqb (a b : sex_t) : bool :=
  match a, b with F, F | M, M => true | _, _ => false end.

(** The dictionary [lifetime_prob]: the last entry of a sex wins. *)
Definition lifetime_prob (lifetime_risk : list (Z * Q)) (s : sex_t)
  : option Q :=
  option_map snd
    (find (fun kv => match sex_of_male (fst kv) with
                     | Some s' => sex_eqb s' s
                     | None => false
                     end)
          (rev lifetime_risk)).

(** A cohort member: [pid] and the columns [egfr], [sex], [race]. *)
Record cohort_row := mkCohort {
  c_pid : Z;
  c_egfr : Q;
  c_sex : sex_t;
  c_race : race_t
}.

(** [np.random.binomial(size=n, n=1, p=probabilities)]: one draw per
    individual; a missing probability or one outside [[0, 1]] is refused. *)
Fixpoint binomial_each (ps : list (option Q)) (g : rng)
  : result (list Z * rng) :=
  match ps with
  | [] => Ok ([], g)
  | None :: _ => Err ValueError
  | Some p :: t =>
      d <- np_random_binomial rng random_bernoulli p g ;;
      ds <- binomial_each t (snd d) ;;
      Ok (fst d :: fst ds, snd ds)
  end.

Definition has_sex (s : sex_t) (x : age_row (option Q)) : bool :=
  match sex_of_male (a_male x) with
  | Some s' => sex_eqb s' s
  | None => false
  end.

(** [cdf.pivot(columns="age", index="sex", values="prob")] merged on the
    sex of an individual: one cell per age of the table, ascending, missing
    where the table has no entry for that sex and age. *)
Definition comorb_cdf_row (cdf : list (age_row (option Q))) (s : sex_t)
  : ocurve :=
  map (fun a =>
         (a, match find (fun x => has_sex s x && (a_age x =? a)%Z) cdf with
             | Some x => a_value x
             | None => None
             end))
      (fold_right insert_pid []
         (map a_age (filter (fun x => has_sex F x || has_sex M x) cdf))).

(** [get_comorb_age(cohort_df, cdf, lifetime_risk, comorb)]: the pairs
    (pid, onset age) of the individuals who get the comorbidity. *)
Definition get_comorb_age (cohort_df : list cohort_row)
    (cdf : list (age_row (option Q))) (lifetime_risk : list (Z * Q))
    (g : rng) : result (list (Z * Q) * rng) :=
  (* step 1: who gets the comorbidity *)
  gets_comorb <-
    binomial_each (map (fun c => lifetime_prob lifetime_risk (c_sex c))
                       cohort_df) g ;;
  (* step 2: time to event for those who do *)
  let selected :=
    map fst (filter (fun x => (snd x =? 1)%Z)
                    (combine cohort_df (fst gets_comorb))) in
  let all_cdf := map (fun c => comorb_cdf_row cdf (c_sex c)) selected in
  sampled <-
    sample_cat_vectorized rng random_uniform all_cdf None distr_cdf
      (snd gets_comorb) ;;
  let offsets :=
    uniform_draws rng random_uniform (length all_cdf) (snd sampled) in
  age_of_comorb <-
    zipM (fun a o => Ok (inject_Z a + round2 o)) (fst sampled) (fst offsets) ;;
  Ok (combine (map c_pid selected) age_of_comorb, snd offsets).

End Comorbidity.

(** A zero incidence table with two age bands. *)
Definition example_zero_incid : list incid_row :=
  [ mkIncid 18 19 0 0; mkIncid 20 21 0 0 ].

Definition example_cohort_df : list cohort_row :=
  [ mkCohort 1 80 F NB; mkCohort 2 70 M B ].

(** A Bernoulli draw that compares the constant uniform draw with [p]. *)
Definition constant_bernoulli (p : Q) (g : unit) : Z * unit :=
  (if Qlt_bool (fst (constant_uniform g)) p then 1%Z else 0%Z, g).

(** ** egfr_model.py: the event merger *)

(** Order and equality of rows on [pid] and one float column ([age] for
    the index, [egfr] in [integrate_duplicate_rows]). *)
Definition ltb_by (kf : row -> Q) (r1 r2 : row) : bool :=
  (pid r1 <? pid r2)%Z || ((pid r1 =? pid r2)%Z && Qlt_bool (kf r1) (kf r2)).

Definition eqb_by (kf : row -> Q) (r1 r2 : row) : bool :=
  (pid r1 =? pid r2)%Z && Qeq_bool (kf r1) (kf r2).

(** The groups of [groupby]: one representative row per key, the first of
    the frame with that key, in ascending key order. *)
Fixpoint insert_rep (kf : row -> Q) (r : row) (l : list row) : list row :=
  match l with
  | [] => [r]
  | h :: t =>
      if ltb_by kf r h then r :: l
      else if eqb_by kf r h then r :: t
      else h :: insert_rep kf r t
  end.

Definition group_reps (kf : row -> Q) (df : frame) : list row :=
  fold_right (insert_rep kf) [] df.

Definition mean (l : list Q) : Q :=
  fold_right Qplus 0 l / inject_Z (Z.of_nat (length l)).

(** ['max'] of an indicator over a group that contains [r0]. *)
Definition agg_max (c : indicator_name) (r0 : row) (g : list row) : Z :=
  fold_right Z.max (indicator c r0) (map (indicator c) g).

(** ['last'] and ['first'] over a group that contains [r0]. *)
Definition agg_last {A : Type} (f : row -> A) (r0 : row) (g : list row) : A :=
  match last_error g with Some r => f r | None => f r0 end.

Definition agg_first_stage (g : list row) : option ckd_stage :=
  match find (fun r => is_some (stage_diag r)) g with
  | Some r => stage_diag r
  | None => None
  end.

(** [groupby(level=["pid", "age"]).agg(agg_dictionary_one_age)]: the
    group of [r0] is [g], in frame order. *)
Definition agg_one_age (r0 : row) (g : list row) : row :=
  mkRow (pid r0) (age r0)
        (mean (map egfr g))
        (agg_last slope r0 g)
        (agg_max Ht r0 g) (agg_max Dm r0 g) (agg_max Death r0 g)
        (agg_max G3 r0 g) (agg_max Diag r0 g) (agg_max Nephr r0 g)
        (sex r0) (race r0)
        (agg_first_stage g).

Definition groupby_pid_age_agg (df : frame) : frame :=
  map (fun r0 => agg_one_age r0 (filter (eqb_by age r0) df))
      (group_reps age df).

(** [x.groupby(level='pid')[c].cummax()] assigned to column [c]: the
    running maximum per individual, in frame order. *)
Fixpoint groupby_cummax (c : indicator_name) (acc : Z -> option Z)
    (df : frame) : frame :=
  match df with
  | [] => []
  | r :: t =>
      let v := match acc (pid r) with
               | Some m => Z.max m (indicator c r)
               | None => indicator c r
               end in
      with_indicator c r v
      :: groupby_cummax c
           (fun p => if (p =? pid r)%Z then Some v else acc p) t
  end.

Definition propagate (names : list indicator_name) (df : frame) : frame :=
  fold_left (fun f c => groupby_cummax c (fun _ => None) f) names df.

(** [params["model"]]: the slope table, read as a function of
    [(dm, ht, g3)], and the intervention parameters. *)
Record model_params := {
  slopes : Z -> Z -> Z -> Q;
  interv : interv_params
}.

Definition update_slopes (df : frame) (params : model_params) : frame :=
  map (fun r =>
         with_slope r
           (get_slope_reduction (slopes params (dm r) (ht r) (g3 r))
                                (nephr r) (diag r) (interv params)))
      df.

(** [full_at_cutoff.update(updated_subset)]: the rows of the subset
    overwrite, by index, their slope and eGFR. *)
Definition update_rows (full updated : frame) : frame :=
  map (fun r => match find (fun u => same_key u r) updated with
                | Some u => with_slope (with_egfr r (egfr u)) (slope u)
                | None => r
                end)
      full.

Definition drop_stage_diag (r : row) : row :=
  mkRow (pid r) (age r) (egfr r) (slope r) (ht r) (dm r) (death r) (g3 r)
        (diag r) (nephr r) (sex r) (race r) None.

Fixpoint has_duplicated (kf : row -> Q) (df : frame) : bool :=
  match df with
  | [] => false
  | r :: t => existsb (eqb_by kf r) t || has_duplicated kf t
  end.

(** The aggregate of [integrate_duplicate_rows] for [keep_var = "egfr"]:
    the mean age, rounded. *)
Definition agg_one_egfr (r0 : row) (g : list row) : row :=
  mkRow (pid r0) (round2 (mean (map age g)))
        (egfr r0)
        (agg_last slope r0 g)
        (agg_max Ht r0 g) (agg_max Dm r0 g) (agg_max Death r0 g)
        (agg_max G3 r0 g) (agg_max Diag r0 g) (agg_max Nephr r0 g)
        (sex r0) (race r0)
        None.

Definition row_key_leb (r1 r2 : row) : bool :=
  (pid r1 <? pid r2)%Z || ((pid r1 =? pid r2)%Z && Qle_bool (age r1) (age r2)).

(** [integrate_duplicate_rows(df, keep_var="egfr")] on a frame without
    [stage_diag]. *)
Definition integrate_duplicate_rows (df : frame) : frame :=
  if negb (has_duplicated egfr df) then df
  else
    fold_right (insert_sorted row_key_leb) []
      (map (fun r0 => agg_one_egfr r0 (filter (eqb_by egfr r0) df))
           (group_reps egfr df)).

(** The frame [full_at_cutoff] once the named indicators are propagated. *)
Definition merge_and_propagate (df at_cutoff : frame)
    (names : list indicator_name) : frame :=
  propagate names (groupby_pid_age_agg (at_cutoff ++ df)).

(** [indicator_name] is a column name, or the list [["diag", "nephr"]]
    with [multiple_indic]. *)
Definition indicator_names_eqb (l : list indicator_name) : bool :=
  match l with
  | [Diag; Nephr] => true
  | _ => false
  end.

(** What [groupby_cummax c] keeps: the index and the other indicators. *)
Definition keeps_but (c : indicator_name) (a o : row) : Prop :=
  pid o = pid a /\ age o = age a
  /\ forall c', c' <> c -> indicator c' o = indicator c' a.

(** The order in which an indicator does not decrease along the rows of an
    individual. *)
Definition not_decreasing (c : indicator_name) (a b : row) : Prop :=
  pid a = pid b -> (indicator c a <= indicator c b)%Z.

(** What the write-back of slopes and eGFR keeps: the index and every
    indicator. *)
Definition keeps_indicators (a o : row) : Prop :=
  pid o = pid a /\ age o = age a /\ forall c, indicator c o = indicator c a.

(** The rows [to_update]: those where a named indicator is 1. *)
Definition to_update_rows (df at_cutoff : frame)
    (names : list indicator_name) : frame :=
  filter (fun r => existsb (fun c => (indicator c r =? 1)%Z) names)
         (merge_and_propagate df at_cutoff names).

(** [full_at_cutoff] after the slopes and the decline of [to_update] are
    written back and [stage_diag] is dropped. *)
Definition updated_frame (df at_cutoff : frame)
    (names : list indicator_name) (params : model_params) : frame :=
  let df_ev_subset := update_slopes (to_update_rows df at_cutoff names) params in
  let updated_subset := get_decline df_ev_subset in
  map drop_stage_diag
      (update_rows (merge_and_propagate df at_cutoff names) updated_subset).

Definition update_frame_with_cutoff_event (df at_cutoff : frame)
    (indicator_name : list indicator_name) (params : model_params)
    (multiple_indic : bool) : result frame :=
  if multiple_indic && negb (indicator_names_eqb indicator_name)
  then Err AssertionError
  else if negb multiple_indic && negb (length indicator_name =? 1)%nat
  then Err KeyError
  else
    match to_update_rows df at_cutoff indicator_name with
    | [] => Ok (merge_and_propagate df at_cutoff indicator_name)
    | _ =>
        Ok (integrate_duplicate_rows
              (updated_frame df at_cutoff indicator_name params))
    end.

(** One individual with rows at ages 50 and 70 without diabetes, and an
    event at age 60 that sets [g3] and carries [dm = 1]. *)
Definition example_merge_df : frame :=
  [ mkRow 1 50 80 1 0 0 0 0 0 0 F NB None;
    mkRow 1 70 60 1 0 0 0 0 0 0 F NB None ].

Definition example_merge_event : frame :=
  [ mkRow 1 60 70 1 0 1 0 1 0 0 F NB (Some G3a) ].

Definition example_model_params : model_params :=
  {| slopes := fun _ _ _ => 1; interv := example_interv_params |}.

(** The frame that the merge of [example_merge_event] into
    [example_merge_df] returns for the indicator [g3]. *)
Definition example_merge_out : frame :=
  Eval vm_compute in
    match update_frame_with_cutoff_event example_merge_df example_merge_event
            [G3] example_model_params false with
    | Ok f => f
    | Err _ => []
    end.

(** ** egfr_formulas.py: the stage of a cutoff *)

(** The dictionary [egfr_to_g_stages], read with [Series.map]: a value
    that is no key gives a missing label. *)
Definition egfr_to_g_stages (cutoff : Q) : option ckd_stage :=
  if Qeq_bool cutoff 90 then Some G2
  else if Qeq_bool cutoff 60 then Some G3a
  else if Qeq_bool cutoff 45 then Some G3b
  else if Qeq_bool cutoff 30 then Some G4
  else if Qeq_bool cutoff 15 then Some G5
  else None.

(** ** helpers/survival_helpers.py: CDF and PDF of a hazard series

    The functions below are read on one series indexed by age
    ([axis=0]). *)

(** [x.round(decimals)] on a float. *)
Definition np_round (decimals : nat) (x : Q) : Q :=
  inject_Z (rint (x * inject_Z (10 ^ Z.of_nat decimals)))
  / inject_Z (10 ^ Z.of_nat decimals).

(** [s.sum()]. *)
Definition series_sum (c : curve) : Q := fold_right Qplus 0 (map snd c).

(** [cdf - cdf.shift(1).fillna(0)]: each value minus the one before it,
    the first one minus 0. *)
Fixpoint diff_from (prev : Q) (c : curve) : curve :=
  match c with
  | [] => []
  | x :: t => (fst x, snd x - prev) :: diff_from (snd x) t
  end.

Section Hazard_series.

Variable np_exp : Q -> Q.

Definition cdf_from_hazards (hazards : curve) : curve :=
  let cum_hazard := np_cumsum hazards in
  let cdf := map (fun x => (fst x, 1 - np_exp (- snd x))) cum_hazard in
  set_col 100 1 cdf.

Definition pdf_from_cdf (cdf : curve) : result curve :=
  let pdf := diff_from 0 cdf in
  if Qeq_bool (np_round 10 (series_sum pdf)) 1 then Ok pdf
  else Err AssertionError.

Definition cdf_from_pdf (pdf : curve) : result curve :=
  if Qeq_bool (np_round 10 (series_sum pdf)) 1
  then Ok (set_col 100 1 (np_cumsum pdf))
  else Err AssertionError.

End Hazard_series.

(** A stand-in for [np.exp] on arguments that are not positive: it is 1
    at 0, positive and increasing there. *)
Definition exp_nonpos_stand_in (x : Q) : Q := 1 / (1 - x).

(** A hazard series on the ages 0, 1, 2 and 100. *)
Definition example_hazard_series : curve :=
  [(0%Z, 0.01); (1%Z, 0.02); (2%Z, 0.05); (100%Z, 0.5)].

(** ** egfr_model.py: events at a cutoff *)

Definition with_stage_diag (r : row) (s : option ckd_stage) : row :=
  mkRow (pid r) (age r) (egfr r) (slope r) (ht r) (dm r) (death r) (g3 r)
        (diag r) (nephr r) (sex r) (race r) s.

(** [add_age_at_cutoff(df, cutoff_list, interv_under_eq="21")]: the branch
    that needs no translation between the two equations.  A single cutoff
    is the one-element list. *)
Definition add_age_at_cutoff (df : frame) (cutoff_list : option (list Q))
  : frame :=
  let cutoff_list :=
    match cutoff_list with
    | None => [60; 30; 15]
    | Some l => l
    end in
  let calculated_at_cutoff :=
    map (fun x => with_stage_diag x (egfr_to_g_stages (egfr x)))
        (identify_age_at_cutoff_many df cutoff_list) in
  let already_at_cutoff :=
    map (fun x => with_stage_diag x (egfr_to_g_stages (round2 (egfr x))))
        (entries_at_cutoffs df cutoff_list) in
  calculated_at_cutoff ++ already_at_cutoff.

Definition add_event_at_cutoff (df : frame) (cutoff : Q)
    (event_name : indicator_name) (params : model_params) : result frame :=
  let at_cutoff :=
    map (fun r => with_indicator event_name r 1)
        (add_age_at_cutoff df (Some [cutoff])) in
  update_frame_with_cutoff_event df at_cutoff [event_name] params false.

(** ** helpers/sampling.py: the cohort *)

(** [params["cohort"]]. *)
Record cohort_params := {
  p_n : nat;
  p_init_age : Z;
  p_max_age : Z;
  p_mu : Q;
  p_sigma : Q;
  p_male : Q;
  p_black : Q
}.

(** A row of the events frame of the cohort builder, whose columns are
    [ht], [dm] and [death], after [fillna(0)]; the other columns of a
    trajectory row are set later ([assign], [join]). *)
Definition cohort_event (p : Z) (a : Q) (v_ht v_dm v_death : Z) : row :=
  mkRow p a 0 0 v_ht v_dm v_death 0 0 0 F NB None.

(** [sort_index()] on a trajectory frame. *)
Definition sort_rows (df : frame) : frame :=
  fold_right (insert_sorted row_key_leb) [] df.

(** [groupby(["pid", "age"]).last()] on a frame without missing values:
    the last row of each index entry, in index order. *)
Definition groupby_pid_age_last (df : frame) : frame :=
  map (fun r0 => match last_error (filter (eqb_by age r0) df) with
                 | Some r => r
                 | None => r0
                 end)
      (group_reps age df).

(** [.join(df_demo_egfr)]: the columns [egfr], [sex] and [race] of the
    individual. *)
Definition join_demo (df_demo_egfr : list cohort_row) (r : row) : row :=
  match find (fun c => (c_pid c =? pid r)%Z) df_demo_egfr with
  | Some c =>
      mkRow (pid r) (age r) (c_egfr c) (slope r) (ht r) (dm r) (death r)
            (g3 r) (diag r) (nephr r) (c_sex c) (c_race c) (stage_diag r)
  | None => r
  end.

Section Cohort_sampling.

Variable np_exp : Q -> Q.
Variable rng : Type.
Variable random_uniform : rng -> Q * rng.
Variable random_bernoulli : Q -> rng -> Z * rng.
Variable random_normal : Q -> Q -> rng -> Q * rng.

(** [np.random.normal(mu, sigma, n)]; numpy refuses a negative scale. *)
Fixpoint normal_draws (n : nat) (mu sigma : Q) (g : rng) : list Q * rng :=
  match n with
  | O => ([], g)
  | S k =>
      let d := random_normal mu sigma g in
      let ds := normal_draws k mu sigma (snd d) in
      (fst d :: fst ds, snd ds)
  end.

Definition np_random_normal (mu sigma : Q) (n : nat) (g : rng)
  : result (list Q * rng) :=
  if Qlt_bool sigma 0 then Err ValueError
  else Ok (normal_draws n mu sigma g).

(** [sample_dm_ht_times]; [df_dm] and [df_ht] are the incidence tables
    that [param_helpers.get_comorb_incidence] reads. *)
Definition sample_dm_ht_times (df_demo_egfr : list cohort_row)
    (df_dm df_ht : list incid_row) (g : rng) : result (frame * rng) :=
  dm_cdfs <- get_cdfs_from_incid np_exp df_dm false ;;
  ht_cdfs <- get_cdfs_from_incid np_exp df_ht true ;;
  match snd (fst dm_cdfs), snd (fst ht_cdfs) with
  | risk_overall lifetime_risk_dm, risk_by_male lifetime_risk_ht =>
      let cdf_develops_dm := snd dm_cdfs in
      let cdf_develops_ht := snd ht_cdfs in
      let lifetime_risk_dm_sex :=
        [(0%Z, lifetime_risk_dm); (1%Z, lifetime_risk_dm)] in
      let cdf_develops_dm_sex :=
        map (fun x => mkAgeRow (a_age x) 1%Z (a_value x)) cdf_develops_dm
        ++ map (fun x => mkAgeRow (a_age x) 0%Z (a_value x)) cdf_develops_dm in
      ht_age <-
        get_comorb_age rng random_uniform random_bernoulli df_demo_egfr
          cdf_develops_ht lifetime_risk_ht g ;;
      diab_age <-
        get_comorb_age rng random_uniform random_bernoulli df_demo_egfr
          cdf_develops_dm_sex lifetime_risk_dm_sex (snd ht_age) ;;
      Ok (sort_rows
            (map (fun x => cohort_event (fst x) (snd x) 1 0 0) (fst ht_age)
             ++ map (fun x => cohort_event (fst x) (snd x) 0 1 0)
                    (fst diab_age)),
          snd diab_age)
  | _, _ => Err ValueError
  end.

(** [sample_cohort].  [np.vectorize] refuses an empty array, so a cohort
    of size 0 raises; a binomial draw is 0 or 1. *)
Definition sample_cohort (params : cohort_params)
    (df_dm df_ht : list incid_row) (g : rng) : result (frame * rng) :=
  let n := p_n params in
  let pids := zrange 0 n in
  egfrs <- np_random_normal (p_mu params) (p_sigma params) n g ;;
  males <- binomial_draws rng random_bernoulli n (p_male params)
             (snd egfrs) ;;
  blacks <- binomial_draws rng random_bernoulli n (p_black params)
              (snd males) ;;
  if (n =? 0)%nat then Err ValueError
  else
    let df_demo_egfr :=
      map (fun x =>
             mkCohort (fst (fst (fst x))) (snd (fst (fst x)))
                      (if (snd (fst x) =? 1)%Z then M else F)
                      (if (snd x =? 1)%Z then B else NB))
          (combine (combine (combine pids (fst egfrs)) (fst males))
                   (fst blacks)) in
    df_events <- sample_dm_ht_times df_demo_egfr df_dm df_ht (snd blacks) ;;
    let init_ev :=
      map (fun p => cohort_event p (inject_Z (p_init_age params)) 0 0 0)
          pids in
    let death_ev :=
      map (fun p => cohort_event p (inject_Z (p_max_age params)) 0 0 1)
          pids in
    let df_start_end := init_ev ++ death_ev in
    let min_age := inject_Z (p_init_age params) in
    let df_init :=
      map (fun r => with_egfr r (round2 (egfr r)))
        (groupby_pid_age_last
           (map (join_demo df_demo_egfr)
              (map (fun r =>
                      with_indicator Nephr
                        (with_indicator Diag (with_indicator G3 r 0) 0) 0)
                 (filter (fun r => Qle_bool min_age (age r))
                    (propagate [Ht; Dm; Death]
                       (sort_rows (fst df_events ++ df_start_end))))))) in
    Ok (df_init, snd df_events).

End Cohort_sampling.

(** Cohort parameters and incidence tables for two individuals. *)
Definition example_cohort_params : cohort_params :=
  {| p_n := 2; p_init_age := 30; p_max_age := 101; p_mu := 80;
     p_sigma := 10; p_male := 0.5; p_black := 0.1 |}.

Definition example_incid_dm : list incid_row :=
  [ mkIncid 20 29 500 0; mkIncid 30 100 800 0 ].

Definition example_incid_ht : list incid_row :=
  [ mkIncid 20 100 900 0; mkIncid 20 100 900 1 ].

(** A Bernoulli draw of 1 for every probability above 0. *)
Definition bernoulli_one (p : Q) (g : unit) : Z * unit :=
  (if Qlt_bool 0 p then 1%Z else 0%Z, g).

Definition normal_mean (mu sigma : Q) (g : unit) : Q * unit := (mu, g).

(** ** egfr_model.py: phase 1 *)

Definition model_part1 (df_cohort : frame) (params : model_params) : frame :=
  let df_cohort_slopes := update_slopes df_cohort params in
  let df_init := get_decline df_cohort_slopes in
  df_init.

(** ** egfr_model.py: phase 2 *)

(** [a[pids]]: an array indexed by an array of integers.  A negative index
    counts from the end; an index out of range raises [IndexError]. *)
Definition np_take (a : list Q) (pids : list Z) : result (list Q) :=
  mapM (fun i =>
          let n := Z.of_nat (length a) in
          let j := if (i <? 0)%Z then (i + n)%Z else i in
          if (j <? 0)%Z then Err IndexError
          else match nth_error a (Z.to_nat j) with
               | Some v => Ok v
               | None => Err IndexError
               end)
       pids.

(** [common_rn_dict]: per intervention and cutoff, an array of draws with
    one entry per individual of the cohort. *)
Definition common_rn_dict_t := intervention -> Q -> option (list Q).

(** [common_rn_dict[event][cutoff][pid_at_cutoff] if common_rn_dict is not
    None else None]. *)
Definition common_rn_at (common_rn_dict : option common_rn_dict_t)
    (ev : intervention) (cutoff : Q) (pid_at_cutoff : list Z)
  : result (option (list Q)) :=
  match common_rn_dict with
  | None => Ok None
  | Some d =>
      match d ev cutoff with
      | None => Err KeyError
      | Some a => rn <- np_take a pid_at_cutoff ;; Ok (Some rn)
      end
  end.

Section Phase2.

Variable rng : Type.
Variable random_bernoulli : Q -> rng -> Z * rng.

(** The body of the loop of [model_part2] for one cutoff, with
    [params["model"]["interv_under_eq"] = "21"]. *)
Definition model_part2_cutoff (params : model_params)
    (common_rn_dict : option common_rn_dict_t) (df_temp : frame) (g : rng)
    (cutoff : Q) : result (frame * rng) :=
  let at_cutoff := add_age_at_cutoff df_temp (Some [cutoff]) in
  let pid_at_cutoff := map pid at_cutoff in
  rn_diag <- common_rn_at common_rn_dict ev_diag cutoff pid_at_cutoff ;;
  at_cutoff_subsamp_diag <-
    sample_interventions rng random_bernoulli at_cutoff ev_diag
      (interv params) rn_diag g ;;
  rn_nephr <- common_rn_at common_rn_dict ev_nephr cutoff pid_at_cutoff ;;
  at_cutoff_subsamp_nephr <-
    sample_interventions rng random_bernoulli (fst at_cutoff_subsamp_diag)
      ev_nephr (interv params) rn_nephr (snd at_cutoff_subsamp_diag) ;;
  df_temp' <-
    update_frame_with_cutoff_event df_temp (fst at_cutoff_subsamp_nephr)
      [Diag; Nephr] params true ;;
  Ok (df_temp', snd at_cutoff_subsamp_nephr).

(** [for cutoff in cutoffs: ...], threading [df_temp] and the generator. *)
Fixpoint model_part2_loop (params : model_params)
    (common_rn_dict : option common_rn_dict_t) (cutoffs : list Q)
    (df_temp : frame) (g : rng) : result (frame * rng) :=
  match cutoffs with
  | [] => Ok (df_temp, g)
  | cutoff :: rest =>
      next <- model_part2_cutoff params common_rn_dict df_temp g cutoff ;;
      model_part2_loop params common_rn_dict rest (fst next) (snd next)
  end.

Definition model_part2 (df_init : frame) (params : model_params)
    (common_rn_dict : option common_rn_dict_t) (g : rng)
  : result (frame * rng) :=
  df_g3 <- add_event_at_cutoff df_init 60 G3 params ;;
  let df_temp := df_g3 in
  model_part2_loop params common_rn_dict [60; 45; 30; 15] df_temp g.

End Phase2.

(** Two individuals followed from age 30 to 101, and supplied draws with
    which the first of two individuals at a cutoff is always sampled. *)
Definition example_phase2_cohort : frame :=
  [ example_row 0 30 70 1 0; example_row 0 101 70 1 1;
    example_row 1 30 70 1 0; example_row 1 101 70 1 1 ].

Definition example_common_rn_dict : common_rn_dict_t :=
  fun _ _ => Some [0; 0.99].

(** The indicators [diag] and [nephr] of a row are 0 or 1, and a
    nephrology referral comes with a diagnosis. *)
Definition referral_with_diagnosis (r : row) : Prop :=
  (0 <= nephr r)%Z /\ (nephr r <= diag r)%Z /\ (diag r <= 1)%Z.

(** A frame in which everybody is below the cutoff 60. *)
Definition example_below_60 : frame :=
  [ example_row 0 30 50 1 0; example_row 0 101 50 1 1 ].

(** A counterfactual for the example: the hazard row of the first
    individual is that of [example_hazards], the row of the second one is
    lower; the trajectories decline at half the speed. *)
Definition example_hazards_cf : list curve :=
  [ [(0%Z, 0.01); (29%Z, 0.02); (30%Z, 0.03); (60%Z, 0.2); (100%Z, 0.5)];
    [(0%Z, 0.01); (29%Z, 0.02); (30%Z, 0.05); (60%Z, 0.1); (100%Z, 0.9)] ].

Definition example_events_cf : frame :=
  get_decline
    [ example_row 1 50 80 0.5 0; example_row 1 101 80 0.5 1;
      example_row 2 60 70 0.5 0; example_row 2 101 70 0.5 1 ].



(* ================================================================== *)
(** * Part II: theorems *)
(* ================================================================== *)

(** ** Comparisons and rounding *)

Lemma Qlt_bool_iff (x y : Q) : Qlt_bool x y = true <-> x < y.
Proof.
  unfold Qlt_bool. rewrite negb_true_iff.
  destruct (Qle_bool y x) eqn:E.
  - apply Qle_bool_iff in E. split; [discriminate | intros H; lra].
  - split; [intros _ | reflexivity].
    destruct (Qlt_le_dec x y) as [H | H]; [exact H |].
    apply Qle_bool_iff in H. congruence.
Qed.

Lemma Qlt_bool_false (x y : Q) : Qlt_bool x y = false <-> y <= x.
Proof.
  unfold Qlt_bool. rewrite negb_false_iff. apply Qle_bool_iff.
Qed.

Lemma Qle_bool_false (x y : Q) : Qle_bool x y = false <-> y < x.
Proof.
  rewrite <- Qlt_bool_iff. unfold Qlt_bool.
  destruct (Qle_bool x y); simpl; split; congruence.
Qed.

Ltac qbool :=
  repeat match goal with
    | H : Qlt_bool _ _ = true |- _ => apply Qlt_bool_iff in H
    | H : Qlt_bool _ _ = false |- _ => apply Qlt_bool_false in H
    | H : Qle_bool _ _ = true |- _ => apply Qle_bool_iff in H
    | H : Qle_bool _ _ = false |- _ => apply Qle_bool_false in H
    | H : Qeq_bool _ _ = true |- _ => apply Qeq_bool_iff in H
    | H : Qeq_bool _ _ = false |- _ => apply Qeq_bool_neq in H
    end.

(** ** Clinical formula library *)

Lemma stage_interval_unique (s s' : ckd_stage) (egfr : Q) :
  stage_interval s egfr -> stage_interval s' egfr -> s' = s.
Proof.
  destruct s, s'; simpl; intros H H'; try reflexivity; exfalso; lra.
Qed.

Lemma range_interval_unique (k k' : Z) (egfr : Q) :
  range_interval k egfr -> range_interval k' egfr -> k' = k.
Proof.
  unfold range_interval. intros H H'.
  repeat match goal with
    | H : _ \/ _ |- _ => destruct H as [H | H]
    end;
    destruct H as [-> H]; destruct H' as [-> H'];
    try reflexivity; exfalso; lra.
Qed.

Lemma egfr_to_stages_interval (egfr : Q) :
  0 < egfr ->
  exists s, egfr_to_stages egfr = Some s /\ stage_interval s egfr.
Proof.
  intros Hpos. unfold egfr_to_stages, np_select.
  destruct (Qlt_bool 90 egfr) eqn:E1; qbool;
    [exists G1; split; [reflexivity | exact E1] |].
  destruct (Qlt_bool 60 egfr) eqn:E2; destruct (Qle_bool egfr 90) eqn:E2';
    qbool; simpl; try (exfalso; lra);
    [exists G2; split; [reflexivity | split; assumption] |].
  destruct (Qlt_bool 45 egfr) eqn:E3; destruct (Qle_bool egfr 60) eqn:E3';
    qbool; simpl; try (exfalso; lra);
    [exists G3a; split; [reflexivity | split; assumption] |].
  destruct (Qlt_bool 30 egfr) eqn:E4; destruct (Qle_bool egfr 45) eqn:E4';
    qbool; simpl; try (exfalso; lra);
    [exists G3b; split; [reflexivity | split; assumption] |].
  destruct (Qlt_bool 15 egfr) eqn:E5; destruct (Qle_bool egfr 30) eqn:E5';
    qbool; simpl; try (exfalso; lra);
    [exists G4; split; [reflexivity | split; assumption] |].
  destruct (Qlt_bool 0 egfr) eqn:E6; destruct (Qle_bool egfr 15) eqn:E6';
    qbool; simpl; try (exfalso; lra).
  exists G5; split; [reflexivity | split; assumption].
Qed.

Lemma egfr_to_ranges_interval (egfr : Q) :
  exists k, egfr_to_ranges egfr = Some k /\ (1 <= k <= 8)%Z
            /\ range_interval k egfr.
Proof.
  unfold egfr_to_ranges, np_select, range_interval.
  destruct (Qlt_bool 105 egfr) eqn:E1; qbool;
    [exists 1%Z; repeat split; try lia; tauto |].
  destruct (Qlt_bool 90 egfr) eqn:E2; destruct (Qle_bool egfr 105) eqn:E2';
    qbool; simpl; try (exfalso; lra);
    [exists 2%Z; repeat split; try lia; tauto |].
  destruct (Qlt_bool 75 egfr) eqn:E3; destruct (Qle_bool egfr 90) eqn:E3';
    qbool; simpl; try (exfalso; lra);
    [exists 3%Z; repeat split; try lia; tauto |].
  destruct (Qlt_bool 60 egfr) eqn:E4; destruct (Qle_bool egfr 75) eqn:E4';
    qbool; simpl; try (exfalso; lra);
    [exists 4%Z; repeat split; try lia; tauto |].
  destruct (Qlt_bool 45 egfr) eqn:E5; destruct (Qle_bool egfr 60) eqn:E5';
    qbool; simpl; try (exfalso; lra);
    [exists 5%Z; repeat split; try lia; tauto |].
  destruct (Qlt_bool 30 egfr) eqn:E6; destruct (Qle_bool egfr 45) eqn:E6';
    qbool; simpl; try (exfalso; lra);
    [exists 6%Z; repeat split; try lia; tauto |].
  destruct (Qlt_bool 15 egfr) eqn:E7; destruct (Qle_bool egfr 30) eqn:E7';
    qbool; simpl; try (exfalso; lra);
    [exists 7%Z; repeat split; try lia; tauto |].
  destruct (Qlt_bool 0 egfr) eqn:E8; destruct (Qle_bool egfr 15) eqn:E8';
    qbool; simpl; try (exfalso; lra);
    [exists 8%Z; repeat split; try lia; tauto |].
  destruct (Qle_bool egfr 0) eqn:E9; qbool; try (exfalso; lra).
  exists 8%Z. repeat split; try lia.
  do 7 right. split; [reflexivity | lra].
Qed.

Lemma egfr_to_stages_nonpositive (egfr : Q) :
  egfr <= 0 -> egfr_to_stages egfr = None.
Proof.
  intros Hle. unfold egfr_to_stages, np_select.
  repeat match goal with
    | |- context [Qlt_bool ?a egfr] =>
        let E := fresh "E" in
        destruct (Qlt_bool a egfr) eqn:E; qbool; try (exfalso; lra); simpl
    end.
  reflexivity.
Qed.

Lemma egfr_to_ranges_nonpositive (egfr : Q) :
  egfr <= 0 -> egfr_to_ranges egfr = Some 8%Z.
Proof.
  intros Hle. unfold egfr_to_ranges, np_select.
  repeat match goal with
    | |- context [Qlt_bool ?a egfr] =>
        let E := fresh "E" in
        destruct (Qlt_bool a egfr) eqn:E; qbool; try (exfalso; lra); simpl
    end.
  destruct (Qle_bool egfr 0) eqn:Ez; qbool; [reflexivity | exfalso; lra].
Qed.

(** C5 (as the code has it).  Every eGFR above 0 falls in exactly one of
    the six documented stage intervals, and [egfr_to_stages] returns that
    stage; it falls in exactly one of the eight documented range buckets, and
    [egfr_to_ranges] returns that bucket.  For an eGFR of 0 or below
    [egfr_to_stages] returns no stage, while [egfr_to_ranges] returns
    bucket 8. *)
Theorem egfr_classification_partition (egfr : Q) :
  (0 < egfr ->
     (exists s, egfr_to_stages egfr = Some s /\ stage_interval s egfr
                /\ forall s', stage_interval s' egfr -> s' = s)
     /\ (exists k, egfr_to_ranges egfr = Some k /\ (1 <= k <= 8)%Z
                   /\ range_interval k egfr
                   /\ forall k', range_interval k' egfr -> k' = k))
  /\ (egfr <= 0 ->
        egfr_to_stages egfr = None /\ egfr_to_ranges egfr = Some 8%Z).
Proof.
  split.
  - intros Hpos. split.
    + destruct (egfr_to_stages_interval egfr Hpos) as [s [Hs Hi]].
      exists s. repeat split; try assumption.
      intros s' Hs'. exact (stage_interval_unique s s' egfr Hi Hs').
    + destruct (egfr_to_ranges_interval egfr) as [k [Hk [Hb Hi]]].
      exists k. repeat split; try assumption; try lia.
      intros k' Hk'. exact (range_interval_unique k k' egfr Hi Hk').
  - intros Hle. split.
    + exact (egfr_to_stages_nonpositive egfr Hle).
    + exact (egfr_to_ranges_nonpositive egfr Hle).
Qed.

Lemma egfr_classification_partition_witness :
  0 < 50
  /\ (exists s, egfr_to_stages 50 = Some s /\ stage_interval s 50
                /\ forall s', stage_interval s' 50 -> s' = s)
  /\ (exists k, egfr_to_ranges 50 = Some k /\ (1 <= k <= 8)%Z
                /\ range_interval k 50
                /\ forall k', range_interval k' 50 -> k' = k).
Proof.
  split; [reflexivity |].
  apply (proj1 (egfr_classification_partition 50)). reflexivity.
Defined.

(** C5, the claim as written fails: at eGFR 0 (and below) [egfr_to_ranges]
    is defined, it answers bucket 8. *)
Lemma egfr_to_ranges_defined_at_zero :
  egfr_to_ranges 0 = Some 8%Z
  /\ ~ (forall egfr : Q,
          egfr <= 0 ->
          egfr_to_stages egfr = None /\ egfr_to_ranges egfr = None).
Proof.
  split; [reflexivity |].
  intros H. destruct (H 0) as [_ H0]; [discriminate | discriminate H0].
Qed.

Section CKD_EPI_facts.
Local Open Scope R_scope.

Lemma ln_sign_ge (a : R) : 1 <= a -> 0 <= ln a.
Proof.
  intros [H | <-]; [| rewrite ln_1; lra].
  rewrite <- ln_1. left. apply ln_increasing; lra.
Qed.

Lemma ln_sign_lt (a : R) : 0 < a -> a < 1 -> ln a < 0.
Proof. intros H0 H1. rewrite <- ln_1. apply ln_increasing; lra. Qed.

Lemma exp_ge_1 (x : R) : 0 <= x -> 1 <= exp x.
Proof.
  intros [H | <-]; [| rewrite exp_0; lra].
  rewrite <- exp_0. left. apply exp_increasing. exact H.
Qed.

Lemma exp_lt_1 (x : R) : x < 0 -> exp x < 1.
Proof. intros H. rewrite <- exp_0. apply exp_increasing. exact H. Qed.

Lemma pow_pos (x y : R) : 0 < pow x y.
Proof. unfold pow, Rpower. apply exp_pos. Qed.

Lemma pow_base_1 (y : R) : pow 1 y = 1.
Proof. unfold pow, Rpower. rewrite ln_1, Rmult_0_r. apply exp_0. Qed.

Lemma pow_inv_exponent (x y : R) : 0 < x -> y <> 0 -> pow (pow x (1 / y)) y = x.
Proof.
  intros Hx Hy. unfold pow. rewrite Rpower_mult.
  replace (1 / y * y) with 1 by (field; exact Hy).
  apply Rpower_1. exact Hx.
Qed.

Lemma pow_exponent_inv (x y : R) : 0 < x -> y <> 0 -> pow (pow x y) (1 / y) = x.
Proof.
  intros Hx Hy. unfold pow. rewrite Rpower_mult.
  replace (y * (1 / y)) with 1 by (field; exact Hy).
  apply Rpower_1. exact Hx.
Qed.

(** A negative exponent sends [[1, oo)] into [(0, 1]] and [(0, 1)] into
    [(1, oo)]. *)
Lemma pow_neg_ge_1 (a y : R) : 1 <= a -> y < 0 -> pow a y <= 1.
Proof.
  intros Ha Hy. unfold pow, Rpower.
  pose proof (ln_sign_ge a Ha) as Hl.
  destruct (Req_dec_T (y * ln a) 0) as [-> | Hne]; [rewrite exp_0; lra |].
  left. apply exp_lt_1. nra.
Qed.

Lemma pow_neg_lt_1 (a y : R) : 0 < a -> a < 1 -> y < 0 -> 1 < pow a y.
Proof.
  intros Ha0 Ha1 Hy. unfold pow, Rpower.
  pose proof (ln_sign_lt a Ha0 Ha1) as Hl.
  rewrite <- exp_0. apply exp_increasing. nra.
Qed.

Lemma pow_neg_le_1 (a y : R) : 0 < a -> a <= 1 -> y < 0 -> 1 <= pow a y.
Proof.
  intros Ha0 [Ha1 | ->] Hy; [| rewrite pow_base_1; lra].
  left. apply pow_neg_lt_1; assumption.
Qed.

Lemma pow_neg_gt_1 (a y : R) : 1 < a -> y < 0 -> pow a y < 1.
Proof.
  intros Ha Hy. unfold pow, Rpower.
  assert (0 < ln a) as Hl by (rewrite <- ln_1; apply ln_increasing; lra).
  apply exp_lt_1. nra.
Qed.

Lemma CKD_EPI_params_signs (f : formula) (s : sex_t) (r : race_t) :
  let params := CKD_EPI_params f in
  0 < kappa params s /\ alpha params s < 0 /\ max_exp params < 0
  /\ 0 < sex_adj params s /\ 0 < race_adj params r
  /\ 0 < age_base params /\ 0 < beta params.
Proof. destruct f, s, r; simpl; lra. Qed.

Lemma CKD_EPI_scale_pos s age r f : 0 < CKD_EPI_scale s age r f.
Proof.
  unfold CKD_EPI_scale.
  destruct (CKD_EPI_params_signs f s r) as (_ & _ & _ & Hs & Hr & _ & Hb).
  cbv zeta in *.
  pose proof (pow_pos (age_base (CKD_EPI_params f)) age) as Hp.
  repeat apply Rmult_lt_0_compat; assumption.
Qed.

Lemma CKD_EPI_pos scr s age r f : 0 < CKD_EPI scr s age r f.
Proof.
  unfold CKD_EPI.
  destruct (CKD_EPI_params_signs f s r) as (_ & _ & _ & Hs & Hr & _ & Hb).
  cbv zeta in *.
  repeat apply Rmult_lt_0_compat; try assumption; apply pow_pos.
Qed.

Lemma creat_from_eGFR_pos egfr s age r f :
  0 < egfr -> 0 < creat_from_eGFR egfr s age r f.
Proof.
  intros He. unfold creat_from_eGFR. cbv zeta.
  fold (CKD_EPI_scale s age r f).
  pose proof (CKD_EPI_scale_pos s age r f) as HD.
  destruct (CKD_EPI_params_signs f s r) as (Hk & _).
  cbv zeta in Hk.
  assert (0 < egfr / CKD_EPI_scale s age r f) as Ha
      by (apply Rdiv_lt_0_compat; assumption).
  destruct (Req_dec_T _ 0) as [E | _]; [lra |].
  destruct (Rle_lt_dec 1 _);
    apply Rmult_lt_0_compat; try assumption; apply pow_pos.
Qed.

(** [creat_from_eGFR] inverts [CKD_EPI] on the eGFR side ... *)
Lemma CKD_EPI_creat_from_eGFR egfr s age r f :
  0 < egfr -> CKD_EPI (creat_from_eGFR egfr s age r f) s age r f = egfr.
Proof.
  intros He. unfold creat_from_eGFR, CKD_EPI. cbv zeta.
  fold (CKD_EPI_scale s age r f).
  pose proof (CKD_EPI_scale_pos s age r f) as HD.
  destruct (CKD_EPI_params_signs f s r) as (Hk & Hal & Hm & _).
  cbv zeta in Hk, Hal, Hm.
  set (D := CKD_EPI_scale s age r f) in *.
  set (a := egfr / D).
  assert (0 < a) as Ha by (apply Rdiv_lt_0_compat; assumption).
  assert (egfr = a * D) as HeD by (unfold a; field; lra).
  set (k := kappa (CKD_EPI_params f) s) in *.
  set (al := alpha (CKD_EPI_params f) s) in *.
  set (m := max_exp (CKD_EPI_params f)) in *.
  destruct (Req_dec_T a 0) as [E | _]; [lra |].
  destruct (Rle_lt_dec 1 a) as [H1 | H1].
  - replace (pow a (1 / al) * k / k) with (pow a (1 / al)) by (field; lra).
    assert (pow a (1 / al) <= 1) as Hle.
    { apply pow_neg_ge_1; [exact H1 |].
      unfold Rdiv. rewrite Rmult_1_l. apply Rinv_lt_0_compat. exact Hal. }
    rewrite Rmin_left by exact Hle. rewrite Rmax_right by exact Hle.
    rewrite pow_inv_exponent by lra. rewrite pow_base_1.
    transitivity (a * D); [| lra]. unfold D, CKD_EPI_scale. cbv zeta. ring.
  - replace (pow a (1 / m) * k / k) with (pow a (1 / m)) by (field; lra).
    assert (1 < pow a (1 / m)) as Hgt.
    { apply pow_neg_lt_1; [exact Ha | exact H1 |].
      unfold Rdiv. rewrite Rmult_1_l. apply Rinv_lt_0_compat. exact Hm. }
    rewrite Rmin_right by lra. rewrite Rmax_left by lra.
    rewrite pow_inv_exponent by lra. rewrite pow_base_1.
    transitivity (a * D); [| lra]. unfold D, CKD_EPI_scale. cbv zeta. ring.
Qed.

(** ... and on the creatinine side, on both branches of the power law. *)
Lemma creat_from_eGFR_CKD_EPI scr s age r f :
  0 < scr -> creat_from_eGFR (CKD_EPI scr s age r f) s age r f = scr.
Proof.
  intros Hs. unfold creat_from_eGFR, CKD_EPI. cbv zeta.
  fold (CKD_EPI_scale s age r f).
  pose proof (CKD_EPI_scale_pos s age r f) as HD.
  destruct (CKD_EPI_params_signs f s r) as (Hk & Hal & Hm & _).
  cbv zeta in Hk, Hal, Hm.
  set (k := kappa (CKD_EPI_params f) s) in *.
  set (al := alpha (CKD_EPI_params f) s) in *.
  set (m := max_exp (CKD_EPI_params f)) in *.
  set (t := scr / k).
  assert (0 < t) as Ht by (apply Rdiv_lt_0_compat; assumption).
  assert (scr = t * k) as Hscr by (unfold t; field; lra).
  match goal with
  | |- context [Req_dec_T ?x 0] =>
      replace x with (pow (Rmin t 1) al * pow (Rmax t 1) m)
  end.
  2:{ unfold CKD_EPI_scale. cbv zeta.
      fold al. fold m.
      pose proof (pow_pos (age_base (CKD_EPI_params f)) age).
      destruct (CKD_EPI_params_signs f s r) as (_ & _ & _ & Hsx & Hr & _ & Hb).
      cbv zeta in Hsx, Hr, Hb.
      field. repeat split; lra. }
  destruct (Rle_lt_dec t 1) as [Hle | Hgt].
  - rewrite Rmin_left by exact Hle. rewrite Rmax_right by exact Hle.
    rewrite pow_base_1, Rmult_1_r.
    pose proof (pow_pos t al) as Hp.
    pose proof (pow_neg_le_1 t al Ht Hle Hal) as Hge.
    destruct (Req_dec_T (pow t al) 0) as [E | _]; [lra |].
    destruct (Rle_lt_dec 1 (pow t al)) as [_ | Hc]; [| lra].
    rewrite pow_exponent_inv by lra. symmetry. exact Hscr.
  - rewrite Rmin_right by lra. rewrite Rmax_left by lra.
    rewrite pow_base_1, Rmult_1_l.
    pose proof (pow_pos t m) as Hp.
    pose proof (pow_neg_gt_1 t m Hgt Hm) as Hlt.
    destruct (Req_dec_T (pow t m) 0) as [E | _]; [lra |].
    destruct (Rle_lt_dec 1 (pow t m)) as [Hc | _]; [lra |].
    rewrite pow_exponent_inv by lra. symmetry. exact Hscr.
Qed.

(** C6.  For every eGFR above 0 and every sex, age and race, translating
    from the 2021 formula to the 2009 one and back returns the value it
    started from (exactly, so within any rounding tolerance), because
    [creat_from_eGFR] inverts [CKD_EPI] under either formula: on the eGFR
    side and, for a positive creatinine, on the creatinine side. *)
Theorem eGFR_2021_2009_round_trip (egfr : R) (s : sex_t) (age : R) (r : race_t) :
  0 < egfr ->
  (exists egfr_2009,
      eGFR_2021_to_2009 egfr s age r = Some egfr_2009
      /\ 0 < egfr_2009
      /\ eGFR_2009_to_2021 egfr_2009 s age r = Some egfr)
  /\ (forall f, CKD_EPI (creat_from_eGFR egfr s age r f) s age r f = egfr)
  /\ (forall f scr, 0 < scr ->
        creat_from_eGFR (CKD_EPI scr s age r f) s age r f = scr).
Proof.
  intros He. split; [| split].
  - pose proof (creat_from_eGFR_pos egfr s age r F21 He) as Hc.
    exists (CKD_EPI (creat_from_eGFR egfr s age r F21) s age r F09).
    pose proof (CKD_EPI_pos (creat_from_eGFR egfr s age r F21) s age r F09)
      as Hx.
    split; [| split].
    + unfold eGFR_2021_to_2009.
      destruct (Req_dec_T egfr 0); [lra |].
      destruct (Rlt_dec egfr 0); [lra |].
      destruct (Req_dec_T _ 0); [lra | reflexivity].
    + exact Hx.
    + unfold eGFR_2009_to_2021.
      destruct (Req_dec_T _ 0); [lra |].
      destruct (Rlt_dec _ 0); [lra |].
      rewrite creat_from_eGFR_CKD_EPI by exact Hc.
      destruct (Req_dec_T _ 0); [lra |].
      rewrite CKD_EPI_creat_from_eGFR by exact He. reflexivity.
  - intros f. apply CKD_EPI_creat_from_eGFR. exact He.
  - intros f scr Hs. apply creat_from_eGFR_CKD_EPI. exact Hs.
Qed.

Lemma eGFR_2021_2009_round_trip_witness :
  0 < 55
  /\ exists egfr_2009,
      eGFR_2021_to_2009 55 F 60 NB = Some egfr_2009
      /\ 0 < egfr_2009
      /\ eGFR_2009_to_2021 egfr_2009 F 60 NB = Some 55.
Proof.
  assert (0 < 55) as H by lra.
  split; [exact H |].
  exact (proj1 (eGFR_2021_2009_round_trip 55 F 60 NB H)).
Defined.

End CKD_EPI_facts.

(** ** Rounding *)

Lemma rint_close (x : Q) :
  x - (1 # 2) <= inject_Z (rint x) /\ inject_Z (rint x) <= x + (1 # 2).
Proof.
  unfold rint.
  pose proof (Qfloor_le x) as Hlo. pose proof (Qlt_floor x) as Hhi.
  rewrite inject_Z_plus in Hhi. change (inject_Z 1) with 1 in Hhi.
  set (f := Qfloor x) in *.
  destruct (Qcompare (x - inject_Z f) (1 # 2)) eqn:E.
  - apply Qeq_alt in E.
    destruct (Z.even f); [| rewrite inject_Z_plus; change (inject_Z 1) with 1];
      lra.
  - apply Qlt_alt in E. lra.
  - apply Qgt_alt in E. rewrite inject_Z_plus. change (inject_Z 1) with 1. lra.
Qed.

Lemma round2_close (x : Q) : Qabs (round2 x - x) <= 1 # 200.
Proof.
  unfold round2. destruct (rint_close (x * 100)) as [Hlo Hhi].
  set (z := inject_Z (rint (x * 100))) in *.
  change (z / 100) with (z * (1 # 100)).
  apply Qabs_Qle_condition. split; lra.
Qed.

Lemma rint_comp (x y : Q) : x == y -> rint x = rint y.
Proof.
  intros H. unfold rint. rewrite (Qfloor_comp x y H).
  assert (x - inject_Z (Qfloor y) == y - inject_Z (Qfloor y)) as H'
      by (rewrite H; reflexivity).
  rewrite (Qcompare_comp _ _ H' (1 # 2) (1 # 2) (Qeq_refl _)). reflexivity.
Qed.

Lemma round2_comp (x y : Q) : x == y -> round2 x = round2 y.
Proof.
  intros H. unfold round2. rewrite (rint_comp (x * 100) (y * 100)).
  - reflexivity.
  - rewrite H. reflexivity.
Qed.

(** ** Lists and frames *)

Lemma nth_error_map_index {A B : Type} (f : nat -> A -> B) (l : list A) :
  forall i n, nth_error (map_index f i l) n
              = option_map (f (i + n)%nat) (nth_error l n).
Proof.
  induction l as [| x t IH]; intros i n.
  - destruct n; reflexivity.
  - destruct n as [| n]; simpl.
    + rewrite Nat.add_0_r. reflexivity.
    + rewrite IH. rewrite Nat.add_succ_r. reflexivity.
Qed.

Lemma length_map_index {A B : Type} (f : nat -> A -> B) (l : list A) :
  forall i, length (map_index f i l) = length l.
Proof.
  induction l as [| x t IH]; intros i; simpl; [reflexivity |].
  rewrite IH. reflexivity.
Qed.

Lemma firstn_S_nth_error {A : Type} (l : list A) :
  forall i x, nth_error l i = Some x -> firstn (S i) l = firstn i l ++ [x].
Proof.
  induction l as [| y t IH]; intros i x H.
  - destruct i; discriminate.
  - destruct i as [| i].
    + simpl in H. injection H as ->. reflexivity.
    + simpl in H. change (firstn (S (S i)) (y :: t))
        with (y :: firstn (S i) t).
      rewrite (IH i x H). reflexivity.
Qed.

Lemma find_none_forall {A : Type} (f : A -> bool) (l : list A) :
  Forall (fun x => f x = false) l -> find f l = None.
Proof.
  induction 1 as [| x t Hx _ IH]; simpl; [reflexivity |].
  rewrite Hx. exact IH.
Qed.

Lemma find_app_skip {A : Type} (f : A -> bool) (l1 l2 : list A) :
  Forall (fun x => f x = false) l1 -> find f (l1 ++ l2) = find f l2.
Proof.
  induction 1 as [| x t Hx _ IH]; simpl; [reflexivity |].
  rewrite Hx. exact IH.
Qed.

Lemma has_pid_false (p : Z) (l : frame) :
  Forall (fun r => pid r <> p) l -> Forall (fun r => has_pid p r = false) l.
Proof.
  intros H. eapply Forall_impl; [| exact H].
  intros r Hr. unfold has_pid. apply Z.eqb_neq. exact Hr.
Qed.

(** ** Decline integrator *)

Section Decline.

(** The rows [g] of individual [p] stand together in the frame, after rows
    [pre] of other individuals. *)
Variables (pre g post : frame) (p : Z).
Hypothesis g_pid : Forall (fun r => pid r = p) g.
Hypothesis pre_pid : Forall (fun r => pid r <> p) pre.

Let df := pre ++ g ++ post.

Lemma nth_error_block (n : nat) (r : row) :
  nth_error g n = Some r -> nth_error df (length pre + n) = Some r.
Proof.
  intros H. unfold df.
  rewrite nth_error_app2 by lia.
  replace (length pre + n - length pre)%nat with n by lia.
  rewrite nth_error_app1; [exact H |].
  apply nth_error_Some. congruence.
Qed.

Lemma block_pid (n : nat) (r : row) : nth_error g n = Some r -> pid r = p.
Proof.
  intros H. apply nth_error_In in H.
  rewrite Forall_forall in g_pid. exact (g_pid r H).
Qed.

Lemma init_egfr_block (r0 : row) :
  nth_error g 0 = Some r0 -> init_egfr df p = Some (egfr r0).
Proof.
  intros H. unfold init_egfr, df.
  rewrite find_app_skip by (apply has_pid_false; exact pre_pid).
  destruct g as [| x t]; [discriminate |].
  simpl in H. injection H as ->. simpl.
  assert (has_pid p r0 = true) as ->; [| reflexivity].
  unfold has_pid. apply Z.eqb_eq. inversion g_pid. assumption.
Qed.

Lemma dt_block (m : nat) (r r' : row) :
  nth_error g m = Some r -> nth_error g (S m) = Some r' ->
  dt df (length pre + m) = Some (age r' - age r).
Proof.
  intros Hr Hr'. unfold dt.
  replace (S (length pre + m)) with (length pre + S m)%nat by lia.
  rewrite (nth_error_block _ _ Hr').
  replace (length pre + S m)%nat with (S (length pre + m)) by lia.
  rewrite (firstn_S_nth_error df _ r (nth_error_block _ _ Hr)).
  rewrite rev_app_distr. simpl.
  assert (has_pid (pid r') r = true) as ->; [| reflexivity].
  unfold has_pid. apply Z.eqb_eq.
  rewrite (block_pid _ _ Hr), (block_pid _ _ Hr'). reflexivity.
Qed.

Lemma degfr_block (m : nat) (r r' : row) :
  nth_error g m = Some r -> nth_error g (S m) = Some r' ->
  degfr df (length pre + m) = Some (round2 ((age r' - age r) * slope r)).
Proof.
  intros Hr Hr'. unfold degfr.
  rewrite (dt_block _ _ _ Hr Hr'), (nth_error_block _ _ Hr). reflexivity.
Qed.

(** Before the block no row of [p] contributes to the running sum. *)
Lemma group_sum_before (col : nat -> option Q) (n : nat) :
  (n <= length pre)%nat -> group_sum df col p n == 0.
Proof.
  induction n as [| k IH]; intros Hn; simpl; [reflexivity |].
  rewrite IH by lia.
  assert (nth_error df k = nth_error pre k) as ->.
  { unfold df. apply nth_error_app1. lia. }
  destruct (nth_error pre k) as [r |] eqn:E; [| reflexivity].
  apply nth_error_In in E.
  rewrite Forall_forall in pre_pid. specialize (pre_pid r E).
  assert (has_pid p r = false) as ->; [| reflexivity].
  unfold has_pid. apply Z.eqb_neq. exact pre_pid.
Qed.

Lemma group_sum_block (n : nat) (r : row) :
  nth_error g n = Some r ->
  group_sum df (degfr df) p (length pre + n) == cum_decline g n.
Proof.
  revert r. induction n as [| m IH]; intros r Hr.
  - rewrite Nat.add_0_r. simpl. apply group_sum_before. lia.
  - destruct (nth_error g m) as [rm |] eqn:Em.
    2:{ apply nth_error_None in Em.
        assert (nth_error g (S m) = None) as E'
            by (apply nth_error_None; lia).
        congruence. }
    replace (length pre + S m)%nat with (S (length pre + m)) by lia.
    cbn [group_sum cum_decline]. rewrite (IH rm eq_refl).
    rewrite (nth_error_block _ _ Em), Em, Hr.
    rewrite (degfr_block _ _ _ Em Hr).
    assert (has_pid p rm = true) as ->; [| reflexivity].
    unfold has_pid. apply Z.eqb_eq. exact (block_pid _ _ Em).
Qed.

Lemma degfr_cum_block (n : nat) (r : row) :
  nth_error g n = Some r ->
  degfr_cum df (length pre + n) == cum_decline g n.
Proof.
  intros Hr. destruct n as [| m].
  - rewrite Nat.add_0_r. simpl.
    destruct (length pre) as [| j] eqn:El; [reflexivity |].
    simpl. unfold degfr_groupby_cumsum, degfr, dt.
    assert (nth_error df (S j) = Some r) as ->.
    { rewrite <- El. rewrite <- (Nat.add_0_r (length pre)).
      apply nth_error_block. exact Hr. }
    assert (firstn (S j) df = pre) as ->.
    { unfold df. rewrite <- El. rewrite firstn_app.
      rewrite firstn_all, Nat.sub_diag. simpl. apply app_nil_r. }
    rewrite find_none_forall; [reflexivity |].
    apply Forall_rev. rewrite (block_pid _ _ Hr).
    apply has_pid_false. exact pre_pid.
  - destruct (nth_error g m) as [rm |] eqn:Em.
    2:{ apply nth_error_None in Em.
        assert (nth_error g (S m) = None) as E'
            by (apply nth_error_None; lia).
        congruence. }
    replace (length pre + S m)%nat with (S (length pre + m)) by lia.
    cbn [degfr_cum]. unfold degfr_groupby_cumsum.
    rewrite (degfr_block _ _ _ Em Hr), (nth_error_block _ _ Em).
    rewrite (block_pid _ _ Em). cbn [fillna0].
    replace (S (length pre + m)) with (length pre + S m)%nat by lia.
    rewrite (group_sum_block _ _ Hr). reflexivity.
Qed.

Lemma get_decline_block (n : nat) (r r0 : row) :
  nth_error g 0 = Some r0 -> nth_error g n = Some r ->
  nth_error (get_decline df) (length pre + n)
  = Some (with_egfr r (egfr r0 - degfr_cum df (length pre + n))).
Proof.
  intros H0 Hr. unfold get_decline.
  rewrite nth_error_map_index, (nth_error_block _ _ Hr). simpl.
  unfold get_decline_row.
  rewrite (block_pid _ _ Hr), (init_egfr_block _ H0). reflexivity.
Qed.

End Decline.

(** C2.  In the frame returned by [get_decline], along the rows of one
    individual (stored together, as in a frame sorted by its index): each
    eGFR is the individual's first eGFR minus the cumulative sum of the
    (age gap x slope) products of the intervals before it, each product
    rounded to 2 decimals; so the eGFR of a row is the eGFR of the row
    before it minus the rounded slope_prev x age gap, within 0.005 of the
    unrounded line. *)
Theorem get_decline_piecewise_linear
    (pre g post : frame) (p : Z) (r0 : row) :
  Forall (fun r => pid r = p) g ->
  Forall (fun r => pid r <> p) pre ->
  nth_error g 0 = Some r0 ->
  let out := get_decline (pre ++ g ++ post) in
  (forall n r, nth_error g n = Some r ->
     exists e, nth_error out (length pre + n) = Some (with_egfr r e)
               /\ e == egfr r0 - cum_decline g n)
  /\ (forall n r r',
        nth_error g n = Some r -> nth_error g (S n) = Some r' ->
        exists e e',
          nth_error out (length pre + n) = Some (with_egfr r e)
          /\ nth_error out (length pre + S n) = Some (with_egfr r' e')
          /\ e' == e - round2 ((age r' - age r) * slope r)
          /\ Qabs (e' - (e - slope r * (age r' - age r))) <= 1 # 200).
Proof.
  intros Hg Hpre H0 out. split.
  - intros n r Hr. eexists. split.
    + apply (get_decline_block pre g post p Hg Hpre n r r0 H0 Hr).
    + rewrite (degfr_cum_block pre g post p Hg Hpre n r Hr). reflexivity.
  - intros n r r' Hr Hr'. eexists. eexists. split; [| split; [| split]].
    + apply (get_decline_block pre g post p Hg Hpre n r r0 H0 Hr).
    + apply (get_decline_block pre g post p Hg Hpre (S n) r' r0 H0 Hr').
    + rewrite (degfr_cum_block pre g post p Hg Hpre n r Hr).
      rewrite (degfr_cum_block pre g post p Hg Hpre (S n) r' Hr').
      cbn [cum_decline]. rewrite Hr, Hr'. ring.
    + rewrite (degfr_cum_block pre g post p Hg Hpre n r Hr).
      rewrite (degfr_cum_block pre g post p Hg Hpre (S n) r' Hr').
      cbn [cum_decline]. rewrite Hr, Hr'.
      pose proof (round2_close ((age r' - age r) * slope r)) as Hc.
      apply Qabs_Qle_condition in Hc. apply Qabs_Qle_condition.
      destruct Hc as [Hc1 Hc2]. split; lra.
Qed.

Lemma get_decline_piecewise_linear_witness :
  exists e e',
    nth_error (get_decline example_cohort) 4
    = Some (with_egfr (example_row 3 70 55 1 0) e)
    /\ nth_error (get_decline example_cohort) 5
       = Some (with_egfr (example_row 3 101 55 1 1) e')
    /\ e' == e - round2 ((101 - 70) * 1)
    /\ Qabs (e' - (e - 1 * (101 - 70))) <= 1 # 200.
Proof.
  assert (Forall (fun r => pid r = 3%Z)
            [example_row 3 70 55 1 0; example_row 3 101 55 1 1]) as Hg
      by (repeat constructor).
  assert (Forall (fun r => pid r <> 3%Z)
            [example_row 1 50 80 1 0; example_row 1 101 80 1 1;
             example_row 2 60 70 1 0; example_row 2 101 70 1 1]) as Hpre
      by (repeat constructor; discriminate).
  exact (proj2 (get_decline_piecewise_linear _ _ [] 3 _ Hg Hpre eq_refl)
           0%nat _ _ eq_refl eq_refl).
Defined.

Example get_decline_example_cohort :
  map (fun r => Qred (egfr r)) (get_decline example_cohort)
  = [80; 29; 70; 29; 55; 24].
Proof. vm_compute. reflexivity. Qed.

(** ** Cutoff detection *)

Lemma insert_pid_In (p x : Z) (l : list Z) :
  In x (insert_pid p l) <-> x = p \/ In x l.
Proof.
  induction l as [| q t IH]; simpl.
  - intuition.
  - destruct (p <? q)%Z; [simpl; intuition |].
    destruct (p =? q)%Z eqn:E.
    + apply Z.eqb_eq in E. subst q. simpl. intuition.
    + simpl. rewrite IH. intuition.
Qed.

Lemma groupby_keys_In (df : frame) (x : Z) :
  In x (groupby_keys df) <-> exists r, In r df /\ pid r = x.
Proof.
  unfold groupby_keys. induction df as [| r t IH]; simpl.
  - split; [contradiction | intros [r [[] _]]].
  - rewrite insert_pid_In, IH. split.
    + intros [-> | [r' [Hin Hp]]]; [exists r; auto | exists r'; auto].
    + intros [r' [[<- | Hin] Hp]]; [left; auto | right; exists r'; auto].
Qed.

Lemma last_error_In {A : Type} (l : list A) (x : A) :
  last_error l = Some x -> In x l.
Proof.
  unfold last_error. intros H. apply in_rev.
  destruct (rev l) as [| y t]; [discriminate |].
  injection H as ->. left. reflexivity.
Qed.

Lemma groupby_last_In (df : frame) (r : row) :
  In r (groupby_last df)
  <-> last_error (filter (has_pid (pid r)) df) = Some r.
Proof.
  unfold groupby_last. rewrite in_flat_map. split.
  - intros [p [_ Hr]].
    destruct (last_error (filter (has_pid p) df)) as [r' |] eqn:E;
      [| contradiction].
    destruct Hr as [<- | []].
    pose proof (last_error_In _ _ E) as Hin.
    apply filter_In in Hin. destruct Hin as [_ Hp].
    unfold has_pid in Hp. apply Z.eqb_eq in Hp. rewrite Hp. exact E.
  - intros E. exists (pid r). split.
    + apply groupby_keys_In. exists r. split; [| reflexivity].
      pose proof (last_error_In _ _ E) as Hin.
      apply filter_In in Hin. tauto.
    + rewrite E. left. reflexivity.
Qed.

Lemma filter_twice {A : Type} (f g : A -> bool) (l : list A) :
  filter f (filter g l) = filter (fun x => g x && f x) l.
Proof.
  induction l as [| x t IH]; simpl; [reflexivity |].
  destruct (g x); simpl; [destruct (f x) |]; rewrite IH; reflexivity.
Qed.

Lemma ignore_indices_spec (df : frame) (cutoff : Q) (q : Z) :
  existsb (Z.eqb q) (map pid (entries_at_cutoffs df [cutoff]))
  = at_cutoff_already df cutoff q.
Proof.
  unfold entries_at_cutoffs, at_cutoff_already.
  rewrite (filter_ext _ (fun r => Qeq_bool (round2 (egfr r)) cutoff))
    by (intros r; simpl; apply orb_false_r).
  induction df as [| r t IH]; simpl; [reflexivity |].
  destruct (Qeq_bool (round2 (egfr r)) cutoff); simpl.
  - rewrite IH. unfold has_pid. rewrite (Z.eqb_sym q (pid r)).
    rewrite andb_true_r. reflexivity.
  - rewrite IH. rewrite andb_false_r. reflexivity.
Qed.

(** The rows of individual [p] among those that enter the [groupby]. *)
Lemma above_cutoff_group (df : frame) (cutoff : Q) (p : Z) :
  filter (has_pid p)
    (filter (fun r => Qlt_bool cutoff (egfr r)
                      && negb (existsb (Z.eqb (pid r))
                                 (map pid (entries_at_cutoffs df [cutoff]))))
       df)
  = if at_cutoff_already df cutoff p then []
    else filter (fun r => has_pid p r && Qlt_bool cutoff (egfr r)) df.
Proof.
  rewrite filter_twice.
  rewrite (filter_ext _
             (fun r => negb (at_cutoff_already df cutoff p)
                       && (has_pid p r && Qlt_bool cutoff (egfr r)))).
  - destruct (at_cutoff_already df cutoff p); simpl; [| reflexivity].
    clear. induction df as [| r t IH]; [reflexivity | exact IH].
  - intros r. rewrite ignore_indices_spec.
    destruct (has_pid p r) eqn:Ep.
    + unfold has_pid in Ep. apply Z.eqb_eq in Ep. rewrite Ep.
      destruct (Qlt_bool cutoff (egfr r)),
        (at_cutoff_already df cutoff p); reflexivity.
    + rewrite andb_false_r. simpl. rewrite andb_false_r. reflexivity.
Qed.

Lemma age_at_cutoff_Some (r : row) (cutoff a : Q) :
  age_at_cutoff r cutoff = Some a
  <-> ~ slope r == 0 /\ a = round2 (age r + (egfr r - cutoff) / slope r).
Proof.
  unfold age_at_cutoff. destruct (Qeq_bool (slope r) 0) eqn:E; qbool.
  - split; [discriminate | intros [H _]; contradiction].
  - split.
    + intros H. injection H as <-. split; [exact E | reflexivity].
    + intros [_ ->]. reflexivity.
Qed.

(** The rows of [ret_df] before the overlap with [df] is resolved. *)
Lemma calculated_rows_In (df : frame) (cutoff : Q) (o : row) :
  In o
    (flat_map
       (fun r =>
          match age_at_cutoff r cutoff with
          | Some a =>
              if Qle_bool a 101 then [with_age (with_egfr r cutoff) a] else []
          | None => []
          end)
       (filter (fun r => negb (death r =? 1)%Z)
          (groupby_last
             (filter (fun r => Qlt_bool cutoff (egfr r)
                               && negb (existsb (Z.eqb (pid r))
                                          (map pid
                                             (entries_at_cutoffs df [cutoff]))))
                df))))
  <-> exists r a,
        last_above df cutoff (pid r) = Some r
        /\ at_cutoff_already df cutoff (pid r) = false
        /\ death r <> 1%Z
        /\ age_at_cutoff r cutoff = Some a /\ a <= 101
        /\ o = with_age (with_egfr r cutoff) a.
Proof.
  rewrite in_flat_map. split.
  - intros [r [Hin Ho]].
    apply filter_In in Hin. destruct Hin as [Hlast Hd].
    apply groupby_last_In in Hlast. rewrite above_cutoff_group in Hlast.
    destruct (at_cutoff_already df cutoff (pid r)) eqn:Eat;
      [discriminate |].
    destruct (age_at_cutoff r cutoff) as [a |] eqn:Ea; [| contradiction].
    destruct (Qle_bool a 101) eqn:El; [| contradiction].
    destruct Ho as [<- | []]. qbool.
    exists r, a. repeat split; try assumption.
    apply negb_true_iff in Hd. apply Z.eqb_neq in Hd. exact Hd.
  - intros (r & a & Hlast & Eat & Hd & Ea & Hle & ->).
    exists r. split.
    + apply filter_In. split.
      * apply groupby_last_In. rewrite above_cutoff_group, Eat. exact Hlast.
      * apply negb_true_iff. apply Z.eqb_neq. exact Hd.
    + rewrite Ea. apply Qle_bool_iff in Hle. rewrite Hle. left. reflexivity.
Qed.

Lemma last_above_pid (df : frame) (cutoff : Q) (p : Z) (r : row) :
  last_above df cutoff p = Some r ->
  In r df /\ pid r = p /\ cutoff < egfr r.
Proof.
  intros H. apply last_error_In in H. apply filter_In in H.
  destruct H as [Hin Hc]. apply andb_true_iff in Hc. destruct Hc as [Hp Hc].
  unfold has_pid in Hp. apply Z.eqb_eq in Hp. qbool. auto.
Qed.

Lemma same_key_spec (r1 r2 : row) :
  same_key r1 r2 = true <-> pid r1 = pid r2 /\ age r1 == age r2.
Proof.
  unfold same_key. rewrite andb_true_iff, Z.eqb_eq, Qeq_bool_iff. tauto.
Qed.

(** C1 (as the code has it).  [identify_age_at_cutoff] returns a row for an
    individual exactly in this case: the individual has a row above the
    cutoff, the last such row (frame order) has [death <> 1] and a nonzero
    slope, no row of the individual has an eGFR that rounds to the cutoff,
    and the interpolated age
    [round2 (age_last + (egfr_last - cutoff) / slope_last)] is at most 101.
    A later crossing is dropped, not clamped.  The returned row has that
    age, hence an age of at most 101, and [egfr = cutoff]; its other columns
    are those of the last row above the cutoff, unless [df] already has a row
    with the same [(pid, age)] key: then the first such row of [df] is
    returned with only [egfr] overwritten. *)
Theorem identify_age_at_cutoff_spec (df : frame) (cutoff : Q) :
  (forall p r,
      last_above df cutoff p = Some r ->
      at_cutoff_already df cutoff p = false ->
      death r <> 1%Z ->
      ~ slope r == 0 ->
      round2 (age r + (egfr r - cutoff) / slope r) <= 101 ->
      exists o, In o (identify_age_at_cutoff df cutoff) /\ pid o = p)
  /\ (forall o,
        In o (identify_age_at_cutoff df cutoff) ->
        exists r,
          let a := round2 (age r + (egfr r - cutoff) / slope r) in
          last_above df cutoff (pid o) = Some r
          /\ at_cutoff_already df cutoff (pid o) = false
          /\ death r <> 1%Z /\ ~ slope r == 0
          /\ age o == a /\ age o <= 101 /\ egfr o = cutoff
          /\ match find (fun r' => same_key r' (with_age r a)) df with
             | Some r' => o = with_egfr r' cutoff
             | None => o = with_age (with_egfr r cutoff) a
             end).
Proof.
  split.
  - intros p r Hlast Hat Hd Hs Hle.
    destruct (last_above_pid _ _ _ _ Hlast) as (_ & Hp & _).
    set (a := round2 (age r + (egfr r - cutoff) / slope r)) in *.
    set (o' := with_age (with_egfr r cutoff) a).
    exists (match find (fun r' => same_key r' o') df with
            | Some r' => with_egfr r' cutoff
            | None => o'
            end).
    split.
    + unfold identify_age_at_cutoff.
      apply (in_map (fun o => match find (fun r' => same_key r' o) df with
                              | Some r' => with_egfr r' cutoff
                              | None => o
                              end)).
      apply calculated_rows_In. exists r, a. rewrite Hp.
      repeat split; try assumption.
      apply age_at_cutoff_Some. split; [exact Hs | reflexivity].
    + destruct (find (fun r' => same_key r' o') df) as [r' |] eqn:Ef.
      * apply find_some in Ef. destruct Ef as [_ Hk].
        apply same_key_spec in Hk. destruct Hk as [Hk _].
        simpl in *. congruence.
      * simpl. exact Hp.
  - intros o Ho. unfold identify_age_at_cutoff in Ho.
    apply in_map_iff in Ho. destruct Ho as [o' [Ho Hin]].
    apply calculated_rows_In in Hin.
    destruct Hin as (r & a & Hlast & Hat & Hd & Ha & Hle & ->).
    apply age_at_cutoff_Some in Ha. destruct Ha as [Hs ->].
    exists r. cbv zeta.
    set (a := round2 (age r + (egfr r - cutoff) / slope r)) in *.
    change (fun r' => same_key r' (with_age r a))
      with (fun r' => same_key r' (with_age (with_egfr r cutoff) a)).
    destruct (find (fun r' => same_key r' (with_age (with_egfr r cutoff) a))
                df) as [r' |] eqn:Ef.
    + pose proof (find_some _ _ Ef) as [_ Hk].
      apply same_key_spec in Hk. destruct Hk as [Hk1 Hk2]. simpl in Hk1, Hk2.
      subst o. simpl. rewrite Hk1.
      repeat split; try assumption.
      rewrite Hk2. exact Hle.
    + subst o. simpl.
      repeat split; try assumption; reflexivity.
Qed.

Lemma identify_age_at_cutoff_spec_witness :
  exists o,
    In o (identify_age_at_cutoff (get_decline example_cohort) 45)
    /\ pid o = 3%Z.
Proof.
  apply (proj1 (identify_age_at_cutoff_spec (get_decline example_cohort) 45)
           3%Z (with_egfr (example_row 3 70 55 1 0) (55 - 0))).
  - reflexivity.
  - reflexivity.
  - discriminate.
  - discriminate.
  - discriminate.
Defined.

(** C1, the claim as written fails: an individual who has not died, has no
    row at the cutoff and has a last row above it, but would cross only at
    age 250, gets no row at all; the age is not clamped to the horizon. *)
Lemma identify_age_at_cutoff_late_crossing_dropped :
  let df := [example_row 1 50 80 (1 # 10) 0] in
  (forall r, In r df -> death r <> 1%Z)
  /\ at_cutoff_already df 60 1 = false
  /\ last_above df 60 1 = Some (example_row 1 50 80 (1 # 10) 0)
  /\ round2 (50 + (80 - 60) / (1 # 10)) == 250
  /\ identify_age_at_cutoff df 60 = [].
Proof.
  cbv zeta. repeat split.
  intros r [<- | []]. discriminate.
Qed.

(** ** Intervention sampler *)

Lemma conditional_prob_value (p f : Q) :
  ~ f == 1 ->
  exists q, conditional_prob p f = Ok q /\ q == (p - f) / (1 - f).
Proof.
  intros Hf. unfold conditional_prob, float_div.
  destruct (Qeq_bool (1 - f) 0) eqn:E; qbool.
  - exfalso. apply Hf. lra.
  - eexists. split; reflexivity.
Qed.

Lemma conditional_prob_negative (p f : Q) :
  p < f -> f < 1 -> exists q, conditional_prob p f = Ok q /\ q < 0.
Proof.
  intros Hpf Hf.
  destruct (conditional_prob_value p f) as [q [Hq Hv]]; [lra |].
  exists q. split; [exact Hq |]. rewrite Hv.
  apply Qlt_shift_div_r; lra.
Qed.

Lemma assign_indicator_const (c : indicator_name) (v : Z) (df : frame) :
  forall (A : Type) (rn : list A),
    length rn = length df ->
    assign_indicator c df (map (fun _ => v) rn)
    = Ok (map (fun r => with_indicator c r v) df).
Proof.
  induction df as [| r t IH]; intros A rn Hl.
  - destruct rn; [reflexivity | discriminate].
  - destruct rn as [| u rn]; [discriminate |].
    simpl. rewrite IH by (simpl in Hl; lia). reflexivity.
Qed.

Section Sampling_facts.

Variable rng : Type.
Variable random_uniform : rng -> Q * rng.
Variable random_bernoulli : Q -> rng -> Z * rng.

Lemma binomial_draws_negative (n : nat) (p : Q) (g : rng) :
  p < 0 -> binomial_draws rng random_bernoulli (S n) p g = Err ValueError.
Proof.
  intros Hp. simpl. unfold np_random_binomial.
  apply Qlt_bool_iff in Hp. rewrite Hp. reflexivity.
Qed.

(** C3 (as the code has it).  For [f < 1], [conditional_prob p_target f]
    is [(p_target - f) / (1 - f)]: 0.375 at (0.5, 0.2), 0 at (0.5, 0.5), and a
    negative number, returned as it is, whenever [f > p_target].  Nothing
    in the sampler checks its sign.  Given pre-generated draws
    ([common_rn], all at least 0) a frame at one stage whose diagnosed
    fraction exceeds the target is sampled without error and every
    individual gets [diag = 0]; with fresh draws the only error is the
    [ValueError] of numpy's binomial on a negative probability. *)
Theorem conditional_prob_sampling
    (df : frame) (params : interv_params) (s : ckd_stage) (f : Q)
    (rn : list Q) (g : rng) :
  (forall p_target f', f' < 1 ->
     exists q, conditional_prob p_target f' = Ok q
               /\ q == (p_target - f') / (1 - f'))
  /\ (exists q, conditional_prob 0.5 0.2 = Ok q /\ q == 0.375)
  /\ (exists q, conditional_prob 0.5 0.5 = Ok q /\ q == 0)
  /\ (forall p_target f', p_target < f' -> f' < 1 ->
        exists q, conditional_prob p_target f' = Ok q /\ q < 0)
  /\ (unique (map stage_diag df) = [Some s] ->
      frac_already_intervened df ev_diag = Ok f ->
      freq params ev_diag s < f -> f < 1 ->
      (length rn = length df -> (forall u, In u rn -> 0 <= u) ->
       sample_interventions rng random_bernoulli df ev_diag params (Some rn) g
       = Ok (map (fun r => with_indicator Diag r 0) df, g))
      /\ sample_interventions rng random_bernoulli df ev_diag params None g
         = Err ValueError).
Proof.
  split; [| split; [| split; [| split]]].
  - intros p_target f' Hf. apply conditional_prob_value. lra.
  - eexists. split; reflexivity.
  - eexists. split; reflexivity.
  - exact conditional_prob_negative.
  - intros Hu Hfrac Hlt Hf1.
    destruct (conditional_prob_negative _ _ Hlt Hf1) as [q [Hq Hneg]].
    unfold sample_interventions. rewrite Hu, Hfrac. simpl.
    rewrite Hq. simpl. split.
    + intros Hlen Hpos.
      rewrite (map_ext_in _ (fun _ => 0%Z)).
      * rewrite (assign_indicator_const Diag 0 df Q rn Hlen). reflexivity.
      * intros u Hin. specialize (Hpos u Hin).
        destruct (Qle_bool u q) eqn:E; [| reflexivity].
        qbool. exfalso. lra.
    + destruct df as [| r t]; [discriminate Hfrac |].
      change (length (r :: t)) with (S (length t)).
      rewrite (binomial_draws_negative _ _ _ Hneg). reflexivity.
Qed.

End Sampling_facts.

Lemma conditional_prob_sampling_witness :
  sample_interventions unit (fun _ g => (0%Z, g)) example_at_cutoff ev_diag
    example_interv_params (Some [0.1; 0.9; 0.4; 0.2; 0.7]) tt
  = Ok (map (fun r => with_indicator Diag r 0) example_at_cutoff, tt)
  /\ sample_interventions unit (fun _ g => (0%Z, g)) example_at_cutoff ev_diag
       example_interv_params None tt
     = Err ValueError.
Proof.
  pose proof (conditional_prob_sampling unit (fun _ g => (0%Z, g))
                example_at_cutoff example_interv_params G3a (3 # 5)
                [0.1; 0.9; 0.4; 0.2; 0.7] tt) as H.
  destruct H as (_ & _ & _ & _ & H).
  destruct (H eq_refl eq_refl eq_refl eq_refl) as [H1 H2].
  split; [| exact H2].
  apply H1; [reflexivity |].
  intros u Hin. simpl in Hin.
  repeat (destruct Hin as [<- | Hin]; [discriminate |]). contradiction.
Defined.

(** C3, the claim as written fails: with [f = 0.6 > p_target = 0.5] the
    conditional probability -0.25 is returned, and the sampler run on
    supplied draws raises nothing: it returns the frame with every
    diagnosis indicator set to 0. *)
Lemma conditional_prob_negative_not_flagged :
  (exists q, conditional_prob 0.5 0.6 = Ok q /\ q == -0.25)
  /\ frac_already_intervened example_at_cutoff ev_diag = Ok (3 # 5)
  /\ exists df',
      sample_interventions unit (fun _ g => (0%Z, g)) example_at_cutoff ev_diag
        example_interv_params (Some [0.1; 0.9; 0.4; 0.2; 0.7]) tt
      = Ok (df', tt)
      /\ map diag df' = [0; 0; 0; 0; 0]%Z.
Proof.
  split; [| split].
  - eexists. split; reflexivity.
  - reflexivity.
  - eexists. split; reflexivity.
Qed.

(** ** Survival tables *)

Lemma set_col_labels {V : Type} (k : Z) (v : V) (c : list (Z * V)) :
  map fst (set_col k v c) = map fst c
  \/ map fst (set_col k v c) = map fst c ++ [k].
Proof.
  unfold set_col. destruct (existsb _ c).
  - left. rewrite map_map. apply map_ext. intros x.
    destruct (fst x =? k)%Z; reflexivity.
  - right. rewrite map_app. reflexivity.
Qed.

Lemma set_col_label_In {V : Type} (k : Z) (v : V) (c : list (Z * V)) (a : Z) :
  In a (map fst c) -> In a (map fst (set_col k v c)).
Proof.
  intros H. destruct (set_col_labels k v c) as [-> | ->];
    [exact H | apply in_or_app; left; exact H].
Qed.

Lemma set_col_Forall {V : Type} (P : Z -> Prop) (k : Z) (v : V)
    (c : list (Z * V)) :
  Forall (fun x => P (fst x)) c -> P k ->
  Forall (fun x => P (fst x)) (set_col k v c).
Proof.
  intros Hc Hk. unfold set_col. destruct (existsb _ c).
  - apply Forall_map. eapply Forall_impl; [| exact Hc].
    intros x Hx. simpl. destruct (fst x =? k)%Z; exact Hx.
  - apply Forall_app. split; [exact Hc | constructor; [exact Hk | constructor]].
Qed.

Lemma get_col_set_col {V : Type} (k : Z) (v : V) (c : list (Z * V)) :
  get_col k (set_col k v c) = Some v.
Proof.
  unfold get_col, set_col. destruct (existsb _ c) eqn:E.
  - induction c as [| x t IH]; [discriminate |].
    simpl in E. simpl. destruct (fst x =? k)%Z eqn:Ex; simpl.
    + rewrite Ex. reflexivity.
    + rewrite Ex. apply IH. exact E.
  - induction c as [| x t IH]; simpl.
    + rewrite Z.eqb_refl. reflexivity.
    + simpl in E. apply orb_false_iff in E. destruct E as [Ex Et].
      rewrite Ex. apply IH. exact Et.
Qed.

Lemma get_col_Some {V : Type} (k : Z) (c : list (Z * V)) :
  In k (map fst c) -> exists v, get_col k c = Some v.
Proof.
  unfold get_col. induction c as [| x t IH]; simpl; [contradiction |].
  intros [H | H].
  - rewrite H, Z.eqb_refl. eexists. reflexivity.
  - destruct (fst x =? k)%Z; [eexists; reflexivity | exact (IH H)].
Qed.

Lemma get_col_In {V : Type} (k : Z) (v : V) (c : list (Z * V)) :
  get_col k c = Some v -> In (k, v) c.
Proof.
  unfold get_col. intros H.
  destruct (find _ c) as [x |] eqn:E; [| discriminate].
  apply find_some in E. destruct E as [Hin Hk].
  apply Z.eqb_eq in Hk. simpl in H. injection H as <-.
  destruct x as [a w]. simpl in Hk. subst a. exact Hin.
Qed.

Lemma loc_from_incl {V : Type} (k : Z) (c : list (Z * V)) :
  incl (loc_from k c) c.
Proof.
  induction c as [| x t IH]; simpl; [apply incl_refl |].
  destruct (fst x <? k)%Z; [apply incl_tl; exact IH | apply incl_refl].
Qed.

Lemma cumsum_from_labels (c : curve) :
  forall acc, map fst (cumsum_from acc c) = map fst c.
Proof.
  induction c as [| x t IH]; intros acc; simpl; [reflexivity |].
  rewrite IH. reflexivity.
Qed.

Lemma first_true_spec (l : list bool) :
  In true l ->
  exists i, first_true l = Some i /\ nth_error l i = Some true.
Proof.
  induction l as [| b t IH]; simpl; [contradiction |].
  intros H. destruct b.
  - exists O. split; reflexivity.
  - destruct H as [H | H]; [discriminate |].
    destruct (IH H) as [i [Hi Hn]]. exists (S i). rewrite Hi.
    split; [reflexivity | exact Hn].
Qed.

Lemma mapM_Forall2 {A B : Type} (f : A -> result B) (P : A -> B -> Prop)
    (l : list A) :
  (forall x, In x l -> exists y, f x = Ok y /\ P x y) ->
  exists ys, mapM f l = Ok ys /\ Forall2 P l ys.
Proof.
  induction l as [| x t IH]; intros H; simpl.
  - exists []. split; [reflexivity | constructor].
  - destruct (H x (or_introl eq_refl)) as [y [Hy Hp]].
    destruct IH as [ys [Hys Hf]]; [intros z Hz; apply H; right; exact Hz |].
    exists (y :: ys). rewrite Hy. simpl. rewrite Hys. simpl.
    split; [reflexivity | constructor; assumption].
Qed.

Lemma zipM_Forall2 {A B C : Type} (f : A -> B -> result C)
    (P : A -> B -> C -> Prop) (R : A -> B -> Prop) (l1 : list A) :
  forall l2,
    Forall2 R l1 l2 ->
    (forall x y, R x y -> exists z, f x y = Ok z /\ P x y z) ->
    exists zs, zipM f l1 l2 = Ok zs
               /\ length zs = length l1
               /\ Forall (fun z => exists x y, R x y /\ P x y z) zs.
Proof.
  induction l1 as [| x t IH]; intros l2 H2 Hf;
    inversion H2 as [| x' y l1' l2' Hxy Hrest]; subst.
  - exists []. repeat split. constructor.
  - destruct (Hf _ _ Hxy) as [z [Hz Hp]].
    destruct (IH _ Hrest Hf) as [zs [Hzs [Hl Hn]]].
    exists (z :: zs). simpl. rewrite Hz. simpl. rewrite Hzs. simpl.
    repeat split; [rewrite Hl; reflexivity |].
    constructor; [exists x, y; split; assumption | exact Hn].
Qed.

Lemma Forall2_zip_pointwise {A B : Type} (P : A -> Prop) (Q' : B -> Prop)
    (l1 : list A) :
  forall l2, length l1 = length l2 -> Forall P l1 -> Forall Q' l2 ->
             Forall2 (fun x y => P x /\ Q' y) l1 l2.
Proof.
  induction l1 as [| x t IH]; intros [| y l2] Hl H1 H2;
    try discriminate; [constructor |].
  inversion H1; inversion H2; subst. constructor; [split; assumption |].
  apply IH; [simpl in Hl; lia | assumption | assumption].
Qed.

Lemma uniform_draws_length (rng : Type) (random_uniform : rng -> Q * rng)
    (n : nat) :
  forall g, length (fst (uniform_draws rng random_uniform n g)) = n.
Proof.
  induction n as [| k IH]; intros g; simpl; [reflexivity |].
  rewrite IH. reflexivity.
Qed.

Lemma uniform_draws_range (rng : Type) (random_uniform : rng -> Q * rng)
    (P : Q -> Prop) (n : nat) :
  (forall g, P (fst (random_uniform g))) ->
  forall g, Forall P (fst (uniform_draws rng random_uniform n g)).
Proof.
  intros H. induction n as [| k IH]; intros g; simpl; constructor.
  - apply H.
  - apply IH.
Qed.

Section Survival_facts.

Variable np_exp : Q -> Q.
Variable rng : Type.
Variable random_uniform : rng -> Q * rng.

Lemma survival_from_hazards_label (h : curve) (a : Z) :
  In a (map fst h) -> In a (map fst (survival_from_hazards np_exp h)).
Proof.
  intros H. unfold survival_from_hazards. apply set_col_label_In.
  rewrite map_map. simpl. unfold np_cumsum.
  change (map (fun x : Z * Q => fst x) (cumsum_from 0 h))
    with (map fst (cumsum_from 0 h)).
  rewrite cumsum_from_labels. exact H.
Qed.

Lemma survival_from_hazards_bound (h : curve) :
  Forall (fun x => (fst x <= 100)%Z) h ->
  Forall (fun x => (fst x <= 100)%Z) (survival_from_hazards np_exp h).
Proof.
  intros H. unfold survival_from_hazards.
  apply (set_col_Forall (fun a => (a <= 100)%Z)); [| lia].
  apply Forall_map. simpl.
  assert (Forall (fun a => (a <= 100)%Z) (map fst (np_cumsum h))) as H'.
  { unfold np_cumsum. rewrite cumsum_from_labels.
    apply Forall_map. exact H. }
  rewrite Forall_map in H'. exact H'.
Qed.

(** The conditional survival of one row: defined as soon as the column
    before [init_age] exists, and exactly 0 at age 100. *)
Lemma conditional_on_survival_at_100 (init_age : Z) (h : curve) :
  (0 < init_age)%Z -> In (init_age - 1)%Z (map fst h) ->
  exists surv_t,
    conditional_on_survival init_age (survival_from_hazards np_exp h)
      distr_surv = Ok surv_t
    /\ get_col 100 surv_t = Some (Some 0)
    /\ (Forall (fun x => (fst x <= 100)%Z) h ->
        Forall (fun x => (fst x <= 100)%Z) surv_t).
Proof.
  intros Hpos Hin. unfold conditional_on_survival.
  apply Z.ltb_lt in Hpos. rewrite Hpos. simpl.
  destruct (get_col_Some _ _ (survival_from_hazards_label h _ Hin))
    as [v Hv].
  rewrite Hv. eexists. split; [reflexivity |]. split.
  - apply get_col_set_col.
  - intros Hb. apply (set_col_Forall (fun a => (a <= 100)%Z)); [| lia].
    apply Forall_map. simpl.
    pose proof (survival_from_hazards_bound h Hb) as Hs.
    rewrite Forall_forall in *. intros x Hx.
    apply Hs. exact (loc_from_incl _ _ x Hx).
Qed.

(** A CDF row that reaches the draw somewhere is inverted at a true
    crossing: the first column whose value is at least the draw. *)
Lemma sample_cat_crossing (cdf : ocurve) (u : Q) :
  (exists a v, In (a, Some v) cdf /\ u <= v) ->
  exists a v, sample_cat distr_cdf cdf u = Ok a
              /\ In (a, Some v) cdf /\ u <= v.
Proof.
  intros (a0 & v0 & Hin & Hle).
  assert (In true (map (fun x => ge_sample (snd x) u) cdf)) as Ht.
  { apply in_map_iff. exists (a0, Some v0). split; [| exact Hin].
    simpl. apply Qle_bool_iff. exact Hle. }
  destruct (first_true_spec _ Ht) as [i [Hi Hn]].
  unfold sample_cat, argmax. rewrite Hi.
  rewrite nth_error_map in Hn.
  destruct (nth_error cdf i) as [[a w] |] eqn:Ex; [| discriminate].
  simpl in Hn. injection Hn as Hn.
  destruct w as [v |]; [| discriminate]. simpl in Hn. qbool.
  exists a, v. rewrite nth_error_map, Ex. simpl.
  split; [reflexivity |]. split; [| exact Hn].
  exact (nth_error_In _ _ Ex).
Qed.

Lemma cdf_updated_at_100 (surv_t : ocurve) :
  get_col 100 surv_t = Some (Some 0) ->
  In (100%Z, Some (1 - 0))
     (map (fun x => (fst x, one_minus (snd x))) surv_t).
Proof.
  intros H. apply get_col_In in H.
  apply in_map_iff. exists (100%Z, Some 0). split; [reflexivity | exact H].
Qed.

Lemma cdf_updated_bound (surv_t : ocurve) :
  Forall (fun x => (fst x <= 100)%Z) surv_t ->
  forall a v,
    In (a, v) (map (fun x => (fst x, one_minus (snd x))) surv_t) ->
    (a <= 100)%Z.
Proof.
  intros Hb a v Hin. apply in_map_iff in Hin.
  destruct Hin as [x [Hx Hin]]. injection Hx as <- _.
  rewrite Forall_forall in Hb. exact (Hb x Hin).
Qed.

(** One row of the table: its conditional survival is defined, is 0 at
    age 100, and keeps the age columns within 100. *)
Lemma conditional_row_ok (final_hazards : list curve) (init_age : Z) :
  (0 < init_age)%Z ->
  Forall (fun h => In (init_age - 1)%Z (map fst h)
                   /\ Forall (fun x => (fst x <= 100)%Z) h) final_hazards ->
  forall h, In h final_hazards ->
    exists surv_t,
      conditional_on_survival init_age (survival_from_hazards np_exp h)
        distr_surv = Ok surv_t
      /\ get_col 100 surv_t = Some (Some 0)
      /\ Forall (fun x => (fst x <= 100)%Z) surv_t.
Proof.
  intros Hpos Hhaz h Hin. rewrite Forall_forall in Hhaz.
  destruct (Hhaz h Hin) as [Hl Hb].
  destruct (conditional_on_survival_at_100 init_age h Hpos Hl)
    as (s & Hs & H100 & Hbs).
  exists s. auto.
Qed.

(** A draw of at most 1 crosses the CDF of such a row, at an age of at
    most 100. *)
Lemma sample_cat_row_ok (surv_t : ocurve) (u : Q) :
  get_col 100 surv_t = Some (Some 0) ->
  Forall (fun x => (fst x <= 100)%Z) surv_t -> u <= 1 ->
  exists a v,
    sample_cat distr_cdf
      (map (fun x => (fst x, one_minus (snd x))) surv_t) u = Ok a
    /\ In (a, Some v) (map (fun x => (fst x, one_minus (snd x))) surv_t)
    /\ u <= v /\ (a <= 100)%Z.
Proof.
  intros H100 Hb Hu.
  destruct (sample_cat_crossing
              (map (fun x => (fst x, one_minus (snd x))) surv_t) u)
    as (a & v & Ha & Hin & Hle).
  - exists 100%Z, (1 - 0).
    split; [apply cdf_updated_at_100; exact H100 | lra].
  - exists a, v. repeat split; try assumption.
    exact (cdf_updated_bound surv_t Hb a _ Hin).
Qed.

(** [get_death_ages] returns, with one death age below 101 per row. *)
Lemma get_death_ages_total
    (final_hazards : list curve) (init_age : Z)
    (sample_year sample_cont : option (list Q)) (g : rng) :
  (0 < init_age)%Z ->
  Forall (fun h => In (init_age - 1)%Z (map fst h)
                   /\ Forall (fun x => (fst x <= 100)%Z) h) final_hazards ->
  (forall g', 0 <= fst (random_uniform g') /\ fst (random_uniform g') < 1) ->
  (forall l, sample_year = Some l ->
             length l = length final_hazards /\ Forall (fun u => u <= 1) l) ->
  (forall l, sample_cont = Some l ->
             length l = length final_hazards /\ Forall (fun c => c < 1) l) ->
  exists death_ages g',
    get_death_ages np_exp rng random_uniform final_hazards init_age
      sample_year sample_cont g = Ok (death_ages, g')
    /\ length death_ages = length final_hazards
    /\ Forall (fun d => exists a c, d = inject_Z a + c
                                    /\ (a <= 100)%Z /\ c < 1 /\ d < 101)
              death_ages.
Proof.
  intros Hpos Hhaz Hrng Hyear Hcont.
  pose proof (conditional_row_ok final_hazards init_age Hpos Hhaz) as Hrow.
  pose proof sample_cat_row_ok as Hcross.
  unfold get_death_ages. cbv zeta.
  match goal with
  | |- context [sample_cat_vectorized _ _ _ _ _ (snd ?t)] => set (c := t)
  end.
  assert (length (fst c) = length final_hazards
          /\ Forall (fun x => x < 1) (fst c)) as [Hcl Hcr].
  { unfold c. destruct sample_cont as [l |].
    - exact (Hcont l eq_refl).
    - split; [apply uniform_draws_length |].
      apply uniform_draws_range. intros g'. apply Hrng. }
  destruct (mapM_Forall2
              (fun s => conditional_on_survival init_age s distr_surv)
              (fun _ s => get_col 100 s = Some (Some 0)
                          /\ Forall (fun x => (fst x <= 100)%Z) s)
              (map (survival_from_hazards np_exp) final_hazards))
    as [surv_updated [Hm Hf2]].
  { intros x Hx. apply in_map_iff in Hx. destruct Hx as [h [<- Hin]].
    destruct (Hrow h Hin) as (s & Hs & H100 & Hb). exists s. auto. }
  rewrite Hm. simpl.
  assert (length surv_updated = length final_hazards) as Hsl.
  { apply Forall2_length in Hf2. rewrite length_map in Hf2. lia. }
  assert (Forall (fun s => get_col 100 s = Some (Some 0)
                           /\ Forall (fun x => (fst x <= 100)%Z) s)
                 surv_updated) as Hsu.
  { clear - Hf2. induction Hf2; constructor; assumption. }
  unfold sample_cat_vectorized. cbv zeta.
  match goal with
  | |- context [zipM (sample_cat distr_cdf) _ (fst ?t)] => set (y := t)
  end.
  assert (length (fst y) = length final_hazards
          /\ Forall (fun x => x <= 1) (fst y)) as [Hyl Hyr].
  { unfold y. destruct sample_year as [l |].
    - exact (Hyear l eq_refl).
    - split.
      + rewrite uniform_draws_length, length_map. exact Hsl.
      + apply uniform_draws_range. intros g'. cbv beta.
        apply Qlt_le_weak. apply Hrng. }
  destruct (zipM_Forall2 (sample_cat distr_cdf)
              (fun _ _ a => (a <= 100)%Z)
              (fun cdf u =>
                 (exists s, cdf = map (fun x => (fst x, one_minus (snd x))) s
                            /\ get_col 100 s = Some (Some 0)
                            /\ Forall (fun x => (fst x <= 100)%Z) s)
                 /\ u <= 1)
              (map (map (fun x => (fst x, one_minus (snd x)))) surv_updated)
              (fst y))
    as [labels [Hz [Hll Hlf]]].
  { apply Forall2_zip_pointwise.
    - unfold ocurve, curve in *. rewrite length_map, Hsl, Hyl. reflexivity.
    - apply Forall_map. eapply Forall_impl; [| exact Hsu].
      intros s [H100 Hb]. exists s. auto.
    - exact Hyr. }
  { intros cdf u [(s & -> & H100 & Hb) Hu].
    destruct (Hcross s u H100 Hb Hu) as (a & v & Ha & _ & _ & Hle).
    exists a. split; assumption. }
  rewrite Hz. simpl.
  rewrite length_map in Hll.
  destruct (zipM_Forall2 (fun a o => Ok (inject_Z a + o))
              (fun a o d => d = inject_Z a + o)
              (fun a o => (a <= 100)%Z /\ o < 1)
              labels (fst c))
    as [ages [Ha [Hal Haf]]].
  { apply Forall2_zip_pointwise.
    - unfold ocurve, curve in *. rewrite Hll, Hsl, Hcl. reflexivity.
    - eapply Forall_impl; [| exact Hlf].
      intros a (_ & _ & _ & Hle). exact Hle.
    - exact Hcr. }
  { intros a o _. eexists. split; reflexivity. }
  rewrite Ha. simpl. exists ages, (snd y).
  split; [reflexivity |].
  split; [unfold ocurve, curve in *; rewrite Hal, Hll, Hsl; reflexivity |].
  eapply Forall_impl; [| exact Haf].
  intros d (a & o & [Hle Ho] & ->). exists a, o.
  repeat split; try assumption.
  assert (inject_Z a <= 100) as Hq.
  { change 100 with (inject_Z 100). rewrite <- Zle_Qle. exact Hle. }
  lra.
Qed.

(** C10.  Whatever the hazard values (no sign or size is assumed, nor
    anything of [np.exp]), for a table whose age columns are at most 100
    and include [init_age - 1], and draws [u <= 1] with offsets below 1:
    the conditional survival of every row is exactly 0 at age 100, hence
    its CDF is 1 there and every draw finds a crossing column, of age at
    most 100; [get_death_ages] returns, one value per row, each an age of
    at most 100 plus an offset below 1, hence below 101. *)
Theorem death_age_sampling_total
    (final_hazards : list curve) (init_age : Z)
    (sample_year sample_cont : option (list Q)) (g : rng) :
  (0 < init_age)%Z ->
  Forall (fun h => In (init_age - 1)%Z (map fst h)
                   /\ Forall (fun x => (fst x <= 100)%Z) h) final_hazards ->
  (forall g', 0 <= fst (random_uniform g') /\ fst (random_uniform g') < 1) ->
  (forall l, sample_year = Some l ->
             length l = length final_hazards /\ Forall (fun u => u <= 1) l) ->
  (forall l, sample_cont = Some l ->
             length l = length final_hazards /\ Forall (fun c => c < 1) l) ->
  (forall h, In h final_hazards ->
     exists surv_t,
       conditional_on_survival init_age (survival_from_hazards np_exp h)
         distr_surv = Ok surv_t
       /\ get_col 100 surv_t = Some (Some 0)
       /\ forall u, u <= 1 ->
            exists a v,
              sample_cat distr_cdf
                (map (fun x => (fst x, one_minus (snd x))) surv_t) u = Ok a
              /\ In (a, Some v)
                    (map (fun x => (fst x, one_minus (snd x))) surv_t)
              /\ u <= v /\ (a <= 100)%Z)
  /\ exists death_ages g',
       get_death_ages np_exp rng random_uniform final_hazards init_age
         sample_year sample_cont g = Ok (death_ages, g')
       /\ length death_ages = length final_hazards
       /\ Forall (fun d => exists a c, d = inject_Z a + c
                                       /\ (a <= 100)%Z /\ c < 1 /\ d < 101)
                 death_ages.
Proof.
  intros Hpos Hhaz Hrng Hyear Hcont. split.
  - intros h Hin.
    destruct (conditional_row_ok final_hazards init_age Hpos Hhaz h Hin)
      as (s & Hs & H100 & Hb).
    exists s. repeat split; try assumption.
    intros u Hu. exact (sample_cat_row_ok s u H100 Hb Hu).
  - exact (get_death_ages_total final_hazards init_age sample_year
             sample_cont g Hpos Hhaz Hrng Hyear Hcont).
Qed.

End Survival_facts.

(** The example table has the column 29 and no column above 100. *)
Ltac example_hazards_ok :=
  repeat (apply Forall_cons;
          [ split;
            [ right; left; reflexivity
            | repeat (apply Forall_cons; [simpl; lia |]); apply Forall_nil ]
          | ]);
  apply Forall_nil.

Lemma death_age_sampling_total_witness :
  exists death_ages g',
    get_death_ages exp_stand_in unit constant_uniform example_hazards 30
      (Some [0.3; 1]) None tt = Ok (death_ages, g')
    /\ length death_ages = length example_hazards
    /\ Forall (fun d => exists a c, d = inject_Z a + c
                                    /\ (a <= 100)%Z /\ c < 1 /\ d < 101)
              death_ages.
Proof.
  apply (proj2 (death_age_sampling_total exp_stand_in unit constant_uniform
                  example_hazards 30 (Some [0.3; 1]) None tt
                  eq_refl
                  ltac:(example_hazards_ok)
                  ltac:(intros g'; split; [discriminate | reflexivity])
                  ltac:(intros l [= <-]; split;
                        [reflexivity | repeat constructor; discriminate])
                  ltac:(intros l [=]))).
Defined.

Example get_death_ages_example :
  get_death_ages exp_stand_in unit constant_uniform example_hazards 30
    (Some [0.3; 1]) None tt
  = Ok ([inject_Z 100 + (1 # 2); inject_Z 100 + (1 # 2)], tt).
Proof. vm_compute. reflexivity. Qed.

(** ** Common random numbers *)

Lemma bind_Ok {A B : Type} (c : result A) (k : A -> result B) (b : B) :
  bind c k = Ok b -> exists a, c = Ok a /\ k a = Ok b.
Proof.
  destruct c as [a | e]; simpl; [| discriminate].
  intros H. exists a. split; [reflexivity | exact H].
Qed.

Lemma mapM_nth {A B : Type} (f : A -> result B) (l : list A) :
  forall ys, mapM f l = Ok ys ->
    length ys = length l
    /\ forall i x, nth_error l i = Some x ->
         exists y, f x = Ok y /\ nth_error ys i = Some y.
Proof.
  induction l as [| x t IH]; intros ys H; simpl in H.
  - injection H as <-. split; [reflexivity |].
    intros i x Hx. destruct i; discriminate.
  - apply bind_Ok in H. destruct H as [y [Hy H]].
    apply bind_Ok in H. destruct H as [ys' [Hys H]].
    injection H as <-. destruct (IH ys' Hys) as [Hl Hn].
    split; [simpl; rewrite Hl; reflexivity |].
    intros i x0 Hx. destruct i as [| i]; simpl in *.
    + injection Hx as <-. exists y. split; [exact Hy | reflexivity].
    + exact (Hn i x0 Hx).
Qed.

Lemma zipM_nth {A B C : Type} (f : A -> B -> result C) (l1 : list A) :
  forall l2 zs, zipM f l1 l2 = Ok zs ->
    length zs = length l1 /\ length l2 = length l1
    /\ forall i x, nth_error l1 i = Some x ->
         exists y z, nth_error l2 i = Some y /\ f x y = Ok z
                     /\ nth_error zs i = Some z.
Proof.
  induction l1 as [| x t IH]; intros [| y l2] zs H; simpl in H;
    try discriminate.
  - injection H as <-. repeat split.
    intros i x Hx. destruct i; discriminate.
  - apply bind_Ok in H. destruct H as [z [Hz H]].
    apply bind_Ok in H. destruct H as [zs' [Hzs H]].
    injection H as <-. destruct (IH l2 zs' Hzs) as [Hl [Hl2 Hn]].
    split; [simpl; rewrite Hl; reflexivity |].
    split; [simpl; rewrite Hl2; reflexivity |].
    intros i x0 Hx. destruct i as [| i]; simpl in *.
    + injection Hx as <-. exists y, z. repeat split; assumption.
    + exact (Hn i x0 Hx).
Qed.

Lemma nth_error_ext {A : Type} (l1 : list A) :
  forall l2, length l1 = length l2 ->
    (forall i x, nth_error l1 i = Some x -> nth_error l2 i = Some x) ->
    l1 = l2.
Proof.
  induction l1 as [| x t IH]; intros [| y l2] Hl H; try discriminate;
    [reflexivity |].
  pose proof (H O x eq_refl) as H0. simpl in H0. injection H0 as ->.
  f_equal. apply IH; [simpl in Hl; lia |].
  intros i z Hz. exact (H (S i) z Hz).
Qed.

Section Common_random_numbers.

Variable np_exp : Q -> Q.
Variable rng : Type.
Variable random_uniform : rng -> Q * rng.

(** With supplied draws the death age of an individual is a function of
    its own hazard row, its own draw and its own offset. *)
Lemma get_death_ages_rowwise (final_hazards : list curve) (init_age : Z)
    (sample_year sample_cont : list Q) (g g' : rng) (death_ages : list Q) :
  get_death_ages np_exp rng random_uniform final_hazards init_age
    (Some sample_year) (Some sample_cont) g = Ok (death_ages, g') ->
  g' = g
  /\ length death_ages = length final_hazards
  /\ forall i h, nth_error final_hazards i = Some h ->
       exists u c d,
         nth_error sample_year i = Some u
         /\ nth_error sample_cont i = Some c
         /\ death_age_of_row np_exp init_age h u c = Ok d
         /\ nth_error death_ages i = Some d.
Proof.
  unfold get_death_ages, sample_cat_vectorized. cbv zeta. simpl fst. simpl snd.
  intros H.
  apply bind_Ok in H. destruct H as [surv_updated [Hm H]].
  apply bind_Ok in H. destruct H as [sampled [Hs H]].
  apply bind_Ok in Hs. destruct Hs as [labels [Hz Hs]].
  injection Hs as <-. simpl in H.
  apply bind_Ok in H. destruct H as [ages [Ha H]].
  injection H as <- <-.
  destruct (mapM_nth _ _ _ Hm) as [Hml Hmn].
  destruct (zipM_nth _ _ _ _ Hz) as [Hzl [Hzl2 Hzn]].
  destruct (zipM_nth _ _ _ _ Ha) as [Hal [Hal2 Han]].
  rewrite !length_map in *. unfold ocurve, curve in *.
  split; [reflexivity |].
  split; [etransitivity; [exact Hal |]; etransitivity; [exact Hzl | exact Hml] |].
  intros i h Hh.
  destruct (Hmn i (survival_from_hazards np_exp h)) as [s [Hcs Hsn]].
  { rewrite nth_error_map, Hh. reflexivity. }
  destruct (Hzn i (map (fun x => (fst x, one_minus (snd x))) s))
    as (u & a & Hu & Hsa & Hla).
  { rewrite nth_error_map, Hsn. reflexivity. }
  destruct (Han i a Hla) as (c & d & Hc & Hd & Hdn).
  exists u, c, d. repeat split; try assumption.
  unfold death_age_of_row. rewrite Hcs. cbn [bind]. rewrite Hsa. cbn [bind].
  exact Hd.
Qed.

End Common_random_numbers.

(** Without common random numbers the two runs read different draws: the
    same hazards and events give different death rows. *)
Example independent_draws_differ :
  exists bl cf g',
    two_scenarios_part4 exp_stand_in (list Q) stream_uniform example_hazards
      example_hazards example_events example_events 30 2 false example_stream
    = Ok ((bl, cf), g')
    /\ map (fun r => Qred (age r)) bl = [50; 1003 # 10; 60; 2019 # 20]
    /\ map (fun r => Qred (age r)) cf = [50; 10001 # 100; 60; 503 # 5].
Proof.
  eexists. eexists. eexists. split; [vm_compute; reflexivity |].
  split; vm_compute; reflexivity.
Qed.

(** ** Sorting by index *)

Section Insertion_sort.

Variable A : Type.
Variable leb : A -> A -> bool.
Hypothesis leb_total : forall x y, leb x y = false -> leb y x = true.
Hypothesis leb_trans :
  forall x y z, leb x y = true -> leb y z = true -> leb x z = true.

Lemma insert_sorted_In (x y : A) (l : list A) :
  In y (insert_sorted leb x l) <-> y = x \/ In y l.
Proof.
  induction l as [| z t IH]; simpl.
  - intuition.
  - destruct (leb x z); simpl; [intuition |].
    rewrite IH. intuition.
Qed.

Lemma fold_insert_sorted_In (y : A) (l : list A) :
  In y (fold_right (insert_sorted leb) [] l) <-> In y l.
Proof.
  induction l as [| x t IH]; simpl; [tauto |].
  rewrite insert_sorted_In, IH. intuition.
Qed.

Lemma insert_sorted_count (f : A -> bool) (x : A) (l : list A) :
  length (filter f (insert_sorted leb x l)) = length (filter f (x :: l)).
Proof.
  induction l as [| z t IH]; [reflexivity |].
  simpl. destruct (leb x z); [reflexivity |].
  simpl. simpl in IH.
  destruct (f z), (f x); simpl in *; rewrite IH; reflexivity.
Qed.

Lemma fold_insert_sorted_count (f : A -> bool) (l : list A) :
  length (filter f (fold_right (insert_sorted leb) [] l))
  = length (filter f l).
Proof.
  induction l as [| x t IH]; [reflexivity |].
  simpl. rewrite insert_sorted_count. simpl.
  destruct (f x); simpl; rewrite IH; reflexivity.
Qed.

Lemma insert_sorted_sorted (x : A) (l : list A) :
  StronglySorted (fun a b => leb a b = true) l ->
  StronglySorted (fun a b => leb a b = true) (insert_sorted leb x l).
Proof.
  induction 1 as [| z t Ht IH Hz]; simpl.
  - constructor; constructor.
  - destruct (leb x z) eqn:E.
    + constructor; [constructor; assumption |].
      constructor; [exact E |].
      eapply Forall_impl; [| exact Hz].
      intros a Ha. exact (leb_trans _ _ _ E Ha).
    + constructor; [exact IH |].
      rewrite Forall_forall. intros a Ha.
      apply insert_sorted_In in Ha. destruct Ha as [-> | Ha].
      * apply leb_total. exact E.
      * rewrite Forall_forall in Hz. exact (Hz a Ha).
Qed.

Lemma fold_insert_sorted_sorted (l : list A) :
  StronglySorted (fun a b => leb a b = true)
                 (fold_right (insert_sorted leb) [] l).
Proof.
  induction l as [| x t IH]; simpl; [constructor |].
  apply insert_sorted_sorted. exact IH.
Qed.

End Insertion_sort.

Lemma StronglySorted_app_order {A : Type} (R : A -> A -> Prop)
    (l1 l2 : list A) :
  StronglySorted R (l1 ++ l2) ->
  forall x y, In x l1 -> In y l2 -> R x y.
Proof.
  induction l1 as [| a t IH]; intros H x y Hx Hy; [contradiction |].
  simpl in H. inversion H as [| ? ? Ht Ha]; subst.
  destruct Hx as [-> | Hx].
  - rewrite Forall_forall in Ha. apply Ha. apply in_or_app. right. exact Hy.
  - exact (IH Ht x y Hx Hy).
Qed.

(** The last row that passes a filter splits the list: nothing after it
    passes. *)
Lemma last_error_filter_split {A : Type} (f : A -> bool) (l : list A)
    (r : A) :
  last_error (filter f l) = Some r ->
  exists l1 l2, l = l1 ++ r :: l2 /\ f r = true
                /\ Forall (fun x => f x = false) l2.
Proof.
  unfold last_error. induction l as [| x t IH]; simpl; [discriminate |].
  destruct (f x) eqn:E.
  - simpl. destruct (rev (filter f t)) as [| y u] eqn:Er.
    + simpl. intros H. injection H as <-.
      exists [], t. repeat split; [exact E |].
      assert (filter f t = []) as Hnil.
      { rewrite <- (rev_involutive (filter f t)), Er. reflexivity. }
      clear - Hnil. induction t as [| z t IH]; [constructor |].
      simpl in Hnil. destruct (f z) eqn:Ez; [discriminate |].
      constructor; [exact Ez | exact (IH Hnil)].
    + simpl. intros H. injection H as <-.
      destruct IH as (l1 & l2 & -> & Hr & Hl2); [reflexivity |].
      exists (x :: l1), l2. repeat split; assumption.
  - intros H. destruct (IH H) as (l1 & l2 & -> & Hr & Hl2).
    exists (x :: l1), l2. repeat split; assumption.
Qed.

Lemma last_error_filter_Some {A : Type} (f : A -> bool) (l : list A)
    (x : A) :
  In x l -> f x = true -> exists r, last_error (filter f l) = Some r.
Proof.
  intros Hin Hf. unfold last_error.
  assert (In x (rev (filter f l))) as H.
  { apply -> in_rev. apply filter_In. split; assumption. }
  destruct (rev (filter f l)) as [| r t]; [contradiction |].
  exists r. reflexivity.
Qed.

Lemma key_leb_total (x y : drow) : key_leb x y = false -> key_leb y x = true.
Proof.
  unfold key_leb. intros H.
  apply orb_false_iff in H. destruct H as [H1 H2].
  apply Z.ltb_ge in H1.
  destruct (d_pid y <? d_pid x)%Z eqn:E; [reflexivity |].
  apply Z.ltb_ge in E. simpl.
  assert (d_pid x = d_pid y) as Hp by lia.
  rewrite Hp, Z.eqb_refl in H2. simpl in H2. qbool.
  rewrite Hp, Z.eqb_refl. simpl. apply Qle_bool_iff. lra.
Qed.

Lemma key_leb_spec (x y : drow) :
  key_leb x y = true
  <-> (d_pid x < d_pid y)%Z \/ (d_pid x = d_pid y /\ d_age x <= d_age y).
Proof.
  unfold key_leb.
  rewrite orb_true_iff, andb_true_iff, Z.ltb_lt, Z.eqb_eq, Qle_bool_iff.
  tauto.
Qed.

Lemma key_leb_trans (x y z : drow) :
  key_leb x y = true -> key_leb y z = true -> key_leb x z = true.
Proof.
  rewrite !key_leb_spec.
  intros [H1 | [H1 H1']] [H2 | [H2 H2']].
  - left. lia.
  - left. lia.
  - left. lia.
  - right. split; [lia | lra].
Qed.

Lemma sort_index_In (r : drow) (df : list drow) :
  In r (sort_index df) <-> In r df.
Proof. apply fold_insert_sorted_In. Qed.

Lemma sort_index_count (f : drow -> bool) (df : list drow) :
  length (filter f (sort_index df)) = length (filter f df).
Proof. apply fold_insert_sorted_count. Qed.

Lemma sort_index_sorted (df : list drow) :
  StronglySorted (fun a b => key_leb a b = true) (sort_index df).
Proof.
  apply fold_insert_sorted_sorted.
  - exact key_leb_total.
  - exact key_leb_trans.
Qed.

(** ** Death phase *)

Lemma rint_le_int (y : Q) (n : Z) : y <= inject_Z n -> (rint y <= n)%Z.
Proof.
  intros H. unfold rint.
  pose proof (Qfloor_le y) as Hlo.
  assert (Qfloor y <= n)%Z as Hf.
  { rewrite <- (Qfloor_Z n). apply Qfloor_resp_le. exact H. }
  destruct (Z.eq_dec (Qfloor y) n) as [E | E].
  - assert (y - inject_Z (Qfloor y) < 1 # 2) as Hlt.
    { rewrite E in *. lra. }
    destruct (Qcompare (y - inject_Z (Qfloor y)) (1 # 2)) eqn:Ec.
    + apply Qeq_alt in Ec. exfalso. lra.
    + exact Hf.
    + apply Qgt_alt in Ec. exfalso. lra.
  - destruct (Qcompare _ _); [destruct (Z.even _) | |]; lia.
Qed.

Lemma round2_le_101 (x : Q) : x <= 101 -> round2 x <= 101.
Proof.
  intros H. unfold round2.
  assert (rint (x * 100) <= 10100)%Z as Hr.
  { apply rint_le_int. change (inject_Z 10100) with 10100. lra. }
  rewrite Zle_Qle in Hr. change (inject_Z 10100) with 10100 in Hr.
  set (z := inject_Z (rint (x * 100))) in *.
  change (z / 100) with (z * (1 # 100)). lra.
Qed.

Lemma drop_duplicates_In (x : Z) (l : list Z) :
  In x (drop_duplicates l) <-> In x l.
Proof.
  induction l as [| y t IH]; simpl; [tauto |].
  rewrite filter_In, IH, negb_true_iff, Z.eqb_neq.
  destruct (Z.eq_dec y x) as [-> | Hne]; intuition.
Qed.

Lemma drop_duplicates_NoDup (l : list Z) : NoDup (drop_duplicates l).
Proof.
  induction l as [| y t IH]; simpl; constructor.
  - rewrite filter_In, negb_true_iff, Z.eqb_neq. intros [_ H]. congruence.
  - apply NoDup_filter. exact IH.
Qed.

Lemma zipM_pairs (pids : list Z) :
  forall (ages : list Q) (dd : list (Z * Q)),
    zipM (fun p d => Ok (p, round2 d)) pids ages = Ok dd ->
    map fst dd = pids /\ map snd dd = map round2 ages.
Proof.
  induction pids as [| p t IH]; intros [| d ages] dd H; simpl in H;
    try discriminate.
  - injection H as <-. split; reflexivity.
  - apply bind_Ok in H. destruct H as [dd' [Hd H]].
    injection H as <-. destruct (IH _ _ Hd) as [H1 H2].
    simpl. rewrite H1, H2. split; reflexivity.
Qed.

Lemma NoDup_fst_functional {A B : Type} (l : list (A * B)) (a : A)
    (b b' : B) :
  NoDup (map fst l) -> In (a, b) l -> In (a, b') l -> b = b'.
Proof.
  induction l as [| [x y] t IH]; simpl; intros Hn H1 H2; [contradiction |].
  inversion Hn as [| ? ? Hx Ht]; subst.
  destruct H1 as [H1 | H1], H2 as [H2 | H2].
  - congruence.
  - injection H1 as -> ->. exfalso. apply Hx.
    apply in_map_iff. exists (a, b'). split; [reflexivity | exact H2].
  - injection H2 as -> ->. exfalso. apply Hx.
    apply in_map_iff. exists (a, b). split; [reflexivity | exact H1].
  - exact (IH Ht H1 H2).
Qed.

Lemma filter_none {A : Type} (f : A -> bool) (l : list A) :
  (forall x, In x l -> f x = false) -> filter f l = [].
Proof.
  induction l as [| x t IH]; intros H; simpl; [reflexivity |].
  rewrite (H x (or_introl eq_refl)). apply IH.
  intros y Hy. apply H. right. exact Hy.
Qed.

(** Among death entries with distinct pids, exactly one is at or after the
    death age of individual [p]: its own. *)
Lemma death_entry_count (dd : list (Z * Q)) (p : Z) (da : Q) :
  NoDup (map fst dd) -> In (p, da) dd ->
  length (filter (fun d => (fst d =? p)%Z && Qle_bool da (snd d)) dd) = 1%nat.
Proof.
  induction dd as [| [x y] t IH]; simpl; intros Hn Hin; [contradiction |].
  inversion Hn as [| ? ? Hx Ht]; subst.
  destruct Hin as [Hin | Hin].
  - injection Hin as -> ->. rewrite Z.eqb_refl. simpl.
    assert (Qle_bool da da = true) as -> by (apply Qle_bool_iff; lra).
    simpl. rewrite filter_none; [reflexivity |].
    intros [x y] Hxy. simpl.
    destruct (x =? p)%Z eqn:E; [| reflexivity].
    apply Z.eqb_eq in E. subst x. exfalso. apply Hx.
    apply in_map_iff. exists (p, y). split; [reflexivity | exact Hxy].
  - destruct (x =? p)%Z eqn:E.
    + apply Z.eqb_eq in E. subst x. exfalso. apply Hx.
      apply in_map_iff. exists (p, da). split; [reflexivity | exact Hin].
    + simpl. exact (IH Ht Hin).
Qed.

Lemma merge_on_pid_In (df_events : frame) (dd : list (Z * Q)) (e : row)
    (da : Q) :
  In (e, da) (merge_on_pid df_events dd)
  <-> In e df_events /\ In (pid e, da) dd.
Proof.
  unfold merge_on_pid. rewrite in_flat_map. split.
  - intros [r [Hr Hin]]. apply in_map_iff in Hin.
    destruct Hin as [[x y] [Hxy Hd]]. injection Hxy as -> ->.
    apply filter_In in Hd. destruct Hd as [Hd Hp].
    simpl in Hp. apply Z.eqb_eq in Hp. subst x. split; assumption.
  - intros [He Hd]. exists e. split; [exact He |].
    apply in_map_iff. exists (pid e, da). split; [reflexivity |].
    apply filter_In. split; [exact Hd |]. simpl. apply Z.eqb_refl.
Qed.

(** The rows of [combine_with_death]: the events rows before the death
    age of their individual, and the death rows. *)
Lemma combine_with_death_In (df_events : frame) (dd : list (Z * Q))
    (r : drow) :
  In r (combine_with_death df_events dd)
  <-> (exists e da, In e df_events /\ In (pid e, da) dd /\ age e < da
                    /\ r = drow_of_row e)
      \/ (exists d, In d dd /\ r = mkDrow (fst d) (snd d) 1 None None).
Proof.
  unfold combine_with_death. cbv zeta.
  rewrite sort_index_In, in_app_iff, sort_index_In, !in_map_iff.
  split.
  - intros [[[e da] [<- Hin]] | [d [<- Hd]]].
    + apply filter_In in Hin. destruct Hin as [Hin Hlt].
      apply merge_on_pid_In in Hin. simpl in Hlt. qbool.
      left. exists e, da. simpl. tauto.
    + right. exists d. split; [exact Hd | reflexivity].
  - intros [(e & da & He & Hd & Hlt & ->) | (d & Hd & ->)].
    + left. exists (e, da). split; [reflexivity |].
      apply filter_In. split; [apply merge_on_pid_In; tauto |].
      simpl. apply Qlt_bool_iff. exact Hlt.
    + right. exists d. split; [reflexivity | exact Hd].
Qed.

Lemma combine_with_death_sorted (df_events : frame) (dd : list (Z * Q)) :
  StronglySorted (fun a b => key_leb a b = true)
                 (combine_with_death df_events dd).
Proof. apply sort_index_sorted. Qed.

Lemma combine_with_death_count (df_events : frame) (dd : list (Z * Q))
    (p : Z) (da : Q) :
  NoDup (map fst dd) -> In (p, da) dd ->
  length (filter (fun x => (d_pid x =? p)%Z && Qle_bool da (d_age x))
                 (combine_with_death df_events dd)) = 1%nat.
Proof.
  intros Hn Hin. unfold combine_with_death. cbv zeta.
  rewrite sort_index_count, filter_app, length_app.
  rewrite filter_none.
  - simpl. rewrite <- (death_entry_count dd p da Hn Hin).
    clear. induction dd as [| d t IH]; [reflexivity |].
    simpl. destruct ((fst d =? p)%Z && Qle_bool da (snd d)); simpl;
      rewrite IH; reflexivity.
  - intros x Hx. rewrite sort_index_In in Hx. apply in_map_iff in Hx.
    destruct Hx as [[e da'] [<- Hx]]. apply filter_In in Hx.
    destruct Hx as [Hx Hlt]. apply merge_on_pid_In in Hx.
    destruct Hx as [_ Hd]. simpl in Hlt. qbool. simpl.
    destruct (pid e =? p)%Z eqn:E; [| reflexivity].
    apply Z.eqb_eq in E. rewrite E in Hd.
    rewrite (NoDup_fst_functional dd p da da' Hn Hin Hd).
    simpl. apply Qle_bool_false. exact Hlt.
Qed.

(** The last row of an individual in [combine_with_death] is its death
    row. *)
Lemma combine_with_death_last (df_events : frame) (dd : list (Z * Q))
    (p : Z) (da : Q) :
  NoDup (map fst dd) -> In (p, da) dd ->
  last_error (filter (fun x => (d_pid x =? p)%Z)
                     (combine_with_death df_events dd))
  = Some (mkDrow p da 1 None None).
Proof.
  intros Hn Hin.
  set (D := combine_with_death df_events dd).
  set (dr := mkDrow p da 1 None None).
  assert (In dr D) as Hdr.
  { apply combine_with_death_In. right. exists (p, da).
    split; [exact Hin | reflexivity]. }
  destruct (last_error_filter_Some (fun x => (d_pid x =? p)%Z) D dr Hdr)
    as [rl Hrl]; [apply Z.eqb_refl |].
  rewrite Hrl. f_equal.
  destruct (last_error_filter_split _ _ _ Hrl) as (l1 & l2 & HD & Hp & Hl2).
  apply Z.eqb_eq in Hp.
  assert (In rl D) as Hin_rl.
  { rewrite HD. apply in_or_app. right. left. reflexivity. }
  apply combine_with_death_In in Hin_rl.
  destruct Hin_rl as [(e & da' & He & Hd & Hlt & ->) | (d & Hd & ->)].
  - exfalso. simpl in Hp. rewrite Hp in Hd.
    rewrite <- (NoDup_fst_functional dd p da da' Hn Hin Hd) in Hlt.
    rewrite HD in Hdr. apply in_app_or in Hdr.
    destruct Hdr as [Hdr | [Hdr | Hdr]].
    + pose proof (combine_with_death_sorted df_events dd) as Hs.
      fold D in Hs. rewrite HD in Hs.
      pose proof (StronglySorted_app_order _ _ _ Hs dr (drow_of_row e) Hdr
                    (or_introl eq_refl)) as Hle.
      apply key_leb_spec in Hle. simpl in Hle.
      destruct Hle as [Hle | [_ Hle]]; [lia | lra].
    + discriminate Hdr.
    + rewrite Forall_forall in Hl2. specialize (Hl2 dr Hdr).
      simpl in Hl2. rewrite Z.eqb_refl in Hl2. discriminate.
  - simpl in Hp. destruct d as [x y]. simpl in *. subst x. unfold dr.
    rewrite (NoDup_fst_functional dd p da y Hn Hin Hd). reflexivity.
Qed.

Lemma filter_map_key {A K : Type} (k : A -> K) (phi : K -> bool)
    (l : list A) :
  map k (filter (fun x => phi (k x)) l) = filter phi (map k l).
Proof.
  induction l as [| x t IH]; simpl; [reflexivity |].
  destruct (phi (k x)); simpl; rewrite IH; reflexivity.
Qed.

Lemma last_error_map {A B : Type} (f : A -> B) (l : list A) :
  last_error (map f l) = option_map f (last_error l).
Proof.
  unfold last_error. rewrite <- map_rev.
  destruct (rev l); reflexivity.
Qed.

Lemma update_egfr_keys (df other : list drow) :
  map drow_key (update_egfr df other) = map drow_key df.
Proof.
  unfold update_egfr. rewrite map_map. apply map_ext. intros r.
  destruct (find _ other) as [u |]; [| reflexivity].
  destruct (d_egfr u); reflexivity.
Qed.

Lemma ffill_keys (df : list drow) :
  forall e c, map drow_key (ffill e c df) = map drow_key df.
Proof.
  induction df as [| r t IH]; intros e c; simpl; [reflexivity |].
  rewrite IH. reflexivity.
Qed.

Lemma astype_keys (df : list drow) :
  forall final, mapM astype df = Ok final ->
                map row_key final = map drow_key df.
Proof.
  induction df as [| r t IH]; intros final H; simpl in H.
  - injection H as <-. reflexivity.
  - apply bind_Ok in H. destruct H as [y [Hy H]].
    apply bind_Ok in H. destruct H as [ys [Hys H]].
    injection H as <-. simpl. rewrite (IH ys Hys). f_equal.
    unfold astype in Hy.
    destruct (d_egfr r), (d_cols r); try discriminate.
    injection Hy as <-. reflexivity.
Qed.

(** Whatever a test on the index and the death flag selects in the final
    frame, it selects in [combine_with_death], in the same order. *)
Lemma filter_keys_transport (phi : Z * Q * Z -> bool) (final : frame)
    (D : list drow) :
  map row_key final = map drow_key D ->
  map row_key (filter (fun r => phi (row_key r)) final)
  = map drow_key (filter (fun d => phi (drow_key d)) D).
Proof.
  intros H. rewrite !filter_map_key, H. reflexivity.
Qed.

Section Death_phase_facts.

Variable np_exp : Q -> Q.
Variable rng : Type.
Variable random_uniform : rng -> Q * rng.

Lemma model_part4_keys (final_hazards : list curve) (df_events : frame)
    (init_age : Z) (sample_year sample_cont : option (list Q)) (g g' : rng)
    (final : frame) :
  model_part4 np_exp rng random_uniform final_hazards df_events init_age
    sample_year sample_cont g = Ok (final, g') ->
  exists death_ages df_death,
    get_death_ages np_exp rng random_uniform final_hazards init_age
      sample_year sample_cont g = Ok (death_ages, g')
    /\ map fst df_death = drop_duplicates (map pid df_events)
    /\ map snd df_death = map round2 death_ages
    /\ map row_key final
       = map drow_key (combine_with_death df_events df_death).
Proof.
  unfold model_part4, sample_df_death. intros H.
  apply bind_Ok in H. destruct H as [[dd g1] [Hd H]].
  apply bind_Ok in Hd. destruct Hd as [[ages g2] [Hg Hd]].
  apply bind_Ok in Hd. destruct Hd as [dd' [Hz Hd]].
  injection Hd as <- <-. cbv zeta in H.
  apply bind_Ok in H. destruct H as [fin [Hf H]].
  injection H as <- <-. simpl fst in *. simpl snd in *.
  destruct (zipM_pairs _ _ _ Hz) as [H1 H2].
  exists ages, dd'. repeat split; try assumption.
  rewrite (astype_keys _ _ Hf), ffill_keys, update_egfr_keys. reflexivity.
Qed.

(** The entries of [df_death]: the pid at position [i] with the rounded
    death age at position [i]. *)
Lemma df_death_entries (dd : list (Z * Q)) (pids : list Z) (ages : list Q) :
  map fst dd = pids -> map snd dd = map round2 ages ->
  length ages = length pids
  /\ (forall i p, nth_error pids i = Some p ->
        exists d, nth_error ages i = Some d /\ In (p, round2 d) dd)
  /\ (forall p da, In (p, da) dd ->
        exists i d, nth_error pids i = Some p
                    /\ nth_error ages i = Some d /\ da = round2 d).
Proof.
  intros H1 H2.
  assert (forall i x y, nth_error dd i = Some (x, y) ->
            nth_error pids i = Some x
            /\ exists d, nth_error ages i = Some d /\ y = round2 d) as Hnth.
  { intros i x y E. split.
    - rewrite <- H1, nth_error_map, E. reflexivity.
    - assert (nth_error (map snd dd) i = Some y) as Hy
          by (rewrite nth_error_map, E; reflexivity).
      rewrite H2, nth_error_map in Hy.
      destruct (nth_error ages i) as [d |]; [| discriminate].
      simpl in Hy. injection Hy as <-. exists d. split; reflexivity. }
  split; [| split].
  - rewrite <- H1, length_map, <- (length_map snd dd), H2, length_map.
    reflexivity.
  - intros i p Hp. rewrite <- H1, nth_error_map in Hp.
    destruct (nth_error dd i) as [[x y] |] eqn:E; [| discriminate].
    simpl in Hp. injection Hp as ->.
    destruct (Hnth i p y E) as [_ [d [Hd ->]]].
    exists d. split; [exact Hd | exact (nth_error_In _ _ E)].
  - intros p da Hin. apply In_nth_error in Hin. destruct Hin as [i E].
    destruct (Hnth i p da E) as [Hp [d [Hd ->]]].
    exists i, d. repeat split; assumption.
Qed.

(** The death rows of phase 4.  The individual at position [i] of
    [df_events.pid.drop_duplicates()] gets the death age at position [i]
    of the array that [get_death_ages] returns, rounded to 2 decimals: its
    last row in the final frame is at that age with [death = 1], and it is
    the only row of the individual at or after that age. *)
Lemma model_part4_death_rows (final_hazards : list curve) (df_events : frame)
    (init_age : Z) (sample_year sample_cont : option (list Q)) (g g' : rng)
    (final : frame) :
  model_part4 np_exp rng random_uniform final_hazards df_events init_age
    sample_year sample_cont g = Ok (final, g') ->
  exists death_ages : list Q,
    get_death_ages np_exp rng random_uniform final_hazards init_age
      sample_year sample_cont g = Ok (death_ages, g')
    /\ length death_ages = length (drop_duplicates (map pid df_events))
    /\ (forall i p,
          nth_error (drop_duplicates (map pid df_events)) i = Some p ->
          exists d r,
            nth_error death_ages i = Some d
            /\ last_error (filter (has_pid p) final) = Some r
            /\ death r = 1%Z /\ age r = round2 d
            /\ length (filter (fun x => has_pid p x
                                        && Qle_bool (round2 d) (age x))
                              final) = 1%nat)
    /\ (forall r, In r final ->
          exists i d,
            nth_error (drop_duplicates (map pid df_events)) i = Some (pid r)
            /\ nth_error death_ages i = Some d
            /\ age r <= round2 d).
Proof.
  intros H.
  destruct (model_part4_keys _ _ _ _ _ _ _ _ H)
    as (ages & dd & Hg & Hfst & Hsnd & Hkeys).
  destruct (df_death_entries dd _ ages Hfst Hsnd) as (Hlen & Hto & Hfrom).
  set (D := combine_with_death df_events dd) in *.
  assert (NoDup (map fst dd)) as Hn
      by (rewrite Hfst; apply drop_duplicates_NoDup).
  exists ages. split; [exact Hg |]. split; [exact Hlen |]. split.
  - intros i p Hp. destruct (Hto i p Hp) as [d [Hd Hda]].
    assert (map row_key (filter (has_pid p) final)
            = map drow_key (filter (fun x => (d_pid x =? p)%Z) D)) as Ht
        by exact (filter_keys_transport
                    (fun k => (fst (fst k) =? p)%Z) final D Hkeys).
    pose proof (combine_with_death_last df_events dd p (round2 d) Hn Hda)
      as Hl.
    fold D in Hl.
    apply (f_equal last_error) in Ht. rewrite !last_error_map, Hl in Ht.
    destruct (last_error (filter (has_pid p) final)) as [r |] eqn:Er;
      [| discriminate].
    simpl in Ht. injection Ht as Hpid Hage Hdeath.
    exists d, r. repeat split; try assumption.
    assert (map row_key
              (filter (fun x => has_pid p x && Qle_bool (round2 d) (age x))
                      final)
            = map drow_key
                (filter (fun x => (d_pid x =? p)%Z
                                  && Qle_bool (round2 d) (d_age x)) D)) as Hc
        by exact (filter_keys_transport
                    (fun k => (fst (fst k) =? p)%Z
                              && Qle_bool (round2 d) (snd (fst k)))
                    final D Hkeys).
    apply (f_equal (@length _)) in Hc. rewrite !length_map in Hc.
    rewrite Hc.
    exact (combine_with_death_count df_events dd p (round2 d) Hn Hda).
  - intros r Hr.
    assert (In (row_key r) (map drow_key D)) as Hk
        by (rewrite <- Hkeys; apply in_map; exact Hr).
    apply in_map_iff in Hk. destruct Hk as [x [Hx Hin]].
    assert (exists da, In (pid r, da) dd /\ age r <= da) as [da [Hda Hle]].
    { apply combine_with_death_In in Hin.
      destruct Hin as [(e & da & He & Hda & Hlt & ->) | (d0 & Hd0 & ->)];
        unfold drow_key, row_key in Hx; simpl in Hx;
        injection Hx as Hp Ha _.
      - exists da. rewrite <- Hp, <- Ha. split; [exact Hda | lra].
      - exists (snd d0). rewrite <- Hp, <- Ha.
        destruct d0 as [x y]. split; [exact Hd0 | simpl; lra]. }
    destruct (Hfrom _ _ Hda) as (i & d & Hi & Hd & ->).
    exists i, d. repeat split; assumption.
Qed.

(** C7.  In the frame returned by phase 4 the individual at position [i]
    of the pids of the events frame has the death age that
    [get_death_ages] sampled at position [i] (rounded to 2 decimals, as
    [df_death] records it): the last row of the individual is at that age
    and has [death = 1]; it is the only row of the individual at or after
    that age; every row of the frame belongs to such an individual and is
    not after its death age.  When the hazard columns are ages within
    0..100 and the draws are in range, no row has an age above 101. *)
Theorem model_part4_ends_at_death
    (final_hazards : list curve) (df_events : frame) (init_age : Z)
    (sample_year sample_cont : option (list Q)) (g g' : rng)
    (final : frame) :
  model_part4 np_exp rng random_uniform final_hazards df_events init_age
    sample_year sample_cont g = Ok (final, g') ->
  let pids := drop_duplicates (map pid df_events) in
  exists death_ages : list Q,
    get_death_ages np_exp rng random_uniform final_hazards init_age
      sample_year sample_cont g = Ok (death_ages, g')
    /\ length death_ages = length pids
    /\ (forall p, In p (map pid df_events) ->
          exists i, nth_error pids i = Some p)
    /\ (forall i p,
          nth_error pids i = Some p ->
          exists d r,
            nth_error death_ages i = Some d
            /\ last_error (filter (has_pid p) final) = Some r
            /\ death r = 1%Z /\ age r = round2 d
            /\ length (filter (fun x => has_pid p x
                                        && Qle_bool (round2 d) (age x))
                              final) = 1%nat)
    /\ (forall r, In r final ->
          In (pid r) (map pid df_events)
          /\ exists i d,
               nth_error pids i = Some (pid r)
               /\ nth_error death_ages i = Some d
               /\ age r <= round2 d)
    /\ ((0 < init_age)%Z ->
        Forall (fun h => In (init_age - 1)%Z (map fst h)
                         /\ Forall (fun x => (fst x <= 100)%Z) h)
               final_hazards ->
        (forall g0, 0 <= fst (random_uniform g0)
                    /\ fst (random_uniform g0) < 1) ->
        (forall l, sample_year = Some l ->
                   length l = length final_hazards
                   /\ Forall (fun u => u <= 1) l) ->
        (forall l, sample_cont = Some l ->
                   length l = length final_hazards
                   /\ Forall (fun c => c < 1) l) ->
        forall r, In r final -> age r <= 101).
Proof.
  intros H pids.
  destruct (model_part4_death_rows _ _ _ _ _ _ _ _ H)
    as (ages & Hg & Hlen & Hrows & Hbound).
  fold pids in Hlen, Hrows, Hbound.
  exists ages. split; [exact Hg |]. split; [exact Hlen |].
  split; [| split; [exact Hrows | split]].
  - intros p Hp. apply drop_duplicates_In in Hp.
    apply In_nth_error in Hp. exact Hp.
  - intros r Hr. split; [| exact (Hbound r Hr)].
    destruct (Hbound r Hr) as (i & d & Hi & _).
    apply drop_duplicates_In. exact (nth_error_In _ _ Hi).
  - intros Hpos Hhaz Hrng Hyear Hcont r Hr.
    destruct (get_death_ages_total np_exp rng random_uniform final_hazards
                init_age sample_year sample_cont g Hpos Hhaz Hrng Hyear Hcont)
      as (ages' & g'' & Hg' & _ & Hlt).
    rewrite Hg in Hg'. injection Hg' as <- _.
    destruct (Hbound r Hr) as (i & d & _ & Hd & Hle).
    apply nth_error_In in Hd.
    rewrite Forall_forall in Hlt.
    destruct (Hlt d Hd) as (a & c & _ & _ & _ & Hd101).
    pose proof (round2_le_101 d) as Hr2.
    assert (round2 d <= 101) by (apply Hr2; lra). lra.
Qed.

End Death_phase_facts.

Lemma model_part4_ends_at_death_witness :
  exists death_ages : list Q,
    get_death_ages exp_stand_in unit constant_uniform example_hazards 30
      (Some [0.3; 0.95]) (Some [0.25; 0.9]) tt = Ok (death_ages, tt)
    /\ (forall i p,
          nth_error (drop_duplicates (map pid example_events)) i = Some p ->
          exists d r,
            nth_error death_ages i = Some d
            /\ last_error (filter (has_pid p) example_final) = Some r
            /\ death r = 1%Z /\ age r = round2 d)
    /\ (forall r, In r example_final -> age r <= 101).
Proof.
  assert (model_part4 exp_stand_in unit constant_uniform example_hazards
            example_events 30 (Some [0.3; 0.95]) (Some [0.25; 0.9]) tt
          = Ok (example_final, tt)) as H by (vm_compute; reflexivity).
  destruct (model_part4_ends_at_death exp_stand_in unit constant_uniform
              example_hazards example_events 30 (Some [0.3; 0.95])
              (Some [0.25; 0.9]) tt tt example_final H)
    as (ages & H1 & _ & _ & H2 & _ & H4).
  exists ages. split; [exact H1 |]. split.
  - intros i p Hp. destruct (H2 i p Hp) as (d & r & Ha & Hb & Hc & Hd & _).
    exists d, r. repeat split; assumption.
  - apply H4.
    + reflexivity.
    + example_hazards_ok.
    + intros g0. split; [discriminate | reflexivity].
    + intros l [= <-]. split; [reflexivity |].
      repeat constructor; discriminate.
    + intros l [= <-]. split; [reflexivity |].
      repeat constructor.
Defined.

Example example_final_rows :
  map (fun r => (pid r, Qred (age r), death r)) example_final
  = [(1%Z, 50, 0%Z); (1%Z, 401 # 4, 1%Z); (2%Z, 60, 0%Z);
     (2%Z, 1009 # 10, 1%Z)].
Proof. vm_compute. reflexivity. Qed.

(** ** Common random numbers and the death rows of the two runs *)

Section Common_death_draws.

Variable np_exp : Q -> Q.
Variable rng : Type.
Variable random_uniform : rng -> Q * rng.

(** C4.  With common random numbers for death ([crn_death]) the two draw
    arrays are drawn once and both runs of phase 4 sample from them, using
    no further draw.  When the two events frames list the individuals in
    the same order, the individual at position [i] has, in each of the two
    frames returned, a last row with [death = 1] whose age is the death age
    that [get_death_ages] computes at position [i] from that run's hazard
    table and the common draws, rounded to 2 decimals.  Wherever the
    reference and the counterfactual hazard rows of an individual coincide,
    the two sampled death ages and the ages of the two death rows are
    equal; with identical hazard tables this holds for every
    individual. *)
Theorem crn_death_ages_depend_on_hazards_only
    (final_hazards_bl final_hazards_cf : list curve)
    (df_events_bl df_events_cf : frame) (init_age : Z) (n : nat) (g : rng)
    (df_with_death_bl df_with_death_cf : frame) (g' : rng) :
  two_scenarios_part4 np_exp rng random_uniform final_hazards_bl
    final_hazards_cf df_events_bl df_events_cf init_age n true g
  = Ok ((df_with_death_bl, df_with_death_cf), g') ->
  drop_duplicates (map pid df_events_bl)
  = drop_duplicates (map pid df_events_cf) ->
  let pids := drop_duplicates (map pid df_events_bl) in
  let sy := uniform_draws rng random_uniform n g in
  let sc := uniform_draws rng random_uniform n (snd sy) in
  g' = snd sc
  /\ exists death_ages_bl death_ages_cf,
       get_death_ages np_exp rng random_uniform final_hazards_bl init_age
         (Some (fst sy)) (Some (fst sc)) (snd sc)
       = Ok (death_ages_bl, snd sc)
       /\ get_death_ages np_exp rng random_uniform final_hazards_cf init_age
            (Some (fst sy)) (Some (fst sc)) (snd sc)
          = Ok (death_ages_cf, snd sc)
       /\ (forall i p,
             nth_error pids i = Some p ->
             exists h_bl h_cf d_bl d_cf r_bl r_cf,
               nth_error final_hazards_bl i = Some h_bl
               /\ nth_error final_hazards_cf i = Some h_cf
               /\ nth_error death_ages_bl i = Some d_bl
               /\ nth_error death_ages_cf i = Some d_cf
               /\ last_error (filter (has_pid p) df_with_death_bl)
                  = Some r_bl
               /\ last_error (filter (has_pid p) df_with_death_cf)
                  = Some r_cf
               /\ death r_bl = 1%Z /\ death r_cf = 1%Z
               /\ age r_bl = round2 d_bl /\ age r_cf = round2 d_cf
               /\ (h_bl = h_cf -> d_bl = d_cf /\ age r_bl = age r_cf))
       /\ (final_hazards_bl = final_hazards_cf ->
           death_ages_bl = death_ages_cf
           /\ forall p, In p (map pid df_events_bl) ->
                exists r_bl r_cf,
                  last_error (filter (has_pid p) df_with_death_bl)
                  = Some r_bl
                  /\ last_error (filter (has_pid p) df_with_death_cf)
                     = Some r_cf
                  /\ death r_bl = 1%Z /\ death r_cf = 1%Z
                  /\ age r_bl = age r_cf).
Proof.
  intros H Hpids pids sy sc.
  unfold two_scenarios_part4 in H. cbv zeta in H. simpl fst in H.
  simpl snd in H. fold sy in H. fold sc in H.
  apply bind_Ok in H. destruct H as [[df_bl g1] [Hbl H]].
  apply bind_Ok in H. destruct H as [[df_cf g2] [Hcf H]].
  cbn [fst snd] in H, Hcf. injection H as <- <- <-.
  destruct (model_part4_death_rows _ _ _ _ _ _ _ _ _ _ _ Hbl)
    as (ages_bl & Hgb & Hlb & Hrb & _).
  destruct (get_death_ages_rowwise _ _ _ _ _ _ _ _ _ _ Hgb)
    as [Eg [Hhb Hwb]].
  subst g1.
  destruct (model_part4_death_rows _ _ _ _ _ _ _ _ _ _ _ Hcf)
    as (ages_cf & Hgc & Hlc & Hrc & _).
  destruct (get_death_ages_rowwise _ _ _ _ _ _ _ _ _ _ Hgc)
    as [Eg [Hhc Hwc]].
  subst g2. rewrite <- Hpids in Hlc, Hrc. fold pids in Hlb, Hrb, Hlc, Hrc.
  split; [reflexivity |].
  exists ages_bl, ages_cf. split; [exact Hgb |]. split; [exact Hgc |].
  assert (forall i p,
            nth_error pids i = Some p ->
            exists h_bl h_cf d_bl d_cf r_bl r_cf,
              nth_error final_hazards_bl i = Some h_bl
              /\ nth_error final_hazards_cf i = Some h_cf
              /\ nth_error ages_bl i = Some d_bl
              /\ nth_error ages_cf i = Some d_cf
              /\ last_error (filter (has_pid p) df_bl) = Some r_bl
              /\ last_error (filter (has_pid p) df_cf) = Some r_cf
              /\ death r_bl = 1%Z /\ death r_cf = 1%Z
              /\ age r_bl = round2 d_bl /\ age r_cf = round2 d_cf
              /\ (h_bl = h_cf -> d_bl = d_cf /\ age r_bl = age r_cf))
    as Hrows.
  { intros i p Hp.
    destruct (Hrb i p Hp) as (d_bl & r_bl & Hdb & Hlastb & Hdeathb & Hageb & _).
    destruct (Hrc i p Hp) as (d_cf & r_cf & Hdc & Hlastc & Hdeathc & Hagec & _).
    assert (i < length final_hazards_bl)%nat as Hib.
    { rewrite <- Hhb. apply nth_error_Some. congruence. }
    assert (i < length final_hazards_cf)%nat as Hic.
    { rewrite <- Hhc. apply nth_error_Some. congruence. }
    destruct (nth_error final_hazards_bl i) as [h_bl |] eqn:Ehb;
      [| apply nth_error_None in Ehb; lia].
    destruct (nth_error final_hazards_cf i) as [h_cf |] eqn:Ehc;
      [| apply nth_error_None in Ehc; lia].
    exists h_bl, h_cf, d_bl, d_cf, r_bl, r_cf.
    repeat (split; [first [reflexivity | assumption] |]).
    intros E. subst h_cf.
    destruct (Hwb i h_bl Ehb) as (u & c & d & Hu & Hc & Hd & Hn).
    destruct (Hwc i h_bl Ehc) as (u' & c' & d' & Hu' & Hc' & Hd' & Hn').
    assert (u' = u) as -> by congruence.
    assert (c' = c) as -> by congruence.
    assert (d_bl = d_cf) as Ed by congruence.
    split; [exact Ed |]. rewrite Hageb, Hagec, Ed. reflexivity. }
  split; [exact Hrows |].
  intros E. subst final_hazards_cf. split.
  - rewrite Hgb in Hgc. injection Hgc as ->. reflexivity.
  - intros p Hp. apply drop_duplicates_In in Hp.
    apply In_nth_error in Hp. destruct Hp as [i Hi].
    destruct (Hrows i p Hi)
      as (h_bl & h_cf & d_bl & d_cf & r_bl & r_cf & Eb & Ec & _ & _ & L1 & L2
          & D1 & D2 & _ & _ & Hsame).
    exists r_bl, r_cf. repeat (split; [assumption |]).
    apply Hsame. congruence.
Qed.

End Common_death_draws.

Lemma crn_death_ages_depend_on_hazards_only_witness :
  exists df_with_death_bl df_with_death_cf r_bl r_cf,
    two_scenarios_part4 exp_stand_in (list Q) stream_uniform example_hazards
      example_hazards_cf example_events example_events_cf 30 2 true
      example_stream
    = Ok ((df_with_death_bl, df_with_death_cf), [0.01; 0.6; 0.5; 0.75])
    /\ last_error (filter (has_pid 1) df_with_death_bl) = Some r_bl
    /\ last_error (filter (has_pid 1) df_with_death_cf) = Some r_cf
    /\ death r_bl = 1%Z /\ death r_cf = 1%Z
    /\ age r_bl = age r_cf.
Proof.
  destruct (two_scenarios_part4 exp_stand_in (list Q) stream_uniform
              example_hazards example_hazards_cf example_events
              example_events_cf 30 2 true example_stream)
    as [[[bl cf] g'] | e] eqn:E; [| vm_compute in E; discriminate E].
  destruct (crn_death_ages_depend_on_hazards_only exp_stand_in (list Q)
              stream_uniform example_hazards example_hazards_cf
              example_events example_events_cf 30 2 example_stream
              bl cf g' E eq_refl)
    as (Eg & ages_bl & ages_cf & _ & _ & Hrows & _).
  destruct (Hrows 0%nat 1%Z eq_refl)
    as (h_bl & h_cf & d_bl & d_cf & r_bl & r_cf & Eb & Ec & _ & _ & L1 & L2
        & D1 & D2 & _ & _ & Hsame).
  exists bl, cf, r_bl, r_cf.
  split; [rewrite Eg; reflexivity |].
  repeat (split; [assumption |]).
  apply Hsame. simpl in Eb, Ec. congruence.
Defined.

(** ** Comorbidity onset *)

Lemma Qmax_list_zero (l : list Q) :
  forall x, x == 0 -> Forall (fun v => v == 0) l -> Qmax_list x l == 0.
Proof.
  unfold Qmax_list. induction l as [| y t IH]; intros x Hx Hl; simpl.
  - exact Hx.
  - inversion Hl; subst. apply IH; [| assumption].
    destruct (Qlt_bool x y); assumption.
Qed.

Lemma cumsum_rows_zero (l : list (age_row Q)) :
  forall acc, acc == 0 -> Forall (fun x => a_value x == 0) l ->
              Forall (fun x => a_value x == 0) (cumsum_rows acc l).
Proof.
  induction l as [| x t IH]; intros acc Ha Hl; simpl; constructor;
    inversion Hl; subst.
  - simpl. lra.
  - apply IH; [lra | assumption].
Qed.

Lemma groupby_cumsum_rows_zero (l : list (age_row Q)) :
  forall acc, (forall m, acc m == 0) ->
              Forall (fun x => a_value x == 0) l ->
              Forall (fun x => a_value x == 0) (groupby_cumsum_rows acc l).
Proof.
  induction l as [| x t IH]; intros acc Ha Hl; simpl; constructor;
    inversion Hl; subst.
  - simpl. rewrite (Ha (a_male x)). lra.
  - apply IH; [| assumption].
    intros m. destruct (m =? a_male x)%Z; [| apply Ha].
    rewrite (Ha (a_male x)). lra.
Qed.

Lemma get_comorb_hazard_zero (comorb_incid : list incid_row) :
  forall hazard,
    Forall (fun x => inc_per_1k x == 0) comorb_incid ->
    get_comorb_hazard comorb_incid = Ok hazard ->
    Forall (fun x => a_value x == 0) hazard.
Proof.
  unfold get_comorb_hazard. intros hazard Hz H.
  apply bind_Ok in H. destruct H as [rows [Hm H]]. injection H as <-.
  destruct (mapM_nth _ _ _ Hm) as [_ Hn].
  rewrite Forall_forall. intros r Hr.
  apply in_concat in Hr. destruct Hr as [block [Hb Hr]].
  apply In_nth_error in Hb. destruct Hb as [i Hi].
  assert (i < length comorb_incid)%nat as Hlt.
  { destruct (mapM_nth _ _ _ Hm) as [Hl _]. rewrite <- Hl.
    apply nth_error_Some. congruence. }
  destruct (nth_error comorb_incid i) as [x |] eqn:Ex;
    [| apply nth_error_None in Ex; lia].
  destruct (Hn i x Ex) as [y [Hy Hyi]].
  rewrite Hi in Hyi. injection Hyi as <-.
  destruct (age_max x - age_min x + 1 <? 0)%Z; [discriminate |].
  injection Hy as <-. apply in_map_iff in Hr. destruct Hr as [a [<- _]].
  simpl. rewrite Forall_forall in Hz.
  rewrite (Hz x (nth_error_In _ _ Ex)). reflexivity.
Qed.

Section Comorbidity_facts.

Variable np_exp : Q -> Q.
Variable rng : Type.
Variable random_uniform : rng -> Q * rng.
Variable random_bernoulli : Q -> rng -> Z * rng.

(** [exp(0) = 1], and a Bernoulli draw of probability 0 fails. *)
Hypothesis np_exp_0 : forall x, x == 0 -> np_exp x == 1.
Hypothesis random_bernoulli_0 :
  forall p g, p == 0 -> fst (random_bernoulli p g) = 0%Z.

Lemma np_div_zero (x lr : Q) : lr == 0 -> np_div x lr = None.
Proof.
  intros H. unfold np_div. apply Qeq_bool_iff in H. rewrite H. reflexivity.
Qed.

Lemma get_cdfs_zero (hazard : list (age_row Q)) (by_male : bool)
    (cdf : list (age_row Q)) (lifetime_risk : lifetime_risk_t)
    (cdf_develops : list (age_row (option Q))) :
  Forall (fun x => a_value x == 0) hazard ->
  get_cdfs np_exp hazard by_male = Ok (cdf, lifetime_risk, cdf_develops) ->
  Forall (fun x => a_value x == 0) cdf
  /\ match lifetime_risk with
     | risk_overall prob => prob == 0
     | risk_by_male probs => Forall (fun kv => snd kv == 0) probs
     end
  /\ length cdf_develops = length cdf
  /\ Forall (fun x => a_value x = None) cdf_develops.
Proof.
  intros Hz H. unfold get_cdfs in H. cbv zeta in H.
  set (cum := if by_male then groupby_cumsum_rows (fun _ => 0) hazard
              else cumsum_rows 0 hazard) in H.
  assert (Forall (fun x => a_value x == 0) cum) as Hcum.
  { unfold cum. destruct by_male.
    - apply groupby_cumsum_rows_zero; [reflexivity | exact Hz].
    - apply cumsum_rows_zero; [reflexivity | exact Hz]. }
  set (c := map (fun x => mkAgeRow (a_age x) (a_male x)
                                   (1 - np_exp (- a_value x))) cum) in H.
  assert (Forall (fun x => a_value x == 0) c) as Hc.
  { unfold c. apply Forall_map. eapply Forall_impl; [| exact Hcum].
    intros x Hx. cbv beta in Hx. simpl.
    assert (np_exp (- a_value x) == 1) as He by (apply np_exp_0; lra).
    rewrite He. lra. }
  clearbody c. clear cum Hcum.
  destruct by_male.
  - injection H as <- <- <-.
    assert (Forall (fun kv => snd kv == 0) (groupby_max c)) as Hlr.
    { unfold groupby_max. rewrite Forall_forall. intros kv Hkv.
      apply in_flat_map in Hkv. destruct Hkv as [m [_ Hkv]].
      destruct (map a_value (filter (fun x => (a_male x =? m)%Z) c))
        as [| v vs] eqn:Ev; [contradiction |].
      destruct Hkv as [<- | []]. simpl.
      assert (Forall (fun v => v == 0) (v :: vs)) as Hvs.
      { rewrite <- Ev. apply Forall_map. rewrite Forall_forall in *.
        intros x Hx. apply filter_In in Hx. apply Hc. tauto. }
      inversion Hvs; subst. apply Qmax_list_zero; assumption. }
    split; [exact Hc |]. split; [exact Hlr |].
    split; [apply length_map |].
    apply Forall_map. rewrite Forall_forall. intros x _. simpl.
    destruct (find _ (groupby_max c)) as [kv |] eqn:Ef; [| reflexivity].
    apply find_some in Ef. destruct Ef as [Hin _].
    rewrite Forall_forall in Hlr. apply np_div_zero. exact (Hlr kv Hin).
  - destruct (last_error c) as [l |] eqn:El; [| discriminate].
    injection H as <- <- <-.
    assert (a_value l == 0) as Hl.
    { rewrite Forall_forall in Hc. apply Hc.
      exact (last_error_In _ _ El). }
    split; [exact Hc |]. split; [exact Hl |].
    split; [apply length_map |].
    apply Forall_map. rewrite Forall_forall. intros x _. simpl.
    apply np_div_zero. exact Hl.
Qed.

Lemma binomial_each_zero (ps : list (option Q)) :
  Forall (fun p => exists q, p = Some q /\ q == 0) ps ->
  forall g, exists g',
    binomial_each rng random_bernoulli ps g
    = Ok (map (fun _ => 0%Z) ps, g').
Proof.
  induction 1 as [| p t (q & -> & Hq) _ IH]; intros g; simpl.
  - exists g. reflexivity.
  - unfold np_random_binomial.
    assert (Qlt_bool q 0 = false) as -> by (apply Qlt_bool_false; lra).
    assert (Qlt_bool 1 q = false) as -> by (apply Qlt_bool_false; lra).
    simpl. destruct (IH (snd (random_bernoulli q g))) as [g' Hg'].
    rewrite Hg'. simpl. rewrite (random_bernoulli_0 q g Hq).
    exists g'. reflexivity.
Qed.

Lemma nobody_selected {B : Type} (cohort_df : list cohort_row) :
  forall ps : list B,
    filter (fun x : cohort_row * Z => (snd x =? 1)%Z)
           (combine cohort_df (map (fun _ => 0%Z) ps)) = [].
Proof.
  induction cohort_df as [| c t IH]; intros [| p ps]; simpl;
    try reflexivity.
  apply IH.
Qed.

(** C9 (as the code has it).  With an incidence of 0 at every age the CDF
    is 0 at every age and the lifetime risk is 0; [get_cdfs] still divides
    the CDF by it, without a test, and every cell of [cdf_develops] is the
    non-finite result.  In [get_comorb_age] the Bernoulli draws (p = 0)
    select nobody, the sampler runs on an empty frame, and no onset age is
    returned. *)
Theorem zero_incidence_no_onset
    (comorb_incid : list incid_row) (by_male : bool)
    (cdf : list (age_row Q)) (lifetime_risk : lifetime_risk_t)
    (cdf_develops : list (age_row (option Q))) :
  Forall (fun x => inc_per_1k x == 0) comorb_incid ->
  get_cdfs_from_incid np_exp comorb_incid by_male
  = Ok (cdf, lifetime_risk, cdf_develops) ->
  Forall (fun x => a_value x == 0) cdf
  /\ match lifetime_risk with
     | risk_overall prob => prob == 0
     | risk_by_male probs => Forall (fun kv => snd kv == 0) probs
     end
  /\ length cdf_develops = length cdf
  /\ Forall (fun x => a_value x = None) cdf_develops
  /\ forall (cohort_df : list cohort_row) (risk : list (Z * Q)) (g : rng),
       Forall (fun kv => snd kv == 0) risk ->
       (forall c, In c cohort_df -> lifetime_prob risk (c_sex c) <> None) ->
       exists g',
         get_comorb_age rng random_uniform random_bernoulli cohort_df
           cdf_develops risk g = Ok ([], g').
Proof.
  intros Hz H. unfold get_cdfs_from_incid in H.
  apply bind_Ok in H. destruct H as [hazard [Hh H]].
  pose proof (get_comorb_hazard_zero _ _ Hz Hh) as Hhz.
  destruct (get_cdfs_zero _ _ _ _ _ Hhz H) as (H1 & H2 & H3 & H4).
  repeat split; try assumption.
  intros cohort_df risk g Hrisk Hsex.
  unfold get_comorb_age.
  destruct (binomial_each_zero
              (map (fun c => lifetime_prob risk (c_sex c)) cohort_df))
    with (g := g) as [g1 Hb].
  { apply Forall_map. rewrite Forall_forall. intros c Hc.
    specialize (Hsex c Hc).
    destruct (lifetime_prob risk (c_sex c)) as [q |] eqn:Eq;
      [| contradiction].
    exists q. split; [reflexivity |].
    unfold lifetime_prob in Eq.
    destruct (find _ (rev risk)) as [kv |] eqn:Ef; [| discriminate].
    simpl in Eq. injection Eq as <-.
    apply find_some in Ef. destruct Ef as [Hin _].
    apply in_rev in Hin. rewrite Forall_forall in Hrisk.
    exact (Hrisk kv Hin). }
  rewrite Hb. cbn [bind fst snd].
  rewrite nobody_selected. simpl. exists g1. reflexivity.
Qed.

End Comorbidity_facts.

Lemma exp_stand_in_0 (x : Q) : x == 0 -> exp_stand_in x == 1.
Proof. intros H. unfold exp_stand_in. rewrite H. reflexivity. Qed.

Lemma constant_bernoulli_0 (p : Q) (g : unit) :
  p == 0 -> fst (constant_bernoulli p g) = 0%Z.
Proof.
  intros H. unfold constant_bernoulli. simpl.
  assert (Qlt_bool (1 # 2) p = false) as ->; [| reflexivity].
  apply Qlt_bool_false. rewrite H. discriminate.
Qed.

Lemma zero_incidence_no_onset_witness :
  exists cdf lifetime_risk cdf_develops,
    get_cdfs_from_incid exp_stand_in example_zero_incid true
    = Ok (cdf, lifetime_risk, cdf_develops)
    /\ Forall (fun x => a_value x = None) cdf_develops
    /\ exists g',
         get_comorb_age unit constant_uniform constant_bernoulli
           example_cohort_df cdf_develops [(0%Z, 0); (1%Z, 0)] tt
         = Ok ([], g').
Proof.
  destruct (get_cdfs_from_incid exp_stand_in example_zero_incid true)
    as [[[cdf lifetime_risk] cdf_develops] | e] eqn:E;
    [| vm_compute in E; discriminate E].
  exists cdf, lifetime_risk, cdf_develops. split; [reflexivity |].
  assert (Forall (fun x => inc_per_1k x == 0) example_zero_incid) as Hz.
  { apply Forall_cons; [reflexivity |].
    apply Forall_cons; [reflexivity | apply Forall_nil]. }
  destruct (zero_incidence_no_onset exp_stand_in unit constant_uniform
              constant_bernoulli exp_stand_in_0 constant_bernoulli_0
              example_zero_incid true cdf lifetime_risk cdf_develops Hz E)
    as (_ & _ & _ & Hnone & Hage).
  split; [exact Hnone |].
  apply Hage.
  - apply Forall_cons; [reflexivity |].
    apply Forall_cons; [reflexivity | apply Forall_nil].
  - intros c [<- | [<- | []]]; discriminate.
Defined.

(** C9, the claim as written fails: the division is not guarded.  On a
    zero incidence table [get_cdfs] returns the quotient column
    [cdf / lifetime_risk] with the lifetime risk 0 as divisor: four cells,
    all non-finite.  (The stand-in for [np.exp] is only read at 0, where it
    is 1.) *)
Lemma get_cdfs_divides_by_zero_risk :
  exists cdf prob cdf_develops,
    get_cdfs_from_incid exp_stand_in example_zero_incid false
    = Ok (cdf, risk_overall prob, cdf_develops)
    /\ prob == 0
    /\ map a_age cdf_develops = [18; 19; 20; 21]%Z
    /\ map a_value cdf_develops = map (fun x => np_div (a_value x) prob) cdf
    /\ map a_value cdf_develops = [None; None; None; None].
Proof.
  eexists. eexists. eexists.
  split; [vm_compute; reflexivity |].
  repeat split.
Qed.

(** ** Event merger *)

Lemma StronglySorted_In_cases {A : Type} (R : A -> A -> Prop) (l : list A) :
  StronglySorted R l ->
  forall a b, In a l -> In b l -> a = b \/ R a b \/ R b a.
Proof.
  induction 1 as [| x t Ht IH Hx]; intros a b Ha Hb; [contradiction |].
  rewrite Forall_forall in Hx.
  destruct Ha as [<- | Ha], Hb as [<- | Hb].
  - left. reflexivity.
  - right. left. exact (Hx b Hb).
  - right. right. exact (Hx a Ha).
  - exact (IH a b Ha Hb).
Qed.

Lemma StronglySorted_conj {A : Type} (R1 R2 : A -> A -> Prop) (l : list A) :
  StronglySorted R1 l -> StronglySorted R2 l ->
  StronglySorted (fun a b => R1 a b /\ R2 a b) l.
Proof.
  induction 1 as [| x t Ht IH Hx]; intros H2; [constructor |].
  inversion H2 as [| ? ? Ht2 Hx2]; subst. constructor; [exact (IH Ht2) |].
  rewrite Forall_forall in *. intros y Hy. split; auto.
Qed.

(** Sortedness is carried along a row-by-row relation. *)
Lemma StronglySorted_Forall2 {A B : Type} (R : A -> A -> Prop)
    (R' : B -> B -> Prop) (T : A -> B -> Prop) (l : list A) (l' : list B) :
  (forall a b a' b', T a a' -> T b b' -> R a b -> R' a' b') ->
  Forall2 T l l' -> StronglySorted R l -> StronglySorted R' l'.
Proof.
  intros HT H2. induction H2 as [| a a' t t' Ha Ht IH]; intros Hs;
    [constructor |].
  inversion Hs as [| ? ? Hst Hra]; subst. constructor; [exact (IH Hst) |].
  clear IH Hs Hst. induction Ht as [| b b' u u' Hb Hu IHu]; [constructor |].
  inversion Hra; subst. constructor; [| apply IHu; assumption].
  exact (HT _ _ _ _ Ha Hb H1).
Qed.

Lemma Forall2_map_r {A B : Type} (T : A -> B -> Prop) (f : A -> B)
    (l : list A) :
  (forall a, T a (f a)) -> Forall2 T l (map f l).
Proof.
  intros H. induction l as [| a t IH]; simpl; constructor; auto.
Qed.

Lemma Forall2_trans {A B C : Type} (T1 : A -> B -> Prop)
    (T2 : B -> C -> Prop) (T3 : A -> C -> Prop) (l1 : list A) :
  (forall a b c, T1 a b -> T2 b c -> T3 a c) ->
  forall l2 l3, Forall2 T1 l1 l2 -> Forall2 T2 l2 l3 -> Forall2 T3 l1 l3.
Proof.
  intros H. induction l1 as [| a t IH]; intros l2 l3 H1 H2;
    inversion H1; subst; inversion H2; subst; constructor; eauto.
Qed.

Lemma indicator_name_eq_dec (c c' : indicator_name) : {c = c'} + {c <> c'}.
Proof. decide equality. Defined.

Lemma indicator_with_same (c : indicator_name) (r : row) (v : Z) :
  indicator c (with_indicator c r v) = v.
Proof. destruct c; reflexivity. Qed.

Lemma indicator_with_other (c c' : indicator_name) (r : row) (v : Z) :
  c' <> c -> indicator c' (with_indicator c r v) = indicator c' r.
Proof. intros H. destruct c, c'; try reflexivity; contradiction. Qed.

Lemma with_indicator_key (c : indicator_name) (r : row) (v : Z) :
  pid (with_indicator c r v) = pid r /\ age (with_indicator c r v) = age r.
Proof. destruct c; split; reflexivity. Qed.

(** *** Groups in key order *)

Section Group_keys.

Variable kf : row -> Q.

Lemma ltb_by_spec (a b : row) :
  ltb_by kf a b = true
  <-> (pid a < pid b)%Z \/ (pid a = pid b /\ kf a < kf b).
Proof.
  unfold ltb_by.
  rewrite orb_true_iff, andb_true_iff, Z.ltb_lt, Z.eqb_eq, Qlt_bool_iff.
  tauto.
Qed.

Lemma eqb_by_spec (a b : row) :
  eqb_by kf a b = true <-> pid a = pid b /\ kf a == kf b.
Proof.
  unfold eqb_by. rewrite andb_true_iff, Z.eqb_eq, Qeq_bool_iff. tauto.
Qed.

Lemma ltb_by_trans (a b c : row) :
  ltb_by kf a b = true -> ltb_by kf b c = true -> ltb_by kf a c = true.
Proof.
  rewrite !ltb_by_spec.
  intros [H1 | [H1 H1']] [H2 | [H2 H2']];
    try (left; lia). right. split; [lia | lra].
Qed.

Lemma ltb_by_trichotomy (a b : row) :
  ltb_by kf a b = false -> eqb_by kf a b = false -> ltb_by kf b a = true.
Proof.
  intros Hl He. apply ltb_by_spec.
  destruct (Z.lt_trichotomy (pid a) (pid b)) as [H | [H | H]].
  - exfalso. assert (ltb_by kf a b = true) by (apply ltb_by_spec; tauto).
    congruence.
  - right. split; [lia |].
    destruct (Qlt_le_dec (kf b) (kf a)) as [Hlt | Hle]; [exact Hlt |].
    exfalso. destruct (Qeq_dec (kf a) (kf b)) as [Heq | Hne].
    + assert (eqb_by kf a b = true) by (apply eqb_by_spec; tauto).
      congruence.
    + assert (ltb_by kf a b = true).
      { apply ltb_by_spec. right. split; [exact H |].
        apply Qle_lteq in Hle. destruct Hle as [Hlt | Heq];
          [exact Hlt | contradiction]. }
      congruence.
  - left. lia.
Qed.

Lemma eqb_ltb_by (a b c : row) :
  eqb_by kf a b = true -> ltb_by kf b c = true -> ltb_by kf a c = true.
Proof.
  rewrite eqb_by_spec, !ltb_by_spec.
  intros [H1 H1'] [H2 | [H2 H2']]; [left; lia |].
  right. split; [lia | lra].
Qed.

Lemma insert_rep_In (r y : row) (l : list row) :
  In y (insert_rep kf r l) -> y = r \/ In y l.
Proof.
  induction l as [| h t IH]; simpl.
  - intros [<- | []]. left. reflexivity.
  - destruct (ltb_by kf r h).
    + intros [<- | H]; [left; reflexivity | right; exact H].
    + destruct (eqb_by kf r h).
      * intros [<- | H]; [left; reflexivity | right; right; exact H].
      * intros [<- | H]; [right; left; reflexivity |].
        destruct (IH H) as [-> | H']; [left; reflexivity | right; right; exact H'].
Qed.

Lemma insert_rep_sorted (r : row) (l : list row) :
  StronglySorted (fun a b => ltb_by kf a b = true) l ->
  StronglySorted (fun a b => ltb_by kf a b = true) (insert_rep kf r l).
Proof.
  induction 1 as [| h t Ht IH Hh]; simpl.
  - constructor; constructor.
  - destruct (ltb_by kf r h) eqn:El.
    + constructor; [constructor; assumption |].
      constructor; [exact El |].
      eapply Forall_impl; [| exact Hh].
      intros x Hx. exact (ltb_by_trans _ _ _ El Hx).
    + destruct (eqb_by kf r h) eqn:Ee.
      * constructor; [exact Ht |].
        eapply Forall_impl; [| exact Hh].
        intros x Hx. exact (eqb_ltb_by _ _ _ Ee Hx).
      * constructor; [exact IH |].
        rewrite Forall_forall. intros x Hx.
        apply insert_rep_In in Hx. destruct Hx as [-> | Hx].
        -- exact (ltb_by_trichotomy _ _ El Ee).
        -- rewrite Forall_forall in Hh. exact (Hh x Hx).
Qed.

Lemma group_reps_sorted (df : frame) :
  StronglySorted (fun a b => ltb_by kf a b = true) (group_reps kf df).
Proof.
  unfold group_reps. induction df as [| r t IH]; simpl; [constructor |].
  apply insert_rep_sorted. exact IH.
Qed.

End Group_keys.

Lemma groupby_pid_age_agg_sorted (df : frame) :
  StronglySorted (fun a b => ltb_by age a b = true) (groupby_pid_age_agg df).
Proof.
  unfold groupby_pid_age_agg.
  apply (StronglySorted_Forall2
           (fun a b => ltb_by age a b = true)
           (fun a b => ltb_by age a b = true)
           (fun a o => pid o = pid a /\ age o = age a)
           (group_reps age df)).
  - intros a b a' b' [Hp Ha] [Hp' Ha'] H.
    unfold ltb_by in *. rewrite Hp, Ha, Hp', Ha'. exact H.
  - apply Forall2_map_r. intros a. split; reflexivity.
  - apply group_reps_sorted.
Qed.

(** *** The cumulative maximum *)

Lemma groupby_cummax_keeps (c : indicator_name) (df : frame) :
  forall acc, Forall2 (keeps_but c) df (groupby_cummax c acc df).
Proof.
  induction df as [| r t IH]; intros acc; simpl; constructor.
  - destruct (with_indicator_key c r
                (match acc (pid r) with
                 | Some m => Z.max m (indicator c r)
                 | None => indicator c r
                 end)) as [Hp Ha].
    split; [exact Hp |]. split; [exact Ha |].
    intros c' Hc. apply indicator_with_other. exact Hc.
  - apply IH.
Qed.

Lemma groupby_cummax_above (c : indicator_name) (df : frame) :
  forall acc o m,
    In o (groupby_cummax c acc df) -> acc (pid o) = Some m ->
    (m <= indicator c o)%Z.
Proof.
  induction df as [| r t IH]; intros acc o m Ho Hm; [contradiction |].
  simpl in Ho. destruct Ho as [<- | Ho].
  - destruct (with_indicator_key c r
                (match acc (pid r) with
                 | Some m0 => Z.max m0 (indicator c r)
                 | None => indicator c r
                 end)) as [Hp _].
    rewrite Hp in Hm. rewrite indicator_with_same, Hm. lia.
  - destruct (pid o =? pid r)%Z eqn:E.
    + apply Z.eqb_eq in E.
      assert (match acc (pid r) with
              | Some m0 => Z.max m0 (indicator c r)
              | None => indicator c r
              end <= indicator c o)%Z as Hv.
      { apply (IH _ o _ Ho). rewrite E, Z.eqb_refl. reflexivity. }
      rewrite <- E, Hm in Hv. lia.
    + apply (IH _ o m Ho). rewrite E. exact Hm.
Qed.

Lemma groupby_cummax_not_decreasing (c : indicator_name) (df : frame) :
  forall acc, StronglySorted (not_decreasing c) (groupby_cummax c acc df).
Proof.
  induction df as [| r t IH]; intros acc; simpl; constructor.
  - apply IH.
  - rewrite Forall_forall. intros o Ho Hp.
    rewrite indicator_with_same.
    apply (groupby_cummax_above c t _ o _ Ho).
    destruct (with_indicator_key c r
                (match acc (pid r) with
                 | Some m0 => Z.max m0 (indicator c r)
                 | None => indicator c r
                 end)) as [Hp' _].
    rewrite <- Hp, Hp', Z.eqb_refl. reflexivity.
Qed.

Lemma groupby_cummax_preserves (c c' : indicator_name) (df : frame) :
  c' <> c ->
  forall acc,
    StronglySorted (not_decreasing c') df ->
    StronglySorted (not_decreasing c') (groupby_cummax c acc df).
Proof.
  intros Hc acc Hs.
  apply (StronglySorted_Forall2 (not_decreasing c') (not_decreasing c')
           (keeps_but c) df _); [| apply groupby_cummax_keeps | exact Hs].
  intros a b a' b' (Hp & _ & Hi) (Hp' & _ & Hi') H Hpid.
  rewrite (Hi c' Hc), (Hi' c' Hc). apply H. congruence.
Qed.

Lemma groupby_cummax_sorted (c : indicator_name) (df : frame) :
  forall acc,
    StronglySorted (fun a b => ltb_by age a b = true) df ->
    StronglySorted (fun a b => ltb_by age a b = true)
                   (groupby_cummax c acc df).
Proof.
  intros acc Hs.
  apply (StronglySorted_Forall2
           (fun a b => ltb_by age a b = true)
           (fun a b => ltb_by age a b = true) (keeps_but c) df _);
    [| apply groupby_cummax_keeps | exact Hs].
  intros a b a' b' (Hp & Ha & _) (Hp' & Ha' & _) H.
  unfold ltb_by in *. rewrite Hp, Ha, Hp', Ha'. exact H.
Qed.

Lemma propagate_sorted (names : list indicator_name) :
  forall df,
    StronglySorted (fun a b => ltb_by age a b = true) df ->
    StronglySorted (fun a b => ltb_by age a b = true) (propagate names df).
Proof.
  unfold propagate. induction names as [| n ns IH]; intros df Hs; simpl;
    [exact Hs |].
  apply IH. apply groupby_cummax_sorted. exact Hs.
Qed.

Lemma propagate_preserves (names : list indicator_name) (c : indicator_name) :
  ~ In c names ->
  forall df,
    StronglySorted (not_decreasing c) df ->
    StronglySorted (not_decreasing c) (propagate names df).
Proof.
  unfold propagate. induction names as [| n ns IH]; intros Hc df Hs; simpl;
    [exact Hs |].
  apply IH; [intros H; apply Hc; right; exact H |].
  apply groupby_cummax_preserves; [| exact Hs].
  intros E. apply Hc. left. symmetry. exact E.
Qed.

(** Each named indicator is not decreasing after the propagation. *)
Lemma propagate_not_decreasing (names : list indicator_name)
    (c : indicator_name) :
  In c names ->
  forall df, StronglySorted (not_decreasing c) (propagate names df).
Proof.
  induction names as [| n ns IH]; intros Hc df; [contradiction |].
  change (propagate (n :: ns) df)
    with (propagate ns (groupby_cummax n (fun _ => None) df)).
  destruct (in_dec indicator_name_eq_dec c ns) as [Hin | Hnin].
  - apply IH. exact Hin.
  - destruct Hc as [-> | Hc]; [| contradiction].
    apply propagate_preserves; [exact Hnin |].
    apply groupby_cummax_not_decreasing.
Qed.


(** *** Indicators stay binary *)

Lemma Forall2_Forall {A B : Type} (T : A -> B -> Prop) (P : A -> Prop)
    (P' : B -> Prop) (l : list A) (l' : list B) :
  (forall a b, T a b -> P a -> P' b) ->
  Forall2 T l l' -> Forall P l -> Forall P' l'.
Proof.
  intros HT H2. induction H2 as [| a b t t' Hab _ IH]; intros H;
    [constructor |].
  inversion H; subst. constructor; eauto.
Qed.


Lemma indicator_agg_one_age (c : indicator_name) (r0 : row) (g : list row) :
  indicator c (agg_one_age r0 g) = agg_max c r0 g.
Proof. destruct c; reflexivity. Qed.

Lemma group_reps_In (kf : row -> Q) (df : frame) (r : row) :
  In r (group_reps kf df) -> In r df.
Proof.
  unfold group_reps. induction df as [| x t IH]; simpl; [tauto |].
  intros H. apply insert_rep_In in H. destruct H as [-> | H]; auto.
Qed.


Lemma groupby_cummax_same_le_1 (c : indicator_name) (df : frame) :
  forall acc,
    (forall p m, acc p = Some m -> (m <= 1)%Z) ->
    Forall (fun r => (indicator c r <= 1)%Z) df ->
    Forall (fun r => (indicator c r <= 1)%Z) (groupby_cummax c acc df).
Proof.
  induction df as [| r t IH]; intros acc Hacc H; simpl; [constructor |].
  inversion H as [| ? ? Hr Ht]; subst.
  assert (match acc (pid r) with
          | Some m => Z.max m (indicator c r)
          | None => indicator c r
          end <= 1)%Z as Hv.
  { destruct (acc (pid r)) as [m |] eqn:E; [| exact Hr].
    specialize (Hacc _ _ E). lia. }
  constructor; [rewrite indicator_with_same; exact Hv |].
  apply IH; [| exact Ht].
  intros p m. destruct (p =? pid r)%Z; [| apply Hacc].
  intros E. injection E as <-. exact Hv.
Qed.

Lemma groupby_cummax_le_1 (c c' : indicator_name) (df : frame) :
  Forall (fun r => (indicator c' r <= 1)%Z) df ->
  Forall (fun r => (indicator c' r <= 1)%Z)
         (groupby_cummax c (fun _ => None) df).
Proof.
  intros H. destruct (indicator_name_eq_dec c' c) as [-> | Hne].
  - apply groupby_cummax_same_le_1; [discriminate | exact H].
  - apply (Forall2_Forall (keeps_but c) (fun r => (indicator c' r <= 1)%Z)
             (fun r => (indicator c' r <= 1)%Z) df);
      [| apply groupby_cummax_keeps | exact H].
    intros a b (_ & _ & Hi) Ha. rewrite (Hi c' Hne). exact Ha.
Qed.

Lemma propagate_le_1 (names : list indicator_name) (c : indicator_name) :
  forall df,
    Forall (fun r => (indicator c r <= 1)%Z) df ->
    Forall (fun r => (indicator c r <= 1)%Z) (propagate names df).
Proof.
  unfold propagate. induction names as [| n ns IH]; intros df H; simpl;
    [exact H |].
  apply IH. apply groupby_cummax_le_1. exact H.
Qed.

(** *** The write-back and the frame returned *)

Lemma keeps_indicators_refl (r : row) : keeps_indicators r r.
Proof. repeat split. Qed.

Lemma update_rows_keeps (full updated : frame) :
  Forall2 keeps_indicators full (update_rows full updated).
Proof.
  unfold update_rows. apply Forall2_map_r. intros r.
  destruct (find (fun u => same_key u r) updated) as [u |].
  - split; [reflexivity |]. split; [reflexivity |].
    intros c. destruct c; reflexivity.
  - apply keeps_indicators_refl.
Qed.

Lemma drop_stage_diag_keeps (df : frame) :
  Forall2 keeps_indicators df (map drop_stage_diag df).
Proof.
  apply Forall2_map_r. intros r.
  split; [reflexivity |]. split; [reflexivity |].
  intros c. destruct c; reflexivity.
Qed.

Lemma updated_frame_keeps (df at_cutoff : frame)
    (names : list indicator_name) (params : model_params) :
  Forall2 keeps_indicators (merge_and_propagate df at_cutoff names)
          (updated_frame df at_cutoff names params).
Proof.
  unfold updated_frame. cbv zeta.
  eapply (Forall2_trans keeps_indicators keeps_indicators keeps_indicators);
    [| apply update_rows_keeps | apply drop_stage_diag_keeps].
  intros a b c (Hp & Ha & Hi) (Hp' & Ha' & Hi').
  split; [congruence |]. split; [congruence |].
  intros c0. rewrite Hi', Hi. reflexivity.
Qed.

Lemma integrate_duplicate_rows_unique (df : frame) :
  has_duplicated egfr df = false -> integrate_duplicate_rows df = df.
Proof. intros H. unfold integrate_duplicate_rows. rewrite H. reflexivity. Qed.

(** Without two rows of one individual at the same eGFR, the frame returned
    is the propagated merge, row by row, up to slopes and eGFR. *)
Lemma update_frame_with_cutoff_event_keeps (df at_cutoff : frame)
    (names : list indicator_name) (params : model_params)
    (multiple_indic : bool) (out : frame) :
  update_frame_with_cutoff_event df at_cutoff names params multiple_indic
    = Ok out ->
  to_update_rows df at_cutoff names = []
  \/ has_duplicated egfr (updated_frame df at_cutoff names params) = false ->
  Forall2 keeps_indicators (merge_and_propagate df at_cutoff names) out.
Proof.
  unfold update_frame_with_cutoff_event. intros H Hd.
  destruct (multiple_indic && negb (indicator_names_eqb names));
    [discriminate |].
  destruct (negb multiple_indic && negb (length names =? 1)%nat);
    [discriminate |].
  destruct (to_update_rows df at_cutoff names) as [| u us] eqn:E.
  - injection H as <-.
    rewrite <- (map_id (merge_and_propagate df at_cutoff names)) at 2.
    apply Forall2_map_r. exact keeps_indicators_refl.
  - destruct Hd as [Hd | Hd]; [discriminate |].
    injection H as <-. rewrite integrate_duplicate_rows_unique by exact Hd.
    apply updated_frame_keeps.
Qed.


Lemma merge_and_propagate_sorted (df at_cutoff : frame)
    (names : list indicator_name) :
  StronglySorted (fun a b => ltb_by age a b = true)
                 (merge_and_propagate df at_cutoff names).
Proof.
  unfold merge_and_propagate. apply propagate_sorted.
  apply groupby_pid_age_agg_sorted.
Qed.




(* ================================================================== *)
(** * Part III: further properties of the code *)
(* ================================================================== *)

(** ** egfr_formulas.py: order and inverses of the equations *)

Section CKD_EPI_order.
Local Open Scope R_scope.

Lemma pow_neg_decreasing (a b y : R) :
  0 < a -> a < b -> y < 0 -> pow b y < pow a y.
Proof.
  intros Ha Hab Hy. unfold pow, Rpower. apply exp_increasing.
  assert (ln a < ln b) by (apply ln_increasing; lra). nra.
Qed.

(** The creatinine factor of [CKD_EPI] as a function of [t = scr / kappa]. *)
Lemma creatinine_factor_decreasing (t1 t2 al m : R) :
  0 < t1 -> t1 < t2 -> al < 0 -> m < 0 ->
  pow (Rmin t2 1) al * pow (Rmax t2 1) m
  < pow (Rmin t1 1) al * pow (Rmax t1 1) m.
Proof.
  intros H1 H12 Hal Hm.
  destruct (Rle_lt_dec t2 1) as [Hle | Hgt].
  - rewrite (Rmin_left t2), (Rmax_right t2), (Rmin_left t1), (Rmax_right t1)
      by lra.
    rewrite pow_base_1, !Rmult_1_r. apply pow_neg_decreasing; lra.
  - destruct (Rle_lt_dec 1 t1) as [Hge | Hlt].
    + rewrite (Rmin_right t2), (Rmax_left t2), (Rmin_right t1), (Rmax_left t1)
        by lra.
      rewrite pow_base_1, !Rmult_1_l. apply pow_neg_decreasing; lra.
    + rewrite (Rmin_right t2), (Rmax_left t2), (Rmin_left t1), (Rmax_right t1)
        by lra.
      rewrite !pow_base_1, Rmult_1_l, Rmult_1_r.
      pose proof (pow_neg_gt_1 t2 m Hgt Hm).
      pose proof (pow_neg_lt_1 t1 al H1 Hlt Hal). lra.
Qed.

Lemma CKD_EPI_lt (scr1 scr2 : R) (s : sex_t) (age : R) (r : race_t)
    (f : formula) :
  0 < scr1 -> scr1 < scr2 ->
  CKD_EPI scr2 s age r f < CKD_EPI scr1 s age r f.
Proof.
  intros H1 H12. unfold CKD_EPI. cbv zeta.
  destruct (CKD_EPI_params_signs f s r) as (Hk & Hal & Hm & Hs & Hr & _ & Hb).
  cbv zeta in Hk, Hal, Hm, Hs, Hr, Hb.
  pose proof (pow_pos (age_base (CKD_EPI_params f)) age) as Hp.
  set (k := kappa (CKD_EPI_params f) s) in *.
  assert (0 < scr1 / k) as Ht1 by (apply Rdiv_lt_0_compat; assumption).
  assert (scr1 / k < scr2 / k) as Ht12.
  { unfold Rdiv. apply Rmult_lt_compat_r; [| exact H12].
    apply Rinv_0_lt_compat. exact Hk. }
  pose proof (creatinine_factor_decreasing _ _ _ _ Ht1 Ht12 Hal Hm) as Hg.
  rewrite !(Rmult_assoc (beta (CKD_EPI_params f))).
  apply Rmult_lt_compat_l; [exact Hb |].
  repeat (apply Rmult_lt_compat_r; [assumption |]). exact Hg.
Qed.

Lemma creat_from_eGFR_lt (egfr1 egfr2 : R) (s : sex_t) (age : R) (r : race_t)
    (f : formula) :
  0 < egfr1 -> egfr1 < egfr2 ->
  creat_from_eGFR egfr2 s age r f < creat_from_eGFR egfr1 s age r f.
Proof.
  intros H1 H12.
  pose proof (creat_from_eGFR_pos egfr2 s age r f ltac:(lra)) as Hc2.
  destruct (Rlt_le_dec (creat_from_eGFR egfr2 s age r f)
                       (creat_from_eGFR egfr1 s age r f)) as [H | H];
    [exact H | exfalso].
  pose proof (CKD_EPI_creat_from_eGFR egfr1 s age r f H1) as E1.
  pose proof (CKD_EPI_creat_from_eGFR egfr2 s age r f ltac:(lra)) as E2.
  destruct H as [H | H].
  - pose proof (CKD_EPI_lt _ _ s age r f
                  (creat_from_eGFR_pos egfr1 s age r f H1) H).
    lra.
  - rewrite H in E1. lra.
Qed.

Lemma eGFR_2021_to_2009_pos (egfr : R) (s : sex_t) (age : R) (r : race_t) :
  0 < egfr ->
  eGFR_2021_to_2009 egfr s age r
  = Some (CKD_EPI (creat_from_eGFR egfr s age r F21) s age r F09).
Proof.
  intros He. unfold eGFR_2021_to_2009.
  pose proof (creat_from_eGFR_pos egfr s age r F21 He).
  destruct (Req_dec_T egfr 0); [lra |].
  destruct (Rlt_dec egfr 0); [lra |].
  destruct (Req_dec_T _ 0); [lra | reflexivity].
Qed.

Lemma eGFR_2009_to_2021_pos (egfr : R) (s : sex_t) (age : R) (r : race_t) :
  0 < egfr ->
  eGFR_2009_to_2021 egfr s age r
  = Some (CKD_EPI (creat_from_eGFR egfr s age r F09) s age r F21).
Proof.
  intros He. unfold eGFR_2009_to_2021.
  pose proof (creat_from_eGFR_pos egfr s age r F09 He).
  destruct (Req_dec_T egfr 0); [lra |].
  destruct (Rlt_dec egfr 0); [lra |].
  destruct (Req_dec_T _ 0); [lra | reflexivity].
Qed.

(** X1.  [CKD_EPI] is strictly decreasing in serum creatinine: for every
    sex, age, race and formula, a higher positive creatinine gives a
    strictly lower eGFR (across both branches of the power law, below and
    above [kappa]). *)
Theorem CKD_EPI_decreasing_in_creatinine (scr1 scr2 : R) (s : sex_t)
    (age : R) (r : race_t) (f : formula) :
  0 < scr1 -> scr1 < scr2 ->
  CKD_EPI scr2 s age r f < CKD_EPI scr1 s age r f.
Proof. apply CKD_EPI_lt. Qed.

Lemma CKD_EPI_decreasing_in_creatinine_witness :
  CKD_EPI 1.2 M 60 NB F21 < CKD_EPI 0.8 M 60 NB F21.
Proof.
  apply (CKD_EPI_decreasing_in_creatinine 0.8 1.2 M 60 NB F21); lra.
Defined.

(** X2.  The translations between the two equations keep the order of
    eGFR values: of two positive values of one individual (same sex, age
    and race), the larger one is translated to the larger one, by
    [eGFR_2021_to_2009] and by [eGFR_2009_to_2021]. *)
Theorem eGFR_translation_increasing (egfr1 egfr2 : R) (s : sex_t) (age : R)
    (r : race_t) :
  0 < egfr1 -> egfr1 < egfr2 ->
  (exists v1 v2,
      eGFR_2021_to_2009 egfr1 s age r = Some v1
      /\ eGFR_2021_to_2009 egfr2 s age r = Some v2 /\ v1 < v2)
  /\ (exists w1 w2,
        eGFR_2009_to_2021 egfr1 s age r = Some w1
        /\ eGFR_2009_to_2021 egfr2 s age r = Some w2 /\ w1 < w2).
Proof.
  intros H1 H12. split.
  - eexists. eexists.
    split; [apply eGFR_2021_to_2009_pos; exact H1 |].
    split; [apply eGFR_2021_to_2009_pos; lra |].
    apply CKD_EPI_lt; [apply creat_from_eGFR_pos; lra |].
    apply creat_from_eGFR_lt; assumption.
  - eexists. eexists.
    split; [apply eGFR_2009_to_2021_pos; exact H1 |].
    split; [apply eGFR_2009_to_2021_pos; lra |].
    apply CKD_EPI_lt; [apply creat_from_eGFR_pos; lra |].
    apply creat_from_eGFR_lt; assumption.
Qed.

Lemma eGFR_translation_increasing_witness :
  exists v1 v2,
    eGFR_2021_to_2009 45 F 70 B = Some v1
    /\ eGFR_2021_to_2009 60 F 70 B = Some v2 /\ v1 < v2.
Proof.
  apply (eGFR_translation_increasing 45 60 F 70 B); lra.
Defined.

(** X3.  What the translations return: [None] exactly for a negative
    eGFR, 0 exactly for the eGFR 0, and a positive value otherwise; and
    translating a positive 2009 value to the 2021 equation and back
    returns it. *)
Theorem eGFR_translation_cases (egfr : R) (s : sex_t) (age : R)
    (r : race_t) :
  (eGFR_2021_to_2009 egfr s age r = None <-> egfr < 0)
  /\ (eGFR_2009_to_2021 egfr s age r = None <-> egfr < 0)
  /\ (eGFR_2021_to_2009 egfr s age r = Some 0 <-> egfr = 0)
  /\ (eGFR_2009_to_2021 egfr s age r = Some 0 <-> egfr = 0)
  /\ (0 < egfr ->
      exists egfr_2021,
        eGFR_2009_to_2021 egfr s age r = Some egfr_2021
        /\ 0 < egfr_2021
        /\ eGFR_2021_to_2009 egfr_2021 s age r = Some egfr).
Proof.
  assert (forall e, 0 < e ->
            0 < CKD_EPI (creat_from_eGFR e s age r F21) s age r F09) as P1
    by (intros; apply CKD_EPI_pos).
  assert (forall e, 0 < e ->
            0 < CKD_EPI (creat_from_eGFR e s age r F09) s age r F21) as P2
    by (intros; apply CKD_EPI_pos).
  destruct (Rtotal_order egfr 0) as [Hneg | [Hz | Hpos]].
  - assert (eGFR_2021_to_2009 egfr s age r = None) as E1.
    { unfold eGFR_2021_to_2009. destruct (Req_dec_T egfr 0); [lra |].
      destruct (Rlt_dec egfr 0); [reflexivity | lra]. }
    assert (eGFR_2009_to_2021 egfr s age r = None) as E2.
    { unfold eGFR_2009_to_2021. destruct (Req_dec_T egfr 0); [lra |].
      destruct (Rlt_dec egfr 0); [reflexivity | lra]. }
    rewrite E1, E2.
    repeat split; try tauto; try discriminate; try lra.
  - assert (eGFR_2021_to_2009 egfr s age r = Some 0) as E1.
    { unfold eGFR_2021_to_2009.
      destruct (Req_dec_T egfr 0); [reflexivity | lra]. }
    assert (eGFR_2009_to_2021 egfr s age r = Some 0) as E2.
    { unfold eGFR_2009_to_2021.
      destruct (Req_dec_T egfr 0); [reflexivity | lra]. }
    rewrite E1, E2.
    repeat split; try tauto; try discriminate; try lra.
  - rewrite (eGFR_2021_to_2009_pos egfr s age r Hpos).
    rewrite (eGFR_2009_to_2021_pos egfr s age r Hpos).
    specialize (P1 egfr Hpos). specialize (P2 egfr Hpos).
    repeat split; try discriminate; try lra.
    + intros [= E]. lra.
    + intros [= E]. lra.
    + intros _. eexists. split; [reflexivity |]. split; [exact P2 |].
      rewrite eGFR_2021_to_2009_pos by exact P2.
      rewrite creat_from_eGFR_CKD_EPI
        by (apply creat_from_eGFR_pos; exact Hpos).
      rewrite CKD_EPI_creat_from_eGFR by exact Hpos. reflexivity.
Qed.

Lemma eGFR_translation_cases_witness :
  exists egfr_2021,
    eGFR_2009_to_2021 52 M 65 B = Some egfr_2021
    /\ 0 < egfr_2021
    /\ eGFR_2021_to_2009 egfr_2021 M 65 B = Some 52.
Proof.
  apply (proj2 (proj2 (proj2 (proj2 (eGFR_translation_cases 52 M 65 B))))).
  lra.
Defined.

End CKD_EPI_order.

(** ** egfr_formulas.py: classification tables *)

Lemma range_interval_antitone (k1 k2 : Z) (e1 e2 : Q) :
  range_interval k1 e1 -> range_interval k2 e2 -> e1 <= e2 -> (k2 <= k1)%Z.
Proof.
  unfold range_interval. intros H1 H2 Hle.
  repeat match goal with
    | H : _ \/ _ |- _ => destruct H as [H | H]
    end;
    destruct H1 as [-> H1]; destruct H2 as [-> H2];
    try lia; exfalso; lra.
Qed.

Lemma egfr_to_stages_Some (egfr : Q) (s : ckd_stage) :
  egfr_to_stages egfr = Some s <-> 0 < egfr /\ stage_interval s egfr.
Proof.
  split.
  - intros H. destruct (Qlt_le_dec 0 egfr) as [Hpos | Hle].
    + split; [exact Hpos |].
      destruct (egfr_to_stages_interval egfr Hpos) as [s' [Hs' Hi]].
      congruence.
    + rewrite (egfr_to_stages_nonpositive egfr Hle) in H. discriminate.
  - intros [Hpos Hi].
    destruct (egfr_to_stages_interval egfr Hpos) as [s' [Hs' Hi']].
    rewrite Hs'. f_equal. exact (stage_interval_unique s s' egfr Hi Hi').
Qed.

(** X4.  [egfr_to_ranges] is total and antitone: every eGFR gets a bucket
    between 1 and 8, and a higher eGFR never gets a higher bucket number.
    The buckets refine the stages: two positive eGFR values in the same
    bucket are in the same stage. *)
Theorem egfr_to_ranges_antitone (egfr1 egfr2 : Q) :
  exists k1 k2,
    egfr_to_ranges egfr1 = Some k1 /\ egfr_to_ranges egfr2 = Some k2
    /\ (1 <= k1 <= 8)%Z /\ (1 <= k2 <= 8)%Z
    /\ (egfr1 <= egfr2 -> (k2 <= k1)%Z)
    /\ (0 < egfr1 -> 0 < egfr2 -> k1 = k2 ->
        egfr_to_stages egfr1 = egfr_to_stages egfr2).
Proof.
  destruct (egfr_to_ranges_interval egfr1) as (k1 & Hk1 & Hb1 & Hi1).
  destruct (egfr_to_ranges_interval egfr2) as (k2 & Hk2 & Hb2 & Hi2).
  exists k1, k2. repeat split; try assumption; try lia.
  - intros Hle. exact (range_interval_antitone k1 k2 egfr1 egfr2 Hi1 Hi2 Hle).
  - intros Hp1 Hp2 ->.
    destruct (egfr_to_stages_interval egfr1 Hp1) as [s1 [Hs1 Hj1]].
    rewrite Hs1. symmetry. apply egfr_to_stages_Some.
    split; [exact Hp2 |].
    unfold range_interval in Hi1, Hi2.
    repeat match goal with
      | H : _ \/ _ |- _ => destruct H as [H | H]
      end;
      destruct Hi1 as [E1 Hi1]; destruct Hi2 as [E2 Hi2];
      try (exfalso; lia);
      destruct s1; simpl in *; try (exfalso; lra); lra.
Qed.

(** X5.  The dictionary [egfr_to_g_stages] agrees with [egfr_to_stages]:
    each of its keys is classified to the stage the dictionary gives it,
    and is the highest eGFR value of that stage. *)
Theorem egfr_to_g_stages_highest (cutoff : Q) (s : ckd_stage) :
  egfr_to_g_stages cutoff = Some s ->
  egfr_to_stages cutoff = Some s
  /\ forall egfr, egfr_to_stages egfr = Some s -> egfr <= cutoff.
Proof.
  unfold egfr_to_g_stages. intros H.
  assert (0 < cutoff /\ stage_interval s cutoff
          /\ forall e, stage_interval s e -> e <= cutoff) as (Hp & Hi & Hmax).
  { repeat match type of H with
      | (if Qeq_bool cutoff ?c then _ else _) = _ =>
          let E := fresh "E" in
          destruct (Qeq_bool cutoff c) eqn:E; qbool;
          [injection H as <-; simpl;
           repeat split; try lra; intros e He; lra |]
      end.
    discriminate. }
  split; [apply egfr_to_stages_Some; split; assumption |].
  intros e He. apply egfr_to_stages_Some in He. apply Hmax. tauto.
Qed.

Lemma egfr_to_g_stages_highest_witness :
  egfr_to_stages 60 = Some G3a
  /\ forall egfr, egfr_to_stages egfr = Some G3a -> egfr <= 60.
Proof. apply (egfr_to_g_stages_highest 60 G3a). reflexivity. Defined.

(** ** interventions.py: fractions, probabilities and slopes *)

Lemma filter_length_all {A : Type} (f : A -> bool) (l : list A) :
  length (filter f l) = length l <-> forall x, In x l -> f x = true.
Proof.
  induction l as [| a t IH]; simpl; [tauto |].
  pose proof (filter_length_le f t) as Hle.
  destruct (f a) eqn:E; simpl.
  - split.
    + intros H x [<- | Hx]; [exact E |]. apply IH; [lia | exact Hx].
    + intros H. f_equal. apply IH. intros x Hx. apply H. right. exact Hx.
  - split; [intros H; exfalso; lia |].
    intros H. specialize (H a (or_introl eq_refl)). congruence.
Qed.

Lemma filter_length_none {A : Type} (f : A -> bool) (l : list A) :
  length (filter f l) = O <-> forall x, In x l -> f x = false.
Proof.
  induction l as [| a t IH]; simpl; [tauto |].
  destruct (f a) eqn:E; simpl.
  - split; [discriminate |].
    intros H. specialize (H a (or_introl eq_refl)). congruence.
  - rewrite IH. split.
    + intros H x [<- | Hx]; [exact E | exact (H x Hx)].
    + intros H x Hx. apply H. right. exact Hx.
Qed.

Lemma inject_nat_pos (n : nat) : (0 < n)%nat -> 0 < inject_Z (Z.of_nat n).
Proof.
  intros H. change 0 with (inject_Z 0). rewrite <- Zlt_Qlt. lia.
Qed.

Lemma frac_already_intervened_value (df : frame) (ev : intervention) :
  df <> [] ->
  exists q,
    frac_already_intervened df ev = Ok q
    /\ q * inject_Z (Z.of_nat (length df))
       == inject_Z (Z.of_nat
            (length (filter (fun r => (indicator (event_column ev) r =? 1)%Z)
                            df))).
Proof.
  intros Hne. unfold frac_already_intervened, float_div.
  assert (0 < inject_Z (Z.of_nat (length df))) as Hpos.
  { apply inject_nat_pos. destruct df; [contradiction | simpl; lia]. }
  destruct (Qeq_bool (inject_Z (Z.of_nat (length df))) 0) eqn:E; qbool;
    [exfalso; lra |].
  eexists. split; [reflexivity |]. field. exact E.
Qed.

Lemma frac_already_intervened_cases (df : frame) (ev : intervention) :
  (df = [] -> frac_already_intervened df ev = Err ZeroDivisionError)
  /\ (df <> [] ->
      exists q,
        frac_already_intervened df ev = Ok q
        /\ 0 <= q /\ q <= 1
        /\ (q == 0 <->
            forall r, In r df -> indicator (event_column ev) r <> 1%Z)
        /\ (q == 1 <->
            forall r, In r df -> indicator (event_column ev) r = 1%Z)).
Proof.
  split; [intros ->; reflexivity |].
  intros Hne.
  destruct (frac_already_intervened_value df ev Hne) as [q [Hq Hv]].
  set (f := fun r => (indicator (event_column ev) r =? 1)%Z) in *.
  pose proof (filter_length_le f df) as Hle.
  assert (0 < inject_Z (Z.of_nat (length df))) as Hpos.
  { apply inject_nat_pos. destruct df; [contradiction | simpl; lia]. }
  assert (0 <= inject_Z (Z.of_nat (length (filter f df)))) as Hc0.
  { change 0 with (inject_Z 0). rewrite <- Zle_Qle. lia. }
  assert (inject_Z (Z.of_nat (length (filter f df)))
          <= inject_Z (Z.of_nat (length df))) as Hc1.
  { rewrite <- Zle_Qle. lia. }
  exists q. split; [exact Hq |].
  split; [nra |]. split; [nra |]. split.
  - split.
    + intros E r Hr. rewrite E in Hv.
      assert (inject_Z (Z.of_nat (length (filter f df))) == inject_Z 0) as Hz
        by (rewrite <- Hv; ring).
      apply (proj1 (inject_Z_injective _ _)) in Hz.
      assert (length (filter f df) = O) as Hz' by lia.
      apply Z.eqb_neq. exact (proj1 (filter_length_none f df) Hz' r Hr).
    + intros H.
      assert (length (filter f df) = O) as E.
      { apply filter_length_none. intros r Hr. apply Z.eqb_neq.
        exact (H r Hr). }
      rewrite E in Hv. change (inject_Z (Z.of_nat 0)) with 0 in Hv.
      apply Qmult_integral in Hv. destruct Hv as [Hv | Hv]; [exact Hv | lra].
  - split.
    + intros E r Hr. rewrite E in Hv.
      assert (inject_Z (Z.of_nat (length (filter f df)))
              == inject_Z (Z.of_nat (length df))) as Hz
        by (rewrite <- Hv; ring).
      apply (proj1 (inject_Z_injective _ _)) in Hz.
      apply Nat2Z.inj in Hz.
      apply Z.eqb_eq. exact (proj1 (filter_length_all f df) Hz r Hr).
    + intros H.
      assert (length (filter f df) = length df) as E.
      { apply filter_length_all. intros r Hr. apply Z.eqb_eq. exact (H r Hr). }
      rewrite E in Hv.
      apply (Qmult_inj_r _ _ (inject_Z (Z.of_nat (length df)))); [lra |].
      rewrite Hv. ring.
Qed.

(** X6.  [frac_already_intervened] raises [ZeroDivisionError] on an empty
    frame; on any other frame it returns a fraction between 0 and 1, which
    is 0 exactly when no row has the intervention and 1 exactly when every
    row has it. *)
Theorem frac_already_intervened_range (df : frame) (ev : intervention) :
  (df = [] -> frac_already_intervened df ev = Err ZeroDivisionError)
  /\ (df <> [] ->
      exists q,
        frac_already_intervened df ev = Ok q
        /\ 0 <= q /\ q <= 1
        /\ (q == 0 <->
            forall r, In r df -> indicator (event_column ev) r <> 1%Z)
        /\ (q == 1 <->
            forall r, In r df -> indicator (event_column ev) r = 1%Z)).
Proof. exact (frac_already_intervened_cases df ev). Qed.

Lemma frac_already_intervened_range_witness :
  exists q,
    frac_already_intervened example_at_cutoff ev_diag = Ok q
    /\ 0 <= q /\ q <= 1
    /\ (q == 0 <->
        forall r, In r example_at_cutoff ->
                  indicator (event_column ev_diag) r <> 1%Z)
    /\ (q == 1 <->
        forall r, In r example_at_cutoff ->
                  indicator (event_column ev_diag) r = 1%Z).
Proof.
  apply (proj2 (frac_already_intervened_range example_at_cutoff ev_diag)).
  discriminate.
Defined.

(** X7.  [conditional_prob] is a probability when the target is reachable:
    for an already-intervened fraction [f < 1] and a target [p] with
    [f <= p <= 1] it returns a value [q] in [[0, 1]] with
    [f + (1 - f) * q = p] (intervening on a fraction [q] of the others
    reaches the target); for [f = 1] the division raises
    [ZeroDivisionError]. *)
Theorem conditional_prob_reaches_target (interv_prob frac_intervened : Q) :
  (frac_intervened < 1 -> frac_intervened <= interv_prob ->
   interv_prob <= 1 ->
   exists q,
     conditional_prob interv_prob frac_intervened = Ok q
     /\ 0 <= q /\ q <= 1
     /\ frac_intervened + (1 - frac_intervened) * q == interv_prob)
  /\ (frac_intervened == 1 ->
      conditional_prob interv_prob frac_intervened = Err ZeroDivisionError).
Proof.
  split.
  - intros Hf Hfp Hp.
    destruct (conditional_prob_value interv_prob frac_intervened)
      as [q [Hq Hv]]; [lra |].
    exists q. split; [exact Hq |].
    assert (q * (1 - frac_intervened) == interv_prob - frac_intervened) as Hm
      by (rewrite Hv; field; lra).
    split; [nra |]. split; [nra |]. nra.
  - intros Hf. unfold conditional_prob, float_div.
    destruct (Qeq_bool (1 - frac_intervened) 0) eqn:E; qbool;
      [reflexivity | exfalso; lra].
Qed.

Lemma conditional_prob_reaches_target_witness :
  exists q,
    conditional_prob 0.5 0.2 = Ok q
    /\ 0 <= q /\ q <= 1 /\ 0.2 + (1 - 0.2) * q == 0.5.
Proof.
  apply (proj1 (conditional_prob_reaches_target 0.5 0.2)); lra.
Defined.

Lemma get_slope_reduction_cases (slope : Q) (interv_nephr interv_diag : Z)
    (params : interv_params) :
  0 <= slope ->
  (forall ev, 0 <= eff params ev /\ eff params ev <= 1) ->
  0 <= get_slope_reduction slope interv_nephr interv_diag params
  /\ get_slope_reduction slope interv_nephr interv_diag params <= slope
  /\ (interv_nephr = 1%Z ->
      get_slope_reduction slope interv_nephr interv_diag params
      <= slope * (1 - eff params ev_diag)
      /\ get_slope_reduction slope interv_nephr interv_diag params
         <= slope * (1 - eff params ev_nephr))
  /\ (interv_nephr <> 1%Z -> interv_diag = 1%Z ->
      get_slope_reduction slope interv_nephr interv_diag params
      = slope * (1 - eff params ev_diag))
  /\ (interv_nephr <> 1%Z -> interv_diag <> 1%Z ->
      get_slope_reduction slope interv_nephr interv_diag params = slope).
Proof.
  intros Hs He. unfold get_slope_reduction.
  destruct (He ev_diag) as [Hd0 Hd1]. destruct (He ev_nephr) as [Hn0 Hn1].
  destruct (interv_nephr =? 1)%Z eqn:En.
  - apply Z.eqb_eq in En.
    destruct (Qlt_bool (eff params ev_nephr) (eff params ev_diag)) eqn:El;
      qbool; repeat split; try (intros; contradiction); try nra;
      intros; nra.
  - apply Z.eqb_neq in En.
    destruct (interv_diag =? 1)%Z eqn:Ed.
    + apply Z.eqb_eq in Ed.
      repeat split; try (intros; contradiction); try nra;
        try (intros; reflexivity).
    + apply Z.eqb_neq in Ed.
      repeat split; try (intros; contradiction); try nra;
        try (intros; reflexivity).
Qed.

(** X8.  With table slopes that are not negative and intervention effects
    between 0 and 1, [update_slopes] changes nothing but [slope], and the
    new slope of a row lies between 0 and the table slope of its
    [(dm, ht, g3)]: it is the table slope without intervention, the table
    slope reduced by the diagnosis effect with a diagnosis only, and with a
    nephrology referral at most the slope under either single effect
    (the larger effect applies; the effects do not add up). *)
Theorem update_slopes_bounds (df : frame) (params : model_params) :
  (forall d h g, 0 <= slopes params d h g) ->
  (forall ev, 0 <= eff (interv params) ev /\ eff (interv params) ev <= 1) ->
  Forall2
    (fun r o =>
       let table := slopes params (dm r) (ht r) (g3 r) in
       o = with_slope r (slope o)
       /\ 0 <= slope o /\ slope o <= table
       /\ (nephr r = 1%Z ->
           slope o <= table * (1 - eff (interv params) ev_diag)
           /\ slope o <= table * (1 - eff (interv params) ev_nephr))
       /\ (nephr r <> 1%Z -> diag r = 1%Z ->
           slope o = table * (1 - eff (interv params) ev_diag))
       /\ (nephr r <> 1%Z -> diag r <> 1%Z -> slope o = table))
    df (update_slopes df params).
Proof.
  intros Hs He. unfold update_slopes. apply Forall2_map_r. intros r.
  cbv zeta. split; [reflexivity |].
  exact (get_slope_reduction_cases (slopes params (dm r) (ht r) (g3 r))
           (nephr r) (diag r) (interv params) (Hs _ _ _) He).
Qed.

Lemma update_slopes_bounds_witness :
  Forall2
    (fun r o =>
       o = with_slope r (slope o)
       /\ 0 <= slope o /\ slope o <= 1)
    example_at_cutoff (update_slopes example_at_cutoff example_model_params).
Proof.
  assert (forall d h g, 0 <= slopes example_model_params d h g) as Hs
    by (intros; discriminate).
  assert (forall ev, 0 <= eff (interv example_model_params) ev
                     /\ eff (interv example_model_params) ev <= 1) as He
    by (intros; split; discriminate).
  pose proof (update_slopes_bounds example_at_cutoff example_model_params
                Hs He) as H.
  eapply Forall2_impl; [| exact H].
  intros r o (H1 & H2 & H3 & _). cbv zeta in H3.
  split; [exact H1 |]. split; [exact H2 | exact H3].
Defined.

(** ** interventions.py: the sampler *)

Lemma with_indicator_twice (c : indicator_name) (r : row) (v w : Z) :
  with_indicator c (with_indicator c r v) w = with_indicator c r w.
Proof. destruct c; reflexivity. Qed.

Lemma assign_indicator_Forall2 (c : indicator_name) (df : frame) :
  forall samples out,
    assign_indicator c df samples = Ok out ->
    Forall2 (fun r o => o = with_indicator c r (indicator c o)) df out
    /\ map (indicator c) out = samples.
Proof.
  induction df as [| r t IH]; intros [| v vs] out H; simpl in H;
    try discriminate.
  - injection H as <-. split; [constructor | reflexivity].
  - apply bind_Ok in H. destruct H as [rest [Hr H]]. injection H as <-.
    destruct (IH vs rest Hr) as [H2 Hm]. split.
    + constructor; [| exact H2]. rewrite indicator_with_same. reflexivity.
    + simpl. rewrite indicator_with_same, Hm. reflexivity.
Qed.

Section Sampler_facts.

Variable rng : Type.
Variable random_bernoulli : Q -> rng -> Z * rng.

Lemma sample_interventions_one_stage (df : frame) (ev : intervention)
    (params : interv_params) (common_rn : option (list Q)) (g : rng)
    (res : frame * rng) :
  sample_interventions rng random_bernoulli df ev params common_rn g = Ok res ->
  exists s, unique (map stage_diag df) = [Some s] /\ df <> [].
Proof.
  unfold sample_interventions. intros H.
  destruct (unique (map stage_diag df)) as [| st [| st' l]] eqn:Eu;
    try discriminate.
  assert (df <> []) as Hne by (intros ->; discriminate Eu).
  destruct st as [s |]; [exists s; split; [reflexivity | exact Hne] |].
  exfalso.
  destruct (frac_already_intervened df ev); simpl in H; discriminate.
Qed.

(** X9.  The errors of [sample_interventions].  A frame that does not hold
    exactly one distinct [stage_diag] value, in particular an empty frame,
    fails the assertion.  With one value: the placeholder stage is no key
    of the frequency table ([KeyError]); for a stage of the table, if every
    individual already has the intervention, or if nephrology is sampled
    and nobody is diagnosed, a division by zero is raised. *)
Theorem sample_interventions_errors (df : frame) (ev : intervention)
    (params : interv_params) (common_rn : option (list Q)) (g : rng) :
  (length (unique (map stage_diag df)) <> 1%nat ->
   sample_interventions rng random_bernoulli df ev params common_rn g
   = Err AssertionError)
  /\ (df = [] ->
      sample_interventions rng random_bernoulli df ev params common_rn g
      = Err AssertionError)
  /\ (unique (map stage_diag df) = [None] ->
      sample_interventions rng random_bernoulli df ev params common_rn g
      = Err KeyError)
  /\ (forall s,
        unique (map stage_diag df) = [Some s] ->
        (forall r, In r df -> indicator (event_column ev) r = 1%Z) ->
        sample_interventions rng random_bernoulli df ev params common_rn g
        = Err ZeroDivisionError)
  /\ (forall s,
        unique (map stage_diag df) = [Some s] ->
        (forall r, In r df -> diag r <> 1%Z) ->
        sample_interventions rng random_bernoulli df ev_nephr params
          common_rn g
        = Err ZeroDivisionError).
Proof.
  unfold sample_interventions.
  split; [| split; [| split; [| split]]].
  - intros H. destruct (unique (map stage_diag df)) as [| st [| st' l]];
      [reflexivity | exfalso; apply H; reflexivity | reflexivity].
  - intros ->. reflexivity.
  - intros Hu. rewrite Hu.
    assert (df <> []) as Hne by (intros ->; discriminate Hu).
    destruct (frac_already_intervened_cases df ev) as [_ H].
    destruct (H Hne) as (q & -> & _). reflexivity.
  - intros s Hu Hall. rewrite Hu.
    assert (df <> []) as Hne by (intros ->; discriminate Hu).
    destruct (frac_already_intervened_cases df ev) as [_ H].
    destruct (H Hne) as (q & -> & _ & _ & _ & H1).
    apply H1 in Hall. cbn [bind intervention_prob].
    unfold conditional_prob, float_div.
    destruct (Qeq_bool (1 - q) 0) eqn:E; qbool;
      [reflexivity | exfalso; lra].
  - intros s Hu Hnone. rewrite Hu.
    assert (df <> []) as Hne by (intros ->; discriminate Hu).
    destruct (frac_already_intervened_cases df ev_nephr) as [_ H].
    destruct (H Hne) as (q & -> & _).
    destruct (frac_already_intervened_cases df ev_diag) as [_ H'].
    destruct (H' Hne) as (qd & Hqd & _ & _ & H0 & _).
    apply H0 in Hnone. cbn [bind intervention_prob].
    destruct (conditional_prob (freq params ev_nephr s) q) as [pr | e] eqn:Ec.
    + cbn [bind]. rewrite Hqd. cbn [bind]. unfold float_div.
      destruct (Qeq_bool qd 0) eqn:E; qbool; [reflexivity | contradiction].
    + unfold conditional_prob, float_div in Ec.
      destruct (Qeq_bool (1 - q) 0); [| discriminate].
      injection Ec as <-. reflexivity.
Qed.

(** X10.  What a successful run of [sample_interventions] returns: the
    frame has one row per input row, and a row differs from its input row
    in the sampled indicator column only; after sampling nephrology, an
    undiagnosed individual never has a referral; with supplied draws the
    generator is not used. *)
Theorem sample_interventions_result (df : frame) (ev : intervention)
    (params : interv_params) (common_rn : option (list Q)) (g g' : rng)
    (df' : frame) :
  sample_interventions rng random_bernoulli df ev params common_rn g
  = Ok (df', g') ->
  Forall2
    (fun r o =>
       o = with_indicator (event_column ev) r (indicator (event_column ev) o))
    df df'
  /\ (ev = ev_nephr ->
      forall o, In o df' -> diag o = 0%Z -> nephr o = 0%Z)
  /\ (common_rn <> None -> g' = g).
Proof.
  intros H. unfold sample_interventions in H.
  destruct (unique (map stage_diag df)) as [| st [| st' l]];
    try discriminate.
  apply bind_Ok in H. destruct H as [fi [_ H]].
  apply bind_Ok in H. destruct H as [ip [_ H]].
  apply bind_Ok in H. destruct H as [pr [_ H]].
  apply bind_Ok in H. destruct H as [pr' [_ H]].
  apply bind_Ok in H. destruct H as [samples [Hs H]].
  apply bind_Ok in H. destruct H as [final_df [Hf H]].
  injection H as <- <-.
  destruct (assign_indicator_Forall2 _ _ _ _ Hf) as [H2 _].
  split; [| split].
  - destruct ev; [exact H2 |].
    apply (Forall2_trans
             (fun r o => o = with_indicator Nephr r (indicator Nephr o))
             (fun (a o : row) => o = with_indicator Nephr a (nephr a * diag a)%Z)
             (fun r o => o = with_indicator Nephr r (indicator Nephr o))
             df) with (l2 := final_df);
      [| exact H2 | apply Forall2_map_r; reflexivity].
    intros a b c -> ->. simpl. reflexivity.
  - intros -> o Ho Hd. apply in_map_iff in Ho. destruct Ho as [r [<- Hr]].
    simpl in *. rewrite Hd. lia.
  - intros Hc. destruct common_rn as [rn |]; [| contradiction].
    injection Hs as <-. reflexivity.
Qed.

End Sampler_facts.

Lemma sample_interventions_result_witness :
  exists df',
    sample_interventions unit (fun _ g => (0%Z, g)) example_at_cutoff
      ev_nephr example_interv_params (Some [0.1; 0.9; 0.4; 0.2; 0.7]) tt
    = Ok (df', tt)
    /\ Forall2
         (fun r o => o = with_indicator Nephr r (indicator Nephr o))
         example_at_cutoff df'
    /\ forall o, In o df' -> diag o = 0%Z -> nephr o = 0%Z.
Proof.
  eexists. split; [vm_compute; reflexivity |].
  match goal with
  | |- Forall2 _ _ ?d /\ _ =>
      destruct (sample_interventions_result unit (fun _ g => (0%Z, g))
                  example_at_cutoff ev_nephr example_interv_params
                  (Some [0.1; 0.9; 0.4; 0.2; 0.7]) tt tt d)
        as (H1 & H2 & _)
  end.
  - vm_compute. reflexivity.
  - split; [exact H1 | exact (H2 eq_refl)].
Defined.

(** ** helpers/survival_helpers.py: survival, CDF and PDF of a series *)

Lemma cumsum_from_ascending (c : curve) :
  forall acc,
    Forall (fun x => 0 <= snd x) c ->
    StronglySorted (fun a b => snd a <= snd b) (cumsum_from acc c)
    /\ Forall (fun x => acc <= snd x) (cumsum_from acc c).
Proof.
  induction c as [| x t IH]; intros acc H; simpl.
  - split; constructor.
  - inversion H as [| ? ? Hx Ht]; subst.
    destruct (IH (acc + snd x) Ht) as [Hs Hb]. split.
    + constructor; [exact Hs |]. exact Hb.
    + constructor; [simpl; lra |].
      eapply Forall_impl; [| exact Hb]. intros y Hy. simpl in *. lra.
Qed.

Lemma set_col_head {V : Type} (k : Z) (v w : V) (t : list (Z * V)) :
  Forall (fun x => fst x <> k) t ->
  set_col k v ((k, w) :: t) = (k, v) :: t.
Proof.
  intros H. unfold set_col. simpl. rewrite Z.eqb_refl. simpl. f_equal.
  induction H as [| x t Hx _ IH]; simpl; [reflexivity |].
  apply Z.eqb_neq in Hx. rewrite Hx, IH. reflexivity.
Qed.

Lemma cumsum_from_Forall_label (P : Z -> Prop) (c : curve) :
  forall acc,
    Forall (fun x => P (fst x)) c ->
    Forall (fun x => P (fst x)) (cumsum_from acc c).
Proof.
  induction c as [| x t IH]; intros acc H; simpl; [constructor |].
  inversion H; subst. constructor; [assumption | apply IH; assumption].
Qed.

Section Hazard_series_facts.

Variable np_exp : Q -> Q.

(** X11.  For a hazard series that starts at age 0 and has no negative
    hazard, and an [np.exp] that on arguments that are not positive is
    increasing with values between 0 and 1, [survival_from_hazards] returns
    a survival function: it is 1 at age 0, it never increases with age, and
    all its values lie between 0 and 1. *)
Theorem survival_from_hazards_decreasing (h0 : Q) (t : curve) :
  (forall x y, x <= y -> y <= 0 -> np_exp x <= np_exp y) ->
  (forall x, x <= 0 -> 0 <= np_exp x /\ np_exp x <= 1) ->
  Forall (fun x => fst x <> 0%Z) t ->
  Forall (fun x => 0 <= snd x) ((0%Z, h0) :: t) ->
  let surv := survival_from_hazards np_exp ((0%Z, h0) :: t) in
  map fst surv = 0%Z :: map fst t
  /\ hd_error surv = Some (0%Z, 1)
  /\ StronglySorted (fun a b => snd b <= snd a) surv
  /\ Forall (fun x => 0 <= snd x /\ snd x <= 1) surv.
Proof.
  intros Hmono Hrange Hlab Hnonneg surv.
  inversion Hnonneg as [| ? ? H0 Ht]; subst. simpl in H0.
  assert (surv = (0%Z, 1)
                 :: map (fun x => (fst x, np_exp (- snd x)))
                        (cumsum_from (0 + h0) t)) as E.
  { unfold surv, survival_from_hazards, np_cumsum. cbv zeta. simpl.
    apply set_col_head. apply Forall_map. simpl.
    apply (cumsum_from_Forall_label (fun a => a <> 0%Z)). exact Hlab. }
  rewrite E.
  destruct (cumsum_from_ascending t (0 + h0) Ht) as [Hs Hb].
  split; [| split; [| split]].
  - simpl. f_equal. rewrite map_map. simpl. apply cumsum_from_labels.
  - reflexivity.
  - constructor.
    + apply (StronglySorted_Forall2
               (fun a b : Z * Q => snd a <= snd b)
               (fun a b : Z * Q => snd b <= snd a)
               (fun (a o : Z * Q) =>
                  0 <= snd a /\ snd o = np_exp (- snd a))
               (cumsum_from (0 + h0) t));
        [| | exact Hs].
      * intros a b a' b' [Ha Ea] [Hb' Eb] Hab. rewrite Ea, Eb.
        apply Hmono; lra.
      * clear - Hb H0. induction Hb as [| x l Hx _ IH]; simpl;
          constructor; [split; [lra | reflexivity] | exact IH].
    + apply Forall_map. eapply Forall_impl; [| exact Hb].
      intros x Hx. cbv beta in Hx. simpl. apply Hrange. lra.
  - constructor; [simpl; lra |].
    apply Forall_map. eapply Forall_impl; [| exact Hb].
    intros x Hx. cbv beta in Hx. simpl. apply Hrange. lra.
Qed.

End Hazard_series_facts.

Lemma exp_nonpos_stand_in_increasing (x y : Q) :
  x <= y -> y <= 0 -> exp_nonpos_stand_in x <= exp_nonpos_stand_in y.
Proof.
  intros Hxy Hy. unfold exp_nonpos_stand_in.
  apply Qle_shift_div_l; [lra |].
  assert (1 / (1 - x) * (1 - x) == 1) as E by (field; lra).
  assert (0 <= 1 / (1 - x)) as Hp.
  { apply Qle_shift_div_l; lra. }
  nra.
Qed.

Lemma exp_nonpos_stand_in_range (x : Q) :
  x <= 0 -> 0 <= exp_nonpos_stand_in x /\ exp_nonpos_stand_in x <= 1.
Proof.
  intros Hx. unfold exp_nonpos_stand_in. split.
  - apply Qle_shift_div_l; lra.
  - apply Qle_shift_div_r; lra.
Qed.

Lemma survival_from_hazards_decreasing_witness :
  let surv := survival_from_hazards exp_nonpos_stand_in example_hazard_series in
  map fst surv = [0; 1; 2; 100]%Z
  /\ hd_error surv = Some (0%Z, 1)
  /\ StronglySorted (fun a b => snd b <= snd a) surv
  /\ Forall (fun x => 0 <= snd x /\ snd x <= 1) surv.
Proof.
  apply (survival_from_hazards_decreasing exp_nonpos_stand_in 0.01
           [(1%Z, 0.02); (2%Z, 0.05); (100%Z, 0.5)]).
  - exact exp_nonpos_stand_in_increasing.
  - exact exp_nonpos_stand_in_range.
  - repeat (apply Forall_cons; [discriminate |]). apply Forall_nil.
  - repeat (apply Forall_cons; [discriminate |]). apply Forall_nil.
Defined.

Lemma np_round_comp (d : nat) (x y : Q) : x == y -> np_round d x = np_round d y.
Proof.
  intros H. unfold np_round.
  rewrite (rint_comp (x * inject_Z (10 ^ Z.of_nat d))
                     (y * inject_Z (10 ^ Z.of_nat d))); [reflexivity |].
  rewrite H. reflexivity.
Qed.

(** The differences telescope: their sum is the last value (minus the
    value before the first). *)
Lemma series_sum_diff_from (c : curve) :
  forall prev,
    series_sum (diff_from prev c)
    == match last_error c with
       | Some x => snd x - prev
       | None => 0
       end.
Proof.
  unfold series_sum, last_error.
  induction c as [| x t IH]; intros prev; [reflexivity |].
  cbn [diff_from map fold_right fst snd]. rewrite (IH (snd x)).
  cbn [rev]. destruct t as [| y t']; [simpl; ring |].
  assert (exists z, hd_error (rev (y :: t')) = Some z) as [z Hz].
  { destruct (rev (y :: t')) as [| z l] eqn:E.
    - apply (f_equal (@length _)) in E. rewrite length_rev in E.
      discriminate.
    - exists z. reflexivity. }
  rewrite Hz.
  assert (hd_error (rev (y :: t') ++ [x]) = Some z) as ->.
  { destruct (rev (y :: t')); [discriminate | exact Hz]. }
  ring.
Qed.

(** The running sum of the differences gives the values back. *)
Lemma cumsum_diff_from (c : curve) :
  forall acc prev,
    acc == prev ->
    Forall2 (fun a b => fst a = fst b /\ snd a == snd b)
            c (cumsum_from acc (diff_from prev c)).
Proof.
  induction c as [| x t IH]; intros acc prev H; simpl; constructor.
  - split; [reflexivity |]. simpl. rewrite H. ring.
  - apply IH. rewrite H. ring.
Qed.

Lemma set_col_Forall2 (k : Z) (v : Q) (c c' : curve) :
  Forall2 (fun a b => fst a = fst b /\ snd a == snd b) c c' ->
  Forall2 (fun a b => fst a = fst b /\ snd a == snd b)
          (set_col k v c) (set_col k v c').
Proof.
  intros H. unfold set_col.
  assert (existsb (fun x : Z * Q => (fst x =? k)%Z) c
          = existsb (fun x : Z * Q => (fst x =? k)%Z) c') as E.
  { induction H as [| a b l l' [Hab _] _ IH]; simpl; [reflexivity |].
    rewrite Hab, IH. reflexivity. }
  rewrite <- E. clear E. destruct (existsb _ c).
  - induction H as [| a b l l' [Hab Hv] _ IH]; simpl; [constructor |].
    constructor; [| exact IH].
    rewrite Hab. destruct (fst b =? k)%Z; simpl; split;
      auto; reflexivity.
  - apply Forall2_app; [exact H |].
    constructor; [split; reflexivity | constructor].
Qed.

Lemma last_error_set_col_last (k : Z) (v w : Q) (c : curve) :
  last_error (set_col k v (c ++ [(k, w)])) = Some (k, v).
Proof.
  unfold set_col, last_error.
  assert (existsb (fun x : Z * Q => (fst x =? k)%Z) (c ++ [(k, w)]) = true)
    as ->.
  { rewrite existsb_app. simpl. rewrite Z.eqb_refl.
    rewrite orb_true_r. reflexivity. }
  rewrite map_app, rev_app_distr. simpl. rewrite Z.eqb_refl. reflexivity.
Qed.

Lemma cumsum_from_snoc (f : Q -> Q) (c : curve) (k : Z) (v : Q) :
  forall acc,
    exists c' w,
      map (fun x : Z * Q => (fst x, f (snd x)))
          (cumsum_from acc (c ++ [(k, v)]))
      = c' ++ [(k, w)].
Proof.
  induction c as [| y l IH]; intros acc; simpl.
  - exists [], (f (acc + v)). reflexivity.
  - destruct (IH (acc + snd y)) as (c' & w & ->).
    eexists (_ :: c'), w. reflexivity.
Qed.

Section Series_round_trip.

Variable np_exp : Q -> Q.

(** X12.  [pdf_from_cdf] accepts a CDF series exactly when its last value
    rounds (10 decimals) to 1, the differences summing to that value; an
    empty series is refused.  [cdf_from_pdf] then accepts the PDF it
    returned and gives the CDF back, with the value at age 100 set to 1.
    The CDF that [cdf_from_hazards] builds for a series ending at age 100
    is accepted. *)
Theorem pdf_from_cdf_round_trip (cdf : curve) :
  (pdf_from_cdf cdf = Err AssertionError
   \/ pdf_from_cdf cdf = Ok (diff_from 0 cdf))
  /\ (pdf_from_cdf cdf = Ok (diff_from 0 cdf) <->
      exists x, last_error cdf = Some x /\ np_round 10 (snd x) == 1)
  /\ (forall pdf,
        pdf_from_cdf cdf = Ok pdf ->
        exists cdf',
          cdf_from_pdf pdf = Ok cdf'
          /\ Forall2 (fun a b => fst a = fst b /\ snd a == snd b)
                     (set_col 100 1 cdf) cdf')
  /\ (forall hazards h100,
        cdf = cdf_from_hazards np_exp (hazards ++ [(100%Z, h100)]) ->
        pdf_from_cdf cdf = Ok (diff_from 0 cdf)).
Proof.
  assert (pdf_from_cdf cdf = Ok (diff_from 0 cdf) <->
          exists x, last_error cdf = Some x /\ np_round 10 (snd x) == 1)
    as Hiff.
  { unfold pdf_from_cdf. cbv zeta.
    pose proof (series_sum_diff_from cdf 0) as Hs.
    destruct (last_error cdf) as [x |] eqn:El.
    - assert (series_sum (diff_from 0 cdf) == snd x) as Hs'
        by (rewrite Hs; ring).
      rewrite (np_round_comp 10 _ _ Hs').
      destruct (Qeq_bool (np_round 10 (snd x)) 1) eqn:E; qbool.
      + split; [| reflexivity]. intros _. exists x. split; [reflexivity |].
        exact E.
      + split; [discriminate |]. intros [y [[= <-] Hy]]. contradiction.
    - rewrite (np_round_comp 10 _ _ Hs).
      split; [discriminate |]. intros [y [Hy _]]. discriminate. }
  split; [| split; [exact Hiff | split]].
  - unfold pdf_from_cdf. cbv zeta.
    destruct (Qeq_bool _ 1); [right | left]; reflexivity.
  - intros pdf H. unfold pdf_from_cdf in H. cbv zeta in H.
    destruct (Qeq_bool (np_round 10 (series_sum (diff_from 0 cdf))) 1) eqn:E;
      [| discriminate].
    injection H as <-. unfold cdf_from_pdf. rewrite E.
    eexists. split; [reflexivity |].
    apply set_col_Forall2. unfold np_cumsum.
    apply cumsum_diff_from. reflexivity.
  - intros hazards h100 ->. apply Hiff.
    exists (100%Z, 1). split; [| reflexivity].
    unfold cdf_from_hazards, np_cumsum. cbv zeta.
    destruct (cumsum_from_snoc (fun v => 1 - np_exp (- v)) hazards 100 h100 0)
      as (c & w & ->).
    apply last_error_set_col_last.
Qed.

End Series_round_trip.

Lemma pdf_from_cdf_round_trip_witness :
  exists pdf cdf',
    pdf_from_cdf (cdf_from_hazards exp_nonpos_stand_in example_hazard_series)
    = Ok pdf
    /\ cdf_from_pdf pdf = Ok cdf'
    /\ Forall2 (fun a b => fst a = fst b /\ snd a == snd b)
               (set_col 100 1
                  (cdf_from_hazards exp_nonpos_stand_in example_hazard_series))
               cdf'.
Proof.
  destruct (pdf_from_cdf_round_trip exp_nonpos_stand_in
              (cdf_from_hazards exp_nonpos_stand_in example_hazard_series))
    as (_ & _ & Hrt & Hacc).
  pose proof (Hacc [(0%Z, 0.01); (1%Z, 0.02); (2%Z, 0.05)] 0.5 eq_refl) as H.
  destruct (Hrt _ H) as (cdf' & Hc & Hf).
  eexists. exists cdf'. split; [exact H |]. split; [exact Hc | exact Hf].
Defined.

(** ** helpers/survival_helpers.py: conditioning and sampling *)

Lemma get_col_None {V : Type} (k : Z) (c : list (Z * V)) :
  ~ In k (map fst c) -> get_col k c = None.
Proof.
  unfold get_col. induction c as [| x t IH]; simpl; [reflexivity |].
  intros H. destruct (fst x =? k)%Z eqn:E.
  - apply Z.eqb_eq in E. exfalso. apply H. left. exact E.
  - apply IH. intros Hin. apply H. right. exact Hin.
Qed.

Lemma set_col_labels_In {V : Type} (k : Z) (v : V) (c : list (Z * V)) :
  In k (map fst c) -> map fst (set_col k v c) = map fst c.
Proof.
  intros H. unfold set_col.
  assert (existsb (fun x : Z * V => (fst x =? k)%Z) c = true) as ->.
  { apply existsb_exists. apply in_map_iff in H.
    destruct H as [x [Hx Hin]]. exists x. split; [exact Hin |].
    apply Z.eqb_eq. exact Hx. }
  rewrite map_map. apply map_ext. intros x.
  destruct (fst x =? k)%Z; reflexivity.
Qed.

Lemma loc_from_ge {V : Type} (k : Z) (c : list (Z * V)) :
  StronglySorted Z.lt (map fst c) ->
  Forall (fun x => (k <= fst x)%Z) (loc_from k c).
Proof.
  induction c as [| x t IH]; simpl; intros Hs; [constructor |].
  inversion Hs as [| ? ? Ht Hx]; subst.
  destruct (fst x <? k)%Z eqn:E; [exact (IH Ht) |].
  apply Z.ltb_ge in E. constructor; [exact E |].
  rewrite Forall_map in Hx. eapply Forall_impl; [| exact Hx].
  intros y Hy. simpl in Hy. lia.
Qed.

Lemma get_col_map {V W : Type} (f : V -> W) (k : Z) (c : list (Z * V)) :
  get_col k (map (fun x => (fst x, f (snd x))) c) = option_map f (get_col k c).
Proof.
  unfold get_col. induction c as [| x t IH]; simpl; [reflexivity |].
  destruct (fst x =? k)%Z; [reflexivity | exact IH].
Qed.

Section Conditioning_facts.

Variable np_exp : Q -> Q.
Variable rng : Type.
Variable random_uniform : rng -> Q * rng.

(** X13.  The domain of [conditional_on_survival].  The assertion fails
    exactly for [age_surv <= 0] (or a distribution type other than CDF and
    survival): no upper bound on [age_surv] is enforced, whatever the
    message of the assertion says.  Past the assertion, a table without the
    column [age_surv - 1] raises [KeyError]; with that column the function
    returns, for any [age_surv] above 0, a row whose value at age 100 is 0
    for a survival function and 1 for a CDF. *)
Theorem conditional_on_survival_domain (age_surv : Z) (distr : curve)
    (ty : distr_type) :
  (conditional_on_survival age_surv distr ty = Err AssertionError
   <-> (age_surv <= 0)%Z \/ ty = distr_pdf)
  /\ ((0 < age_surv)%Z -> ty <> distr_pdf ->
      ~ In (age_surv - 1)%Z (map fst distr) ->
      conditional_on_survival age_surv distr ty = Err KeyError)
  /\ ((0 < age_surv)%Z -> ty <> distr_pdf ->
      In (age_surv - 1)%Z (map fst distr) ->
      exists out,
        conditional_on_survival age_surv distr ty = Ok out
        /\ get_col 100 out
           = Some (match ty with
                   | distr_cdf => Some (1 - 0)
                   | _ => Some 0
                   end)).
Proof.
  unfold conditional_on_survival.
  destruct (0 <? age_surv)%Z eqn:Ea; simpl.
  - apply Z.ltb_lt in Ea.
    assert (forall surv : curve,
              map fst surv = map fst distr ->
              (~ In (age_surv - 1)%Z (map fst distr) ->
               get_col (age_surv - 1) surv = None)
              /\ (In (age_surv - 1)%Z (map fst distr) ->
                  exists v, get_col (age_surv - 1) surv = Some v)) as Hcol.
    { intros surv Hl. rewrite <- Hl. split;
        [apply get_col_None | apply get_col_Some]. }
    destruct ty.
    + destruct (Hcol (map (fun x => (fst x, 1 - snd x)) distr)) as [Hn Hs].
      { rewrite map_map. reflexivity. }
      split; [| split].
      * split; [| intros [H | H]; [lia | discriminate]].
        destruct (get_col _ _); discriminate.
      * intros _ _ Hin. rewrite (Hn Hin). reflexivity.
      * intros _ _ Hin. destruct (Hs Hin) as [v ->].
        eexists. split; [reflexivity |].
        rewrite (get_col_map one_minus), get_col_set_col. reflexivity.
    + destruct (Hcol distr eq_refl) as [Hn Hs].
      split; [| split].
      * split; [| intros [H | H]; [lia | discriminate]].
        destruct (get_col _ _); discriminate.
      * intros _ _ Hin. rewrite (Hn Hin). reflexivity.
      * intros _ _ Hin. destruct (Hs Hin) as [v ->].
        eexists. split; [reflexivity |]. apply get_col_set_col.
    + split; [| split].
      * split; [intros _; right; reflexivity | reflexivity].
      * intros _ H. contradiction.
      * intros _ H. contradiction.
  - apply Z.ltb_ge in Ea. split; [| split].
    + split; [intros _; left; exact Ea | reflexivity].
    + intros H. lia.
    + intros H. lia.
Qed.

(** X14.  One row of [sample_cat_vectorized]: the label returned is that of
    the first column whose CDF value is at least the draw; when no column
    reaches the draw (or the values are not finite) it is the label of the
    first column, the [argmax] of an all-false row being 0; a row without
    columns raises [ValueError]. *)
Theorem sample_cat_first_crossing (row_ : ocurve) (u : Q) :
  (row_ = [] -> sample_cat distr_cdf row_ u = Err ValueError)
  /\ (forall pre a v post,
        row_ = pre ++ (a, v) :: post ->
        Forall (fun x => ge_sample (snd x) u = false) pre ->
        ge_sample v u = true ->
        sample_cat distr_cdf row_ u = Ok a)
  /\ (forall a v t,
        row_ = (a, v) :: t ->
        Forall (fun x => ge_sample (snd x) u = false) row_ ->
        sample_cat distr_cdf row_ u = Ok a).
Proof.
  split; [intros ->; reflexivity | split].
  - intros pre a v post -> Hpre Hv. unfold sample_cat, argmax.
    assert (first_true (map (fun x : Z * option Q => ge_sample (snd x) u)
                            (pre ++ (a, v) :: post))
            = Some (length pre)) as ->.
    { induction Hpre as [| x l Hx _ IH]; simpl.
      - rewrite Hv. reflexivity.
      - rewrite Hx, IH. reflexivity. }
    rewrite map_app, nth_error_app2 by (rewrite length_map; lia).
    rewrite length_map, Nat.sub_diag. reflexivity.
  - intros a v t -> Hall. unfold sample_cat, argmax.
    assert (first_true (map (fun x : Z * option Q => ge_sample (snd x) u)
                            ((a, v) :: t)) = None) as ->.
    { induction Hall as [| x l Hx _ IH]; simpl; [reflexivity |].
      rewrite Hx, IH. reflexivity. }
    reflexivity.
Qed.

End Conditioning_facts.

Lemma sample_cat_first_crossing_witness :
  sample_cat distr_cdf
    [(30%Z, Some 0.1); (31%Z, None); (32%Z, Some 0.4); (100%Z, Some 1)] 0.25
  = Ok 32%Z
  /\ sample_cat distr_cdf [(30%Z, Some 0.1); (31%Z, Some 0.2)] 0.25 = Ok 30%Z.
Proof.
  split.
  - apply (proj1 (proj2 (sample_cat_first_crossing
                           [(30%Z, Some 0.1); (31%Z, None); (32%Z, Some 0.4);
                            (100%Z, Some 1)] 0.25))
             [(30%Z, Some 0.1); (31%Z, None)] 32%Z (Some 0.4)
             [(100%Z, Some 1)]).
    + reflexivity.
    + repeat (apply Forall_cons; [reflexivity |]). apply Forall_nil.
    + reflexivity.
  - apply (proj2 (proj2 (sample_cat_first_crossing
                           [(30%Z, Some 0.1); (31%Z, Some 0.2)] 0.25))
             30%Z (Some 0.1) [(31%Z, Some 0.2)]).
    + reflexivity.
    + repeat (apply Forall_cons; [reflexivity |]). apply Forall_nil.
Defined.

Lemma conditional_on_survival_domain_witness :
  exists out,
    conditional_on_survival 100 [(99%Z, 0.5); (100%Z, 0.25)] distr_surv
    = Ok out
    /\ get_col 100 out = Some (Some 0).
Proof.
  apply (proj2 (proj2 (conditional_on_survival_domain 100
                         [(99%Z, 0.5); (100%Z, 0.25)] distr_surv))).
  - reflexivity.
  - discriminate.
  - left. reflexivity.
Defined.

(** ** helpers/survival_helpers.py: the sampled death age *)

Lemma mapM_inv {A B : Type} (f : A -> result B) (l : list A) :
  forall ys, mapM f l = Ok ys -> Forall2 (fun x y => f x = Ok y) l ys.
Proof.
  induction l as [| x t IH]; intros ys H; simpl in H.
  - injection H as <-. constructor.
  - apply bind_Ok in H. destruct H as [y [Hy H]].
    apply bind_Ok in H. destruct H as [ys' [Hys H]]. injection H as <-.
    constructor; [exact Hy | exact (IH ys' Hys)].
Qed.

Lemma zipM_inv {A B C : Type} (f : A -> B -> result C) (l1 : list A) :
  forall l2 zs,
    zipM f l1 l2 = Ok zs ->
    Forall (fun z => exists x y, In x l1 /\ In y l2 /\ f x y = Ok z) zs.
Proof.
  induction l1 as [| x t IH]; intros [| y l2] zs H; simpl in H;
    try discriminate.
  - injection H as <-. constructor.
  - apply bind_Ok in H. destruct H as [z [Hz H]].
    apply bind_Ok in H. destruct H as [zs' [Hzs H]]. injection H as <-.
    constructor.
    + exists x, y. split; [left; reflexivity |].
      split; [left; reflexivity | exact Hz].
    + eapply Forall_impl; [| exact (IH l2 zs' Hzs)].
      intros z' (x' & y' & Hx & Hy & Hf). exists x', y'.
      split; [right; exact Hx |]. split; [right; exact Hy | exact Hf].
Qed.

Lemma Forall2_In_r {A B : Type} (R : A -> B -> Prop) (l : list A)
    (l' : list B) (y : B) :
  Forall2 R l l' -> In y l' -> exists x, In x l /\ R x y.
Proof.
  induction 1 as [| a b t t' Hab _ IH]; intros Hin; [contradiction |].
  destruct Hin as [<- | Hin].
  - exists a. split; [left; reflexivity | exact Hab].
  - destruct (IH Hin) as [x [Hx Hr]]. exists x.
    split; [right; exact Hx | exact Hr].
Qed.

Lemma sample_cat_label (row_ : ocurve) (u : Q) (a : Z) :
  sample_cat distr_cdf row_ u = Ok a -> In a (map fst row_).
Proof.
  unfold sample_cat. intros H.
  destruct (nth_error (map fst row_) _) as [b |] eqn:E; [| discriminate].
  injection H as <-. exact (nth_error_In _ _ E).
Qed.

Section Death_age_bounds.

Variable np_exp : Q -> Q.
Variable rng : Type.
Variable random_uniform : rng -> Q * rng.

(** The columns of the conditional survival of a hazard row whose age
    columns ascend from 0: none is below [age_surv]. *)
Lemma conditional_on_survival_labels (age_surv : Z) (h : curve)
    (surv_t : ocurve) :
  (age_surv <= 100)%Z ->
  In 0%Z (map fst h) -> StronglySorted Z.lt (map fst h) ->
  conditional_on_survival age_surv (survival_from_hazards np_exp h)
    distr_surv = Ok surv_t ->
  Forall (fun x => (age_surv <= fst x)%Z) surv_t.
Proof.
  intros Hle H0 Hs H. unfold conditional_on_survival in H.
  destruct (negb (0 <? age_surv)%Z); [discriminate |].
  destruct (get_col (age_surv - 1) (survival_from_hazards np_exp h))
    as [v |]; [| discriminate].
  injection H as <-.
  apply (set_col_Forall (fun a => (age_surv <= a)%Z)); [| exact Hle].
  apply Forall_map. simpl. apply loc_from_ge.
  unfold survival_from_hazards. cbv zeta.
  rewrite set_col_labels_In.
  - rewrite map_map. simpl. unfold np_cumsum.
    change (map (fun x : Z * Q => fst x) (cumsum_from 0 h))
      with (map fst (cumsum_from 0 h)).
    rewrite cumsum_from_labels. exact Hs.
  - rewrite map_map. simpl. unfold np_cumsum.
    change (map (fun x : Z * Q => fst x) (cumsum_from 0 h))
      with (map fst (cumsum_from 0 h)).
    rewrite cumsum_from_labels. exact H0.
Qed.

(** X15.  Nobody dies before the age the sampling is conditioned on: for
    hazard rows whose age columns ascend from 0, [init_age <= 100] and
    offsets that are not negative, every death age that [get_death_ages]
    returns is at least [init_age]. *)
Theorem death_age_at_least_init_age
    (final_hazards : list curve) (init_age : Z)
    (sample_year sample_cont : option (list Q)) (g g' : rng)
    (death_ages : list Q) :
  get_death_ages np_exp rng random_uniform final_hazards init_age
    sample_year sample_cont g = Ok (death_ages, g') ->
  (init_age <= 100)%Z ->
  Forall (fun h => In 0%Z (map fst h) /\ StronglySorted Z.lt (map fst h))
         final_hazards ->
  (forall g0, 0 <= fst (random_uniform g0)) ->
  (forall l, sample_cont = Some l -> Forall (fun c => 0 <= c) l) ->
  Forall (fun d => inject_Z init_age <= d) death_ages.
Proof.
  intros H Hle Hhaz Hrng Hcont.
  unfold get_death_ages, sample_cat_vectorized in H. cbv zeta in H.
  match type of H with
  | context [zipM _ _ (fst ?t)] =>
      match t with
      | match sample_cont with _ => _ end => set (c := t) in H
      end
  end.
  assert (Forall (fun o => 0 <= o) (fst c)) as Hc.
  { unfold c. destruct sample_cont as [l |]; [exact (Hcont l eq_refl) |].
    apply uniform_draws_range. exact Hrng. }
  apply bind_Ok in H. destruct H as [surv_updated [Hm H]].
  apply bind_Ok in H. destruct H as [sampled [Hs H]].
  apply bind_Ok in Hs. destruct Hs as [labels [Hz Hs]].
  injection Hs as <-. cbn [fst snd] in H.
  apply bind_Ok in H. destruct H as [ages [Ha H]].
  injection H as <- _.
  apply mapM_inv in Hm. apply zipM_inv in Hz. apply zipM_inv in Ha.
  rewrite Forall_forall in *. intros d Hd.
  destruct (Ha d Hd) as (a & o & Hal & Ho & Hdo). injection Hdo as <-.
  destruct (Hz a Hal) as (cdf & u & Hcdf & _ & Hsa).
  apply sample_cat_label in Hsa.
  apply in_map_iff in Hcdf. destruct Hcdf as [s [<- Hsin]].
  rewrite map_map in Hsa. simpl in Hsa.
  destruct (Forall2_In_r _ _ _ s Hm Hsin) as [sv [Hsv Hcs]].
  apply in_map_iff in Hsv. destruct Hsv as [h [<- Hh]].
  destruct (Hhaz h Hh) as [H0 Hsorted].
  pose proof (conditional_on_survival_labels init_age h s Hle H0 Hsorted Hcs)
    as Hlab.
  apply in_map_iff in Hsa. destruct Hsa as [x [<- Hx]].
  rewrite Forall_forall in Hlab. specialize (Hlab x Hx).
  specialize (Hc o Ho).
  assert (inject_Z init_age <= inject_Z (fst x)) by (rewrite <- Zle_Qle; lia).
  lra.
Qed.

End Death_age_bounds.

Lemma death_age_at_least_init_age_witness :
  exists death_ages,
    get_death_ages exp_stand_in unit constant_uniform example_hazards 30
      (Some [0.3; 1]) None tt = Ok (death_ages, tt)
    /\ Forall (fun d => inject_Z 30 <= d) death_ages.
Proof.
  eexists. split; [vm_compute; reflexivity |].
  match goal with
  | |- Forall _ ?d =>
      apply (death_age_at_least_init_age exp_stand_in unit constant_uniform
               example_hazards 30 (Some [0.3; 1]) None tt tt d)
  end.
  - vm_compute. reflexivity.
  - discriminate.
  - repeat (apply Forall_cons;
            [split; [left; reflexivity |];
             repeat (apply SSorted_cons;
                     [| repeat (apply Forall_cons; [reflexivity |]);
                        apply Forall_nil]);
             apply SSorted_nil |]).
    apply Forall_nil.
  - intros g0. discriminate.
  - intros l [=].
Defined.

(** ** egfr_model.py: the decline integrator, again *)

Lemma Qminus_0_r_eq (e : Q) : e - 0 = e.
Proof.
  destruct e as [n d]. unfold Qminus, Qplus, Qopp. simpl.
  rewrite Z.mul_1_r, Z.add_0_r, Pos.mul_1_r. reflexivity.
Qed.

Lemma with_egfr_same (r : row) : with_egfr r (egfr r) = r.
Proof. destruct r. reflexivity. Qed.

Lemma find_map {A B : Type} (f : B -> bool) (g : A -> B) (l : list A) :
  find f (map g l) = option_map g (find (fun x => f (g x)) l).
Proof.
  induction l as [| x t IH]; simpl; [reflexivity |].
  destruct (f (g x)); [reflexivity | exact IH].
Qed.

Lemma find_split {A : Type} (f : A -> bool) (l : list A) (x : A) :
  find f l = Some x ->
  exists pre post,
    l = pre ++ x :: post /\ Forall (fun y => f y = false) pre /\ f x = true.
Proof.
  induction l as [| y t IH]; simpl; [discriminate |].
  destruct (f y) eqn:E.
  - intros [= <-]. exists [], t. split; [reflexivity |].
    split; [constructor | exact E].
  - intros H. destruct (IH H) as (pre & post & -> & Hpre & Hx).
    exists (y :: pre), post. split; [reflexivity |].
    split; [constructor; assumption | exact Hx].
Qed.

Lemma map_index_app {A B : Type} (f : nat -> A -> B) (l1 l2 : list A) :
  forall s,
    map_index f s (l1 ++ l2)
    = map_index f s l1 ++ map_index f (s + length l1) l2.
Proof.
  induction l1 as [| x t IH]; intros s; simpl.
  - rewrite Nat.add_0_r. reflexivity.
  - rewrite IH. rewrite Nat.add_succ_r. reflexivity.
Qed.

Lemma map_map_index {A B C : Type} (h : B -> C) (f : nat -> A -> B)
    (l : list A) :
  forall s, map h (map_index f s l) = map_index (fun i x => h (f i x)) s l.
Proof.
  induction l as [| x t IH]; intros s; simpl; [reflexivity |].
  rewrite IH. reflexivity.
Qed.

Lemma map_index_map_index {A B C : Type} (h : nat -> B -> C)
    (f : nat -> A -> B) (l : list A) :
  forall s,
    map_index h s (map_index f s l) = map_index (fun i x => h i (f i x)) s l.
Proof.
  induction l as [| x t IH]; intros s; simpl; [reflexivity |].
  rewrite IH. reflexivity.
Qed.

Lemma map_index_const {A B : Type} (g : A -> B) (l : list A) :
  forall s, map_index (fun _ x => g x) s l = map g l.
Proof.
  induction l as [| x t IH]; intros s; simpl; [reflexivity |].
  rewrite IH. reflexivity.
Qed.

Lemma map_index_ext_in {A B : Type} (f g : nat -> A -> B) (l : list A) :
  forall s,
    (forall i x, nth_error l i = Some x -> f (s + i)%nat x = g (s + i)%nat x) ->
    map_index f s l = map_index g s l.
Proof.
  induction l as [| x t IH]; intros s H; simpl; [reflexivity |].
  f_equal.
  - specialize (H O x eq_refl). rewrite Nat.add_0_r in H. exact H.
  - apply IH. intros i y Hy. specialize (H (S i) y Hy).
    rewrite Nat.add_succ_r in H. exact H.
Qed.

(** The columns that [get_decline] computes from read only [pid], [age]
    and [slope]: they are the same on a frame whose eGFR column is
    blanked. *)
Lemma dt_skeleton (df : frame) (i : nat) :
  dt (map (fun r => with_egfr r 0) df) i = dt df i.
Proof.
  unfold dt. rewrite nth_error_map.
  destruct (nth_error df (S i)) as [r' |]; [| reflexivity].
  cbn [option_map]. rewrite firstn_map, <- map_rev, find_map.
  destruct (find _ (rev (firstn (S i) df))); reflexivity.
Qed.

Lemma degfr_skeleton (df : frame) (i : nat) :
  degfr (map (fun r => with_egfr r 0) df) i = degfr df i.
Proof.
  unfold degfr. rewrite dt_skeleton, nth_error_map.
  destruct (dt df i); [| reflexivity].
  destruct (nth_error df i); reflexivity.
Qed.

Lemma group_sum_skeleton (df : frame) (col col' : nat -> option Q) (p : Z) :
  (forall k, col k = col' k) ->
  forall n,
    group_sum (map (fun r => with_egfr r 0) df) col p n
    = group_sum df col' p n.
Proof.
  intros Hc. induction n as [| k IH]; simpl; [reflexivity |].
  rewrite IH, nth_error_map, Hc.
  destruct (nth_error df k); reflexivity.
Qed.

Lemma degfr_cum_skeleton (df : frame) (i : nat) :
  degfr_cum (map (fun r => with_egfr r 0) df) i = degfr_cum df i.
Proof.
  destruct i as [| j]; [reflexivity |].
  unfold degfr_cum, degfr_groupby_cumsum.
  rewrite degfr_skeleton, nth_error_map.
  destruct (degfr df j); [| reflexivity].
  destruct (nth_error df j) as [r |]; [| reflexivity].
  cbn [option_map fillna0].
  apply (group_sum_skeleton df _ (degfr df) (pid r)).
  intros k. apply degfr_skeleton.
Qed.

Lemma get_decline_skeleton (df : frame) :
  map (fun r => with_egfr r 0) (get_decline df)
  = map (fun r => with_egfr r 0) df.
Proof.
  unfold get_decline. rewrite map_map_index.
  apply (map_index_const (fun r => with_egfr r 0)).
Qed.

(** At the first row of an individual nothing has accumulated. *)
Lemma degfr_cum_first (pre post : frame) (r0 : row) :
  Forall (fun y => has_pid (pid r0) y = false) pre ->
  degfr_cum (pre ++ r0 :: post) (length pre) = 0.
Proof.
  intros Hpre. destruct (length pre) as [| j] eqn:El; [reflexivity |].
  unfold degfr_cum, degfr_groupby_cumsum, degfr, dt.
  assert (nth_error (pre ++ r0 :: post) (S j) = Some r0) as ->.
  { rewrite <- El. rewrite nth_error_app2 by lia.
    rewrite Nat.sub_diag. reflexivity. }
  assert (firstn (S j) (pre ++ r0 :: post) = pre) as ->.
  { rewrite <- El. rewrite firstn_app, firstn_all, Nat.sub_diag.
    simpl. apply app_nil_r. }
  rewrite find_none_forall by (apply Forall_rev; exact Hpre).
  reflexivity.
Qed.

Lemma get_decline_rows_no_pid (p : Z) (d l : frame) (s : nat) :
  Forall (fun y => has_pid p y = false) l ->
  Forall (fun y => has_pid p y = false) (map_index (get_decline_row d) s l).
Proof.
  intros H. revert s.
  induction H as [| y t Hy _ IH]; intros s; simpl; constructor.
  - exact Hy.
  - apply IH.
Qed.

Lemma init_egfr_get_decline (df : frame) (p : Z) :
  init_egfr (get_decline df) p = init_egfr df p.
Proof.
  unfold init_egfr.
  destruct (find (has_pid p) df) as [r0 |] eqn:Ef.
  - destruct (find_split _ _ _ Ef) as (pre & post & E & Hpre & Hp).
    assert (pid r0 = p) as Hp' by (apply Z.eqb_eq; exact Hp).
    unfold get_decline. rewrite E at 2. rewrite map_index_app.
    rewrite find_app_skip.
    + cbn [map_index find]. unfold get_decline_row at 1.
      change (has_pid p (with_egfr r0 _)) with (has_pid p r0).
      rewrite Hp. cbn [option_map]. f_equal.
      unfold get_decline_row. cbn [egfr with_egfr].
      unfold init_egfr. rewrite Hp', Ef. cbn [option_map fillna0].
      rewrite E. rewrite Nat.add_0_l, degfr_cum_first.
      * apply Qminus_0_r_eq.
      * rewrite Hp'. exact Hpre.
    + apply get_decline_rows_no_pid. exact Hpre.
  - rewrite find_none_forall; [reflexivity |].
    assert (Forall (fun y => has_pid p y = false) df) as Hall.
    { rewrite Forall_forall. intros y Hy.
      exact (find_none _ _ Ef y Hy). }
    unfold get_decline. apply get_decline_rows_no_pid. exact Hall.
Qed.

(** X16.  [get_decline] rewrites the eGFR column only, keeps the eGFR of
    every individual's first row, and is idempotent: the eGFR values of
    the other rows are not read, so running it on its own result changes
    nothing. *)
Theorem get_decline_idempotent (df : frame) :
  Forall2 (fun r o => o = with_egfr r (egfr o)) df (get_decline df)
  /\ (forall p, init_egfr (get_decline df) p = init_egfr df p)
  /\ get_decline (get_decline df) = get_decline df.
Proof.
  split; [| split].
  - unfold get_decline. generalize 0%nat.
    assert (forall (d l : frame) (s : nat),
              Forall2 (fun r o => o = with_egfr r (egfr o)) l
                      (map_index (get_decline_row d) s l)) as H.
    { intros d l. induction l as [| r t IH]; intros s; simpl; constructor.
      - reflexivity.
      - apply IH. }
    apply H.
  - apply init_egfr_get_decline.
  - unfold get_decline at 1 3. unfold get_decline at 2.
    rewrite map_index_map_index.
    apply map_index_ext_in. intros i r Hr. cbn [Nat.add].
    unfold get_decline_row.
    cbn [pid with_egfr]. rewrite init_egfr_get_decline.
    rewrite <- (degfr_cum_skeleton (get_decline df)).
    rewrite get_decline_skeleton, degfr_cum_skeleton.
    destruct r; reflexivity.
Qed.

Lemma rint_nonneg (y : Q) : 0 <= y -> (0 <= rint y)%Z.
Proof.
  intros Hy. destruct (rint_close y) as [Hlo _].
  assert (inject_Z (-1) < inject_Z (rint y)) as H.
  { change (inject_Z (-1)) with (-1). lra. }
  rewrite <- Zlt_Qlt in H. lia.
Qed.

Lemma round2_nonneg (x : Q) : 0 <= x -> 0 <= round2 x.
Proof.
  intros Hx. unfold round2.
  assert (0 <= inject_Z (rint (x * 100))) as H.
  { change 0 with (inject_Z 0). rewrite <- Zle_Qle.
    apply rint_nonneg. lra. }
  apply Qle_shift_div_l; lra.
Qed.

Lemma StronglySorted_nth {A : Type} (R : A -> A -> Prop) (l : list A) :
  StronglySorted R l ->
  forall i j a b,
    (i < j)%nat -> nth_error l i = Some a -> nth_error l j = Some b -> R a b.
Proof.
  induction 1 as [| x t Ht IH Hx]; intros i j a b Hij Ha Hb.
  - destruct i; discriminate.
  - destruct j as [| j]; [lia |]. simpl in Hb.
    destruct i as [| i].
    + simpl in Ha. injection Ha as <-.
      rewrite Forall_forall in Hx. apply Hx. exact (nth_error_In _ _ Hb).
    + simpl in Ha. apply (IH i j); [lia | assumption | assumption].
Qed.

Lemma cum_decline_step (traj : list row) (k : nat) :
  StronglySorted (fun a b => age a <= age b) traj ->
  Forall (fun r => 0 <= slope r) traj ->
  cum_decline traj k <= cum_decline traj (S k).
Proof.
  intros Hs Hsl. cbn [cum_decline].
  destruct (nth_error traj k) as [r |] eqn:Er; [| lra].
  destruct (nth_error traj (S k)) as [r' |] eqn:Er'; [| lra].
  assert (age r <= age r') as Ha
    by exact (StronglySorted_nth _ _ Hs k (S k) r r' (Nat.lt_succ_diag_r k)
                Er Er').
  rewrite Forall_forall in Hsl. pose proof (Hsl r (nth_error_In _ _ Er)) as H0.
  cbv beta in H0.
  assert (0 <= round2 ((age r' - age r) * slope r)) as Hr
    by (apply round2_nonneg; nra).
  lra.
Qed.

Lemma cum_decline_mono (traj : list row) (m n : nat) :
  StronglySorted (fun a b => age a <= age b) traj ->
  Forall (fun r => 0 <= slope r) traj ->
  (m <= n)%nat -> cum_decline traj m <= cum_decline traj n.
Proof.
  intros Hs Hsl Hmn. induction Hmn as [| n Hmn IH]; [lra |].
  pose proof (cum_decline_step traj n Hs Hsl). lra.
Qed.

(** X17.  With slopes that are not negative, the eGFR that [get_decline]
    computes never increases with age: along the rows of one individual
    (stored together, in ascending age order) every row's eGFR is at most
    the eGFR of each earlier row, and at most the individual's initial
    eGFR. *)
Theorem get_decline_non_increasing
    (pre g post : frame) (p : Z) (r0 : row) :
  Forall (fun r => pid r = p) g ->
  Forall (fun r => pid r <> p) pre ->
  nth_error g 0 = Some r0 ->
  StronglySorted (fun a b => age a <= age b) g ->
  Forall (fun r => 0 <= slope r) g ->
  let out := get_decline (pre ++ g ++ post) in
  forall m n rm rn,
    (m <= n)%nat ->
    nth_error g m = Some rm -> nth_error g n = Some rn ->
    exists em en,
      nth_error out (length pre + m) = Some (with_egfr rm em)
      /\ nth_error out (length pre + n) = Some (with_egfr rn en)
      /\ en <= em /\ em <= egfr r0.
Proof.
  intros Hg Hpre H0 Hs Hsl out m n rm rn Hmn Hm Hn.
  exists (egfr r0 - degfr_cum (pre ++ g ++ post) (length pre + m)),
         (egfr r0 - degfr_cum (pre ++ g ++ post) (length pre + n)).
  split; [exact (get_decline_block pre g post p Hg Hpre m rm r0 H0 Hm) |].
  split; [exact (get_decline_block pre g post p Hg Hpre n rn r0 H0 Hn) |].
  rewrite (degfr_cum_block pre g post p Hg Hpre m rm Hm).
  rewrite (degfr_cum_block pre g post p Hg Hpre n rn Hn).
  pose proof (cum_decline_mono g m n Hs Hsl Hmn) as H1.
  pose proof (cum_decline_mono g 0 m Hs Hsl (Nat.le_0_l m)) as H2.
  cbn [cum_decline] in H2. lra.
Qed.

Lemma get_decline_non_increasing_witness :
  exists em en,
    nth_error (get_decline example_cohort) 2 = Some (with_egfr (example_row 2 60 70 1 0) em)
    /\ nth_error (get_decline example_cohort) 3
       = Some (with_egfr (example_row 2 101 70 1 1) en)
    /\ en <= em /\ em <= 70.
Proof.
  apply (get_decline_non_increasing
           [example_row 1 50 80 1 0; example_row 1 101 80 1 1]
           [example_row 2 60 70 1 0; example_row 2 101 70 1 1]
           [example_row 3 70 55 1 0; example_row 3 101 55 1 1]
           2%Z (example_row 2 60 70 1 0)).
  - repeat (apply Forall_cons; [reflexivity |]). apply Forall_nil.
  - repeat (apply Forall_cons; [discriminate |]). apply Forall_nil.
  - reflexivity.
  - apply SSorted_cons; [apply SSorted_cons; [apply SSorted_nil | apply Forall_nil] |].
    apply Forall_cons; [discriminate | apply Forall_nil].
  - repeat (apply Forall_cons; [discriminate |]). apply Forall_nil.
  - apply (Nat.le_succ_diag_r 0).
  - reflexivity.
  - reflexivity.
Defined.

(** ** egfr_model.py: duplicate rows *)

Lemma Qeq_bool_sym (x y : Q) : Qeq_bool x y = Qeq_bool y x.
Proof.
  destruct (Qeq_bool x y) eqn:E1, (Qeq_bool y x) eqn:E2; qbool;
    try reflexivity; exfalso.
  - apply E2. symmetry. exact E1.
  - apply E1. symmetry. exact E2.
Qed.

Lemma eqb_by_sym (kf : row -> Q) (a b : row) : eqb_by kf a b = eqb_by kf b a.
Proof. unfold eqb_by. rewrite Z.eqb_sym, Qeq_bool_sym. reflexivity. Qed.

Lemma eqb_by_trans (kf : row -> Q) (a b c : row) :
  eqb_by kf a b = true -> eqb_by kf b c = true -> eqb_by kf a c = true.
Proof.
  rewrite !eqb_by_spec. intros [H1 H2] [H3 H4].
  split; [congruence | rewrite H2; exact H4].
Qed.

Lemma ltb_by_not_eqb (kf : row -> Q) (a b : row) :
  ltb_by kf a b = true -> eqb_by kf a b = false.
Proof.
  intros H. apply ltb_by_spec in H.
  destruct (eqb_by kf a b) eqn:E; [| reflexivity].
  apply eqb_by_spec in E. destruct E as [E1 E2]. exfalso.
  destruct H as [H | [_ H]]; [lia | lra].
Qed.

Lemma has_duplicated_false (kf : row -> Q) (l : frame) :
  has_duplicated kf l = false
  <-> StronglySorted (fun a b => eqb_by kf a b = false) l.
Proof.
  induction l as [| r t IH]; simpl.
  - split; [constructor | reflexivity].
  - rewrite orb_false_iff, IH. split.
    + intros [He Hs]. constructor; [exact Hs |].
      rewrite Forall_forall. intros y Hy.
      destruct (eqb_by kf r y) eqn:E; [| reflexivity].
      assert (existsb (eqb_by kf r) t = true) as Ht
        by (apply existsb_exists; exists y; split; assumption).
      congruence.
    + intros Hs. inversion Hs as [| ? ? Ht Hr]; subst.
      split; [| exact Ht].
      destruct (existsb (eqb_by kf r) t) eqn:E; [| reflexivity].
      apply existsb_exists in E. destruct E as [y [Hy Hey]].
      rewrite Forall_forall in Hr. rewrite (Hr y Hy) in Hey. discriminate.
Qed.

Lemma insert_sorted_distinct (kf : row -> Q) (leb : row -> row -> bool)
    (x : row) (l : frame) :
  Forall (fun y => eqb_by kf x y = false) l ->
  StronglySorted (fun a b => eqb_by kf a b = false) l ->
  StronglySorted (fun a b => eqb_by kf a b = false) (insert_sorted leb x l).
Proof.
  intros Hx Hs. induction Hs as [| z t Ht IH Hz]; simpl.
  - constructor; constructor.
  - inversion Hx as [| ? ? Hxz Hxt]; subst.
    destruct (leb x z).
    + constructor; [constructor; assumption | exact Hx].
    + constructor; [exact (IH Hxt) |].
      rewrite Forall_forall. intros y Hy.
      apply insert_sorted_In in Hy. destruct Hy as [-> | Hy].
      * rewrite eqb_by_sym. exact Hxz.
      * rewrite Forall_forall in Hz. exact (Hz y Hy).
Qed.

Lemma fold_insert_sorted_distinct (kf : row -> Q) (leb : row -> row -> bool)
    (l : frame) :
  StronglySorted (fun a b => eqb_by kf a b = false) l ->
  StronglySorted (fun a b => eqb_by kf a b = false)
                 (fold_right (insert_sorted leb) [] l).
Proof.
  induction 1 as [| x t Ht IH Hx]; simpl; [constructor |].
  apply insert_sorted_distinct; [| exact IH].
  rewrite Forall_forall in *. intros y Hy.
  apply fold_insert_sorted_In in Hy. exact (Hx y Hy).
Qed.

(** Every row of the frame has a representative with its key. *)
Lemma insert_rep_cover (kf : row -> Q) (r : row) (l : list row) (y : row) :
  y = r \/ (exists y0, In y0 l /\ eqb_by kf y0 y = true) ->
  exists y0, In y0 (insert_rep kf r l) /\ eqb_by kf y0 y = true.
Proof.
  assert (eqb_by kf r r = true) as Hrefl.
  { apply eqb_by_spec. split; reflexivity. }
  induction l as [| h t IH]; simpl.
  - intros [-> | (y0 & [] & _)]. exists r. split; [left; reflexivity |].
    exact Hrefl.
  - intros [-> | (y0 & [<- | Hin] & He)].
    + destruct (ltb_by kf r h); [exists r; split; [left; reflexivity | exact Hrefl] |].
      destruct (eqb_by kf r h);
        [exists r; split; [left; reflexivity | exact Hrefl] |].
      destruct (IH (or_introl eq_refl)) as (y0 & Hy0 & He).
      exists y0. split; [right; exact Hy0 | exact He].
    + destruct (ltb_by kf r h);
        [exists h; split; [right; left; reflexivity | exact He] |].
      destruct (eqb_by kf r h) eqn:E.
      * exists r. split; [left; reflexivity |].
        exact (eqb_by_trans kf r h y E He).
      * exists h. split; [left; reflexivity | exact He].
    + destruct (ltb_by kf r h);
        [exists y0; split; [right; right; exact Hin | exact He] |].
      destruct (eqb_by kf r h).
      * exists y0. split; [right; exact Hin | exact He].
      * destruct (IH (or_intror (ex_intro _ y0 (conj Hin He))))
          as (y1 & Hy1 & He1).
        exists y1. split; [right; exact Hy1 | exact He1].
Qed.

Lemma group_reps_cover (kf : row -> Q) (df : frame) (y : row) :
  In y df -> exists y0, In y0 (group_reps kf df) /\ eqb_by kf y0 y = true.
Proof.
  unfold group_reps. induction df as [| r t IH]; simpl; [contradiction |].
  intros [<- | Hin]; apply insert_rep_cover.
  - left. reflexivity.
  - right. exact (IH Hin).
Qed.

Lemma row_key_leb_total (x y : row) :
  row_key_leb x y = false -> row_key_leb y x = true.
Proof.
  unfold row_key_leb. intros H.
  apply orb_false_iff in H. destruct H as [H1 H2].
  apply Z.ltb_ge in H1.
  destruct (pid y <? pid x)%Z eqn:E; [reflexivity |].
  apply Z.ltb_ge in E. simpl.
  assert (pid x = pid y) as Hp by lia.
  rewrite Hp, Z.eqb_refl in H2. simpl in H2. qbool.
  rewrite Hp, Z.eqb_refl. simpl. apply Qle_bool_iff. lra.
Qed.

Lemma row_key_leb_spec (x y : row) :
  row_key_leb x y = true
  <-> (pid x < pid y)%Z \/ (pid x = pid y /\ age x <= age y).
Proof.
  unfold row_key_leb.
  rewrite orb_true_iff, andb_true_iff, Z.ltb_lt, Z.eqb_eq, Qle_bool_iff.
  tauto.
Qed.

Lemma row_key_leb_trans (x y z : row) :
  row_key_leb x y = true -> row_key_leb y z = true -> row_key_leb x z = true.
Proof.
  rewrite !row_key_leb_spec.
  intros [H1 | [H1 H1']] [H2 | [H2 H2']]; try (left; lia).
  right. split; [lia | lra].
Qed.

(** X18.  After [integrate_duplicate_rows] no individual has two rows
    with the same eGFR, and every [(pid, egfr)] pair of the input is still
    there; so the function is idempotent.  A frame that had such
    duplicates is returned in index order ([pid], then age). *)
Theorem integrate_duplicate_rows_no_duplicates (df : frame) :
  has_duplicated egfr (integrate_duplicate_rows df) = false
  /\ integrate_duplicate_rows (integrate_duplicate_rows df)
     = integrate_duplicate_rows df
  /\ (forall r, In r df ->
        exists o, In o (integrate_duplicate_rows df)
                  /\ pid o = pid r /\ egfr o == egfr r)
  /\ (has_duplicated egfr df = true ->
      StronglySorted (fun a b => row_key_leb a b = true)
                     (integrate_duplicate_rows df)).
Proof.
  assert (has_duplicated egfr (integrate_duplicate_rows df) = false) as Hnd.
  { unfold integrate_duplicate_rows.
    destruct (has_duplicated egfr df) eqn:E; simpl; [| exact E].
    apply has_duplicated_false. apply fold_insert_sorted_distinct.
    apply (StronglySorted_Forall2
             (fun a b => ltb_by egfr a b = true)
             (fun a b => eqb_by egfr a b = false)
             (fun a o => pid o = pid a /\ egfr o = egfr a)
             (group_reps egfr df));
      [| apply Forall2_map_r; intros a; split; reflexivity
       | apply group_reps_sorted].
    intros a b a' b' [Hp He] [Hp' He'] H.
    apply ltb_by_not_eqb in H. unfold eqb_by in *.
    rewrite Hp, He, Hp', He'. exact H. }
  split; [exact Hnd |]. split; [| split].
  - apply integrate_duplicate_rows_unique. exact Hnd.
  - intros r Hr. unfold integrate_duplicate_rows.
    destruct (has_duplicated egfr df); simpl.
    + destruct (group_reps_cover egfr df r Hr) as (r0 & Hr0 & He).
      apply eqb_by_spec in He. destruct He as [Hp He].
      exists (agg_one_egfr r0 (filter (eqb_by egfr r0) df)).
      split; [| split; [exact Hp | exact He]].
      apply fold_insert_sorted_In.
      apply (in_map (fun r1 => agg_one_egfr r1 (filter (eqb_by egfr r1) df))).
      exact Hr0.
    + exists r. split; [exact Hr |]. split; reflexivity.
  - intros E. unfold integrate_duplicate_rows. rewrite E. simpl.
    apply fold_insert_sorted_sorted.
    + exact row_key_leb_total.
    + exact row_key_leb_trans.
Qed.

(** ** egfr_model.py: one cutoff row per individual *)

Lemma insert_pid_sorted (p : Z) (l : list Z) :
  StronglySorted Z.lt l -> StronglySorted Z.lt (insert_pid p l).
Proof.
  induction 1 as [| q t Ht IH Hq]; simpl.
  - constructor; constructor.
  - destruct (p <? q)%Z eqn:E1.
    + apply Z.ltb_lt in E1. constructor; [constructor; assumption |].
      constructor; [exact E1 |].
      eapply Forall_impl; [| exact Hq]. intros x Hx. cbv beta in Hx. lia.
    + destruct (p =? q)%Z eqn:E2; [constructor; assumption |].
      apply Z.ltb_ge in E1. apply Z.eqb_neq in E2.
      constructor; [exact IH |].
      rewrite Forall_forall. intros x Hx. apply insert_pid_In in Hx.
      destruct Hx as [-> | Hx]; [lia |].
      rewrite Forall_forall in Hq. exact (Hq x Hx).
Qed.

Lemma groupby_keys_sorted (df : frame) : StronglySorted Z.lt (groupby_keys df).
Proof.
  unfold groupby_keys. induction (map pid df) as [| p t IH]; simpl;
    [constructor | apply insert_pid_sorted; exact IH].
Qed.

Lemma StronglySorted_flat_map_key {A B : Type} (kA : A -> Z) (kB : B -> Z)
    (g : A -> list B) (l : list A) :
  (forall a x, In x (g a) -> kB x = kA a) ->
  (forall a, (length (g a) <= 1)%nat) ->
  StronglySorted (fun a b => (kA a < kA b)%Z) l ->
  StronglySorted (fun a b => (kB a < kB b)%Z) (flat_map g l).
Proof.
  intros Hk Hl. induction 1 as [| a t Ht IH Ha]; simpl; [constructor |].
  specialize (Hl a). pose proof (Hk a) as Hka.
  destruct (g a) as [| x [| y rest]]; simpl in *; [exact IH | | lia].
  constructor; [exact IH |].
  rewrite Forall_forall. intros z Hz. apply in_flat_map in Hz.
  destruct Hz as [b [Hb Hz]].
  rewrite (Hka x (or_introl eq_refl)), (Hk b z Hz).
  rewrite Forall_forall in Ha. exact (Ha b Hb).
Qed.

Lemma StronglySorted_filter {A : Type} (R : A -> A -> Prop) (f : A -> bool)
    (l : list A) :
  StronglySorted R l -> StronglySorted R (filter f l).
Proof.
  induction 1 as [| a t Ht IH Ha]; simpl; [constructor |].
  destruct (f a); [| exact IH]. constructor; [exact IH |].
  rewrite Forall_forall in *. intros x Hx. apply filter_In in Hx.
  apply Ha. tauto.
Qed.

Lemma StronglySorted_lt_NoDup (l : list Z) : StronglySorted Z.lt l -> NoDup l.
Proof.
  induction 1 as [| a t Ht IH Ha]; constructor; [| exact IH].
  intros Hin. rewrite Forall_forall in Ha. specialize (Ha a Hin). lia.
Qed.

Lemma StronglySorted_map_key {A : Type} (k : A -> Z) (l : list A) :
  StronglySorted (fun a b => (k a < k b)%Z) l
  <-> StronglySorted Z.lt (map k l).
Proof.
  induction l as [| a t IH]; simpl.
  - split; constructor.
  - split; intros H; inversion H as [| ? ? Ht Ha]; subst;
      (constructor; [apply IH; exact Ht |]).
    + apply Forall_map. exact Ha.
    + rewrite Forall_map in Ha. exact Ha.
Qed.

Lemma groupby_last_sorted (df : frame) :
  StronglySorted (fun a b => (pid a < pid b)%Z) (groupby_last df).
Proof.
  unfold groupby_last.
  apply (StronglySorted_flat_map_key (fun p : Z => p) pid).
  - intros p x Hx.
    destruct (last_error (filter (has_pid p) df)) as [r |] eqn:E;
      [| contradiction].
    destruct Hx as [<- | []].
    apply last_error_In in E. apply filter_In in E.
    destruct E as [_ E]. apply Z.eqb_eq. exact E.
  - intros p. destruct (last_error _); simpl; lia.
  - apply groupby_keys_sorted.
Qed.

(** X19.  [identify_age_at_cutoff] returns one or zero rows per
    individual: the pids of the returned frame are strictly ascending,
    hence without repetition, and each is the pid of a row of [df]. *)
Theorem identify_age_at_cutoff_one_row_per_pid (df : frame) (cutoff : Q) :
  StronglySorted Z.lt (map pid (identify_age_at_cutoff df cutoff))
  /\ NoDup (map pid (identify_age_at_cutoff df cutoff))
  /\ forall o, In o (identify_age_at_cutoff df cutoff) ->
               exists r, In r df /\ pid r = pid o.
Proof.
  assert (StronglySorted Z.lt (map pid (identify_age_at_cutoff df cutoff)))
    as Hs.
  { unfold identify_age_at_cutoff. cbv zeta. rewrite map_map.
    rewrite (map_ext_in _ pid).
    - apply (proj1 (StronglySorted_map_key pid _)).
      apply (StronglySorted_flat_map_key pid pid).
      + intros r x Hx. destruct (age_at_cutoff r cutoff) as [a |];
          [| contradiction].
        destruct (Qle_bool a 101); [| contradiction].
        destruct Hx as [<- | []]. reflexivity.
      + intros r. destruct (age_at_cutoff r cutoff) as [a |]; simpl; [| lia].
        destruct (Qle_bool a 101); simpl; lia.
      + apply StronglySorted_filter. apply groupby_last_sorted.
    - intros o _. destruct (find (fun r => same_key r o) df) as [r |] eqn:E;
        [| reflexivity].
      apply find_some in E. destruct E as [_ E].
      apply same_key_spec in E. destruct E as [E _]. exact E. }
  split; [exact Hs |]. split; [exact (StronglySorted_lt_NoDup _ Hs) |].
  intros o Ho. unfold identify_age_at_cutoff in Ho. cbv zeta in Ho.
  apply in_map_iff in Ho. destruct Ho as [o' [<- Ho']].
  apply in_flat_map in Ho'. destruct Ho' as [r [Hr Ho']].
  apply filter_In in Hr. destruct Hr as [Hr _].
  unfold groupby_last in Hr. apply in_flat_map in Hr.
  destruct Hr as [p [_ Hr]].
  destruct (last_error (filter (has_pid p) _)) as [r' |] eqn:E;
    [| contradiction].
  destruct Hr as [<- | []].
  apply last_error_In in E. apply filter_In in E. destruct E as [E _].
  apply filter_In in E. destruct E as [E _].
  assert (pid o' = pid r') as Hp.
  { destruct (age_at_cutoff r' cutoff) as [a |]; [| contradiction].
    destruct (Qle_bool a 101); [| contradiction].
    destruct Ho' as [<- | []]. reflexivity. }
  destruct (find (fun r => same_key r o') df) as [r |] eqn:Ef.
  - pose proof (find_some _ _ Ef) as [Hin _]. exists r.
    split; [exact Hin | reflexivity].
  - exists r'. split; [exact E | symmetry; exact Hp].
Qed.

(** ** egfr_model.py: censoring at death *)

(** X20.  [combine_with_death] censors the events at death.  The frame it
    returns is in index order; each of its rows belongs to an individual
    with a death entry and is either an events row strictly before that
    death age or the death row itself; an events row before the death age
    of its individual is kept; an individual without a death entry
    disappears (the merge is an inner join); and, with one death entry per
    individual, no events row at or after the death age is kept. *)
Theorem combine_with_death_censors (df_events : frame)
    (df_death : list (Z * Q)) :
  let out := combine_with_death df_events df_death in
  StronglySorted (fun a b => key_leb a b = true) out
  /\ (forall r, In r out ->
        exists da,
          In (d_pid r, da) df_death
          /\ ((d_age r < da
               /\ exists e, In e df_events /\ r = drow_of_row e)
              \/ r = mkDrow (d_pid r) da 1 None None))
  /\ (forall e da,
        In e df_events -> In (pid e, da) df_death -> age e < da ->
        In (drow_of_row e) out)
  /\ (forall p,
        (forall da, ~ In (p, da) df_death) ->
        forall r, In r out -> d_pid r <> p)
  /\ (NoDup (map fst df_death) ->
      forall e da,
        In (pid e, da) df_death -> da <= age e ->
        ~ In (drow_of_row e) out).
Proof.
  intros out. unfold out.
  split; [apply combine_with_death_sorted |].
  assert (forall r, In r (combine_with_death df_events df_death) ->
            exists da,
              In (d_pid r, da) df_death
              /\ ((d_age r < da
                   /\ exists e, In e df_events /\ r = drow_of_row e)
                  \/ r = mkDrow (d_pid r) da 1 None None)) as Hrows.
  { intros r Hr. apply combine_with_death_In in Hr.
    destruct Hr as [(e & da & He & Hd & Hlt & ->) | ([p da] & Hd & ->)].
    - exists da. split; [exact Hd |]. left.
      split; [exact Hlt |]. exists e. split; [exact He | reflexivity].
    - exists da. split; [exact Hd |]. right. reflexivity. }
  split; [exact Hrows |]. split; [| split].
  - intros e da He Hd Hlt. apply combine_with_death_In. left.
    exists e, da. repeat split; assumption.
  - intros p Hp r Hr E. destruct (Hrows r Hr) as (da & Hd & _).
    rewrite E in Hd. exact (Hp da Hd).
  - intros Hn e da Hd Hle Hin. apply combine_with_death_In in Hin.
    destruct Hin as [(e' & da' & He' & Hd' & Hlt & E) | (d & _ & E)].
    + assert (pid e' = pid e) as Hp
        by (apply (f_equal d_pid) in E; simpl in E; congruence).
      assert (age e' = age e) as Ha
        by (apply (f_equal d_age) in E; simpl in E; congruence).
      rewrite Hp in Hd'. rewrite Ha in Hlt.
      rewrite (NoDup_fst_functional df_death (pid e) da da' Hn Hd Hd') in Hle.
      lra.
    + discriminate E.
Qed.

Lemma combine_with_death_censors_witness :
  ~ In (drow_of_row (example_row 1 101 80 1 1))
       (combine_with_death
          [example_row 1 50 80 1 0; example_row 1 101 80 1 1]
          [(1%Z, 75.5)]).
Proof.
  apply (proj2 (proj2 (proj2 (proj2
           (combine_with_death_censors
              [example_row 1 50 80 1 0; example_row 1 101 80 1 1]
              [(1%Z, 75.5)]))))
           ltac:(constructor; [intros [] | constructor])
           (example_row 1 101 80 1 1) 75.5).
  - left. reflexivity.
  - discriminate.
Defined.

(** ** egfr_model.py: the stage label of the rows at a cutoff *)

Lemma egfr_to_g_stages_comp (x y : Q) :
  x == y -> egfr_to_g_stages x = egfr_to_g_stages y.
Proof.
  intros H. unfold egfr_to_g_stages.
  assert (forall c, Qeq_bool x c = Qeq_bool y c) as E.
  { intros c. destruct (Qeq_bool x c) eqn:E1, (Qeq_bool y c) eqn:E2; qbool;
      try reflexivity; exfalso.
    - apply E2. rewrite <- H. exact E1.
    - apply E1. rewrite H. exact E2. }
  rewrite !E. reflexivity.
Qed.

Lemma stage_diag_eqb_refl (a : option ckd_stage) : stage_diag_eqb a a = true.
Proof. destruct a as [[] |]; reflexivity. Qed.

Lemma unique_In (l : list (option ckd_stage)) (y : option ckd_stage) :
  In y (unique l) -> In y l.
Proof.
  induction l as [| x t IH]; simpl; [tauto |].
  intros [H | H]; [left; exact H |].
  apply filter_In in H. right. apply IH. tauto.
Qed.

Lemma unique_constant (l : list (option ckd_stage)) (st : option ckd_stage) :
  l <> [] -> (forall x, In x l -> x = st) -> unique l = [st].
Proof.
  intros Hne Hall. destruct l as [| x t]; [contradiction |].
  simpl. rewrite (Hall x (or_introl eq_refl)). f_equal.
  apply filter_none. intros y Hy. apply unique_In in Hy.
  rewrite (Hall y (or_intror Hy)), stage_diag_eqb_refl. reflexivity.
Qed.

Lemma identify_age_at_cutoff_egfr (df : frame) (cutoff : Q) (o : row) :
  In o (identify_age_at_cutoff df cutoff) -> egfr o = cutoff.
Proof.
  unfold identify_age_at_cutoff. cbv zeta. intros H.
  apply in_map_iff in H. destruct H as [o' [<- Ho']].
  destruct (find (fun r => same_key r o') df); [reflexivity |].
  apply in_flat_map in Ho'. destruct Ho' as [r [_ Ho']].
  destruct (age_at_cutoff r cutoff) as [a |]; [| contradiction].
  destruct (Qle_bool a 101); [| contradiction].
  destruct Ho' as [<- | []]. reflexivity.
Qed.

Lemma add_age_at_cutoff_rows (df : frame) (cutoff_list : list Q) (o : row) :
  In o (add_age_at_cutoff df (Some cutoff_list)) ->
  exists c,
    In c cutoff_list
    /\ (egfr o = c \/ round2 (egfr o) == c)
    /\ stage_diag o = egfr_to_g_stages c
    /\ exists r, In r df /\ pid r = pid o.
Proof.
  unfold add_age_at_cutoff. cbv zeta. intros H.
  apply in_app_or in H. destruct H as [H | H];
    apply in_map_iff in H; destruct H as [x [<- Hx]].
  - unfold identify_age_at_cutoff_many in Hx. apply in_flat_map in Hx.
    destruct Hx as [c [Hc Hx]]. exists c.
    pose proof (identify_age_at_cutoff_egfr df c x Hx) as E.
    split; [exact Hc |]. split; [left; exact E |].
    split; [simpl; rewrite E; reflexivity |].
    unfold identify_age_at_cutoff in Hx. cbv zeta in Hx.
    apply in_map_iff in Hx. destruct Hx as [o' [Eo Ho']].
    destruct (find (fun r => same_key r o') df) as [r |] eqn:Ef.
    + pose proof (find_some _ _ Ef) as [Hin _]. exists r.
      split; [exact Hin |]. rewrite <- Eo. reflexivity.
    + subst o'. apply in_flat_map in Ho'. destruct Ho' as [r [Hr Ho']].
      apply filter_In in Hr. destruct Hr as [Hr _].
      unfold groupby_last in Hr. apply in_flat_map in Hr.
      destruct Hr as [p [_ Hr]].
      destruct (last_error (filter (has_pid p) _)) as [r' |] eqn:E';
        [| contradiction].
      destruct Hr as [<- | []].
      apply last_error_In in E'. apply filter_In in E'.
      destruct E' as [E' _]. apply filter_In in E'. destruct E' as [E' _].
      exists r'. split; [exact E' |].
      destruct (age_at_cutoff r' c) as [a |]; [| contradiction].
      destruct (Qle_bool a 101); [| contradiction].
      destruct Ho' as [<- | []]. reflexivity.
  - unfold entries_at_cutoffs in Hx. apply filter_In in Hx.
    destruct Hx as [Hin Hex]. apply existsb_exists in Hex.
    destruct Hex as [c [Hc Heq]]. qbool. exists c.
    split; [exact Hc |]. split; [right; exact Heq |].
    split; [simpl; apply egfr_to_g_stages_comp; exact Heq |].
    exists x. split; [exact Hin | reflexivity].
Qed.

Section Cutoff_sampling.

Variable rng : Type.
Variable random_bernoulli : Q -> rng -> Z * rng.

Lemma binomial_draws_error (n : nat) (p : Q) :
  forall g e, binomial_draws rng random_bernoulli n p g = Err e ->
              e = ValueError.
Proof.
  induction n as [| k IH]; intros g e H; simpl in H; [discriminate |].
  unfold np_random_binomial in H.
  destruct (Qlt_bool p 0 || Qlt_bool 1 p); simpl in H;
    [injection H as <-; reflexivity |].
  destruct (binomial_draws rng random_bernoulli k p
              (snd (random_bernoulli p g))) as [ds | e'] eqn:E;
    simpl in H; [discriminate |].
  injection H as <-. exact (IH _ _ E).
Qed.

Lemma assign_indicator_error (c : indicator_name) (df : frame) :
  forall samples e, assign_indicator c df samples = Err e -> e = ValueError.
Proof.
  induction df as [| r t IH]; intros [| v vs] e H; simpl in H;
    try discriminate; try (injection H as <-; reflexivity).
  destruct (assign_indicator c t vs) as [rest | e'] eqn:E; simpl in H;
    [discriminate |].
  injection H as <-. exact (IH _ _ E).
Qed.

Lemma sample_interventions_assertion (df : frame) (ev : intervention)
    (params : interv_params) (common_rn : option (list Q)) (g : rng)
    (st : option ckd_stage) :
  unique (map stage_diag df) = [st] ->
  sample_interventions rng random_bernoulli df ev params common_rn g
  <> Err AssertionError.
Proof.
  intros Hu. unfold sample_interventions. rewrite Hu.
  unfold frac_already_intervened, conditional_prob, float_div,
    intervention_prob.
  destruct (Qeq_bool (inject_Z (Z.of_nat (length df))) 0);
    cbn [bind]; [discriminate |].
  destruct st as [s |]; cbn [bind]; [| discriminate].
  destruct (Qeq_bool (1 - _) 0); cbn [bind]; [discriminate |].
  match goal with
  | |- bind ?c _ <> _ =>
      assert (forall e, c = Err e -> e <> AssertionError) as Hc
  end.
  { intros e. destruct ev; cbn [bind]; [discriminate |].
    destruct (Qeq_bool _ 0); intros [= <-]; discriminate. }
  match goal with
  | |- bind ?c _ <> _ => destruct c as [prob | e] eqn:Ep
  end; cbn [bind]; [| intros [= E]; exact (Hc e eq_refl E)].
  match goal with
  | |- bind ?c _ <> _ => destruct c as [samples | e] eqn:Es
  end; cbn [bind].
  - destruct (assign_indicator (event_column ev) df (fst samples))
      as [final_df | e] eqn:Ea; cbn [bind]; [discriminate |].
    rewrite (assign_indicator_error _ _ _ _ Ea). discriminate.
  - destruct common_rn as [rn |]; [discriminate |].
    rewrite (binomial_draws_error _ _ _ _ Es). discriminate.
Qed.

(** X21.  The rows that [add_age_at_cutoff] returns (equation 2021): each
    is at one of the cutoffs of the list, with the eGFR of a calculated row
    equal to the cutoff and that of an existing row rounding to it, has
    the stage label that [egfr_to_g_stages] gives that cutoff, and belongs
    to an individual of [df].  For a single cutoff all rows carry the same
    label, so [sample_interventions] fails its assertion on the result
    exactly when no individual is at the cutoff. *)
Theorem add_age_at_cutoff_stage_label (df : frame) (cutoff : Q)
    (cutoff_list : list Q) (ev : intervention) (params : interv_params)
    (common_rn : option (list Q)) (g : rng) :
  (forall o, In o (add_age_at_cutoff df (Some cutoff_list)) ->
     exists c,
       In c cutoff_list
       /\ (egfr o = c \/ round2 (egfr o) == c)
       /\ stage_diag o = egfr_to_g_stages c
       /\ exists r, In r df /\ pid r = pid o)
  /\ (add_age_at_cutoff df (Some [cutoff]) <> [] ->
      unique (map stage_diag (add_age_at_cutoff df (Some [cutoff])))
      = [egfr_to_g_stages cutoff])
  /\ (sample_interventions rng random_bernoulli
        (add_age_at_cutoff df (Some [cutoff])) ev params common_rn g
      = Err AssertionError
      <-> add_age_at_cutoff df (Some [cutoff]) = []).
Proof.
  assert (add_age_at_cutoff df (Some [cutoff]) <> [] ->
          unique (map stage_diag (add_age_at_cutoff df (Some [cutoff])))
          = [egfr_to_g_stages cutoff]) as Hu.
  { intros Hne. apply unique_constant.
    - intros E. apply map_eq_nil in E. contradiction.
    - intros x Hx. apply in_map_iff in Hx. destruct Hx as [o [<- Ho]].
      destruct (add_age_at_cutoff_rows df [cutoff] o Ho)
        as (c & [<- | []] & _ & Hs & _).
      exact Hs. }
  split; [exact (add_age_at_cutoff_rows df cutoff_list) |].
  split; [exact Hu |]. split.
  - intros H.
    destruct (add_age_at_cutoff df (Some [cutoff])) as [| x t] eqn:E;
      [reflexivity | exfalso].
    assert (x :: t <> []) as Hne by discriminate.
    exact (sample_interventions_assertion _ ev params common_rn g _
             (Hu Hne) H).
  - intros ->. reflexivity.
Qed.

End Cutoff_sampling.

Lemma add_age_at_cutoff_stage_label_witness :
  unique (map stage_diag
            (add_age_at_cutoff (get_decline example_cohort) (Some [60])))
  = [Some G3a].
Proof.
  apply (proj1 (proj2 (add_age_at_cutoff_stage_label unit
                         (fun _ g => (0%Z, g)) (get_decline example_cohort)
                         60 [60] ev_diag example_interv_params None tt))).
  vm_compute. discriminate.
Defined.

(** ** egfr_model.py: what the merge keeps *)

Lemma Forall2_In_l {A B : Type} (R : A -> B -> Prop) (l : list A)
    (l' : list B) (x : A) :
  Forall2 R l l' -> In x l -> exists y, In y l' /\ R x y.
Proof.
  induction 1 as [| a b t t' Hab _ IH]; intros Hin; [contradiction |].
  destruct Hin as [<- | Hin].
  - exists b. split; [left; reflexivity | exact Hab].
  - destruct (IH Hin) as [y [Hy Hr]]. exists y.
    split; [right; exact Hy | exact Hr].
Qed.

Lemma agg_max_ge (c : indicator_name) (r0 : row) (g : list row) (a : row) :
  In a g -> (indicator c a <= agg_max c r0 g)%Z.
Proof.
  unfold agg_max. induction g as [| x t IH]; simpl; [contradiction |].
  intros [<- | Hin]; [lia |]. specialize (IH Hin). lia.
Qed.

Lemma groupby_pid_age_agg_cover (df : frame) (r : row) :
  In r df ->
  exists o,
    In o (groupby_pid_age_agg df)
    /\ pid o = pid r /\ age o == age r
    /\ forall c, (indicator c r <= indicator c o)%Z.
Proof.
  intros Hr. destruct (group_reps_cover age df r Hr) as (r0 & Hr0 & He).
  exists (agg_one_age r0 (filter (eqb_by age r0) df)).
  split.
  - unfold groupby_pid_age_agg.
    apply (in_map (fun r1 => agg_one_age r1 (filter (eqb_by age r1) df))).
    exact Hr0.
  - pose proof He as He'. apply eqb_by_spec in He'. destruct He' as [Hp Ha].
    split; [exact Hp |]. split; [exact Ha |].
    intros c. rewrite indicator_agg_one_age. apply agg_max_ge.
    apply filter_In. split; assumption.
Qed.

Lemma groupby_pid_age_agg_from (df : frame) (o : row) :
  In o (groupby_pid_age_agg df) ->
  exists r, In r df /\ pid o = pid r /\ age o = age r.
Proof.
  unfold groupby_pid_age_agg. intros H. apply in_map_iff in H.
  destruct H as [r0 [<- Hr0]]. exists r0.
  split; [exact (group_reps_In age df r0 Hr0) |]. split; reflexivity.
Qed.

(** The propagation keeps the index and raises no indicator. *)
Lemma groupby_cummax_ge (c : indicator_name) (df : frame) :
  forall acc,
    Forall2 (fun a o => pid o = pid a /\ age o = age a
                        /\ forall c', (indicator c' a <= indicator c' o)%Z)
            df (groupby_cummax c acc df).
Proof.
  induction df as [| r t IH]; intros acc; simpl; constructor;
    [| apply IH].
  destruct (with_indicator_key c r
              (match acc (pid r) with
               | Some m => Z.max m (indicator c r)
               | None => indicator c r
               end)) as [Hp Ha].
  split; [exact Hp |]. split; [exact Ha |].
  intros c'. destruct (indicator_name_eq_dec c' c) as [-> | Hne].
  - rewrite indicator_with_same. destruct (acc (pid r)); lia.
  - rewrite indicator_with_other by exact Hne. lia.
Qed.

Lemma propagate_ge (names : list indicator_name) :
  forall df,
    Forall2 (fun a o => pid o = pid a /\ age o = age a
                        /\ forall c', (indicator c' a <= indicator c' o)%Z)
            df (propagate names df).
Proof.
  unfold propagate. induction names as [| n ns IH]; intros df; simpl.
  - rewrite <- (map_id df) at 2. apply Forall2_map_r.
    intros a. repeat split. intros c'. lia.
  - eapply (Forall2_trans _ _ _ df);
      [| apply (groupby_cummax_ge n df (fun _ => None)) | apply IH].
    intros a b c (Hp & Ha & Hi) (Hp' & Ha' & Hi').
    split; [congruence |]. split; [congruence |].
    intros c'. specialize (Hi c'). specialize (Hi' c'). lia.
Qed.

Lemma merge_and_propagate_cover (df at_cutoff : frame)
    (names : list indicator_name) (r : row) :
  In r (at_cutoff ++ df) ->
  exists o,
    In o (merge_and_propagate df at_cutoff names)
    /\ pid o = pid r /\ age o == age r
    /\ forall c, (indicator c r <= indicator c o)%Z.
Proof.
  intros Hr.
  destruct (groupby_pid_age_agg_cover _ r Hr) as (o1 & Ho1 & Hp & Ha & Hi).
  destruct (Forall2_In_l _ _ _ o1 (propagate_ge names _) Ho1)
    as (o2 & Ho2 & Hp2 & Ha2 & Hi2).
  exists o2. split; [exact Ho2 |]. split; [congruence |].
  split; [rewrite Ha2; exact Ha |].
  intros c. specialize (Hi c). specialize (Hi2 c). lia.
Qed.

Lemma merge_and_propagate_from (df at_cutoff : frame)
    (names : list indicator_name) (o : row) :
  In o (merge_and_propagate df at_cutoff names) ->
  exists r, In r (at_cutoff ++ df) /\ pid o = pid r /\ age o = age r.
Proof.
  intros Ho.
  destruct (Forall2_In_r _ _ _ o (propagate_ge names _) Ho)
    as (o1 & Ho1 & Hp & Ha & _).
  destruct (groupby_pid_age_agg_from _ o1 Ho1) as (r & Hr & Hp1 & Ha1).
  exists r. split; [exact Hr |]. split; congruence.
Qed.

(** The frame returned, in index order, with the named indicator not
    decreasing along it. *)
Lemma update_frame_out_ordered (df at_cutoff : frame)
    (names : list indicator_name) (out : frame) (c : indicator_name) :
  Forall2 keeps_indicators (merge_and_propagate df at_cutoff names) out ->
  In c names ->
  StronglySorted
    (fun a b => ltb_by age a b = true /\ not_decreasing c a b) out.
Proof.
  intros HK Hc. apply StronglySorted_conj.
  - apply (StronglySorted_Forall2
             (fun a b => ltb_by age a b = true)
             (fun a b => ltb_by age a b = true) keeps_indicators
             (merge_and_propagate df at_cutoff names) out);
      [| exact HK | apply merge_and_propagate_sorted].
    intros a b a' b' (Hp & Ha & _) (Hp' & Ha' & _) Hab.
    unfold ltb_by in *. rewrite Hp, Ha, Hp', Ha'. exact Hab.
  - apply (StronglySorted_Forall2 (not_decreasing c) (not_decreasing c)
             keeps_indicators (merge_and_propagate df at_cutoff names) out);
      [| exact HK
       | unfold merge_and_propagate; apply propagate_not_decreasing;
         exact Hc].
    intros a b a' b' (Hpa & _ & Hi) (Hpb & _ & Hi') Hab Hpid.
    rewrite (Hi c), (Hi' c). apply Hab. congruence.
Qed.

(** X22.  The merge neither loses nor invents index entries: when no
    individual has two rows at one eGFR after the update (or no row carries
    a named indicator), every [(pid, age)] of the trajectory and of the
    event frame is the index of a returned row, no indicator of which is
    below its value in the input row; and every returned row has the index
    of an input row. *)
Theorem update_frame_keeps_index
    (df at_cutoff : frame) (names : list indicator_name)
    (params : model_params) (multiple_indic : bool) (out : frame) :
  update_frame_with_cutoff_event df at_cutoff names params multiple_indic
    = Ok out ->
  to_update_rows df at_cutoff names = []
  \/ has_duplicated egfr (updated_frame df at_cutoff names params) = false ->
  (forall r, In r (at_cutoff ++ df) ->
     exists o, In o out /\ pid o = pid r /\ age o == age r
               /\ forall c, (indicator c r <= indicator c o)%Z)
  /\ (forall o, In o out ->
        exists r, In r (at_cutoff ++ df) /\ pid o = pid r /\ age o = age r).
Proof.
  intros H Hd.
  pose proof (update_frame_with_cutoff_event_keeps _ _ _ _ _ _ H Hd) as HK.
  split.
  - intros r Hr.
    destruct (merge_and_propagate_cover df at_cutoff names r Hr)
      as (o1 & Ho1 & Hp & Ha & Hi).
    destruct (Forall2_In_l _ _ _ o1 HK Ho1) as (o & Ho & Hp' & Ha' & Hi').
    exists o. split; [exact Ho |]. split; [congruence |].
    split; [rewrite Ha'; exact Ha |].
    intros c. rewrite (Hi' c). apply Hi.
  - intros o Ho.
    destruct (Forall2_In_r _ _ _ o HK Ho) as (o1 & Ho1 & Hp' & Ha' & _).
    destruct (merge_and_propagate_from df at_cutoff names o1 Ho1)
      as (r & Hr & Hp & Ha).
    exists r. split; [exact Hr |]. split; congruence.
Qed.

Lemma update_frame_keeps_index_witness :
  (forall r, In r (example_merge_event ++ example_merge_df) ->
     exists o, In o example_merge_out /\ pid o = pid r /\ age o == age r
               /\ forall c, (indicator c r <= indicator c o)%Z)
  /\ (forall o, In o example_merge_out ->
        exists r, In r (example_merge_event ++ example_merge_df)
                  /\ pid o = pid r /\ age o = age r).
Proof.
  apply (update_frame_keeps_index example_merge_df example_merge_event [G3]
           example_model_params false example_merge_out).
  - vm_compute. reflexivity.
  - right. vm_compute. reflexivity.
Defined.

(** X23.  [add_event_at_cutoff] marks the crossing: when no individual has
    two rows at one eGFR after the update, every returned row of an
    individual at or after the age at which [add_age_at_cutoff] places the
    cutoff has the event indicator set (at least 1). *)
Theorem add_event_at_cutoff_marks_crossing
    (df : frame) (cutoff : Q) (event_name : indicator_name)
    (params : model_params) (out : frame) :
  add_event_at_cutoff df cutoff event_name params = Ok out ->
  has_duplicated egfr
    (updated_frame df
       (map (fun r => with_indicator event_name r 1)
            (add_age_at_cutoff df (Some [cutoff])))
       [event_name] params) = false ->
  forall a o,
    In a (add_age_at_cutoff df (Some [cutoff])) -> In o out ->
    pid o = pid a -> age a <= age o ->
    (1 <= indicator event_name o)%Z.
Proof.
  unfold add_event_at_cutoff. cbv zeta.
  set (at_cutoff := map (fun r => with_indicator event_name r 1)
                        (add_age_at_cutoff df (Some [cutoff]))).
  intros H Hd a o Ha Ho Hp Hage.
  pose proof (update_frame_with_cutoff_event_keeps _ _ _ _ _ _ H
                (or_intror Hd)) as HK.
  assert (In (with_indicator event_name a 1) (at_cutoff ++ df)) as Hin.
  { apply in_or_app. left. unfold at_cutoff.
    apply (in_map (fun r => with_indicator event_name r 1)). exact Ha. }
  destruct (merge_and_propagate_cover df at_cutoff [event_name] _ Hin)
    as (o1 & Ho1 & Hp1 & Ha1 & Hi1).
  destruct (Forall2_In_l _ _ _ o1 HK Ho1) as (o2 & Ho2 & Hp2 & Ha2 & Hi2).
  destruct (with_indicator_key event_name a 1) as [Hka Hkb].
  rewrite Hka in Hp1. rewrite Hkb in Ha1.
  specialize (Hi1 event_name). rewrite indicator_with_same in Hi1.
  rewrite <- (Hi2 event_name) in Hi1.
  pose proof (update_frame_out_ordered df at_cutoff [event_name] out
                event_name HK (or_introl eq_refl)) as Hs.
  destruct (StronglySorted_In_cases _ _ Hs o2 o Ho2 Ho)
    as [E | [[_ Hn] | [Hl _]]].
  - subst o. exact Hi1.
  - assert (pid o2 = pid o) as Hpp by congruence.
    specialize (Hn Hpp). lia.
  - exfalso. apply ltb_by_spec in Hl.
    destruct Hl as [Hl | [_ Hl]]; [lia |].
    rewrite Ha2 in Hl. lra.
Qed.

Lemma add_event_at_cutoff_marks_crossing_witness :
  exists out,
    add_event_at_cutoff (get_decline example_cohort) 60 G3
      example_model_params = Ok out
    /\ forall a o,
         In a (add_age_at_cutoff (get_decline example_cohort) (Some [60])) ->
         In o out -> pid o = pid a -> age a <= age o ->
         (1 <= indicator G3 o)%Z.
Proof.
  destruct (add_event_at_cutoff (get_decline example_cohort) 60 G3
              example_model_params) as [out | e] eqn:E;
    [| vm_compute in E; discriminate E].
  exists out. split; [reflexivity |].
  apply (add_event_at_cutoff_marks_crossing (get_decline example_cohort) 60
           G3 example_model_params out E).
  vm_compute. reflexivity.
Defined.

(** ** helpers/comorb_helpers.py: the hazard of an incidence table *)

Lemma zrange_In (n : nat) :
  forall s a, In a (zrange s n) <-> (s <= a < s + Z.of_nat n)%Z.
Proof.
  induction n as [| k IH]; intros s a; simpl zrange.
  - simpl. lia.
  - cbn [In]. rewrite IH. lia.
Qed.

Lemma zrange_length (n : nat) : forall s, length (zrange s n) = n.
Proof.
  induction n as [| k IH]; intros s; simpl; [reflexivity |].
  rewrite IH. reflexivity.
Qed.

Lemma mapM_all_Ok {A B : Type} (f : A -> result B) (g : A -> B)
    (l : list A) :
  (forall x, In x l -> f x = Ok (g x)) -> mapM f l = Ok (map g l).
Proof.
  induction l as [| x t IH]; intros H; simpl; [reflexivity |].
  rewrite (H x (or_introl eq_refl)). cbn [bind].
  rewrite IH by (intros y Hy; apply H; right; exact Hy). reflexivity.
Qed.

Lemma mapM_error_only {A B : Type} (f : A -> result B) (e : error)
    (l : list A) :
  (forall x e', f x = Err e' -> e' = e) ->
  (exists x, In x l /\ f x = Err e) -> mapM f l = Err e.
Proof.
  intros Hall. induction l as [| x t IH]; intros [y [Hy He]];
    [contradiction |].
  simpl. destruct (f x) as [b | e'] eqn:E; cbn [bind].
  - destruct Hy as [<- | Hy]; [congruence |].
    rewrite IH by (exists y; split; assumption). reflexivity.
  - rewrite (Hall x e' E). reflexivity.
Qed.

(** X24.  [get_comorb_hazard] spreads an incidence table over single
    years of age: when no band is reversed ([age_max >= age_min - 1]) the
    result holds exactly one row for every integer age of every band, with
    the band's [male] flag and the hazard [inc_per_1k / 1000], in table
    order, and has the total length of the bands; a band with
    [age_max < age_min - 1] makes it raise [ValueError]. *)
Theorem get_comorb_hazard_bands (comorb_incid : list incid_row) :
  ((forall x, In x comorb_incid -> (age_min x - 1 <= age_max x)%Z) ->
   exists hazard,
     get_comorb_hazard comorb_incid = Ok hazard
     /\ (forall h,
           In h hazard <->
           exists x, In x comorb_incid
                     /\ (age_min x <= a_age h <= age_max x)%Z
                     /\ a_male h = male x
                     /\ a_value h = inc_per_1k x / 1000)
     /\ Z.of_nat (length hazard)
        = fold_right (fun x acc => (age_max x - age_min x + 1 + acc)%Z)
                     0%Z comorb_incid)
  /\ ((exists x, In x comorb_incid /\ (age_max x < age_min x - 1)%Z) ->
      get_comorb_hazard comorb_incid = Err ValueError).
Proof.
  set (g := fun x : incid_row =>
              map (fun a => mkAgeRow a (male x) (inc_per_1k x / 1000))
                  (zrange (age_min x)
                          (Z.to_nat (age_max x - age_min x + 1)))).
  split.
  - intros Hok. exists (concat (map g comorb_incid)).
    split; [| split].
    + unfold get_comorb_hazard.
      rewrite (mapM_all_Ok _ g); [reflexivity |].
      intros x Hx. cbv zeta. specialize (Hok x Hx).
      destruct (age_max x - age_min x + 1 <? 0)%Z eqn:E;
        [apply Z.ltb_lt in E; lia | reflexivity].
    + intros h. rewrite <- flat_map_concat_map, in_flat_map. split.
      * intros [x [Hx Hh]]. exists x. split; [exact Hx |].
        unfold g in Hh. apply in_map_iff in Hh. destruct Hh as [a [<- Ha]].
        apply zrange_In in Ha. specialize (Hok x Hx). simpl.
        repeat split; lia.
      * intros [x (Hx & Ha & Hm & Hv)]. exists x. split; [exact Hx |].
        unfold g. apply in_map_iff. exists (a_age h). split.
        -- destruct h as [a m v]. simpl in *. subst m v. reflexivity.
        -- apply zrange_In. lia.
    + clear - Hok. induction comorb_incid as [| x t IH]; [reflexivity |].
      cbn [map concat fold_right]. rewrite length_app, Nat2Z.inj_add.
      rewrite IH by (intros y Hy; apply Hok; right; exact Hy).
      unfold g at 1. rewrite length_map, zrange_length.
      specialize (Hok x (or_introl eq_refl)). lia.
  - intros Hbad. unfold get_comorb_hazard.
    rewrite (mapM_error_only _ ValueError); [reflexivity | |].
    + intros x e'. cbv zeta.
      destruct (age_max x - age_min x + 1 <? 0)%Z; [| discriminate].
      intros [= <-]. reflexivity.
    + destruct Hbad as [x [Hx Hlt]]. exists x. split; [exact Hx |].
      cbv zeta.
      destruct (age_max x - age_min x + 1 <? 0)%Z eqn:E;
        [reflexivity | apply Z.ltb_ge in E; lia].
Qed.

Lemma get_comorb_hazard_bands_witness :
  exists hazard,
    get_comorb_hazard example_zero_incid = Ok hazard
    /\ (forall h,
          In h hazard <->
          exists x, In x example_zero_incid
                    /\ (age_min x <= a_age h <= age_max x)%Z
                    /\ a_male h = male x
                    /\ a_value h = inc_per_1k x / 1000)
    /\ Z.of_nat (length hazard) = 4%Z.
Proof.
  apply (proj1 (get_comorb_hazard_bands example_zero_incid)).
  intros x [<- | [<- | []]]; simpl; lia.
Defined.

(** ** helpers/comorb_helpers.py: the conditional CDF *)

Lemma cumsum_rows_ascending (l : list (age_row Q)) :
  forall acc,
    Forall (fun x => 0 <= a_value x) l ->
    StronglySorted (fun a b => a_value a <= a_value b) (cumsum_rows acc l)
    /\ Forall (fun x => acc <= a_value x) (cumsum_rows acc l).
Proof.
  induction l as [| x t IH]; intros acc H; simpl.
  - split; constructor.
  - inversion H as [| ? ? Hx Ht]; subst.
    destruct (IH (acc + a_value x) Ht) as [Hs Hb]. split.
    + constructor; [exact Hs | exact Hb].
    + constructor; [simpl; lra |].
      eapply Forall_impl; [| exact Hb]. intros y Hy. cbv beta in Hy.
      simpl in *. lra.
Qed.

Lemma cumsum_rows_ages (l : list (age_row Q)) :
  forall acc, map a_age (cumsum_rows acc l) = map a_age l.
Proof.
  induction l as [| x t IH]; intros acc; simpl; [reflexivity |].
  rewrite IH. reflexivity.
Qed.

Lemma StronglySorted_last {A : Type} (R : A -> A -> Prop) (l : list A)
    (x : A) :
  StronglySorted R l -> last_error l = Some x ->
  forall y, In y l -> y = x \/ R y x.
Proof.
  intros Hs Hl y Hy. pose proof (last_error_In l x Hl) as Hx.
  unfold last_error in Hl.
  destruct (rev l) as [| z t] eqn:E; [discriminate |].
  injection Hl as ->.
  assert (l = rev t ++ [x]) as El.
  { rewrite <- (rev_involutive l), E. reflexivity. }
  rewrite El in Hy, Hs. apply in_app_or in Hy.
  destruct Hy as [Hy | [<- | []]]; [| left; reflexivity].
  right. exact (StronglySorted_app_order _ _ _ Hs y x Hy
                  (or_introl eq_refl)).
Qed.

Section Conditional_cdf.

Variable np_exp : Q -> Q.

(** X25.  [get_cdfs] without index columns.  An empty hazard table raises
    [IndexError].  For hazards that are not negative (and an [np.exp] that
    is increasing with values between 0 and 1 on arguments that are not
    positive), if the lifetime risk is not 0 then it lies in [(0, 1]] and
    [cdf_develops] is a CDF over the ages of the table: its values are
    finite, between 0 and 1, never decreasing with age, and the last one
    is 1. *)
Theorem get_cdfs_conditional_cdf (hazard : list (age_row Q)) :
  (hazard = [] -> get_cdfs np_exp hazard false = Err IndexError)
  /\ ((forall x y, x <= y -> y <= 0 -> np_exp x <= np_exp y) ->
      (forall x, x <= 0 -> 0 <= np_exp x /\ np_exp x <= 1) ->
      Forall (fun x => 0 <= a_value x) hazard ->
      forall cdf lifetime_risk cdf_develops,
        get_cdfs np_exp hazard false
        = Ok (cdf, risk_overall lifetime_risk, cdf_develops) ->
        ~ lifetime_risk == 0 ->
        0 < lifetime_risk /\ lifetime_risk <= 1
        /\ map a_age cdf_develops = map a_age hazard
        /\ Forall (fun d => exists v, a_value d = Some v /\ 0 <= v /\ v <= 1)
                  cdf_develops
        /\ StronglySorted
             (fun a b => exists va vb,
                a_value a = Some va /\ a_value b = Some vb /\ va <= vb)
             cdf_develops
        /\ exists l v, last_error cdf_develops = Some l
                       /\ a_value l = Some v /\ v == 1).
Proof.
  split; [intros ->; reflexivity |].
  intros Hmono Hrange Hnonneg cdf lr cdf_develops H Hlr.
  unfold get_cdfs in H. cbv zeta in H.
  set (F := fun x : age_row Q =>
              mkAgeRow (a_age x) (a_male x) (1 - np_exp (- a_value x))) in *.
  destruct (last_error (map F (cumsum_rows 0 hazard))) as [l |] eqn:El;
    [| discriminate].
  injection H as <- <- <-.
  destruct (cumsum_rows_ascending hazard 0 Hnonneg) as [Hs Hb].
  assert (StronglySorted (fun a b => a_value a <= a_value b)
                         (map F (cumsum_rows 0 hazard))) as Hcs.
  { apply (StronglySorted_Forall2
             (fun a b : age_row Q => a_value a <= a_value b)
             (fun a b : age_row Q => a_value a <= a_value b)
             (fun (a o : age_row Q) =>
                0 <= a_value a /\ a_value o = 1 - np_exp (- a_value a))
             (cumsum_rows 0 hazard)); [| | exact Hs].
    - intros a b a' b' [Ha Ea] [Hb' Eb] Hab. rewrite Ea, Eb.
      assert (np_exp (- a_value b) <= np_exp (- a_value a))
        by (apply Hmono; lra).
      lra.
    - clear - Hb. induction Hb as [| x t Hx _ IH]; simpl; constructor;
        [split; [exact Hx | reflexivity] | exact IH]. }
  assert (Forall (fun c : age_row Q => 0 <= a_value c /\ a_value c <= 1)
                 (map F (cumsum_rows 0 hazard))) as Hcr.
  { apply Forall_map. eapply Forall_impl; [| exact Hb].
    intros x Hx. cbv beta in Hx. simpl.
    destruct (Hrange (- a_value x)) as [H0 H1]; [lra |]. lra. }
  pose proof (last_error_In _ _ El) as Hlin.
  assert (0 < a_value l) as Hpos.
  { rewrite Forall_forall in Hcr. destruct (Hcr l Hlin) as [H0 _].
    destruct (Qlt_le_dec 0 (a_value l)) as [Hp | Hn]; [exact Hp |].
    exfalso. apply Hlr. lra. }
  assert (forall c, In c (map F (cumsum_rows 0 hazard)) ->
                    a_value c <= a_value l) as Hmax.
  { intros c Hc.
    destruct (StronglySorted_last _ _ _ Hcs El c Hc) as [-> | Hle];
      [lra | exact Hle]. }
  assert (forall v, np_div v (a_value l) = Some (v / a_value l)) as Hdiv.
  { intros v. unfold np_div.
    destruct (Qeq_bool (a_value l) 0) eqn:E; qbool;
      [contradiction | reflexivity]. }
  assert (forall v, v / a_value l * a_value l == v) as Hmul
    by (intros v; field; exact Hlr).
  split; [exact Hpos |].
  split; [rewrite Forall_forall in Hcr; exact (proj2 (Hcr l Hlin)) |].
  split; [| split; [| split]].
  - rewrite !map_map. simpl.
    change (map (fun x : age_row Q => a_age x) (cumsum_rows 0 hazard))
      with (map a_age (cumsum_rows 0 hazard)).
    apply cumsum_rows_ages.
  - apply Forall_map. rewrite Forall_forall in *. intros c Hc.
    destruct (Hcr c Hc) as [H0 _]. pose proof (Hmax c Hc) as Hle.
    exists (a_value c / a_value l). simpl.
    split; [apply Hdiv |]. split.
    + apply Qle_shift_div_l; lra.
    + apply Qle_shift_div_r; lra.
  - apply (StronglySorted_Forall2
             (fun a b : age_row Q => a_value a <= a_value b)
             (fun a b : age_row (option Q) =>
                exists va vb,
                  a_value a = Some va /\ a_value b = Some vb /\ va <= vb)
             (fun (a : age_row Q) (o : age_row (option Q)) =>
                a_value o = Some (a_value a / a_value l))
             (map F (cumsum_rows 0 hazard))); [| | exact Hcs].
    + intros a b a' b' Ea Eb Hab.
      exists (a_value a / a_value l), (a_value b / a_value l).
      split; [exact Ea |]. split; [exact Eb |].
      apply Qle_shift_div_l; [exact Hpos |]. rewrite Hmul. exact Hab.
    + apply Forall2_map_r. intros a. simpl. apply Hdiv.
  - rewrite last_error_map, El. cbn [option_map].
    eexists. exists (a_value l / a_value l).
    split; [reflexivity |]. split; [simpl; apply Hdiv |].
    field. exact Hlr.
Qed.

End Conditional_cdf.

Lemma get_cdfs_conditional_cdf_witness :
  exists cdf lifetime_risk cdf_develops l v,
    get_cdfs exp_nonpos_stand_in
      [mkAgeRow 18 0 0.01; mkAgeRow 19 0 0.02] false
    = Ok (cdf, risk_overall lifetime_risk, cdf_develops)
    /\ 0 < lifetime_risk /\ lifetime_risk <= 1
    /\ last_error cdf_develops = Some l /\ a_value l = Some v /\ v == 1.
Proof.
  destruct (get_cdfs exp_nonpos_stand_in
              [mkAgeRow 18 0 0.01; mkAgeRow 19 0 0.02] false)
    as [[[cdf lr] cdf_develops] | e] eqn:E;
    [| vm_compute in E; discriminate E].
  destruct lr as [lr | probs]; [| vm_compute in E; discriminate E].
  destruct (proj2 (get_cdfs_conditional_cdf exp_nonpos_stand_in
                     [mkAgeRow 18 0 0.01; mkAgeRow 19 0 0.02])
              exp_nonpos_stand_in_increasing exp_nonpos_stand_in_range
              ltac:(repeat (apply Forall_cons; [discriminate |]);
                    apply Forall_nil)
              cdf lr cdf_develops E)
    as (H1 & H2 & _ & _ & _ & l & v & H3 & H4 & H5).
  - vm_compute in E. injection E as _ <- _. discriminate.
  - exists cdf, lr, cdf_develops, l, v. repeat split; assumption.
Defined.

(** ** helpers/sampling.py: the cohort frame *)

Lemma sort_rows_In (df : frame) (r : row) : In r (sort_rows df) <-> In r df.
Proof. apply fold_insert_sorted_In. Qed.

Lemma sort_rows_sorted (df : frame) :
  StronglySorted (fun a b => row_key_leb a b = true) (sort_rows df).
Proof.
  apply fold_insert_sorted_sorted;
    [exact row_key_leb_total | exact row_key_leb_trans].
Qed.

Lemma groupby_pid_age_last_In (df : frame) (x : row) :
  In x (groupby_pid_age_last df) -> In x df.
Proof.
  unfold groupby_pid_age_last. intros H. apply in_map_iff in H.
  destruct H as [r0 [E Hr0]].
  destruct (last_error (filter (eqb_by age r0) df)) as [r |] eqn:El.
  - subst x. apply last_error_In in El. apply filter_In in El. tauto.
  - subst x. exact (group_reps_In age df r0 Hr0).
Qed.

Lemma groupby_pid_age_last_sorted (df : frame) :
  StronglySorted (fun a b => ltb_by age a b = true) (groupby_pid_age_last df).
Proof.
  unfold groupby_pid_age_last.
  apply (StronglySorted_Forall2
           (fun a b => ltb_by age a b = true)
           (fun a b => ltb_by age a b = true)
           (fun a o => pid o = pid a /\ age o == age a)
           (group_reps age df)); [| | apply group_reps_sorted].
  - intros a b a' b' [Hp Ha] [Hp' Ha'] H.
    apply ltb_by_spec in H. apply ltb_by_spec.
    destruct H as [H | [H1 H2]]; [left; lia | right].
    split; [congruence | lra].
  - apply Forall2_map_r. intros r0.
    destruct (last_error (filter (eqb_by age r0) df)) as [r |] eqn:El.
    + apply last_error_In in El. apply filter_In in El.
      destruct El as [_ El]. apply eqb_by_spec in El.
      destruct El as [Hp Ha]. split; [congruence | symmetry; exact Ha].
    + split; reflexivity.
Qed.

(** The frame that [sample_cohort] builds from the concatenated event
    rows [l0]. *)
Lemma cohort_frame_facts (demo : list cohort_row) (l0 : frame) (min_age : Q)
    (final : frame) :
  final
  = map (fun r => with_egfr r (round2 (egfr r)))
      (groupby_pid_age_last
         (map (join_demo demo)
            (map (fun r =>
                    with_indicator Nephr
                      (with_indicator Diag (with_indicator G3 r 0) 0) 0)
               (filter (fun r => Qle_bool min_age (age r))
                  (propagate [Ht; Dm; Death] (sort_rows l0)))))) ->
  StronglySorted (fun a b => ltb_by age a b = true) final
  /\ (forall r, In r final ->
        g3 r = 0%Z /\ diag r = 0%Z /\ nephr r = 0%Z /\ min_age <= age r)
  /\ (forall c r1 r2,
        In c [Ht; Dm; Death] -> In r1 final -> In r2 final ->
        pid r1 = pid r2 -> age r1 < age r2 ->
        (indicator c r1 <= indicator c r2)%Z)
  /\ (forall e,
        In e l0 -> min_age <= age e ->
        exists r,
          In r final /\ pid r = pid e /\ age r == age e
          /\ forall c, In c [Ht; Dm; Death] ->
                       (indicator c e <= indicator c r)%Z)
  /\ (forall c,
        In c [Ht; Dm; Death] ->
        Forall (fun e => (indicator c e <= 1)%Z) l0 ->
        Forall (fun r => (indicator c r <= 1)%Z) final).
Proof.
  set (names := [Ht; Dm; Death]).
  set (f := fun r => join_demo demo
                       (with_indicator Nephr
                          (with_indicator Diag (with_indicator G3 r 0) 0) 0)).
  set (rnd := fun r => with_egfr r (round2 (egfr r))).
  set (l2 := propagate names (sort_rows l0)).
  set (l3 := filter (fun r => Qle_bool min_age (age r)) l2).
  rewrite map_map. fold f. fold l3.
  set (l5 := map f l3). intros ->.
  assert (forall r, pid (f r) = pid r /\ age (f r) = age r
                    /\ g3 (f r) = 0%Z /\ diag (f r) = 0%Z
                    /\ nephr (f r) = 0%Z
                    /\ forall c, In c names ->
                                 indicator c (f r) = indicator c r) as Hf.
  { intros r. unfold f, join_demo.
    destruct (find _ demo) as [cr |]; repeat split; try reflexivity;
      intros c0 [<- | [<- | [<- | []]]]; reflexivity. }
  assert (forall r c, indicator c (rnd r) = indicator c r) as Hrnd
    by (intros r c; destruct c; reflexivity).
  (* the frame before the last grouping, in index order *)
  assert (forall c, In c names ->
            StronglySorted
              (fun a b => row_key_leb a b = true /\ not_decreasing c a b)
              l5) as Hs5.
  { intros c Hc.
    apply (StronglySorted_Forall2
             (fun a b => row_key_leb a b = true /\ not_decreasing c a b)
             (fun a b => row_key_leb a b = true /\ not_decreasing c a b)
             (fun a o => pid o = pid a /\ age o = age a
                         /\ indicator c o = indicator c a) l3 l5).
    - intros a b a' b' (Hp & Ha & Hi) (Hp' & Ha' & Hi') [Hk Hn]. split.
      + unfold row_key_leb in *. rewrite Hp, Ha, Hp', Ha'. exact Hk.
      + intros E. rewrite Hi, Hi'. apply Hn. congruence.
    - apply Forall2_map_r. intros a. destruct (Hf a) as (H1 & H2 & _ & _ & _ & H6).
      split; [exact H1 |]. split; [exact H2 | exact (H6 c Hc)].
    - apply StronglySorted_filter. apply StronglySorted_conj.
      + apply (StronglySorted_Forall2
                 (fun a b => row_key_leb a b = true)
                 (fun a b => row_key_leb a b = true)
                 (fun a o => pid o = pid a /\ age o = age a
                             /\ forall c', (indicator c' a <= indicator c' o)%Z)
                 (sort_rows l0) l2);
          [| apply propagate_ge | apply sort_rows_sorted].
        intros a b a' b' (Hp & Ha & _) (Hp' & Ha' & _) Hk.
        unfold row_key_leb in *. rewrite Hp, Ha, Hp', Ha'. exact Hk.
      + apply propagate_not_decreasing. exact Hc. }
  split; [| split; [| split; [| split]]].
  - apply (StronglySorted_Forall2
             (fun a b => ltb_by age a b = true)
             (fun a b => ltb_by age a b = true)
             (fun a o => pid o = pid a /\ age o = age a)
             (groupby_pid_age_last l5));
      [| apply Forall2_map_r; intros a; split; reflexivity
       | apply groupby_pid_age_last_sorted].
    intros a b a' b' [Hp Ha] [Hp' Ha'] H.
    unfold ltb_by in *. rewrite Hp, Ha, Hp', Ha'. exact H.
  - intros r Hr. apply in_map_iff in Hr. destruct Hr as [x [<- Hx]].
    apply groupby_pid_age_last_In in Hx. apply in_map_iff in Hx.
    destruct Hx as [y [<- Hy]]. apply filter_In in Hy.
    destruct Hy as [_ Hy]. qbool.
    destruct (Hf y) as (_ & H2 & H3 & H4 & H5 & _).
    change (g3 (rnd (f y))) with (g3 (f y)).
    change (diag (rnd (f y))) with (diag (f y)).
    change (nephr (rnd (f y))) with (nephr (f y)).
    change (age (rnd (f y))) with (age (f y)).
    rewrite H2. repeat split; assumption.
  - intros c r1 r2 Hc H1 H2 Hp Ha.
    apply in_map_iff in H1. destruct H1 as [x1 [<- Hx1]].
    apply in_map_iff in H2. destruct H2 as [x2 [<- Hx2]].
    rewrite !Hrnd.
    change (pid (rnd x1)) with (pid x1) in Hp.
    change (pid (rnd x2)) with (pid x2) in Hp.
    change (age (rnd x1)) with (age x1) in Ha.
    change (age (rnd x2)) with (age x2) in Ha.
    apply groupby_pid_age_last_In in Hx1.
    apply groupby_pid_age_last_In in Hx2.
    destruct (StronglySorted_In_cases _ _ (Hs5 c Hc) x1 x2 Hx1 Hx2)
      as [E | [[_ Hn] | [Hk _]]].
    + subst x2. exfalso. lra.
    + exact (Hn Hp).
    + exfalso. apply row_key_leb_spec in Hk.
      destruct Hk as [Hk | [_ Hk]]; [lia | lra].
  - intros e He Hage.
    assert (In e (sort_rows l0)) as He1 by (apply sort_rows_In; exact He).
    destruct (Forall2_In_l _ _ _ e (propagate_ge names (sort_rows l0)) He1)
      as (y & Hy & Hpy & Hay & Hiy).
    fold l2 in Hy.
    assert (In y l3) as Hy3.
    { apply filter_In. split; [exact Hy |].
      apply Qle_bool_iff. rewrite Hay. exact Hage. }
    assert (In (f y) l5) as Hfy by (apply in_map; exact Hy3).
    destruct (Hf y) as (Hpf & Haf & _ & _ & _ & Hif).
    destruct (group_reps_cover age l5 (f y) Hfy) as (r0 & Hr0 & Heq).
    assert (In (f y) (filter (eqb_by age r0) l5)) as Hfil
      by (apply filter_In; split; assumption).
    destruct (last_error (filter (eqb_by age r0) l5)) as [x |] eqn:El.
    2:{ exfalso. unfold last_error in El.
        destruct (rev (filter (eqb_by age r0) l5)) as [| z t] eqn:Er;
          [| discriminate].
        apply in_rev in Hfil. rewrite Er in Hfil. contradiction. }
    exists (rnd x).
    pose proof (last_error_In _ _ El) as Hx. apply filter_In in Hx.
    destruct Hx as [Hx5 Hxe].
    apply eqb_by_spec in Hxe. apply eqb_by_spec in Heq.
    destruct Hxe as [Hxp Hxa]. destruct Heq as [Hyp Hya].
    split; [| split; [| split]].
    + apply in_map. unfold groupby_pid_age_last.
      apply in_map_iff. exists r0. rewrite El.
      split; [reflexivity | exact Hr0].
    + change (pid (rnd x)) with (pid x). congruence.
    + change (age (rnd x)) with (age x).
      rewrite <- Hxa, Hya, Haf, Hay. reflexivity.
    + intros c Hc. rewrite Hrnd.
      assert (indicator c (f y) <= indicator c x)%Z as Hle.
      { pose proof (StronglySorted_filter _ (eqb_by age r0) _ (Hs5 c Hc))
          as Hsf.
        destruct (StronglySorted_last _ _ _ Hsf El (f y) Hfil)
          as [-> | [_ Hn]]; [lia |].
        apply Hn. congruence. }
      specialize (Hiy c). rewrite (Hif c Hc) in Hle. lia.
  - intros c Hc Hb. apply Forall_map. rewrite Forall_forall. intros x Hx.
    rewrite Hrnd. apply groupby_pid_age_last_In in Hx.
    apply in_map_iff in Hx. destruct Hx as [y [<- Hy]].
    apply filter_In in Hy. destruct Hy as [Hy _].
    destruct (Hf y) as (_ & _ & _ & _ & _ & Hif). rewrite (Hif c Hc).
    assert (Forall (fun r => (indicator c r <= 1)%Z) l2) as Hb2.
    { apply propagate_le_1. rewrite Forall_forall in *.
      intros r Hr. apply Hb. apply sort_rows_In. exact Hr. }
    rewrite Forall_forall in Hb2. exact (Hb2 y Hy).
Qed.

Section Cohort_facts.

Variable np_exp : Q -> Q.
Variable rng : Type.
Variable random_uniform : rng -> Q * rng.
Variable random_bernoulli : Q -> rng -> Z * rng.
Variable random_normal : Q -> Q -> rng -> Q * rng.

Lemma cohort_event_le_1 (c : indicator_name) (p : Z) (a : Q)
    (v_ht v_dm v_death : Z) :
  (v_ht <= 1)%Z -> (v_dm <= 1)%Z -> (v_death <= 1)%Z ->
  (indicator c (cohort_event p a v_ht v_dm v_death) <= 1)%Z.
Proof. intros H1 H2 H3. destruct c; simpl; lia. Qed.

Lemma sample_dm_ht_times_events (df_demo_egfr : list cohort_row)
    (df_dm df_ht : list incid_row) (g g' : rng) (df_events : frame)
    (c : indicator_name) :
  sample_dm_ht_times np_exp rng random_uniform random_bernoulli
    df_demo_egfr df_dm df_ht g = Ok (df_events, g') ->
  Forall (fun e => (indicator c e <= 1)%Z) df_events.
Proof.
  unfold sample_dm_ht_times. intros H.
  apply bind_Ok in H. destruct H as [dm_cdfs [_ H]].
  apply bind_Ok in H. destruct H as [ht_cdfs [_ H]].
  destruct (snd (fst dm_cdfs)) as [lr_dm | ?]; [| discriminate].
  destruct (snd (fst ht_cdfs)) as [? | lr_ht]; [discriminate |].
  cbv zeta in H.
  apply bind_Ok in H. destruct H as [ht_age [_ H]].
  apply bind_Ok in H. destruct H as [diab_age [_ H]].
  injection H as <- _.
  rewrite Forall_forall. intros e He.
  apply (proj1 (sort_rows_In _ _)) in He. apply in_app_or in He.
  destruct He as [He | He]; apply in_map_iff in He;
    destruct He as [x [<- _]]; apply cohort_event_le_1; lia.
Qed.

(** X26.  The cohort frame that [sample_cohort] returns.  It is in index
    order with one row per individual and age; no row is before
    [init_age], and [g3], [diag] and [nephr] are 0 everywhere.  The
    indicators [ht], [dm] and [death] are at most 1 and, being propagated
    by a cumulative maximum per individual over all three columns, never
    decrease with age along an individual.  Every individual has a row at
    [init_age] and, when [init_age <= max_age], a row at [max_age] with
    [death = 1]. *)
Theorem sample_cohort_frame (params : cohort_params)
    (df_dm df_ht : list incid_row) (g g' : rng) (df_init : frame) :
  sample_cohort np_exp rng random_uniform random_bernoulli random_normal
    params df_dm df_ht g = Ok (df_init, g') ->
  StronglySorted (fun a b => ltb_by age a b = true) df_init
  /\ (forall r, In r df_init ->
        g3 r = 0%Z /\ diag r = 0%Z /\ nephr r = 0%Z
        /\ inject_Z (p_init_age params) <= age r
        /\ forall c, In c [Ht; Dm; Death] -> (indicator c r <= 1)%Z)
  /\ (forall c r1 r2,
        In c [Ht; Dm; Death] -> In r1 df_init -> In r2 df_init ->
        pid r1 = pid r2 -> age r1 < age r2 ->
        (indicator c r1 <= indicator c r2)%Z)
  /\ (forall p,
        (0 <= p < Z.of_nat (p_n params))%Z ->
        (exists r, In r df_init /\ pid r = p
                   /\ age r == inject_Z (p_init_age params))
        /\ ((p_init_age params <= p_max_age params)%Z ->
            exists r, In r df_init /\ pid r = p
                      /\ age r == inject_Z (p_max_age params)
                      /\ death r = 1%Z)).
Proof.
  unfold sample_cohort. cbv zeta. intros H.
  apply bind_Ok in H. destruct H as [egfrs [_ H]].
  apply bind_Ok in H. destruct H as [males [_ H]].
  apply bind_Ok in H. destruct H as [blacks [_ H]].
  destruct (p_n params =? 0)%nat; [discriminate |].
  apply bind_Ok in H. destruct H as [df_events [Hev H]].
  injection H as H _. symmetry in H.
  destruct df_events as [events g1]. cbn [fst] in H.
  set (l0 := events
             ++ map (fun p => cohort_event p (inject_Z (p_init_age params))
                                           0 0 0) (zrange 0 (p_n params))
             ++ map (fun p => cohort_event p (inject_Z (p_max_age params))
                                           0 0 1) (zrange 0 (p_n params)))
    in *.
  destruct (cohort_frame_facts _ l0 _ df_init H)
    as (Hs & Hrows & Hmono & Hcover & Hle).
  assert (forall c, Forall (fun e => (indicator c e <= 1)%Z) l0) as Hl0.
  { intros c. unfold l0. apply Forall_app. split.
    - exact (sample_dm_ht_times_events _ _ _ _ _ _ c Hev).
    - apply Forall_app. split; apply Forall_map; rewrite Forall_forall;
        intros p _; apply cohort_event_le_1; lia. }
  split; [exact Hs |]. split; [| split; [exact Hmono |]].
  - intros r Hr. destruct (Hrows r Hr) as (H1 & H2 & H3 & H4).
    repeat split; try assumption.
    intros c Hc. pose proof (Hle c Hc (Hl0 c)) as Hb.
    rewrite Forall_forall in Hb. exact (Hb r Hr).
  - intros p Hp.
    assert (In p (zrange 0 (p_n params))) as Hin by (apply zrange_In; lia).
    split.
    + destruct (Hcover (cohort_event p (inject_Z (p_init_age params)) 0 0 0))
        as (r & Hr & Hpr & Har & _).
      * unfold l0. apply in_or_app. right. apply in_or_app. left.
        apply (in_map (fun p0 => cohort_event p0 _ 0 0 0)). exact Hin.
      * simpl. lra.
      * exists r. split; [exact Hr |]. split; [exact Hpr | exact Har].
    + intros Hage.
      destruct (Hcover (cohort_event p (inject_Z (p_max_age params)) 0 0 1))
        as (r & Hr & Hpr & Har & Hir).
      * unfold l0. apply in_or_app. right. apply in_or_app. right.
        apply (in_map (fun p0 => cohort_event p0 _ 0 0 1)). exact Hin.
      * simpl. rewrite <- Zle_Qle. exact Hage.
      * exists r. split; [exact Hr |]. split; [exact Hpr |].
        split; [exact Har |].
        specialize (Hir Death (or_intror (or_intror (or_introl eq_refl)))).
        simpl in Hir.
        pose proof (Hle Death (or_intror (or_intror (or_introl eq_refl)))
                      (Hl0 Death)) as Hb.
        rewrite Forall_forall in Hb. specialize (Hb r Hr). simpl in Hb. lia.
Qed.

End Cohort_facts.

Lemma sample_cohort_frame_witness :
  exists df_init,
    sample_cohort exp_nonpos_stand_in unit constant_uniform bernoulli_one
      normal_mean example_cohort_params example_incid_dm example_incid_ht tt
    = Ok (df_init, tt)
    /\ StronglySorted (fun a b => ltb_by age a b = true) df_init
    /\ forall c r1 r2,
         In c [Ht; Dm; Death] -> In r1 df_init -> In r2 df_init ->
         pid r1 = pid r2 -> age r1 < age r2 ->
         (indicator c r1 <= indicator c r2)%Z.
Proof.
  destruct (sample_cohort exp_nonpos_stand_in unit constant_uniform
              bernoulli_one normal_mean example_cohort_params
              example_incid_dm example_incid_ht tt)
    as [[df_init []] | e] eqn:E; [| vm_compute in E; discriminate E].
  exists df_init. split; [reflexivity |].
  destruct (sample_cohort_frame exp_nonpos_stand_in unit constant_uniform
              bernoulli_one normal_mean example_cohort_params
              example_incid_dm example_incid_ht tt tt df_init E)
    as (H1 & _ & H3 & _).
  split; [exact H1 | exact H3].
Defined.

(** ** Instances on the example data *)

Lemma egfr_to_ranges_antitone_witness :
  exists k1 k2,
    egfr_to_ranges 50 = Some k1 /\ egfr_to_ranges 80 = Some k2
    /\ (k2 <= k1)%Z.
Proof.
  destruct (egfr_to_ranges_antitone 50 80)
    as (k1 & k2 & H1 & H2 & _ & _ & H3 & _).
  exists k1, k2. split; [exact H1 |]. split; [exact H2 |].
  apply H3. discriminate.
Defined.

Lemma sample_interventions_errors_witness :
  sample_interventions unit (fun _ g => (0%Z, g)) [] ev_diag
    example_interv_params None tt
  = Err AssertionError.
Proof.
  apply (proj1 (proj2 (sample_interventions_errors unit (fun _ g => (0%Z, g))
                         [] ev_diag example_interv_params None tt))).
  reflexivity.
Defined.

Lemma integrate_duplicate_rows_no_duplicates_witness :
  StronglySorted (fun a b => row_key_leb a b = true)
    (integrate_duplicate_rows
       [example_row 1 50 80 1 0; example_row 1 60 80 1 0;
        example_row 1 101 29 1 1]).
Proof.
  apply (proj2 (proj2 (proj2
           (integrate_duplicate_rows_no_duplicates
              [example_row 1 50 80 1 0; example_row 1 60 80 1 0;
               example_row 1 101 29 1 1])))).
  reflexivity.
Defined.

Lemma identify_age_at_cutoff_one_row_per_pid_witness :
  exists r, In r (get_decline example_cohort) /\ pid r = 1%Z.
Proof.
  pose proof
    (proj2 (proj2 (identify_age_at_cutoff_one_row_per_pid
                     (get_decline example_cohort) 60))) as H.
  destruct (identify_age_at_cutoff (get_decline example_cohort) 60)
    as [| o t] eqn:E.
  - vm_compute in E. discriminate E.
  - assert (Ho : pid o = 1%Z).
    { vm_compute in E. injection E as Eo _. rewrite <- Eo. reflexivity. }
    destruct (H o (or_introl eq_refl)) as [r [Hr Hp]].
    exists r. split; [exact Hr | congruence].
Defined.

(** ** egfr_model.py: phase 1 *)

Lemma StronglySorted_age_map (f : row -> row) (l : frame) :
  (forall r, age (f r) = age r) ->
  StronglySorted (fun a b => age a <= age b) l ->
  StronglySorted (fun a b => age a <= age b) (map f l).
Proof.
  intros Hf Hs. induction Hs as [| x t Ht IH Hx]; simpl; constructor.
  - exact IH.
  - rewrite Forall_map. rewrite Forall_forall in Hx |- *.
    intros y Hy. rewrite !Hf. exact (Hx y Hy).
Qed.

(** X27.  Phase 1 composes [update_slopes] and [get_decline]: with table
    slopes that are not negative and intervention effects between 0 and 1,
    along the rows of one individual of the cohort (stored together, in
    ascending age order) [model_part1] changes the slope and the eGFR only,
    the slope lies between 0 and the table slope of the row, and the eGFR
    never increases with age and never exceeds the individual's initial
    eGFR, whatever slopes the cohort frame came with. *)
Theorem model_part1_declines
    (pre g post : frame) (params : model_params) (p : Z) (r0 : row) :
  (forall d h s, 0 <= slopes params d h s) ->
  (forall ev, 0 <= eff (interv params) ev /\ eff (interv params) ev <= 1) ->
  Forall (fun r => pid r = p) g ->
  Forall (fun r => pid r <> p) pre ->
  nth_error g 0 = Some r0 ->
  StronglySorted (fun a b => age a <= age b) g ->
  let out := model_part1 (pre ++ g ++ post) params in
  forall m n rm rn,
    (m <= n)%nat ->
    nth_error g m = Some rm -> nth_error g n = Some rn ->
    exists om on,
      nth_error out (length pre + m) = Some om
      /\ nth_error out (length pre + n) = Some on
      /\ om = with_egfr (with_slope rm (slope om)) (egfr om)
      /\ on = with_egfr (with_slope rn (slope on)) (egfr on)
      /\ 0 <= slope om
      /\ slope om <= slopes params (dm rm) (ht rm) (g3 rm)
      /\ egfr on <= egfr om /\ egfr om <= egfr r0.
Proof.
  intros Hs He Hg Hpre H0 Hsort out m n rm rn Hmn Hm Hn.
  set (f := fun r =>
              with_slope r
                (get_slope_reduction (slopes params (dm r) (ht r) (g3 r))
                   (nephr r) (diag r) (interv params))).
  assert (Eout : out = get_decline (map f pre ++ map f g ++ map f post)).
  { unfold out, model_part1, update_slopes. cbv zeta.
    rewrite !map_app. reflexivity. }
  assert (Hg' : Forall (fun r => pid r = p) (map f g))
    by (rewrite Forall_map; exact Hg).
  assert (Hpre' : Forall (fun r => pid r <> p) (map f pre))
    by (rewrite Forall_map; exact Hpre).
  assert (H0' : nth_error (map f g) 0 = Some (f r0))
    by (rewrite nth_error_map, H0; reflexivity).
  assert (Hm' : nth_error (map f g) m = Some (f rm))
    by (rewrite nth_error_map, Hm; reflexivity).
  assert (Hn' : nth_error (map f g) n = Some (f rn))
    by (rewrite nth_error_map, Hn; reflexivity).
  assert (Hsort' : StronglySorted (fun a b => age a <= age b) (map f g))
    by (apply StronglySorted_age_map; [reflexivity | exact Hsort]).
  assert (Hsl : Forall (fun r => 0 <= slope r) (map f g)).
  { rewrite Forall_map, Forall_forall. intros r _.
    exact (proj1 (get_slope_reduction_cases
                    (slopes params (dm r) (ht r) (g3 r)) (nephr r) (diag r)
                    (interv params) (Hs _ _ _) He)). }
  pose proof (get_decline_block (map f pre) (map f g) (map f post) p Hg' Hpre'
                m (f rm) (f r0) H0' Hm') as Bm.
  pose proof (get_decline_block (map f pre) (map f g) (map f post) p Hg' Hpre'
                n (f rn) (f r0) H0' Hn') as Bn.
  pose proof (degfr_cum_block (map f pre) (map f g) (map f post) p Hg' Hpre'
                m (f rm) Hm') as Dm.
  pose proof (degfr_cum_block (map f pre) (map f g) (map f post) p Hg' Hpre'
                n (f rn) Hn') as Dn.
  rewrite length_map in Bm, Bn, Dm, Dn.
  rewrite Eout.
  eexists. eexists.
  split; [exact Bm |]. split; [exact Bn |].
  split; [reflexivity |]. split; [reflexivity |].
  pose proof (get_slope_reduction_cases
                (slopes params (dm rm) (ht rm) (g3 rm)) (nephr rm) (diag rm)
                (interv params) (Hs _ _ _) He) as (S1 & S2 & _).
  split; [exact S1 |]. split; [exact S2 |].
  pose proof (cum_decline_mono (map f g) m n Hsort' Hsl Hmn) as H1.
  pose proof (cum_decline_mono (map f g) 0 m Hsort' Hsl (Nat.le_0_l m)) as H2.
  cbn [cum_decline] in H2.
  change (egfr (f r0)) with (egfr r0) in *.
  cbn [egfr with_egfr].
  lra.
Qed.

Lemma model_part1_declines_witness :
  exists om on,
    nth_error (model_part1 example_cohort example_model_params) 2 = Some om
    /\ nth_error (model_part1 example_cohort example_model_params) 3
       = Some on
    /\ egfr on <= egfr om /\ egfr om <= 70.
Proof.
  assert (forall d h s, 0 <= slopes example_model_params d h s) as Hs
    by (intros; discriminate).
  assert (forall ev, 0 <= eff (interv example_model_params) ev
                     /\ eff (interv example_model_params) ev <= 1) as He
    by (intros; split; discriminate).
  destruct (model_part1_declines
              [example_row 1 50 80 1 0; example_row 1 101 80 1 1]
              [example_row 2 60 70 1 0; example_row 2 101 70 1 1]
              [example_row 3 70 55 1 0; example_row 3 101 55 1 1]
              example_model_params 2%Z (example_row 2 60 70 1 0) Hs He)
    with (m := 0%nat) (n := 1%nat)
         (rm := example_row 2 60 70 1 0) (rn := example_row 2 101 70 1 1)
    as (om & on & A1 & A2 & _ & _ & _ & _ & A3 & A4).
  - repeat (apply Forall_cons; [reflexivity |]). apply Forall_nil.
  - repeat (apply Forall_cons; [discriminate |]). apply Forall_nil.
  - reflexivity.
  - apply SSorted_cons;
      [apply SSorted_cons; [apply SSorted_nil | apply Forall_nil] |].
    apply Forall_cons; [discriminate | apply Forall_nil].
  - apply (Nat.le_succ_diag_r 0).
  - reflexivity.
  - reflexivity.
  - exists om, on. split; [exact A1 |]. split; [exact A2 |].
    split; [exact A3 | exact A4].
Defined.

(** ** egfr_model.py: phase 2 *)

Lemma agg_max_bounds (c : indicator_name) (r0 : row) (g : list row)
    (lo hi : Z) :
  (lo <= indicator c r0 <= hi)%Z ->
  Forall (fun r => (lo <= indicator c r <= hi)%Z) g ->
  (lo <= agg_max c r0 g <= hi)%Z.
Proof.
  intros H0 Hg. unfold agg_max.
  induction Hg as [| x t Hx _ IH]; simpl; [exact H0 | lia].
Qed.

Lemma agg_max_le_agg_max (c c' : indicator_name) (r0 : row) (g : list row) :
  (indicator c r0 <= indicator c' r0)%Z ->
  Forall (fun r => (indicator c r <= indicator c' r)%Z) g ->
  (agg_max c r0 g <= agg_max c' r0 g)%Z.
Proof.
  intros H0 Hg. unfold agg_max.
  induction Hg as [| x t Hx _ IH]; simpl; [exact H0 | lia].
Qed.

(** The two aggregates take the maximum of [diag] and of [nephr] over a
    group. *)
Lemma agg_max_referral (r0 : row) (g : list row) :
  referral_with_diagnosis r0 -> Forall referral_with_diagnosis g ->
  (0 <= agg_max Nephr r0 g)%Z
  /\ (agg_max Nephr r0 g <= agg_max Diag r0 g)%Z
  /\ (agg_max Diag r0 g <= 1)%Z.
Proof.
  intros (A1 & A2 & A3) Hg.
  assert (0 <= agg_max Nephr r0 g <= 1)%Z as B1.
  { apply agg_max_bounds; [simpl; lia |].
    eapply Forall_impl; [| exact Hg]. intros r (R1 & R2 & R3). simpl. lia. }
  assert (0 <= agg_max Diag r0 g <= 1)%Z as B2.
  { apply agg_max_bounds; [simpl; lia |].
    eapply Forall_impl; [| exact Hg]. intros r (R1 & R2 & R3). simpl. lia. }
  assert (agg_max Nephr r0 g <= agg_max Diag r0 g)%Z as B3.
  { apply agg_max_le_agg_max; [simpl; lia |].
    eapply Forall_impl; [| exact Hg]. intros r (R1 & R2 & R3). simpl. lia. }
  lia.
Qed.

Lemma Forall_filter_keep {A : Type} (P : A -> Prop) (f : A -> bool)
    (l : list A) :
  Forall P l -> Forall P (filter f l).
Proof.
  rewrite !Forall_forall. intros H x Hx. apply filter_In in Hx.
  apply H. exact (proj1 Hx).
Qed.

Lemma groupby_pid_age_agg_referral (df : frame) :
  Forall referral_with_diagnosis df ->
  Forall referral_with_diagnosis (groupby_pid_age_agg df).
Proof.
  intros H. unfold groupby_pid_age_agg. rewrite Forall_map.
  rewrite Forall_forall. intros r0 Hr0. apply group_reps_In in Hr0.
  rewrite Forall_forall in H.
  apply (agg_max_referral r0 (filter (eqb_by age r0) df) (H r0 Hr0)).
  apply Forall_filter_keep. rewrite Forall_forall. exact H.
Qed.

Lemma groupby_cummax_diag_referral (df : frame) :
  forall acc,
    (forall p m, acc p = Some m -> (m <= 1)%Z) ->
    Forall referral_with_diagnosis df ->
    Forall referral_with_diagnosis (groupby_cummax Diag acc df).
Proof.
  induction df as [| r t IH]; intros acc Hacc H; simpl; [constructor |].
  inversion H as [| ? ? (R1 & R2 & R3) Ht]; subst.
  assert ((diag r <= match acc (pid r) with
                     | Some m => Z.max m (diag r)
                     | None => diag r
                     end)%Z
          /\ (match acc (pid r) with
              | Some m => Z.max m (diag r)
              | None => diag r
              end <= 1)%Z) as [V1 V2].
  { destruct (acc (pid r)) as [m |] eqn:E; [| lia].
    pose proof (Hacc _ _ E). lia. }
  constructor.
  - unfold referral_with_diagnosis. simpl. lia.
  - apply IH; [| exact Ht].
    intros p m. destruct (p =? pid r)%Z; [| apply Hacc].
    intros [= <-]. exact V2.
Qed.

Lemma groupby_cummax_nephr_referral (df : frame) :
  forall acc,
    (forall p m, acc p = Some m ->
                 Forall (fun r => pid r = p -> (m <= diag r)%Z) df) ->
    StronglySorted (not_decreasing Diag) df ->
    Forall referral_with_diagnosis df ->
    Forall referral_with_diagnosis (groupby_cummax Nephr acc df).
Proof.
  induction df as [| r t IH]; intros acc Hacc Hs H; simpl; [constructor |].
  inversion H as [| ? ? (R1 & R2 & R3) Ht]; subst.
  inversion Hs as [| ? ? Hst Hrt]; subst.
  assert ((nephr r <= match acc (pid r) with
                      | Some m => Z.max m (nephr r)
                      | None => nephr r
                      end)%Z
          /\ (match acc (pid r) with
              | Some m => Z.max m (nephr r)
              | None => nephr r
              end <= diag r)%Z) as [V1 V2].
  { destruct (acc (pid r)) as [m |] eqn:E; [| lia].
    pose proof (Hacc _ _ E) as Hm. inversion Hm as [| ? ? Hr _]; subst.
    pose proof (Hr eq_refl). lia. }
  constructor.
  - unfold referral_with_diagnosis. simpl. lia.
  - apply IH; [| exact Hst | exact Ht].
    intros p m. destruct (p =? pid r)%Z eqn:Ep.
    + intros [= <-]. apply Z.eqb_eq in Ep. subst p.
      rewrite Forall_forall in Hrt |- *. intros y Hy Hpy.
      pose proof (Hrt y Hy) as Hd. unfold not_decreasing in Hd.
      simpl in Hd. specialize (Hd (eq_sym Hpy)). lia.
    + intros E. pose proof (Hacc _ _ E) as Hm.
      inversion Hm; subst. assumption.
Qed.

Lemma propagate_diag_nephr_referral (df : frame) :
  Forall referral_with_diagnosis df ->
  Forall referral_with_diagnosis (propagate [Diag; Nephr] df).
Proof.
  intros H.
  change (propagate [Diag; Nephr] df)
    with (groupby_cummax Nephr (fun _ => None)
            (groupby_cummax Diag (fun _ => None) df)).
  apply groupby_cummax_nephr_referral.
  - intros p m E. discriminate E.
  - apply groupby_cummax_not_decreasing.
  - apply groupby_cummax_diag_referral; [| exact H].
    intros p m E. discriminate E.
Qed.

Lemma keeps_indicators_referral (a o : row) :
  keeps_indicators a o -> referral_with_diagnosis a ->
  referral_with_diagnosis o.
Proof.
  intros (_ & _ & Hc) (R1 & R2 & R3).
  pose proof (Hc Diag) as Hd. pose proof (Hc Nephr) as Hn. simpl in Hd, Hn.
  unfold referral_with_diagnosis. lia.
Qed.

Lemma propagate_g3_referral (df : frame) :
  Forall referral_with_diagnosis df ->
  Forall referral_with_diagnosis (propagate [G3] df).
Proof.
  intros H.
  change (propagate [G3] df) with (groupby_cummax G3 (fun _ => None) df).
  apply (Forall2_Forall (keeps_but G3) referral_with_diagnosis
           referral_with_diagnosis df _); [| | exact H].
  - intros a o (_ & _ & Hc) (R1 & R2 & R3).
    pose proof (Hc Diag ltac:(discriminate)) as Hd.
    pose proof (Hc Nephr ltac:(discriminate)) as Hn. simpl in Hd, Hn.
    unfold referral_with_diagnosis. lia.
  - apply groupby_cummax_keeps.
Qed.

Lemma integrate_duplicate_rows_referral (df : frame) :
  Forall referral_with_diagnosis df ->
  Forall referral_with_diagnosis (integrate_duplicate_rows df).
Proof.
  intros H. unfold integrate_duplicate_rows.
  destruct (negb (has_duplicated egfr df)); [exact H |].
  rewrite Forall_forall. intros o Ho.
  apply (proj1 (fold_insert_sorted_In _ _ _ _)) in Ho.
  apply in_map_iff in Ho. destruct Ho as [r0 [<- Hr0]].
  apply group_reps_In in Hr0. rewrite Forall_forall in H.
  apply (agg_max_referral r0 (filter (eqb_by egfr r0) df) (H r0 Hr0)).
  apply Forall_filter_keep. rewrite Forall_forall. exact H.
Qed.

(** The merge keeps the property when the propagation does. *)
Lemma update_frame_referral (df at_cutoff : frame)
    (names : list indicator_name) (params : model_params)
    (multiple_indic : bool) (out : frame) :
  update_frame_with_cutoff_event df at_cutoff names params multiple_indic
    = Ok out ->
  Forall referral_with_diagnosis (merge_and_propagate df at_cutoff names) ->
  Forall referral_with_diagnosis out.
Proof.
  unfold update_frame_with_cutoff_event. intros H Hm.
  destruct (multiple_indic && negb (indicator_names_eqb names));
    [discriminate |].
  destruct (negb multiple_indic && negb (length names =? 1)%nat);
    [discriminate |].
  destruct (to_update_rows df at_cutoff names) as [| u us].
  - injection H as <-. exact Hm.
  - injection H as <-. apply integrate_duplicate_rows_referral.
    apply (Forall2_Forall keeps_indicators referral_with_diagnosis
             referral_with_diagnosis
             (merge_and_propagate df at_cutoff names) _
             keeps_indicators_referral
             (updated_frame_keeps df at_cutoff names params) Hm).
Qed.

(** The rows at a cutoff carry the indicators of a row of the frame. *)
Lemma add_age_at_cutoff_indicators (df : frame) (cutoff_list : list Q)
    (o : row) :
  In o (add_age_at_cutoff df (Some cutoff_list)) ->
  exists r, In r df /\ forall c, indicator c o = indicator c r.
Proof.
  unfold add_age_at_cutoff. cbv zeta. intros H.
  apply in_app_or in H. destruct H as [H | H];
    apply in_map_iff in H; destruct H as [x [<- Hx]].
  - unfold identify_age_at_cutoff_many in Hx. apply in_flat_map in Hx.
    destruct Hx as [cutoff [_ Hx]].
    unfold identify_age_at_cutoff in Hx. cbv zeta in Hx.
    apply in_map_iff in Hx. destruct Hx as [o' [Eo Ho']].
    destruct (find (fun r => same_key r o') df) as [r |] eqn:Ef.
    + pose proof (find_some _ _ Ef) as [Hin _]. exists r.
      split; [exact Hin |]. rewrite <- Eo. intros c. destruct c; reflexivity.
    + subst o'. apply in_flat_map in Ho'. destruct Ho' as [r [Hr Ho']].
      apply filter_In in Hr. destruct Hr as [Hr _].
      unfold groupby_last in Hr. apply in_flat_map in Hr.
      destruct Hr as [p [_ Hr]].
      destruct (last_error (filter (has_pid p) _)) as [r' |] eqn:E';
        [| contradiction].
      destruct Hr as [<- | []].
      apply last_error_In in E'. apply filter_In in E'.
      destruct E' as [E' _]. apply filter_In in E'. destruct E' as [E' _].
      exists r'. split; [exact E' |].
      destruct (age_at_cutoff r' cutoff) as [a |]; [| contradiction].
      destruct (Qle_bool a 101); [| contradiction].
      destruct Ho' as [<- | []]. intros c. destruct c; reflexivity.
  - unfold entries_at_cutoffs in Hx. apply filter_In in Hx.
    destruct Hx as [Hin _]. exists x.
    split; [exact Hin |]. intros c. destruct c; reflexivity.
Qed.

Lemma add_event_at_cutoff_referral (df : frame) (cutoff : Q)
    (params : model_params) (out : frame) :
  add_event_at_cutoff df cutoff G3 params = Ok out ->
  Forall referral_with_diagnosis df ->
  Forall referral_with_diagnosis out.
Proof.
  unfold add_event_at_cutoff. intros H Hdf.
  apply (update_frame_referral _ _ _ _ _ _ H).
  unfold merge_and_propagate. apply propagate_g3_referral.
  apply groupby_pid_age_agg_referral. apply Forall_app. split; [| exact Hdf].
  rewrite Forall_map, Forall_forall. intros x Hx.
  destruct (add_age_at_cutoff_indicators df [cutoff] x Hx) as [r [Hr Hc]].
  rewrite Forall_forall in Hdf. destruct (Hdf r Hr) as (R1 & R2 & R3).
  pose proof (Hc Diag) as Hd. pose proof (Hc Nephr) as Hn. simpl in Hd, Hn.
  unfold referral_with_diagnosis. simpl. lia.
Qed.

Section Phase2_facts.

Variable rng : Type.
Variable random_bernoulli : Q -> rng -> Z * rng.

(** A Bernoulli draw is 0 or 1. *)
Hypothesis bernoulli_binary :
  forall p g, fst (random_bernoulli p g) = 0%Z
              \/ fst (random_bernoulli p g) = 1%Z.

Lemma binomial_draws_binary (n : nat) (p : Q) :
  forall g ds,
    binomial_draws rng random_bernoulli n p g = Ok ds ->
    Forall (fun s => s = 0%Z \/ s = 1%Z) (fst ds).
Proof.
  induction n as [| k IH]; intros g ds H; simpl in H.
  - injection H as <-. constructor.
  - apply bind_Ok in H. destruct H as [d [Hd H]].
    apply bind_Ok in H. destruct H as [ds' [Hds H]].
    injection H as <-. simpl. constructor; [| exact (IH _ _ Hds)].
    unfold np_random_binomial in Hd.
    destruct (Qlt_bool p 0 || Qlt_bool 1 p); [discriminate |].
    injection Hd as <-. apply bernoulli_binary.
Qed.

(** The samples that [sample_interventions] assigns are 0 or 1. *)
Lemma sample_interventions_samples (df : frame) (ev : intervention)
    (params : interv_params) (common_rn : option (list Q)) (g g' : rng)
    (df' : frame) :
  sample_interventions rng random_bernoulli df ev params common_rn g
  = Ok (df', g') ->
  exists final_df,
    Forall2 (fun r o =>
               o = with_indicator (event_column ev) r
                     (indicator (event_column ev) o))
            df final_df
    /\ Forall (fun o => indicator (event_column ev) o = 0%Z
                        \/ indicator (event_column ev) o = 1%Z) final_df
    /\ df' = match ev with
             | ev_nephr =>
                 map (fun r => with_indicator Nephr r (nephr r * diag r)%Z)
                     final_df
             | ev_diag => final_df
             end.
Proof.
  intros H. unfold sample_interventions in H.
  destruct (unique (map stage_diag df)) as [| st [| st' l]];
    try discriminate.
  apply bind_Ok in H. destruct H as [fi [_ H]].
  apply bind_Ok in H. destruct H as [ip [_ H]].
  apply bind_Ok in H. destruct H as [pr [_ H]].
  apply bind_Ok in H. destruct H as [pr' [_ H]].
  apply bind_Ok in H. destruct H as [samples [Hs H]].
  apply bind_Ok in H. destruct H as [final_df [Hf H]].
  injection H as <- <-.
  destruct (assign_indicator_Forall2 _ _ _ _ Hf) as [H2 Hm].
  exists final_df. split; [exact H2 |]. split; [| reflexivity].
  assert (Forall (fun s => s = 0%Z \/ s = 1%Z) (fst samples)) as Hbin.
  { destruct common_rn as [rn |].
    - injection Hs as <-. simpl. rewrite Forall_map, Forall_forall.
      intros u _. destruct (Qle_bool u pr'); [right | left]; reflexivity.
    - exact (binomial_draws_binary _ _ _ _ Hs). }
  rewrite <- Hm in Hbin. rewrite Forall_map in Hbin. exact Hbin.
Qed.

Lemma model_part2_cutoff_referral (params : model_params)
    (common_rn_dict : option common_rn_dict_t) (df_temp : frame) (g : rng)
    (cutoff : Q) (next : frame * rng) :
  model_part2_cutoff rng random_bernoulli params common_rn_dict df_temp g
    cutoff = Ok next ->
  Forall referral_with_diagnosis df_temp ->
  Forall referral_with_diagnosis (fst next).
Proof.
  unfold model_part2_cutoff. cbv zeta. intros H Hdf.
  apply bind_Ok in H. destruct H as [rn_diag [_ H]].
  apply bind_Ok in H. destruct H as [[d gd] [Hd H]].
  apply bind_Ok in H. destruct H as [rn_nephr [_ H]].
  apply bind_Ok in H. destruct H as [[n gn] [Hn H]].
  apply bind_Ok in H. destruct H as [df' [Hu H]].
  injection H as <-. cbn [fst snd] in *.
  apply (update_frame_referral _ _ _ _ _ _ Hu).
  unfold merge_and_propagate. apply propagate_diag_nephr_referral.
  apply groupby_pid_age_agg_referral. apply Forall_app. split; [| exact Hdf].
  destruct (sample_interventions_samples _ _ _ _ _ _ _ Hd)
    as (fd & _ & Bd & ->).
  destruct (sample_interventions_samples _ _ _ _ _ _ _ Hn)
    as (fn & F2 & Bn & ->).
  cbn [event_column] in *.
  assert (Forall (fun o => (diag o = 0%Z \/ diag o = 1%Z)
                           /\ (nephr o = 0%Z \/ nephr o = 1%Z)) fn) as Hfn.
  { assert (Forall (fun o => diag o = 0%Z \/ diag o = 1%Z) fn) as Hdn.
    { apply (Forall2_Forall
               (fun r o => o = with_indicator Nephr r (indicator Nephr o))
               (fun o => diag o = 0%Z \/ diag o = 1%Z)
               (fun o => diag o = 0%Z \/ diag o = 1%Z) fd fn);
        [| exact F2 | exact Bd].
      intros a b -> Ha. exact Ha. }
    rewrite Forall_forall in Hdn, Bn |- *. intros o Ho.
    split; [exact (Hdn o Ho) | exact (Bn o Ho)]. }
  rewrite Forall_map. eapply Forall_impl; [| exact Hfn].
  intros o [Hd' Hn']. unfold referral_with_diagnosis. simpl.
  destruct Hd' as [-> | ->], Hn' as [-> | ->]; lia.
Qed.

Lemma model_part2_loop_referral (params : model_params)
    (common_rn_dict : option common_rn_dict_t) (cutoffs : list Q) :
  forall df_temp g out,
    model_part2_loop rng random_bernoulli params common_rn_dict cutoffs
      df_temp g = Ok out ->
    Forall referral_with_diagnosis df_temp ->
    Forall referral_with_diagnosis (fst out).
Proof.
  induction cutoffs as [| cutoff rest IH]; intros df_temp g out H Hdf;
    simpl in H.
  - injection H as <-. exact Hdf.
  - apply bind_Ok in H. destruct H as [next [Hn H]].
    apply (IH _ _ _ H).
    exact (model_part2_cutoff_referral _ _ _ _ _ _ Hn Hdf).
Qed.

(** X28.  No referral without a diagnosis after phase 2.  When the frame
    handed to [model_part2] has indicators [diag] and [nephr] that are 0 or
    1 with [nephr <= diag] (as in a cohort frame, where both are 0), and a
    Bernoulli draw is 0 or 1, every row of the frame that [model_part2]
    returns (equation 2021) has them 0 or 1 with [nephr <= diag]: the
    samples, the aggregation of duplicate entries and the propagation along
    an individual never produce a nephrology referral without a
    diagnosis. *)
Theorem model_part2_referral_needs_diagnosis (df_init : frame)
    (params : model_params) (common_rn_dict : option common_rn_dict_t)
    (g g' : rng) (df_events : frame) :
  model_part2 rng random_bernoulli df_init params common_rn_dict g
  = Ok (df_events, g') ->
  Forall referral_with_diagnosis df_init ->
  Forall referral_with_diagnosis df_events
  /\ forall r, In r df_events -> nephr r = 1%Z -> diag r = 1%Z.
Proof.
  unfold model_part2. intros H Hdf.
  apply bind_Ok in H. destruct H as [df_g3 [Hg3 H]]. cbv zeta in H.
  pose proof (model_part2_loop_referral _ _ _ _ _ _ H
                (add_event_at_cutoff_referral _ _ _ _ Hg3 Hdf)) as Hout.
  cbn [fst] in Hout. split; [exact Hout |].
  intros r Hr Hn. rewrite Forall_forall in Hout.
  destruct (Hout r Hr) as (R1 & R2 & R3). lia.
Qed.

End Phase2_facts.

Lemma model_part2_referral_needs_diagnosis_witness :
  exists df_events,
    model_part2 unit bernoulli_one
      (model_part1 example_phase2_cohort example_model_params)
      example_model_params (Some example_common_rn_dict) tt
    = Ok (df_events, tt)
    /\ Forall referral_with_diagnosis df_events.
Proof.
  assert (forall (p : Q) (g : unit),
            fst (bernoulli_one p g) = 0%Z \/ fst (bernoulli_one p g) = 1%Z)
    as Hb.
  { intros p g. unfold bernoulli_one. simpl.
    destruct (Qlt_bool 0 p); [right | left]; reflexivity. }
  eexists. split; [vm_compute; reflexivity |].
  match goal with
  | |- Forall _ ?d =>
      apply (proj1 (model_part2_referral_needs_diagnosis unit bernoulli_one Hb
                      (model_part1 example_phase2_cohort example_model_params)
                      example_model_params (Some example_common_rn_dict)
                      tt tt d eq_refl
                      ltac:(vm_compute; repeat constructor; discriminate)))
  end.
Defined.

(** *** Nobody at the first cutoff *)

Lemma filter_none_Forall {A : Type} (f : A -> bool) (l : list A) :
  Forall (fun x => f x = false) l -> filter f l = [].
Proof.
  induction 1 as [| x t Hx _ IH]; simpl; [reflexivity |].
  rewrite Hx. exact IH.
Qed.

Lemma sum_le_bound (b : Q) (l : list Q) :
  Forall (fun x => x < b) l ->
  fold_right Qplus 0 l <= b * inject_Z (Z.of_nat (length l)).
Proof.
  induction 1 as [| x t Hx _ IH].
  - simpl. change (inject_Z 0) with 0. lra.
  - cbn [fold_right length]. rewrite Nat2Z.inj_succ. unfold Z.succ.
    rewrite inject_Z_plus. change (inject_Z 1) with 1. lra.
Qed.

Lemma mean_lt (b : Q) (l : list Q) :
  0 < b -> Forall (fun x => x < b) l -> mean l < b.
Proof.
  intros Hb H. unfold mean. destruct H as [| x t Hx Ht].
  - simpl. change (inject_Z 0) with 0. unfold Qdiv.
    change (/ 0) with 0. lra.
  - pose proof (sum_le_bound b t Ht) as Hs.
    apply Qlt_shift_div_r.
    + change 0 with (inject_Z 0). rewrite <- Zlt_Qlt. simpl. lia.
    + cbn [fold_right length]. rewrite Nat2Z.inj_succ. unfold Z.succ.
      rewrite inject_Z_plus. change (inject_Z 1) with 1. lra.
Qed.

Lemma groupby_cummax_egfr (c : indicator_name) (df : frame) :
  forall acc, map egfr (groupby_cummax c acc df) = map egfr df.
Proof.
  induction df as [| r t IH]; intros acc; simpl; [reflexivity |].
  rewrite IH. f_equal. destruct c; reflexivity.
Qed.

Lemma groupby_cummax_zero (c : indicator_name) (df : frame) :
  forall acc,
    (forall p m, acc p = Some m -> m = 0%Z) ->
    Forall (fun r => indicator c r = 0%Z) df ->
    Forall (fun r => indicator c r = 0%Z) (groupby_cummax c acc df).
Proof.
  induction df as [| r t IH]; intros acc Hacc H; simpl; [constructor |].
  inversion H as [| ? ? Hr Ht]; subst.
  assert (match acc (pid r) with
          | Some m => Z.max m (indicator c r)
          | None => indicator c r
          end = 0%Z) as V.
  { destruct (acc (pid r)) as [m |] eqn:E; [| exact Hr].
    rewrite (Hacc _ _ E), Hr. reflexivity. }
  constructor.
  - rewrite indicator_with_same. exact V.
  - apply IH; [| exact Ht].
    intros p m. destruct (p =? pid r)%Z; [| apply Hacc].
    intros [= <-]. exact V.
Qed.

(** A frame of rows below the cutoff, none of them marked, merged with no
    event: the rows stay below the cutoff and unmarked. *)
Lemma merge_nothing_below (df : frame) (b : Q) :
  0 < b ->
  Forall (fun r => egfr r < b /\ g3 r = 0%Z) df ->
  Forall (fun r => egfr r < b /\ g3 r = 0%Z) (merge_and_propagate df [] [G3]).
Proof.
  intros Hb H. unfold merge_and_propagate. cbn [app].
  change (propagate [G3] (groupby_pid_age_agg df))
    with (groupby_cummax G3 (fun _ => None) (groupby_pid_age_agg df)).
  assert (Forall (fun r => egfr r < b /\ g3 r = 0%Z) (groupby_pid_age_agg df))
    as Hagg.
  { unfold groupby_pid_age_agg. rewrite Forall_map, Forall_forall.
    intros r0 Hr0. apply group_reps_In in Hr0.
    assert (Forall (fun r => egfr r < b /\ g3 r = 0%Z)
                   (filter (eqb_by age r0) df)) as Hg
      by (apply Forall_filter_keep; exact H).
    rewrite Forall_forall in H. destruct (H r0 Hr0) as [_ H0].
    split.
    - cbn [egfr agg_one_age]. apply mean_lt; [exact Hb |].
      rewrite Forall_map. eapply Forall_impl; [| exact Hg].
      intros r [Hr _]. exact Hr.
    - cbn [g3 agg_one_age].
      assert (0 <= agg_max G3 r0 (filter (eqb_by age r0) df) <= 0)%Z as B.
      { apply agg_max_bounds; [simpl; lia |].
        eapply Forall_impl; [| exact Hg]. intros r [_ Hr]. simpl. lia. }
      lia. }
  assert (Forall (fun r => egfr r < b)
                 (groupby_cummax G3 (fun _ => None) (groupby_pid_age_agg df)))
    as He.
  { rewrite <- (Forall_map egfr (fun x => x < b)).
    rewrite groupby_cummax_egfr. rewrite Forall_map.
    eapply Forall_impl; [| exact Hagg]. intros r [Hr _]. exact Hr. }
  assert (Forall (fun r => indicator G3 r = 0%Z)
                 (groupby_cummax G3 (fun _ => None) (groupby_pid_age_agg df)))
    as Hz.
  { apply groupby_cummax_zero; [intros p m E; discriminate E |].
    eapply Forall_impl; [| exact Hagg]. intros r [_ Hr]. exact Hr. }
  rewrite Forall_forall in He, Hz |- *. intros r Hr.
  split; [exact (He r Hr) | exact (Hz r Hr)].
Qed.

(** Below the cutoff nobody is, or will be, at the cutoff. *)
Lemma add_age_at_cutoff_below (df : frame) (cutoff : Q) :
  Forall (fun r => egfr r < cutoff - (1 # 200)) df ->
  add_age_at_cutoff df (Some [cutoff]) = [].
Proof.
  intros H. unfold add_age_at_cutoff. cbv zeta.
  assert (identify_age_at_cutoff_many df [cutoff] = []) as ->.
  { unfold identify_age_at_cutoff_many. cbn [flat_map].
    rewrite app_nil_r. unfold identify_age_at_cutoff. cbv zeta.
    rewrite (filter_none_Forall _ df); [reflexivity |].
    eapply Forall_impl; [| exact H]. intros r Hr. cbv beta in Hr.
    destruct (Qlt_bool cutoff (egfr r)) eqn:E; [| reflexivity].
    qbool. exfalso. lra. }
  assert (entries_at_cutoffs df [cutoff] = []) as ->.
  { unfold entries_at_cutoffs. apply filter_none_Forall.
    eapply Forall_impl; [| exact H]. intros r Hr. cbv beta in Hr.
    cbn [existsb]. rewrite orb_false_r.
    destruct (Qeq_bool (round2 (egfr r)) cutoff) eqn:E; [| reflexivity].
    qbool. exfalso.
    pose proof (round2_close (egfr r)) as Hc.
    apply Qabs_Qle_condition in Hc. destruct Hc as [_ Hc]. lra. }
  reflexivity.
Qed.

Section Phase2_errors.

Variable rng : Type.
Variable random_bernoulli : Q -> rng -> Z * rng.

(** X29.  Phase 2 needs somebody at the cutoff 60.  When every row of the
    frame handed to [model_part2] has an eGFR below 59.995 and [g3 = 0]
    (a cohort that starts below 60), and no common random numbers are
    supplied, [model_part2] (equation 2021) raises [AssertionError]: the
    frame of rows at the cutoff 60 is empty, and [sample_interventions]
    refuses a frame that does not hold exactly one stage; an empty frame
    is the simplest case. *)
Theorem model_part2_nobody_at_cutoff (df_init : frame)
    (params : model_params) (g : rng) :
  Forall (fun r => egfr r < 59.995 /\ g3 r = 0%Z) df_init ->
  add_event_at_cutoff df_init 60 G3 params
  = Ok (merge_and_propagate df_init [] [G3])
  /\ model_part2 rng random_bernoulli df_init params None g
     = Err AssertionError.
Proof.
  intros H.
  assert (Forall (fun r => egfr r < 59.995 /\ g3 r = 0%Z)
                 (merge_and_propagate df_init [] [G3])) as Hm
    by (apply merge_nothing_below; [reflexivity | exact H]).
  assert (add_age_at_cutoff df_init (Some [60]) = []) as E0.
  { apply add_age_at_cutoff_below. eapply Forall_impl; [| exact H].
    intros r [Hr _]. lra. }
  assert (add_event_at_cutoff df_init 60 G3 params
          = Ok (merge_and_propagate df_init [] [G3])) as E1.
  { unfold add_event_at_cutoff. rewrite E0. cbn [map].
    unfold update_frame_with_cutoff_event. cbn [andb negb length Nat.eqb].
    unfold to_update_rows. rewrite filter_none_Forall; [reflexivity |].
    eapply Forall_impl; [| exact Hm]. intros r [_ Hr].
    cbn [existsb indicator]. rewrite Hr. reflexivity. }
  split; [exact E1 |].
  unfold model_part2. rewrite E1. cbn [bind model_part2_loop].
  unfold model_part2_cutoff. cbv zeta.
  rewrite add_age_at_cutoff_below; [reflexivity |].
  eapply Forall_impl; [| exact Hm]. intros r [Hr _]. lra.
Qed.

End Phase2_errors.

Lemma model_part2_nobody_at_cutoff_witness :
  model_part2 unit bernoulli_one example_below_60 example_model_params None tt
  = Err AssertionError.
Proof.
  assert (Forall (fun r => egfr r < 59.995 /\ g3 r = 0%Z) example_below_60)
    as H.
  { repeat (apply Forall_cons; [split; reflexivity |]). apply Forall_nil. }
  exact (proj2 (model_part2_nobody_at_cutoff unit bernoulli_one
                  example_below_60 example_model_params tt H)).
Defined.
